(** * A state-vector quantum circuit simulator: model and properties

    This development embeds [quantum_simulator.py] (class [QuantumCircuit],
    class [MeasurementResult] and the module constants [_H], [_X], [_CNOT])
    and proves properties of gate application, probability extraction,
    measurement and collapse.  It also embeds the two modules of [lab/]:
    the trinary logic of [trinary_extended.py] and the emergence model of
    [emergence.py].

    Amplitudes are complex numbers over the real numbers of the Standard
    Library (exact arithmetic); NumPy arrays are a shape together with the
    elements in row-major (C) order; a Python [dict] is an association list
    in insertion order; a method of [QuantumCircuit] is a computation in a
    small monad that threads the object, may raise, and logs every
    assignment to [self._state].

    The program itself computes in binary64.  Statements that say which
    amplitudes, keys, counts or assignments a method produces read the same
    in both arithmetics; statements that give a number its exact value
    (a squared norm of one, a probability of one half) are about exact
    arithmetic, and module [F64] reads the same source lines with binary64
    operations to show what the program returns instead. *)

From Stdlib Require Import String Ascii.
From Stdlib Require Import Reals Lra Lia ZArith List Bool Arith.
From Stdlib Require Import Permutation Sorted Ring.
From Stdlib Require Floats.
Import ListNotations.

Set Implicit Arguments.

(* ================================================================== *)
(** * Complex numbers (NumPy's [complex128], in exact arithmetic)      *)
(* ================================================================== *)

Module Cx.

Local Open Scope R_scope.

Definition C : Type := (R * R)%type.

Definition Re (z : C) : R := fst z.
Definition Im (z : C) : R := snd z.

Definition RtoC (x : R) : C := (x, 0).
Definition Czero : C := RtoC 0.
Definition Cone : C := RtoC 1.

Definition Cadd (a b : C) : C := (Re a + Re b, Im a + Im b).
Definition Copp (a : C) : C := (- Re a, - Im a).
Definition Csub (a b : C) : C := Cadd a (Copp b).
Definition Cmul (a b : C) : C :=
  (Re a * Re b - Im a * Im b, Re a * Im b + Im a * Re b).
Definition Cconj (a : C) : C := (Re a, - Im a).

(** Division of a complex number by a real one ([collapsed /= norm],
    [array / np.sqrt(2)]). *)
Definition Cdiv_real (a : C) (r : R) : C := (Re a / r, Im a / r).

(** [|z|^2], and NumPy's [np.abs(z)]. *)
Definition Cnorm2 (a : C) : R := Re a * Re a + Im a * Im a.
Definition Cabs (a : C) : R := sqrt (Cnorm2 a).

(** [np.abs(z) ** 2]. *)
Definition Cabs_sq (a : C) : R := (Cabs a) ^ 2.

Fixpoint Csum (l : list C) : C :=
  match l with
  | [] => Czero
  | z :: l' => Cadd z (Csum l')
  end.

Fixpoint Rsum (l : list R) : R :=
  match l with
  | [] => 0
  | x :: l' => x + Rsum l'
  end.

End Cx.
Export Cx.

Declare Scope C_scope.
Delimit Scope C_scope with C.
Infix "+" := Cadd : C_scope.
Infix "*" := Cmul : C_scope.
Infix "-" := Csub : C_scope.

(* ================================================================== *)
(** * The part of NumPy the simulator uses                             *)
(* ================================================================== *)

(** An array is its shape and its elements in row-major (C) order, which
    is the order [reshape] and [ravel] read them in.  [transpose] is
    NumPy's: the axes' strides are permuted and the elements are read
    through them. *)

Module Np.

Record ndarray (A : Type) : Type := mk_ndarray {
  shape : list nat;
  data : list A
}.

Arguments mk_ndarray {A} _ _.

Section Arrays.
Context {A : Type}.
Variable dflt : A.

(** Number of elements of an array of shape [sh]. *)
Definition size_of (sh : list nat) : nat := fold_right Nat.mul 1 sh.

Definition ndim (a : ndarray A) : nat := length (shape a).

(** Strides, counted in elements, of a C-contiguous array. *)
Fixpoint strides (sh : list nat) : list nat :=
  match sh with
  | [] => []
  | _ :: rest => size_of rest :: strides rest
  end.

(** [np.unravel_index(j, sh)]: the multi-index of flat position [j]. *)
Fixpoint unravel_index (sh : list nat) (j : nat) : list nat :=
  match sh with
  | [] => []
  | d :: rest => (j / size_of rest) mod d :: unravel_index rest j
  end.

(** Offset of a multi-index under the strides [st]. *)
Fixpoint dot (idx st : list nat) : nat :=
  match idx, st with
  | i :: idx', s :: st' => i * s + dot idx' st'
  | _, _ => 0
  end.

(** [a.reshape(sh)] of a contiguous array: same elements, new shape. *)
Definition reshape (a : ndarray A) (sh : list nat) : ndarray A :=
  mk_ndarray sh (data a).

(** [a.reshape(rows, -1)]: the second dimension is inferred. *)
Definition reshape_rows (a : ndarray A) (rows : nat) : ndarray A :=
  mk_ndarray [rows; length (data a) / rows] (data a).

(** [np.transpose(a, axes)], materialised in C order:
    result[j_0, ..., j_(n-1)] = a[i] where i[axes[k]] = j[k]. *)
Definition transpose (a : ndarray A) (axes : list nat) : ndarray A :=
  let sh' := map (fun ax => nth ax (shape a) 0) axes in
  let st' := map (fun ax => nth ax (strides (shape a)) 0) axes in
  mk_ndarray sh'
    (map (fun j => nth (dot (unravel_index sh' j) st') (data a) dflt)
         (seq 0 (size_of sh'))).

(** [a.reshape(-1)] : the elements as a one-dimensional array. *)
Definition ravel (a : ndarray A) : list A := data a.

End Arrays.

(** Elementwise application ([np.abs(a) ** 2]). *)
Definition map_array {A B} (f : A -> B) (a : ndarray A) : ndarray B :=
  mk_ndarray (shape a) (map f (data a)).

(** [np.sum(a, axis=tuple(range(k, a.ndim)))]: the sum over all axes from
    the [k]-th on. *)
Definition sum_trailing (a : ndarray R) (k : nat) : ndarray R :=
  let lead := firstn k (shape a) in
  let t := size_of (skipn k (shape a)) in
  mk_ndarray lead
    (map (fun r => Rsum (map (fun c => nth (r * t + c) (data a) 0%R) (seq 0 t)))
         (seq 0 (size_of lead))).

(** [u @ m] for two-dimensional arrays. *)
Definition matmul (u m : ndarray C) : ndarray C :=
  let r := nth 0 (shape u) 0 in
  let inner := nth 1 (shape u) 0 in
  let c := nth 1 (shape m) 0 in
  mk_ndarray [r; c]
    (map (fun idx =>
            Csum (map (fun y => Cmul (nth ((idx / c) * inner + y) (data u) Czero)
                                     (nth (y * c + idx mod c) (data m) Czero))
                      (seq 0 inner)))
         (seq 0 (r * c))).

(** [np.linalg.norm(a)]: the Frobenius norm. *)
Definition linalg_norm (a : ndarray C) : R :=
  sqrt (Rsum (map Cnorm2 (data a))).

(** [a /= r] on a complex array. *)
Definition div_real (a : ndarray C) (r : R) : ndarray C :=
  map_array (fun z => Cdiv_real z r) a.

(** [z = np.zeros_like(m); z[row, :] = m[row, :]] for a two-dimensional
    [m]: every row but [row] is zero. *)
Definition keep_row (m : ndarray C) (row : nat) : ndarray C :=
  let c := nth 1 (shape m) 0 in
  mk_ndarray (shape m)
    (map (fun idx => if idx / c =? row then nth idx (data m) Czero else Czero)
         (seq 0 (length (data m)))).

(** [z = np.zeros_like(v); z[index] = 1.0] for a one-dimensional [v]. *)
Definition basis_like (v : list C) (index : nat) : list C :=
  map (fun i => if i =? index then Cone else Czero) (seq 0 (length v)).

(** [np.argsort(l)]: the indices in the order that sorts [l]; indices are
    inserted in increasing order behind the keys that are not larger, so
    the sort is stable. *)
Fixpoint insert_by (key : nat -> nat) (i : nat) (l : list nat) : list nat :=
  match l with
  | [] => [i]
  | j :: l' => if key i <? key j then i :: j :: l' else j :: insert_by key i l'
  end.

Definition argsort (l : list nat) : list nat :=
  fold_left (fun acc i => insert_by (fun p => nth p l 0) i acc)
            (seq 0 (length l)) [].

(** [np.isclose(x, 1.0)] with the default tolerances
    ([rtol = 1e-05], [atol = 1e-08]). *)
Definition isclose_one (x : R) : bool :=
  if Rle_dec (Rabs (x - 1)) (1 / 100000000 + 1 / 100000 * Rabs 1)
  then true else false.

End Np.

(* ================================================================== *)
(** * The part of Python the simulator uses                            *)
(* ================================================================== *)

Module Py.

Inductive exn : Type := ValueError | IndexError | KeyError.

Inductive result (A : Type) : Type :=
| Ok (a : A)
| Raise (e : exn).

Arguments Ok {A} a.
Arguments Raise {A} e.

Local Open Scope string_scope.

(** ** [format(n, "0<width>b")] and [int(s, 2)] *)

(** The binary digits of a positive number, most significant first. *)
Fixpoint pos_bin (p : positive) : string :=
  match p with
  | xH => "1"
  | xO p' => pos_bin p' ++ "0"
  | xI p' => pos_bin p' ++ "1"
  end.

Definition bin_digits (n : nat) : string :=
  match N.of_nat n with
  | N0 => "0"
  | Npos p => pos_bin p
  end.

Fixpoint zeros (k : nat) : string :=
  match k with
  | O => ""
  | S k' => String "0" (zeros k')
  end.

(** [format(n, f"0{width}b")]: binary digits, zero-padded on the left to
    at least [width] characters. *)
Definition format_0b (width n : nat) : string :=
  zeros (width - String.length (bin_digits n)) ++ bin_digits n.

Fixpoint int2_digits (s : string) (acc : nat) : option nat :=
  match s with
  | EmptyString => Some acc
  | String c s' =>
      if Ascii.eqb c "0" then int2_digits s' (2 * acc)
      else if Ascii.eqb c "1" then int2_digits s' (2 * acc + 1)
      else None
  end.

(** [int(s, 2)] on a string of binary digits; [None] stands for the
    [ValueError] Python raises on the empty string and on other
    characters.  (Python also reads a sign, a [0b] prefix, underscores and
    surrounding blanks; the simulator never produces such strings.) *)
Definition int_base2 (s : string) : option nat :=
  match s with
  | EmptyString => None
  | _ => int2_digits s 0
  end.

(** ** Dictionaries, in insertion order *)

Definition dict (V : Type) : Type := list (string * V).

Fixpoint dict_set {V} (d : dict V) (k : string) (v : V) : dict V :=
  match d with
  | [] => [(k, v)]
  | (k', v') :: d' =>
      if String.eqb k' k then (k', v) :: d' else (k', v') :: dict_set d' k v
  end.

Fixpoint dict_get {V} (d : dict V) (k : string) : option V :=
  match d with
  | [] => None
  | (k', v') :: d' => if String.eqb k' k then Some v' else dict_get d' k
  end.

(** A dict display or comprehension: the items are inserted one by one. *)
Definition dict_of_items {V} (items : list (string * V)) : dict V :=
  fold_left (fun d kv => dict_set d (fst kv) (snd kv)) items [].

Definition keys {V} (d : dict V) : list string := map fst d.
Definition values {V} (d : dict V) : list V := map snd d.
Definition items {V} (d : dict V) : list (string * V) := d.

(** [d[k]], raising [KeyError]. *)
Definition getitem {V} (d : dict V) (k : string) : result V :=
  match dict_get d k with
  | Some v => Ok v
  | None => Raise KeyError
  end.

(** [l[i]] on a list, raising [IndexError]. *)
Definition list_getitem {A} (l : list A) (i : nat) : result A :=
  match nth_error l i with
  | Some x => Ok x
  | None => Raise IndexError
  end.

(** ** [sorted] on strings and [max] with a key *)

Fixpoint insert_sorted (s : string) (l : list string) : list string :=
  match l with
  | [] => [s]
  | t :: l' =>
      if String.ltb s t then s :: t :: l' else t :: insert_sorted s l'
  end.

(** [sorted(l)]: a stable sort in lexicographic (code point) order. *)
Definition sorted (l : list string) : list string :=
  fold_left (fun acc s => insert_sorted s acc) l [].

(** Python's order on tuples [(int, str)]. *)
Definition tuple_lt (a b : Z * string) : bool :=
  (fst a <? fst b)%Z || ((fst a =? fst b)%Z && String.ltb (snd a) (snd b)).

Fixpoint max_from {A} (key : A -> Z * string) (best : A) (l : list A) : A :=
  match l with
  | [] => best
  | x :: l' =>
      max_from key (if tuple_lt (key best) (key x) then x else best) l'
  end.

(** [max(l, key=key)]: the first element with the largest key;
    [ValueError] on an empty sequence. *)
Definition max_key {A} (key : A -> Z * string) (l : list A) : result A :=
  match l with
  | [] => Raise ValueError
  | x :: l' => Ok (max_from key x l')
  end.

End Py.
Export Py.

(* ================================================================== *)
(** * [quantum_simulator.py]                                           *)
(* ================================================================== *)

Import Np.

(** ** class [MeasurementResult] *)

Record MeasurementResult : Type := mk_MeasurementResult {
  counts : dict Z
}.

(** [max(self.counts.items(), key=lambda item: (item[1], item[0]))[0]] *)
Definition most_likely (self : MeasurementResult) : result string :=
  match max_key (fun item : string * Z => (snd item, fst item))
                (items (counts self)) with
  | Ok item => Ok (fst item)
  | Raise e => Raise e
  end.

(** [int(sum(self.counts.values()))] *)
Definition total_shots (self : MeasurementResult) : Z :=
  fold_left Z.add (values (counts self)) 0%Z.

(** ** class [QuantumCircuit] *)

Record QuantumCircuit : Type := mk_QuantumCircuit {
  num_qubits : nat;
  _state : list C
}.

(** What running a method on an object gives: the value returned or the
    exception raised, the object afterwards, and the vectors assigned to
    [self._state] on the way, in order. *)
Record run (A : Type) : Type := mk_run {
  value : result A;
  self_after : QuantumCircuit;
  writes : list (list C)
}.

Arguments mk_run {A} _ _ _.

Definition M (A : Type) : Type := QuantumCircuit -> run A.

Definition ret {A} (a : A) : M A := fun self => mk_run (Ok a) self [].

Definition raise {A} (e : exn) : M A := fun self => mk_run (Raise e) self [].

Definition bind {A B} (m : M A) (k : A -> M B) : M B := fun self =>
  let r := m self in
  match value r with
  | Ok a =>
      let r' := k a (self_after r) in
      mk_run (value r') (self_after r') (writes r ++ writes r')
  | Raise e => mk_run (Raise e) (self_after r) (writes r)
  end.

Definition get_self : M QuantumCircuit := fun self => mk_run (Ok self) self [].

(** [self._state = v] *)
Definition set_state (v : list C) : M unit := fun self =>
  mk_run (Ok tt) (mk_QuantumCircuit (num_qubits self) v) [v].

Definition lift {A} (r : result A) : M A :=
  match r with
  | Ok a => ret a
  | Raise e => raise e
  end.

Notation "x <- m ;; k" := (bind m (fun x => k))
  (at level 61, m at next level, right associativity).
Notation "m ;;; k" := (bind m (fun _ => k))
  (at level 61, right associativity).

(** A [numpy.random.Generator], as far as [measure] uses it:
    [rng.choice(a, size=size, p=p)] returns [size] indices below [a], or
    raises (NumPy does when [p] is not a probability vector). *)
Record Generator : Type := mk_Generator {
  choice : nat -> nat -> list R -> result (list nat)
}.

(** The module constants. *)
Definition _H : ndarray C :=
  mk_ndarray [2; 2]
    (map (fun z => Cdiv_real z (sqrt 2))
         [RtoC 1; RtoC 1; RtoC 1; RtoC (-1)]).

Definition _X : ndarray C :=
  mk_ndarray [2; 2] [RtoC 0; RtoC 1; RtoC 1; RtoC 0].

Definition _CNOT : ndarray C :=
  mk_ndarray [4; 4]
    [RtoC 1; RtoC 0; RtoC 0; RtoC 0;
     RtoC 0; RtoC 1; RtoC 0; RtoC 0;
     RtoC 0; RtoC 0; RtoC 0; RtoC 1;
     RtoC 0; RtoC 0; RtoC 1; RtoC 0].

(** [QuantumCircuit(num_qubits)] *)
Definition __init__ (num_qubits : Z) : result QuantumCircuit :=
  if (num_qubits <=? 0)%Z then Raise ValueError
  else
    let n := Z.to_nat num_qubits in
    let dimension := 2 ^ n in
    Ok (mk_QuantumCircuit n
          (map (fun i => if i =? 0 then RtoC 1 else RtoC 0) (seq 0 dimension))).

(** The loop [for qubit in qubit_tuple: if not 0 <= qubit < n: raise]. *)
Fixpoint check_range (n : nat) (qubit_tuple : list Z) : result unit :=
  match qubit_tuple with
  | [] => Ok tt
  | qubit :: rest =>
      if negb ((0 <=? qubit)%Z && (qubit <? Z.of_nat n)%Z)
      then Raise IndexError
      else check_range n rest
  end.

(** [QuantumCircuit._normalise_qubits]: [None] stands for all the qubits
    in index order; otherwise the indices must be distinct ([ValueError])
    and in range ([IndexError]), checked in that order. *)
Definition _normalise_qubits (qubits : option (list Z)) : M (list Z) :=
  self <- get_self ;;
  match qubits with
  | None => ret (map Z.of_nat (seq 0 (num_qubits self)))
  | Some qubit_tuple =>
      if negb (length qubit_tuple =? length (nodup Z.eq_dec qubit_tuple))
      then raise ValueError
      else
        lift (check_range (num_qubits self) qubit_tuple) ;;;
        ret qubit_tuple
  end.

(** [list(qubits) + [i for i in range(n) if i not in qubits]] *)
Definition permutation_of (n : nat) (qubits : list Z) : list nat :=
  map Z.to_nat qubits
  ++ filter (fun i => negb (existsb (Z.eqb (Z.of_nat i)) qubits)) (seq 0 n).

(** [QuantumCircuit._apply_unitary]: the checks, then the target axes
    first, one matrix product, the axes back, and a single assignment. *)
Definition _apply_unitary (unitary : ndarray C) (qubits : list Z) : M unit :=
  if negb (ndim unitary =? 2)
     || negb (nth 0 (shape unitary) 0 =? nth 1 (shape unitary) 0)
  then raise ValueError
  else
    qubit_tuple <- _normalise_qubits (Some qubits) ;;
    let expected_dimension := 2 ^ length qubit_tuple in
    if negb (nth 0 (shape unitary) 0 =? expected_dimension)
    then raise ValueError
    else
      self <- get_self ;;
      let n := num_qubits self in
      let state_tensor := mk_ndarray (repeat 2 n) (_state self) in
      let permutation := permutation_of n qubit_tuple in
      let tensor := transpose Czero state_tensor permutation in
      let reshaped := reshape_rows tensor expected_dimension in
      let updated := matmul unitary reshaped in
      let updated_tensor :=
        reshape updated
          (repeat 2 (length qubit_tuple)
           ++ repeat 2 (n - length qubit_tuple)) in
      let inverse_permutation := argsort permutation in
      let restored := transpose Czero updated_tensor inverse_permutation in
      set_state (ravel restored).

(** The public gates. *)
Definition hadamard (qubit : Z) : M unit := _apply_unitary _H [qubit].

Definition pauli_x (qubit : Z) : M unit := _apply_unitary _X [qubit].

Definition cnot (control target : Z) : M unit :=
  if (control =? target)%Z then raise ValueError
  else _apply_unitary _CNOT [control; target].

Definition apply_custom (unitary : ndarray C) (qubits : list Z) : M unit :=
  _apply_unitary unitary qubits.

(** [_distribution_from_probabilities]: [dict(zip(bitstrings, probs))]
    with the bit strings [format(index, "0<k>b")] in index order. *)
Definition _distribution_from_probabilities
    (probabilities : list R) (num_qubits : nat) : dict R :=
  let bitstrings := map (format_0b num_qubits) (seq 0 (2 ^ num_qubits)) in
  dict_of_items (combine bitstrings probabilities).

(** [QuantumCircuit.probabilities]: an empty tuple takes the branch
    [if not qubit_tuple] (the whole register); otherwise the requested
    axes come first and the others are summed out. *)
Definition probabilities (qubits : option (list Z)) : M (dict R) :=
  qubit_tuple <- _normalise_qubits qubits ;;
  self <- get_self ;;
  let n := num_qubits self in
  let state_tensor := mk_ndarray (repeat 2 n) (_state self) in
  match qubit_tuple with
  | [] =>
      let probs := map Cabs_sq (_state self) in
      ret (dict_of_items
             (map (fun ip => (format_0b n (fst ip), snd ip))
                  (combine (seq 0 (length probs)) probs)))
  | _ :: _ =>
      let permutation := permutation_of n qubit_tuple in
      let tensor := transpose Czero state_tensor permutation in
      let marginal :=
        sum_trailing (map_array Cabs_sq tensor) (length qubit_tuple) in
      ret (_distribution_from_probabilities
             (ravel marginal) (length qubit_tuple))
  end.

(** [QuantumCircuit._collapse_state]: with an empty tuple the basis
    state [int(bitstring, 2)]; otherwise the row of the outcome is kept,
    divided by its norm [if norm > 0], and the axes are put back.  The
    method is private and is given a tuple [_normalise_qubits]
    returned. *)
Definition _collapse_state (qubits : list Z) (bitstring : string) : M unit :=
  self <- get_self ;;
  let n := num_qubits self in
  match qubits with
  | [] =>
      match int_base2 bitstring with
      | None => raise ValueError
      | Some index =>
          if index <? length (_state self)
          then set_state (basis_like (_state self) index)
          else raise IndexError
      end
  | _ :: _ =>
      let state_tensor := mk_ndarray (repeat 2 n) (_state self) in
      let permutation := permutation_of n qubits in
      let tensor := transpose Czero state_tensor permutation in
      let reshaped := reshape_rows tensor (2 ^ length qubits) in
      match int_base2 bitstring with
      | None => raise ValueError
      | Some outcome_index =>
          if outcome_index <? 2 ^ length qubits
          then
            let collapsed := keep_row reshaped outcome_index in
            let norm := linalg_norm collapsed in
            let collapsed :=
              if Rlt_dec 0 norm then div_real collapsed norm else collapsed in
            let collapsed_tensor := reshape collapsed (repeat 2 n) in
            let inverse_permutation := argsort permutation in
            let restored :=
              transpose Czero collapsed_tensor inverse_permutation in
            set_state (ravel restored)
          else raise IndexError
      end
  end.

(** The list comprehension [[d[key] for key in ks]]. *)
Fixpoint getitems {V} (d : dict V) (ks : list string) : result (list V) :=
  match ks with
  | [] => Ok []
  | k :: ks' =>
      match getitem d k with
      | Raise e => Raise e
      | Ok v =>
          match getitems d ks' with
          | Raise e => Raise e
          | Ok vs => Ok (v :: vs)
          end
      end
  end.

(** The loop [for index in outcomes: counts[bitstrings[index]] += 1]. *)
Fixpoint tally (bitstrings : list string) (outcomes : list nat)
    (counts : dict Z) : result (dict Z) :=
  match outcomes with
  | [] => Ok counts
  | index :: rest =>
      match list_getitem bitstrings index with
      | Raise e => Raise e
      | Ok key =>
          match getitem counts key with
          | Raise e => Raise e
          | Ok c => tally bitstrings rest (dict_set counts key (c + 1)%Z)
          end
      end
  end.

(** [QuantumCircuit.measure].  The generator is an argument: the default
    [np.random.default_rng()] of the source is one more generator. *)
Definition measure (qubits : option (list Z)) (shots : Z) (rng : Generator)
    : M MeasurementResult :=
  if (shots <=? 0)%Z then raise ValueError
  else
    qubit_tuple <- _normalise_qubits qubits ;;
    outcome_distribution <- probabilities (Some qubit_tuple) ;;
    let bitstrings := sorted (keys outcome_distribution) in
    probs <- lift (getitems outcome_distribution bitstrings) ;;
    let probs :=
      if isclose_one (Rsum probs) then probs
      else map (fun p => (p / Rsum probs)%R) probs in
    outcomes <- lift (choice rng (length bitstrings) (Z.to_nat shots) probs) ;;
    let counts := dict_of_items (map (fun key => (key, 0%Z)) bitstrings) in
    counts <- lift (tally bitstrings outcomes counts) ;;
    index <- lift (list_getitem outcomes (length outcomes - 1)) ;;
    final_outcome <- lift (list_getitem bitstrings index) ;;
    _collapse_state qubit_tuple final_outcome ;;;
    ret (mk_MeasurementResult counts).

Unset Implicit Arguments.

(* ================================================================== *)
(** * [quantum_simulator.py] in binary64 arithmetic                    *)
(* ================================================================== *)

(** The embedding above computes with real numbers.  NumPy's
    [complex128] is a pair of IEEE binary64 numbers, and the program
    rounds every sum, product, quotient and square root.  This module
    reads the same lines of the source with the binary64 operations
    (round to nearest, ties to even), so that the numbers the program
    returns can be computed and set against those of the embedding above.
    Arrays, dictionaries, exceptions and the checks of the arguments are
    those of the embedding above; a method returns its value together
    with the object afterwards, or raises. *)

Module F64.

Import PrimFloat.

Set Warnings "-inexact-float".

(** [complex128]: the real and the imaginary part. *)
Definition C : Type := (float * float)%type.

Definition Re (z : C) : float := fst z.
Definition Im (z : C) : float := snd z.

Definition RtoC (x : float) : C := (x, 0%float).
Definition Czero : C := RtoC 0%float.
Definition Cone : C := RtoC 1%float.

Definition Cadd (a b : C) : C := (Re a + Re b, Im a + Im b)%float.
Definition Cmul (a b : C) : C :=
  (Re a * Re b - Im a * Im b, Re a * Im b + Im a * Re b)%float.

(** Division of a complex number by a real one ([collapsed /= norm],
    [array / np.sqrt(2)]). *)
Definition Cdiv_real (a : C) (r : float) : C := (Re a / r, Im a / r)%float.

(** [|z|^2]. *)
Definition Cnorm2 (a : C) : float := (Re a * Re a + Im a * Im a)%float.

(** [np.abs(z)], the C library's [hypot]: it returns the magnitude of one
    part when the other is zero; otherwise the formula below stands for
    it. *)
Definition Cabs (a : C) : float :=
  if (Im a =? 0)%float then abs (Re a)
  else if (Re a =? 0)%float then abs (Im a)
  else sqrt (Cnorm2 a).

(** [np.abs(z) ** 2]. *)
Definition Cabs_sq (a : C) : float := (Cabs a * Cabs a)%float.

(** Sums, added up in the order of the embedding above. *)
Fixpoint Csum (l : list C) : C :=
  match l with
  | [] => Czero
  | z :: l' => Cadd z (Csum l')
  end.

Fixpoint Fsum (l : list float) : float :=
  match l with
  | [] => 0%float
  | x :: l' => (x + Fsum l')%float
  end.

(** [np.sum(a, axis=tuple(range(k, a.ndim)))]. *)
Definition sum_trailing (a : ndarray float) (k : nat) : ndarray float :=
  let lead := firstn k (shape a) in
  let t := size_of (skipn k (shape a)) in
  mk_ndarray lead
    (map (fun r => Fsum (map (fun c => nth (r * t + c) (data a) 0%float)
                            (seq 0 t)))
         (seq 0 (size_of lead))).

(** [u @ m] for two-dimensional arrays. *)
Definition matmul (u m : ndarray C) : ndarray C :=
  let r := nth 0 (shape u) 0 in
  let inner := nth 1 (shape u) 0 in
  let c := nth 1 (shape m) 0 in
  mk_ndarray [r; c]
    (map (fun idx =>
            Csum (map (fun y => Cmul (nth ((idx / c) * inner + y) (data u) Czero)
                                     (nth (y * c + idx mod c) (data m) Czero))
                      (seq 0 inner)))
         (seq 0 (r * c))).

(** [np.linalg.norm(a)] on a complex array: the square root of the sum of
    the squares of the real parts plus that of the imaginary parts. *)
Definition linalg_norm (a : ndarray C) : float :=
  sqrt (Fsum (map (fun z => Re z * Re z)%float (data a))
        + Fsum (map (fun z => Im z * Im z)%float (data a)))%float.

(** [a /= r] on a complex array. *)
Definition div_real (a : ndarray C) (r : float) : ndarray C :=
  map_array (fun z => Cdiv_real z r) a.

(** [z = np.zeros_like(m); z[row, :] = m[row, :]]. *)
Definition keep_row (m : ndarray C) (row : nat) : ndarray C :=
  let c := nth 1 (shape m) 0 in
  mk_ndarray (shape m)
    (map (fun idx => if idx / c =? row then nth idx (data m) Czero else Czero)
         (seq 0 (length (data m)))).

(** [z = np.zeros_like(v); z[index] = 1.0]. *)
Definition basis_like (v : list C) (index : nat) : list C :=
  map (fun i => if i =? index then Cone else Czero) (seq 0 (length v)).

(** [np.isclose(x, 1.0)]: [abs(x - 1.0) <= atol + rtol * abs(1.0)]. *)
Definition isclose_one (x : float) : bool :=
  (abs (x - 1) <=? 1e-08 + 1e-05 * abs 1)%float.

(** ** class [QuantumCircuit] *)

Record QuantumCircuit : Type := mk_QuantumCircuit {
  num_qubits : nat;
  _state : list C
}.

(** [rng.choice(a, size=size, p=p)], with binary64 weights. *)
Record Generator : Type := mk_Generator {
  choice : nat -> nat -> list float -> result (list nat)
}.

(** [np.array([[1, 1], [1, -1]]) / np.sqrt(2)] *)
Definition _H : ndarray C :=
  mk_ndarray [2; 2]
    (map (fun z => Cdiv_real z (sqrt 2%float))
         [RtoC 1%float; RtoC 1%float; RtoC 1%float; RtoC (-1)%float]).

(** [QuantumCircuit(num_qubits)] *)
Definition __init__ (num_qubits : Z) : result QuantumCircuit :=
  if (num_qubits <=? 0)%Z then Raise ValueError
  else
    let n := Z.to_nat num_qubits in
    let dimension := 2 ^ n in
    Ok (mk_QuantumCircuit n
          (map (fun i => if i =? 0 then RtoC 1%float else RtoC 0%float)
               (seq 0 dimension))).

(** [QuantumCircuit._normalise_qubits] *)
Definition _normalise_qubits (qubits : option (list Z)) (self : QuantumCircuit)
    : result (list Z) :=
  match qubits with
  | None => Ok (map Z.of_nat (seq 0 (num_qubits self)))
  | Some qubit_tuple =>
      if negb (length qubit_tuple =? length (nodup Z.eq_dec qubit_tuple))
      then Raise ValueError
      else
        match check_range (num_qubits self) qubit_tuple with
        | Raise e => Raise e
        | Ok _ => Ok qubit_tuple
        end
  end.

(** [QuantumCircuit._apply_unitary] *)
Definition _apply_unitary (unitary : ndarray C) (qubits : list Z)
    (self : QuantumCircuit) : result QuantumCircuit :=
  if negb (ndim unitary =? 2)
     || negb (nth 0 (shape unitary) 0 =? nth 1 (shape unitary) 0)
  then Raise ValueError
  else
    match _normalise_qubits (Some qubits) self with
    | Raise e => Raise e
    | Ok qubit_tuple =>
        let expected_dimension := 2 ^ length qubit_tuple in
        if negb (nth 0 (shape unitary) 0 =? expected_dimension)
        then Raise ValueError
        else
          let n := num_qubits self in
          let state_tensor := mk_ndarray (repeat 2 n) (_state self) in
          let permutation := permutation_of n qubit_tuple in
          let tensor := transpose Czero state_tensor permutation in
          let reshaped := reshape_rows tensor expected_dimension in
          let updated := matmul unitary reshaped in
          let updated_tensor :=
            reshape updated
              (repeat 2 (length qubit_tuple)
               ++ repeat 2 (n - length qubit_tuple)) in
          let inverse_permutation := argsort permutation in
          let restored := transpose Czero updated_tensor inverse_permutation in
          Ok (mk_QuantumCircuit n (ravel restored))
    end.

(** [QuantumCircuit.hadamard] *)
Definition hadamard (qubit : Z) (self : QuantumCircuit) : result QuantumCircuit :=
  _apply_unitary _H [qubit] self.

(** [_distribution_from_probabilities] *)
Definition _distribution_from_probabilities
    (probabilities : list float) (num_qubits : nat) : dict float :=
  let bitstrings := map (format_0b num_qubits) (seq 0 (2 ^ num_qubits)) in
  dict_of_items (combine bitstrings probabilities).

(** [QuantumCircuit.probabilities] *)
Definition probabilities (qubits : option (list Z)) (self : QuantumCircuit)
    : result (dict float) :=
  match _normalise_qubits qubits self with
  | Raise e => Raise e
  | Ok qubit_tuple =>
      let n := num_qubits self in
      let state_tensor := mk_ndarray (repeat 2 n) (_state self) in
      match qubit_tuple with
      | [] =>
          let probs := map Cabs_sq (_state self) in
          Ok (dict_of_items
                (map (fun ip => (format_0b n (fst ip), snd ip))
                     (combine (seq 0 (length probs)) probs)))
      | _ :: _ =>
          let permutation := permutation_of n qubit_tuple in
          let tensor := transpose Czero state_tensor permutation in
          let marginal :=
            sum_trailing (map_array Cabs_sq tensor) (length qubit_tuple) in
          Ok (_distribution_from_probabilities
                (ravel marginal) (length qubit_tuple))
      end
  end.

(** [QuantumCircuit._collapse_state] *)
Definition _collapse_state (qubits : list Z) (bitstring : string)
    (self : QuantumCircuit) : result QuantumCircuit :=
  let n := num_qubits self in
  match qubits with
  | [] =>
      match int_base2 bitstring with
      | None => Raise ValueError
      | Some index =>
          if index <? length (_state self)
          then Ok (mk_QuantumCircuit n (basis_like (_state self) index))
          else Raise IndexError
      end
  | _ :: _ =>
      let state_tensor := mk_ndarray (repeat 2 n) (_state self) in
      let permutation := permutation_of n qubits in
      let tensor := transpose Czero state_tensor permutation in
      let reshaped := reshape_rows tensor (2 ^ length qubits) in
      match int_base2 bitstring with
      | None => Raise ValueError
      | Some outcome_index =>
          if outcome_index <? 2 ^ length qubits
          then
            let collapsed := keep_row reshaped outcome_index in
            let norm := linalg_norm collapsed in
            let collapsed :=
              if (0 <? norm)%float then div_real collapsed norm else collapsed in
            let collapsed_tensor := reshape collapsed (repeat 2 n) in
            let inverse_permutation := argsort permutation in
            let restored :=
              transpose Czero collapsed_tensor inverse_permutation in
            Ok (mk_QuantumCircuit n (ravel restored))
          else Raise IndexError
      end
  end.

(** [QuantumCircuit.measure] *)
Definition measure (qubits : option (list Z)) (shots : Z) (rng : Generator)
    (self : QuantumCircuit) : result (MeasurementResult * QuantumCircuit) :=
  if (shots <=? 0)%Z then Raise ValueError
  else
    match _normalise_qubits qubits self with
    | Raise e => Raise e
    | Ok qubit_tuple =>
    match probabilities (Some qubit_tuple) self with
    | Raise e => Raise e
    | Ok outcome_distribution =>
    let bitstrings := sorted (keys outcome_distribution) in
    match getitems outcome_distribution bitstrings with
    | Raise e => Raise e
    | Ok probs =>
    let probs :=
      if isclose_one (Fsum probs) then probs
      else map (fun p => (p / Fsum probs)%float) probs in
    match choice rng (length bitstrings) (Z.to_nat shots) probs with
    | Raise e => Raise e
    | Ok outcomes =>
    let counts := dict_of_items (map (fun key => (key, 0%Z)) bitstrings) in
    match tally bitstrings outcomes counts with
    | Raise e => Raise e
    | Ok counts =>
    match list_getitem outcomes (length outcomes - 1) with
    | Raise e => Raise e
    | Ok index =>
    match list_getitem bitstrings index with
    | Raise e => Raise e
    | Ok final_outcome =>
    match _collapse_state qubit_tuple final_outcome self with
    | Raise e => Raise e
    | Ok self' => Ok (mk_MeasurementResult counts, self')
    end end end end end end end end.

(** A generator that always draws outcome [0]. *)
Definition first_outcome_rng : Generator :=
  mk_Generator (fun _ size _ => Ok (repeat 0 size)).

End F64.

(* ================================================================== *)
(** * [lab/trinary_extended.py]                                        *)
(* ================================================================== *)

(** Truth values are Python integers; [min] and [max] are [Z.min] and
    [Z.max].  Confidences are floats: the module only stores them,
    subtracts [0.3], compares with [0.0] and prints them, so they are kept
    abstract, with these operations as parameters. *)

Module Trinary.

Local Open Scope string_scope.
Local Open Scope Z_scope.

Definition TRUE : Z := 1.
Definition UNKNOWN : Z := 0.
Definition FALSE : Z := -1.

Definition t_not (a : Z) : Z := - a.

Definition t_and (a b : Z) : Z := Z.min a b.

Definition t_or (a b : Z) : Z := Z.max a b.

Definition t_implies (a b : Z) : Z :=
  let raw := 1 - a + b in
  Z.max FALSE (Z.min TRUE raw).

Definition t_equiv (a b : Z) : Z := t_and (t_implies a b) (t_implies b a).

Definition t_xor (a b : Z) : Z := t_not (t_equiv a b).

(** The floats of the module: the literals [0.0], [0.3], [0.5],
    subtraction, [>] and [str]. *)
Record FloatOps : Type := mk_FloatOps {
  float : Type;
  f0_0 : float;
  f0_3 : float;
  f0_5 : float;
  fsub : float -> float -> float;
  fgt : float -> float -> bool;
  fstr : float -> string
}.

(** ** class [TrinaryProposition] *)

Module Proposition.
Section Float.
Context {F : FloatOps}.

Record TrinaryProposition : Type := mk_TrinaryProposition {
  statement : string;
  truth : Z;
  confidence : float F;
  evidence : list string;
  contradictions : list string
}.

(** [TrinaryProposition(statement)], with the defaults of the fields. *)
Definition new (statement : string) : TrinaryProposition :=
  mk_TrinaryProposition statement UNKNOWN (f0_5 F) [] [].

(** [{TRUE: "TRUE", UNKNOWN: "UNKNOWN", FALSE: "FALSE"}[self.truth]] *)
Definition label (self : TrinaryProposition) : result string :=
  if truth self =? TRUE then Ok "TRUE"
  else if truth self =? UNKNOWN then Ok "UNKNOWN"
  else if truth self =? FALSE then Ok "FALSE"
  else Raise KeyError.

(** [if evidence: self.evidence.append(evidence)] *)
Definition add_evidence (ev : string) (l : list string) : list string :=
  match ev with
  | EmptyString => l
  | _ => (l ++ [ev])%list
  end.

Definition assert_true (confidence : float F) (ev : string)
    (self : TrinaryProposition) : TrinaryProposition :=
  mk_TrinaryProposition (statement self) TRUE confidence
    (add_evidence ev (evidence self)) (contradictions self).

Definition assert_false (confidence : float F) (ev : string)
    (self : TrinaryProposition) : TrinaryProposition :=
  mk_TrinaryProposition (statement self) FALSE confidence
    (add_evidence ev (evidence self)) (contradictions self).

(** [max(0.0, x)]: the second argument when it is the greater. *)
Definition max_0 (x : float F) : float F :=
  if fgt F x (f0_0 F) then x else f0_0 F.

Definition contradict (claim : string) (self : TrinaryProposition)
    : TrinaryProposition :=
  mk_TrinaryProposition (statement self) (truth self)
    (if negb (truth self =? UNKNOWN)
     then max_0 (fsub F (confidence self) (f0_3 F))
     else confidence self)
    (evidence self) (contradictions self ++ [claim])%list.

Definition quarantine (self : TrinaryProposition) : TrinaryProposition :=
  mk_TrinaryProposition (statement self) UNKNOWN (f0_0 F)
    (evidence self) (contradictions self).

End Float.
Arguments TrinaryProposition : clear implicits.
End Proposition.

(** ** class [TrinaryReasoner] *)

Module Reasoner.
Import Proposition.
Section Float.
Context {F : FloatOps}.

(** The attribute [_props]; the propositions are reached through it
    only, so a method that changes one stores it back under its key. *)
Definition TrinaryReasoner : Type := dict (TrinaryProposition F).

Definition __init__ : TrinaryReasoner := [].

Definition _get_or_create (statement : string) (self : TrinaryReasoner)
    : TrinaryReasoner * TrinaryProposition F :=
  match dict_get self statement with
  | Some prop => (self, prop)
  | None => (dict_set self statement (new statement), new statement)
  end.

Definition assert_true (statement : string) (confidence : float F)
    (ev : string) (self : TrinaryReasoner)
    : TrinaryReasoner * TrinaryProposition F :=
  let (self, prop) := _get_or_create statement self in
  let prop :=
    if truth prop =? FALSE
    then contradict ("Previously FALSE, now asserted TRUE (conf="
                     ++ fstr F confidence ++ ")") prop
    else prop in
  let prop := Proposition.assert_true confidence ev prop in
  (dict_set self statement prop, prop).

Definition assert_false (statement : string) (confidence : float F)
    (ev : string) (self : TrinaryReasoner)
    : TrinaryReasoner * TrinaryProposition F :=
  let (self, prop) := _get_or_create statement self in
  let prop :=
    if truth prop =? TRUE
    then contradict ("Previously TRUE, now asserted FALSE (conf="
                     ++ fstr F confidence ++ ")") prop
    else prop in
  let prop := Proposition.assert_false confidence ev prop in
  (dict_set self statement prop, prop).

(** [self._props.get(statement, TrinaryProposition(statement))] *)
Definition query (statement : string) (self : TrinaryReasoner)
    : TrinaryProposition F :=
  match dict_get self statement with
  | Some prop => prop
  | None => new statement
  end.

(** [if p.contradictions]: the list is not empty. *)
Definition is_contradicted (p : TrinaryProposition F) : bool :=
  match Proposition.contradictions p with
  | [] => false
  | _ :: _ => true
  end.

Definition contradictions (self : TrinaryReasoner)
    : list (TrinaryProposition F) :=
  filter is_contradicted (values self).

(** The propositions are quarantined in place; the statements of the
    quarantined ones are returned in the order of the dictionary. *)
Definition quarantine_contradicted (self : TrinaryReasoner)
    : TrinaryReasoner * list string :=
  (map (fun kp => (fst kp,
                   if is_contradicted (snd kp) then quarantine (snd kp)
                   else snd kp))
       self,
   map statement (filter is_contradicted (values self))).

(** [b_stmt or ""] *)
Definition or_empty (b_stmt : option string) : string :=
  match b_stmt with
  | Some s => s
  | None => ""
  end.

(** The dictionary [ops] of thunks: the operator is looked up and the
    thunk is called; no thunk can raise. *)
Definition evaluate (a_stmt op : string) (b_stmt : option string)
    (self : TrinaryReasoner) : result Z :=
  let a := truth (query a_stmt self) in
  let b := truth (query (or_empty b_stmt) self) in
  if String.eqb op "NOT" then Ok (t_not a)
  else if String.eqb op "AND" then Ok (t_and a b)
  else if String.eqb op "OR" then Ok (t_or a b)
  else if String.eqb op "IMPLIES" then Ok (t_implies a b)
  else Raise ValueError.

(** The counters [{1: 0, 0: 0, -1: 0}], as (true, unknown, false);
    [counts[p.truth] += 1] raises [KeyError] on any other truth value. *)
Fixpoint count_truths (l : list (TrinaryProposition F)) (c : Z * Z * Z)
    : result (Z * Z * Z) :=
  match l with
  | [] => Ok c
  | p :: l' =>
      let '(t, u, f) := c in
      if truth p =? TRUE then count_truths l' (t + 1, u, f)
      else if truth p =? UNKNOWN then count_truths l' (t, u + 1, f)
      else if truth p =? FALSE then count_truths l' (t, u, f + 1)
      else Raise KeyError
  end.

Definition summary (self : TrinaryReasoner) : result (dict Z) :=
  match count_truths (values self) (0, 0, 0) with
  | Raise e => Raise e
  | Ok (t, u, f) =>
      Ok [("total", Z.of_nat (length self));
          ("true", t);
          ("unknown", u);
          ("false", f);
          ("contradictions", Z.of_nat (length (contradictions self)))]
  end.

End Float.
Arguments TrinaryReasoner : clear implicits.
End Reasoner.

End Trinary.

(* ================================================================== *)
(** * [lab/emergence.py]                                               *)
(* ================================================================== *)

(** Floats are kept abstract, with the operations the module applies to
    them as parameters.  [math.exp] raises [OverflowError] when the result
    is out of range; nothing else in the module raises, the callables
    given to [run_emergence_simulation] being taken to be functions. *)

Module Emergence.

Record FloatOps : Type := mk_FloatOps {
  float : Type;
  f0_0 : float;
  f0_05 : float;
  f0_1 : float;
  f0_5 : float;
  f1_0 : float;
  fadd : float -> float -> float;
  fmul : float -> float -> float;
  fabs : float -> float;
  fsin : float -> float;
  (** [math.exp]; [None] stands for [OverflowError]. *)
  fexp : float -> option float;
  flt : float -> float -> bool;
  fgt : float -> float -> bool;
  (** [bool(x)]: [x] is not zero. *)
  ftruth : float -> bool;
  (** The conversion of an [int] operand. *)
  of_int : Z -> float
}.

(** A value returned, or [OverflowError] raised (the object is then as
    it was before the call). *)
Inductive outcome (A : Type) : Type :=
| Value (a : A)
| OverflowError.

Arguments Value {A} a.
Arguments OverflowError {A}.

Section Float.
Context {F : FloatOps}.

(** [C * math.exp(lam * abs(delta))] *)
Definition emergence (lam C delta : float F) : outcome (float F) :=
  match fexp F (fmul F lam (fabs F delta)) with
  | Some e => Value (fmul F C e)
  | None => OverflowError
  end.

(** ** class [EmergenceState] *)

Record EmergenceState : Type := mk_EmergenceState {
  t : float F;
  C : float F;
  delta : float F;
  lam : float F;
  history : list (float F)
}.

Definition K (self : EmergenceState) : outcome (float F) :=
  emergence (lam self) (C self) (delta self).

(** [step] returns the object itself, changed in place. *)
Definition step (new_C new_delta : float F) (self : EmergenceState)
    : outcome EmergenceState :=
  match K self with
  | OverflowError => OverflowError
  | Value k =>
      Value (mk_EmergenceState (fadd F (t self) (of_int F 1)) new_C new_delta
               (lam self) (history self ++ [k]))
  end.

Definition is_emergent (threshold : float F) (self : EmergenceState)
    : outcome bool :=
  match history self with
  | [] => Value false
  | h0 :: _ =>
      let baseline := if ftruth F h0 then h0 else f1_0 F in
      match K self with
      | OverflowError => OverflowError
      | Value k => Value (fgt F k (fmul F threshold baseline))
      end
  end.

(** ** class [ContradictionAmplifier] *)

Record ContradictionAmplifier : Type := mk_ContradictionAmplifier {
  amp_lam : float F;
  _log : list (float F * float F * float F)
}.

Definition __init__ (lam : float F) : ContradictionAmplifier :=
  mk_ContradictionAmplifier lam [].


Definition trajectory (self : ContradictionAmplifier) : list (float F) :=
  map snd (_log self).

(** [max(iterable, default=d)]: the first element no later one is
    greater than, [d] when there is none. *)
Definition max_default (d : float F) (l : list (float F)) : float F :=
  match l with
  | [] => d
  | x :: l' => fold_left (fun best y => if fgt F y best then y else best) l' x
  end.

Definition peak (self : ContradictionAmplifier) : float F :=
  max_default (f0_0 F) (map snd (_log self)).

(** [l[start:]] for an integer [start]: a negative one counts from the
    end, and both are clipped to the list. *)
Definition slice_from {A} (start : Z) (l : list A) : list A :=
  let len := Z.of_nat (length l) in
  let s := if (start <? 0)%Z then Z.max (start + len) 0 else Z.min start len in
  skipn (Z.to_nat s) l.

(** [all(recent[i] < recent[i + 1] for i in range(len(recent) - 1))] *)
Fixpoint increasing (l : list (float F)) : bool :=
  match l with
  | x :: ((y :: _) as l') => flt F x y && increasing l'
  | _ => true
  end.

Definition is_diverging (window : Z) (self : ContradictionAmplifier) : bool :=
  let recent := slice_from (- window) (trajectory self) in
  (2 <=? length recent) && increasing recent.

(** ** [run_emergence_simulation] *)





End Float.

Arguments EmergenceState : clear implicits.
Arguments ContradictionAmplifier : clear implicits.

End Emergence.

(* ================================================================== *)
(** * Vocabulary of the statements                                     *)
(* ================================================================== *)

(** Basis indices and their bits, axis permutations, the action of a
    matrix on target qubits, marginals, collapse, effects and the
    registers reachable through the public interface.  The lemmas about
    them follow, and the main theorems close the file. *)

(** The value of qubit [p] in basis state [x] of an [n]-qubit register. *)
Definition qubit_bit (n p x : nat) : nat := (x / 2 ^ (n - 1 - p)) mod 2.

(** The bits of [x], qubit [0] first. *)
Definition bits (n x : nat) : list nat :=
  map (fun p => qubit_bit n p x) (seq 0 n).

(** The number a list of bits spells, first bit most significant. *)
Fixpoint from_bits (l : list nat) : nat :=
  match l with
  | [] => 0
  | b :: l' => b * 2 ^ length l' + from_bits l'
  end.

(** [gather q l]: the entries of [l] at the positions [q], in the order
    of [q]. *)
Definition gather (q : list nat) (l : list nat) : list nat :=
  map (fun p => nth p l 0) q.

(** Two lists of axes are inverse to each other. *)
Definition inverse_axes (n : nat) (perm inv : list nat) : Prop :=
  Permutation perm (seq 0 n) /\ Permutation inv (seq 0 n) /\
  (forall a, a < n -> nth (nth a perm 0) inv 0 = a) /\
  (forall p, p < n -> nth (nth p inv 0) perm 0 = p).

(** Where the element at flat position [j] of a transposed binary tensor
    comes from. *)
Definition source_index (n : nat) (inv : list nat) (j : nat) : nat :=
  from_bits (gather inv (bits n j)).

(** A tuple [_normalise_qubits] accepts: distinct indices, each in
    range. *)
Definition valid_qubits (n : nat) (qubits : list Z) : Prop :=
  NoDup qubits /\ Forall (fun q => (0 <= q < Z.of_nat n)%Z) qubits.

(** The qubits not named, in ascending order. *)
Definition other_qubits (n : nat) (qubits : list Z) : list nat :=
  filter (fun i => negb (existsb (Z.eqb (Z.of_nat i)) qubits)) (seq 0 n).

(** A register as the constructor leaves it and every method keeps it:
    [2 ^ num_qubits] amplitudes. *)
Definition well_formed (self : QuantumCircuit) : Prop :=
  length (_state self) = 2 ^ num_qubits self.

(** Position of [p] in [l], if any. *)
Fixpoint index_of (p : nat) (l : list nat) : option nat :=
  match l with
  | [] => None
  | q :: l' => if p =? q then Some 0 else option_map S (index_of p l')
  end.

(** The row of [U] a basis state [x] belongs to: the bits of [x] at the
    target qubits, the first target most significant. *)
Definition sub_index (n : nat) (targets : list nat) (x : nat) : nat :=
  from_bits (map (fun q => qubit_bit n q x) targets).

(** The basis state that agrees with [x] on every qubit outside [targets]
    and whose target qubits spell [y]. *)
Definition with_targets (n : nat) (targets : list nat) (y x : nat) : nat :=
  from_bits
    (map (fun p => match index_of p targets with
                   | Some a => qubit_bit (length targets) a y
                   | None => qubit_bit n p x
                   end)
         (seq 0 n)).

(** Entry [(r, c)] of a two-dimensional array. *)
Definition entry (u : ndarray C) (r c : nat) : C :=
  nth (r * nth 1 (shape u) 0 + c) (data u) Czero.

(** Amplitude [x] of [U] acting on the target qubits of [v] and the
    identity on the others. *)
Definition acts_on_targets (n : nat) (u : ndarray C) (targets : list nat)
    (v : list C) (x : nat) : C :=
  Csum (map (fun y => Cmul (entry u (sub_index n targets x) y)
                           (nth (with_targets n targets y x) v Czero))
            (seq 0 (2 ^ length targets))).

(** The character of a bit. *)
Definition bit_char (b : nat) : ascii :=
  if (b =? 0)%nat then "0"%char else "1"%char.

(** The bit string of a list of bits, first bit leftmost. *)
Fixpoint bitstring_of (l : list nat) : string :=
  match l with
  | [] => EmptyString
  | b :: l' => String (bit_char b) (bitstring_of l')
  end.

(** The bits a string of binary digits shows. *)
Fixpoint bits_of_string (s : string) : list nat :=
  match s with
  | EmptyString => []
  | String c s' => (if Ascii.eqb c "1" then 1 else 0) :: bits_of_string s'
  end.

(** A string of ['0'] and ['1'] only. *)
Fixpoint binary_string (s : string) : bool :=
  match s with
  | EmptyString => true
  | String c s' => (Ascii.eqb c "0" || Ascii.eqb c "1") && binary_string s'
  end.

(** Basis state [x] shows the bits [b] on the qubits [targets]. *)
Definition agrees_on (n : nat) (targets b : list nat) (x : nat) : bool :=
  forallb (fun qb => qubit_bit n (fst qb) x =? snd qb) (combine targets b).

(** Sum of the squared magnitudes of the amplitudes of [v] whose basis
    state shows [b] on [targets]. *)
Definition marginal (n : nat) (targets b : list nat) (v : list C) : R :=
  Rsum (map (fun x => Cnorm2 (nth x v Czero))
            (filter (agrees_on n targets b) (seq 0 (2 ^ n)))).

(** The distribution [probabilities] returns for a non-empty tuple. *)
Definition marginal_distribution (n : nat) (qubits : list Z) (v : list C)
    : dict R :=
  map (fun r => (bitstring_of (bits (length qubits) r),
                 marginal n (map Z.to_nat qubits) (bits (length qubits) r) v))
      (seq 0 (2 ^ length qubits)).

(** The amplitudes of [v] whose basis state shows [b] on [targets], the
    others set to zero. *)
Definition projected (n : nat) (targets b : list nat) (v : list C) : list C :=
  map (fun x => if agrees_on n targets b x then nth x v Czero else Czero)
      (seq 0 (2 ^ n)).

(** The projection, divided by its norm when that is positive. *)
Definition collapsed (n : nat) (targets b : list nat) (v : list C) : list C :=
  let norm := sqrt (marginal n targets b v) in
  if Rlt_dec 0 norm
  then map (fun z => Cdiv_real z norm) (projected n targets b v)
  else projected n targets b v.

(** Total probability of a state vector. *)
Definition norm_sq (v : list C) : R := Rsum (map Cnorm2 v).

(** The dictionary with one entry per outcome of width [w], in index
    order. *)
Definition outcome_table {V} (w : nat) (f : nat -> V) : dict V :=
  map (fun r => (bitstring_of (bits w r), f r)) (seq 0 (2 ^ w)).

(** Python's [sum] over integers. *)
Definition sumZ (l : list Z) : Z := fold_left Z.add l 0%Z.

(** The keys drawn, in the order drawn. *)
Definition drawn (bitstrings : list string) (outcomes : list nat)
    : list string :=
  map (fun i => nth i bitstrings EmptyString) outcomes.

(** Number of characters of an outcome: an empty tuple stands for the
    whole register. *)
Definition outcome_width (n : nat) (qubit_tuple : list Z) : nat :=
  match qubit_tuple with
  | [] => n
  | _ :: _ => length qubit_tuple
  end.

(** Probability of outcome [r] of a measurement of [qubit_tuple]. *)
Definition outcome_probability (n : nat) (qubit_tuple : list Z) (v : list C)
    (r : nat) : R :=
  match qubit_tuple with
  | [] => Cnorm2 (nth r v Czero)
  | _ :: _ =>
      marginal n (map Z.to_nat qubit_tuple) (bits (length qubit_tuple) r) v
  end.

(** The state after outcome [r] of a measurement of [qubit_tuple]. *)
Definition post_measurement (n : nat) (qubit_tuple : list Z) (v : list C)
    (r : nat) : list C :=
  match qubit_tuple with
  | [] => basis_like v r
  | _ :: _ =>
      collapsed n (map Z.to_nat qubit_tuple) (bits (length qubit_tuple) r) v
  end.

(** The tuple [_normalise_qubits] returns for a valid argument. *)
Definition qubit_tuple_of (n : nat) (qubits : option (list Z)) : list Z :=
  match qubits with
  | None => map Z.of_nat (seq 0 n)
  | Some qs => qs
  end.

(** The vector [measure] passes to [rng.choice]: the probabilities,
    divided by their sum unless that is close to one. *)
Definition sampling_weights (probs : list R) : list R :=
  if isclose_one (Rsum probs) then probs
  else map (fun p => (p / Rsum probs)%R) probs.

(** A vector [rng.choice] accepts as [p]. *)
Definition probability_vector (p : list R) : Prop :=
  Forall (fun x => (0 <= x)%R) p /\ Rsum p = 1%R.

(** A generator that, given a probability vector over [a] outcomes,
    returns [size] of them. *)
Definition sound_generator (rng : Generator) : Prop :=
  forall a size p,
    0 < a -> length p = a -> probability_vector p ->
    exists outcomes,
      choice rng a size p = Ok outcomes
      /\ length outcomes = size
      /\ Forall (fun i => i < a) outcomes.

(** [u] is a [d] by [d] matrix whose conjugate transpose is its inverse:
    the columns are orthonormal. *)
Definition is_unitary (u : ndarray C) (d : nat) : Prop :=
  shape u = [d; d] /\
  forall a b, a < d -> b < d ->
    Csum (map (fun r => Cmul (Cconj (entry u r a)) (entry u r b)) (seq 0 d))
    = if a =? b then Cone else Czero.

(** A computation that never assigns to the object. *)
Definition pure_run {A} (m : M A) : Prop :=
  forall self, self_after (m self) = self /\ writes (m self) = [].

(** A computation that, when it raises, has not assigned to the object. *)
Definition atomic {A} (m : M A) : Prop :=
  forall self e,
    value (m self) = Raise e ->
    self_after (m self) = self /\ writes (m self) = [].

(** A call of a public method, with its arguments. *)
Inductive call : Type :=
| Hadamard (qubit : Z)
| PauliX (qubit : Z)
| Cnot (control target : Z)
| ApplyCustom (unitary : ndarray C) (qubits : list Z)
| Probabilities (qubits : option (list Z))
| Measure (qubits : option (list Z)) (shots : Z) (rng : Generator).

(** What a public method returns. *)
Inductive returned : Type :=
| RNone
| RDistribution (d : dict R)
| RMeasurement (m : MeasurementResult).

(** Running a call on the register. *)
Definition perform (c : call) : M returned :=
  match c with
  | Hadamard q => hadamard q ;;; ret RNone
  | PauliX q => pauli_x q ;;; ret RNone
  | Cnot c t => cnot c t ;;; ret RNone
  | ApplyCustom u qs => apply_custom u qs ;;; ret RNone
  | Probabilities qs => d <- probabilities qs ;; ret (RDistribution d)
  | Measure qs shots rng => m <- measure qs shots rng ;; ret (RMeasurement m)
  end.

(** The invalid arguments of a call on a register of [n] qubits. *)
Definition invalid_call (n : nat) (c : call) : Prop :=
  match c with
  | Hadamard q | PauliX q => ~ (0 <= q < Z.of_nat n)%Z
  | Cnot c t => c = t \/ ~ valid_qubits n [c; t]
  | ApplyCustom u qs =>
      ndim u <> 2 \/ nth 0 (shape u) 0 <> nth 1 (shape u) 0
      \/ ~ valid_qubits n qs
      \/ nth 0 (shape u) 0 <> 2 ^ length qs
  | Probabilities qs => exists l, qs = Some l /\ ~ valid_qubits n l
  | Measure qs shots _ =>
      (shots <= 0)%Z \/ exists l, qs = Some l /\ ~ valid_qubits n l
  end.

(** What every method keeps. *)
Definition unit_norm (self : QuantumCircuit) : Prop :=
  well_formed self /\ 0 < num_qubits self /\ norm_sq (_state self) = 1%R.

(** Basis state [x] shows outcome [r] of a measurement of [qubit_tuple]. *)
Definition consistent (n : nat) (qubit_tuple : list Z) (r x : nat) : bool :=
  match qubit_tuple with
  | [] => x =? r
  | _ :: _ =>
      agrees_on n (map Z.to_nat qubit_tuple) (bits (length qubit_tuple) r) x
  end.

(** The last outcome drawn has positive probability, whatever the
    generator returns: the condition under which collapse renormalises. *)
Definition draws_possible (self : QuantumCircuit) (qubits : option (list Z))
    (shots : Z) (rng : Generator) : Prop :=
  let n := num_qubits self in
  let qt := qubit_tuple_of n qubits in
  let w := outcome_width n qt in
  forall outcomes last,
    choice rng (2 ^ w) (Z.to_nat shots)
      (sampling_weights
         (map (outcome_probability n qt (_state self)) (seq 0 (2 ^ w))))
    = Ok outcomes ->
    nth_error outcomes (length outcomes - 1) = Some last ->
    (0 < outcome_probability n qt (_state self) last)%R.

Inductive reachable : QuantumCircuit -> Prop :=
| reach_init (nq : Z) (self : QuantumCircuit) :
    __init__ nq = Ok self -> reachable self
| reach_hadamard (self : QuantumCircuit) (q : Z) :
    reachable self -> reachable (self_after (hadamard q self))
| reach_pauli_x (self : QuantumCircuit) (q : Z) :
    reachable self -> reachable (self_after (pauli_x q self))
| reach_cnot (self : QuantumCircuit) (c t : Z) :
    reachable self -> reachable (self_after (cnot c t self))
| reach_custom (self : QuantumCircuit) (u : ndarray C) (qs : list Z) (d : nat) :
    reachable self -> is_unitary u d ->
    reachable (self_after (apply_custom u qs self))
| reach_probabilities (self : QuantumCircuit) (qs : option (list Z)) :
    reachable self -> reachable (self_after (probabilities qs self))
| reach_measure (self : QuantumCircuit) (qs : option (list Z)) (shots : Z)
    (rng : Generator) :
    reachable self -> draws_possible self qs shots rng ->
    reachable (self_after (measure qs shots rng self)).

(** One qubit in state |0>. *)
Definition ground1 : QuantumCircuit := mk_QuantumCircuit 1 [Cone; Czero].

(** A generator that always draws outcome [0]. *)
Definition first_outcome_rng : Generator :=
  mk_Generator (fun _ size _ => Ok (repeat 0 size)).

(** The amplitude [1 / sqrt 2]. *)
Definition plus_amplitude : C := Cdiv_real (RtoC 1) (sqrt 2).

(** One qubit in state |+>: both amplitudes [1 / sqrt 2]. *)
Definition plus1 : QuantumCircuit :=
  mk_QuantumCircuit 1 [plus_amplitude; plus_amplitude].

(** The two by two matrix of zeros, which [apply_custom] accepts: it does
    not check that its matrix is unitary. *)
Definition zero_matrix : ndarray C :=
  mk_ndarray [2; 2] [RtoC 0; RtoC 0; RtoC 0; RtoC 0].

(** One qubit with no amplitude left. *)
Definition null1 : QuantumCircuit := mk_QuantumCircuit 1 [Czero; Czero].

(** Amplitude [x] after outcome [r] of a measurement of [qubit_tuple],
    spelled out: zero off the outcome; on it, [1] for the empty tuple and
    otherwise the old amplitude divided by the square root of the
    probability of the outcome, when that is positive. *)
Definition collapsed_amplitude (n : nat) (qubit_tuple : list Z) (v : list C)
    (r x : nat) : C :=
  if consistent n qubit_tuple r x
  then match qubit_tuple with
       | [] => Cone
       | _ :: _ =>
           let norm := sqrt (outcome_probability n qubit_tuple v r) in
           if Rlt_dec 0 norm then Cdiv_real (nth x v Czero) norm
           else nth x v Czero
       end
  else Czero.

(** ** Vocabulary of the further properties *)

(** Basis state [x] with qubit [q] flipped. *)
Definition flip_qubit (n q x : nat) : nat := Nat.lxor x (2 ^ (n - 1 - q)).

(** A generator that only draws outcomes of positive weight. *)
Definition support_generator (rng : Generator) : Prop :=
  forall a size p outcomes,
    choice rng a size p = Ok outcomes ->
    Forall (fun i => (0 < nth i p 0)%R) outcomes.

(** Two qubits in state |00>. *)
Definition ground2 : QuantumCircuit :=
  mk_QuantumCircuit 2 [Cone; Czero; Czero; Czero].

(** Two qubits in state |10>. *)
Definition excited2 : QuantumCircuit :=
  mk_QuantumCircuit 2 [Czero; Czero; Cone; Czero].

(** The first index of positive weight. *)
Fixpoint first_positive (p : list R) : option nat :=
  match p with
  | [] => None
  | x :: p' =>
      if Rlt_dec 0 x then Some 0 else option_map S (first_positive p')
  end.

(** A generator that always draws the first outcome of positive weight,
    and raises when there is none. *)
Definition first_positive_rng : Generator :=
  mk_Generator (fun _ size p =>
                  match first_positive p with
                  | Some i => Ok (repeat i size)
                  | None => Raise ValueError
                  end).

(** One of the three truth values. *)
Definition truth_value (a : Z) : Prop :=
  a = Trinary.FALSE \/ a = Trinary.UNKNOWN \/ a = Trinary.TRUE.

(** A call of a method of [TrinaryReasoner] that changes the store. *)
Inductive reasoner_call {F : Trinary.FloatOps} : Type :=
| AssertTrue (statement : string) (confidence : Trinary.float F) (ev : string)
| AssertFalse (statement : string) (confidence : Trinary.float F) (ev : string)
| QuarantineContradicted.

Arguments reasoner_call : clear implicits.

(** The store after a call. *)
Definition reasoner_step {F : Trinary.FloatOps} (c : reasoner_call F)
    (self : Trinary.Reasoner.TrinaryReasoner F)
    : Trinary.Reasoner.TrinaryReasoner F :=
  match c with
  | AssertTrue s conf ev => fst (Trinary.Reasoner.assert_true s conf ev self)
  | AssertFalse s conf ev => fst (Trinary.Reasoner.assert_false s conf ev self)
  | QuarantineContradicted => fst (Trinary.Reasoner.quarantine_contradicted self)
  end.

(** The store of a fresh reasoner after a sequence of calls. *)
Definition reasoner_after {F : Trinary.FloatOps} (calls : list (reasoner_call F))
    : Trinary.Reasoner.TrinaryReasoner F :=
  fold_left (fun self c => reasoner_step c self) calls
            Trinary.Reasoner.__init__.

(** What the methods keep: every proposition is stored under its own
    statement, with one of the three truth values, and no key twice. *)
Definition store_ok {F : Trinary.FloatOps}
    (self : Trinary.Reasoner.TrinaryReasoner F) : Prop :=
  NoDup (keys self)
  /\ Forall (fun kp => Trinary.Proposition.statement (snd kp) = fst kp
                       /\ truth_value (Trinary.Proposition.truth (snd kp)))
            self.

(** The character of a decimal digit. *)
Definition digit (z : Z) : string :=
  match z with
  | 0%Z => "0" | 1%Z => "1" | 2%Z => "2" | 3%Z => "3" | 4%Z => "4"
  | 5%Z => "5" | 6%Z => "6" | 7%Z => "7" | 8%Z => "8" | 9%Z => "9"
  | _ => "?"
  end%string.

(** Floats read as integers in tenths, for examples: [7] stands for
    [0.7] and prints as ["0.7"]. *)
Definition tenths : Trinary.FloatOps :=
  Trinary.mk_FloatOps Z 0%Z 3%Z 5%Z Z.sub Z.gtb
    (fun z => (digit (z / 10) ++ "." ++ digit (z mod 10))%string).

(** A reasoner that holds "rain" as true and "wind" as false, the second
    with one contradiction on record. *)
Definition sky : Trinary.Reasoner.TrinaryReasoner tenths :=
  [("rain"%string,
    Trinary.Proposition.mk_TrinaryProposition (F := tenths)
      "rain" Trinary.TRUE 10%Z [] []);
   ("wind"%string,
    Trinary.Proposition.mk_TrinaryProposition (F := tenths)
      "wind" Trinary.FALSE 7%Z []
      ["Previously TRUE, now asserted FALSE (conf=0.7)"%string])].


(** The last [k] elements of a list (all of them when there are fewer). *)
Definition last_n {A} (k : nat) (l : list A) : list A :=
  skipn (length l - k) l.

(** A state reached from another by calls of [step] that returned. *)
Inductive stepped {F : Emergence.FloatOps}
    : Emergence.EmergenceState F -> Emergence.EmergenceState F -> Prop :=
| stepped_refl (s : Emergence.EmergenceState F) : stepped s s
| stepped_step (s s1 s2 : Emergence.EmergenceState F)
    (new_C new_delta : Emergence.float F) :
    stepped s s1 -> Emergence.step new_C new_delta s1 = Emergence.Value s2 ->
    stepped s s2.

(** Floats read as integers, for examples: [exp] overflows above 700. *)
Definition int_floats : Emergence.FloatOps :=
  Emergence.mk_FloatOps Z 0%Z 0%Z 0%Z 0%Z 1%Z Z.add Z.mul Z.abs (fun _ => 0%Z)
    (fun x => if (700 <? x)%Z then None else Some (2 ^ x)%Z)
    Z.ltb Z.gtb (fun x => negb (x =? 0)%Z) (fun z => z).

(* ================================================================== *)
(** * Basis indices and their bits                                     *)
(* ================================================================== *)

(** The convention of the class docstring: qubit [0] is the most
    significant bit of a basis index. *)

Lemma size_of_repeat2 (n : nat) : size_of (repeat 2 n) = 2 ^ n.
Proof.
  unfold size_of.
  induction n as [|n IH]; [reflexivity|].
  cbn [repeat fold_right]. rewrite IH. simpl. lia.
Qed.

Lemma pow2_pos (n : nat) : 0 < 2 ^ n.
Proof. induction n; simpl; lia. Qed.

Lemma bits_length (n x : nat) : length (bits n x) = n.
Proof. unfold bits. now rewrite length_map, length_seq. Qed.

Lemma bits_S (n x : nat) :
  bits (S n) x = (x / 2 ^ n) mod 2 :: bits n x.
Proof.
  unfold bits. rewrite <- cons_seq, <- seq_shift. simpl map.
  rewrite map_map. f_equal.
  - unfold qubit_bit. now replace (S n - 1 - 0) with n by lia.
  - apply map_ext. intros p. unfold qubit_bit.
    now replace (S n - 1 - S p) with (n - 1 - p) by lia.
Qed.

Lemma unravel_index_repeat2 (n j : nat) :
  unravel_index (repeat 2 n) j = bits n j.
Proof.
  induction n as [|n IH]; [reflexivity|].
  rewrite bits_S. simpl. rewrite IH.
  now rewrite (size_of_repeat2 n).
Qed.

Lemma nth_bits (n p x : nat) :
  p < n -> nth p (bits n x) 0 = qubit_bit n p x.
Proof.
  intros Hp. unfold bits.
  rewrite (nth_indep _ 0 (qubit_bit n n x)) by now rewrite length_map, length_seq.
  rewrite (map_nth (fun p => qubit_bit n p x)). now rewrite seq_nth.
Qed.

Lemma bits_lt2 (n x : nat) : Forall (fun b => b < 2) (bits n x).
Proof.
  unfold bits. apply Forall_forall. intros b Hb.
  apply in_map_iff in Hb. destruct Hb as [p [<- _]].
  unfold qubit_bit. apply Nat.mod_upper_bound. lia.
Qed.

Lemma from_bits_lt (l : list nat) :
  Forall (fun b => b < 2) l -> from_bits l < 2 ^ length l.
Proof.
  induction 1 as [|b l Hb _ IH]; simpl; [lia|].
  assert (b * 2 ^ length l <= 2 ^ length l) by nia. lia.
Qed.

Lemma from_bits_bits (n x : nat) : from_bits (bits n x) = x mod 2 ^ n.
Proof.
  induction n as [|n IH]; [reflexivity|].
  rewrite bits_S. cbn [from_bits]. rewrite bits_length, IH.
  replace (2 ^ S n) with (2 ^ n * 2) by (simpl; lia).
  rewrite Nat.Div0.mod_mul_r. lia.
Qed.

Lemma from_bits_bits_small (n x : nat) :
  x < 2 ^ n -> from_bits (bits n x) = x.
Proof. intros H. rewrite from_bits_bits. now apply Nat.mod_small. Qed.

Lemma qubit_bit_add_high (n p a r : nat) :
  p < n -> qubit_bit n p (a * 2 ^ n + r) = qubit_bit n p r.
Proof.
  intros Hp. unfold qubit_bit.
  set (e := n - 1 - p).
  replace n with (S (n - 1 - e) + e) at 1 by lia.
  rewrite Nat.pow_add_r, Nat.mul_assoc, Nat.add_comm.
  rewrite Nat.div_add by (pose proof (pow2_pos e); lia).
  replace (a * 2 ^ S (n - 1 - e)) with ((a * 2 ^ (n - 1 - e)) * 2)
    by (simpl; lia).
  now rewrite Nat.Div0.mod_add.
Qed.

Lemma bits_add_high (n a r : nat) : bits n (a * 2 ^ n + r) = bits n r.
Proof.
  unfold bits. apply map_ext_in. intros p Hp. apply in_seq in Hp.
  apply qubit_bit_add_high. lia.
Qed.

Lemma bits_from_bits (l : list nat) :
  Forall (fun b => b < 2) l -> bits (length l) (from_bits l) = l.
Proof.
  induction 1 as [|b l Hb Hl IH]; [reflexivity|].
  cbn [length]. rewrite bits_S. cbn [from_bits].
  pose proof (from_bits_lt l Hl) as Hlt.
  rewrite bits_add_high, IH. f_equal.
  rewrite Nat.div_add_l by (pose proof (pow2_pos (length l)); lia).
  rewrite (Nat.div_small (from_bits l)) by assumption.
  rewrite Nat.add_0_r. now apply Nat.mod_small.
Qed.

Lemma from_bits_app (l1 l2 : list nat) :
  from_bits (l1 ++ l2) = from_bits l1 * 2 ^ length l2 + from_bits l2.
Proof.
  induction l1 as [|b l1 IH]; [reflexivity|].
  cbn [app from_bits]. rewrite IH, length_app, Nat.pow_add_r. lia.
Qed.

Lemma bits_app (k m r c : nat) :
  r < 2 ^ k -> c < 2 ^ m ->
  bits (k + m) (r * 2 ^ m + c) = bits k r ++ bits m c.
Proof.
  intros Hr Hc.
  assert (E : r * 2 ^ m + c = from_bits (bits k r ++ bits m c)).
  { rewrite from_bits_app, bits_length.
    now rewrite !from_bits_bits_small. }
  rewrite E.
  replace (k + m) with (length (bits k r ++ bits m c))
    by (now rewrite length_app, !bits_length).
  apply bits_from_bits. apply Forall_app. split; apply bits_lt2.
Qed.

Lemma bits_inj (n x y : nat) :
  x < 2 ^ n -> y < 2 ^ n -> bits n x = bits n y -> x = y.
Proof.
  intros Hx Hy E.
  rewrite <- (from_bits_bits_small n x Hx), <- (from_bits_bits_small n y Hy).
  now rewrite E.
Qed.

(* ================================================================== *)
(** * Axis permutations                                                *)
(* ================================================================== *)

Lemma nth_seq_map (l : list nat) :
  map (fun p => nth p l 0) (seq 0 (length l)) = l.
Proof.
  induction l as [|a l IH]; [reflexivity|].
  cbn [length]. rewrite <- cons_seq, <- seq_shift. cbn [map nth].
  rewrite map_map. cbn [nth]. now rewrite IH.
Qed.

Lemma gather_seq (l : list nat) : gather (seq 0 (length l)) l = l.
Proof. apply nth_seq_map. Qed.

Lemma gather_length (q l : list nat) : length (gather q l) = length q.
Proof. apply length_map. Qed.

Lemma nth_gather (q l : list nat) (a : nat) :
  a < length q -> nth a (gather q l) 0 = nth (nth a q 0) l 0.
Proof.
  intros Ha. unfold gather.
  rewrite (nth_indep _ 0 (nth (nth (length q) q 0) l 0))
    by now rewrite length_map.
  rewrite (map_nth (fun p => nth p l 0)).
  f_equal. apply nth_indep. assumption.
Qed.

Lemma list_eq_nth (l1 l2 : list nat) :
  length l1 = length l2 ->
  (forall a, a < length l1 -> nth a l1 0 = nth a l2 0) -> l1 = l2.
Proof.
  revert l2. induction l1 as [|x l1 IH]; intros [|y l2] Hlen H; try discriminate.
  - reflexivity.
  - f_equal.
    + apply (H 0). simpl. lia.
    + apply IH; [simpl in Hlen; lia|].
      intros a Ha. apply (H (S a)). simpl. lia.
Qed.

Lemma gather_repeat (q : list nat) (n d : nat) :
  Forall (fun p => p < n) q -> gather q (repeat d n) = repeat d (length q).
Proof.
  induction 1 as [|p q Hp _ IH]; [reflexivity|].
  simpl. rewrite IH. f_equal.
  apply nth_repeat_lt. assumption.
Qed.

(** The offset computed through strides is a sum over the axes, so it
    does not depend on the order the axes are visited in. *)
Lemma dot_map (f g : nat -> nat) (q : list nat) :
  dot (map f q) (map g q) = list_sum (map (fun p => f p * g p) q).
Proof. induction q as [|p q IH]; simpl; [reflexivity|]. now rewrite IH. Qed.

Lemma list_sum_perm (l1 l2 : list nat) :
  Permutation l1 l2 -> list_sum l1 = list_sum l2.
Proof. induction 1; simpl; lia. Qed.

Lemma dot_gather (perm i st : list nat) :
  Permutation perm (seq 0 (length i)) -> length st = length i ->
  dot (gather perm i) (gather perm st) = dot i st.
Proof.
  intros HP Hlen. unfold gather. rewrite dot_map.
  rewrite (list_sum_perm _ _ (Permutation_map _ HP)).
  rewrite <- dot_map. rewrite nth_seq_map.
  rewrite <- Hlen. now rewrite nth_seq_map.
Qed.

Lemma strides_repeat2_length (n : nat) : length (strides (repeat 2 n)) = n.
Proof. induction n; simpl; [reflexivity|]. now rewrite IHn. Qed.

Lemma dot_strides_repeat2 (l : list nat) :
  dot l (strides (repeat 2 (length l))) = from_bits l.
Proof.
  induction l as [|b l IH]; [reflexivity|].
  cbn [length repeat strides dot from_bits].
  now rewrite IH, size_of_repeat2.
Qed.

Lemma inverse_axes_sym (n : nat) (perm inv : list nat) :
  inverse_axes n perm inv -> inverse_axes n inv perm.
Proof. intros (H1 & H2 & H3 & H4). repeat split; assumption. Qed.

Lemma perm_seq_length (n : nat) (perm : list nat) :
  Permutation perm (seq 0 n) -> length perm = n.
Proof. intros H. apply Permutation_length in H. now rewrite length_seq in H. Qed.

Lemma perm_seq_lt (n : nat) (perm : list nat) :
  Permutation perm (seq 0 n) -> Forall (fun p => p < n) perm.
Proof.
  intros H. apply Forall_forall. intros p Hp.
  apply (Permutation_in _ H) in Hp. apply in_seq in Hp. lia.
Qed.

Lemma perm_seq_nth_lt (n : nat) (perm : list nat) (a : nat) :
  Permutation perm (seq 0 n) -> a < n -> nth a perm 0 < n.
Proof.
  intros H Ha. pose proof (perm_seq_lt n perm H) as F.
  rewrite Forall_forall in F. apply F. apply nth_In.
  now rewrite (perm_seq_length n perm H).
Qed.

Lemma transpose_offset (n : nat) (perm inv : list nat) (j : nat) :
  inverse_axes n perm inv ->
  dot (unravel_index (gather perm (repeat 2 n)) j)
      (gather perm (strides (repeat 2 n)))
  = source_index n inv j.
Proof.
  intros (HP & HI & Hpi & Hip).
  pose proof (perm_seq_length n perm HP) as Lp.
  pose proof (perm_seq_length n inv HI) as Li.
  rewrite (gather_repeat perm n 2 (perm_seq_lt n perm HP)), Lp.
  rewrite unravel_index_repeat2. unfold source_index.
  set (i := gather inv (bits n j)).
  assert (Hi : length i = n) by (unfold i; now rewrite gather_length).
  assert (E : bits n j = gather perm i).
  { apply list_eq_nth.
    - now rewrite bits_length, gather_length.
    - intros a Ha. rewrite bits_length in Ha.
      rewrite nth_gather by lia. unfold i.
      rewrite nth_gather by (rewrite Li; now apply perm_seq_nth_lt).
      now rewrite Hpi. }
  rewrite E, dot_gather.
  - rewrite <- Hi at 1. apply dot_strides_repeat2.
  - now rewrite Hi.
  - now rewrite strides_repeat2_length.
Qed.

Lemma source_index_lt (n : nat) (inv : list nat) (j : nat) :
  length inv = n -> source_index n inv j < 2 ^ n.
Proof.
  intros Li. unfold source_index.
  replace n with (length (gather inv (bits n j))) at 2
    by now rewrite gather_length.
  apply from_bits_lt. unfold gather. apply Forall_forall.
  intros b Hb. apply in_map_iff in Hb. destruct Hb as [p [<- _]].
  destruct (Nat.lt_ge_cases p n) as [Hp|Hp].
  - rewrite nth_bits by assumption. unfold qubit_bit.
    apply Nat.mod_upper_bound. lia.
  - rewrite nth_overflow by now rewrite bits_length. lia.
Qed.

Lemma bits_source_index (n : nat) (inv : list nat) (j : nat) :
  length inv = n ->
  bits n (source_index n inv j) = gather inv (bits n j).
Proof.
  intros Li. unfold source_index.
  replace n with (length (gather inv (bits n j))) at 1
    by now rewrite gather_length.
  apply bits_from_bits. unfold gather. apply Forall_forall.
  intros b Hb. apply in_map_iff in Hb. destruct Hb as [p [<- _]].
  destruct (Nat.lt_ge_cases p n) as [Hp|Hp].
  - rewrite nth_bits by assumption. unfold qubit_bit.
    apply Nat.mod_upper_bound. lia.
  - rewrite nth_overflow by now rewrite bits_length. lia.
Qed.

(** Reading through [perm] and then through its inverse gives back the
    position started from. *)
Lemma source_index_inverse (n : nat) (perm inv : list nat) (j : nat) :
  inverse_axes n perm inv -> j < 2 ^ n ->
  source_index n perm (source_index n inv j) = j.
Proof.
  intros (HP & HI & Hpi & Hip) Hj.
  pose proof (perm_seq_length n perm HP) as Lp.
  pose proof (perm_seq_length n inv HI) as Li.
  unfold source_index at 1. rewrite bits_source_index by assumption.
  rewrite <- (from_bits_bits_small n j Hj) at 2. f_equal.
  apply list_eq_nth.
  - now rewrite !gather_length, bits_length.
  - intros a Ha. rewrite gather_length, Lp in Ha.
    rewrite nth_gather by lia.
    rewrite nth_gather by (rewrite Li; now apply perm_seq_nth_lt).
    now rewrite Hpi.
Qed.

(** ** [np.argsort] of a permutation is its inverse *)

Section Argsort.
Variable key : nat -> nat.

Let key_le (a b : nat) : Prop := key a <= key b.

Lemma insert_by_perm (i : nat) (l : list nat) :
  Permutation (insert_by key i l) (i :: l).
Proof.
  induction l as [|j l IH]; simpl; [apply Permutation_refl|].
  destruct (key i <? key j); [apply Permutation_refl|].
  eapply Permutation_trans; [apply perm_skip, IH|apply perm_swap].
Qed.

Lemma insert_by_sorted (i : nat) (l : list nat) :
  Sorted key_le l -> Sorted key_le (insert_by key i l).
Proof.
  induction l as [|j l IH]; intros HS; simpl.
  - repeat constructor.
  - destruct (key i <? key j) eqn:E.
    + apply Nat.ltb_lt in E. constructor; [assumption|].
      constructor. unfold key_le. lia.
    + apply Nat.ltb_ge in E. inversion HS as [|? ? HS' HR]; subst.
      constructor; [now apply IH|].
      destruct l as [|j' l]; simpl.
      * constructor. exact E.
      * destruct (key i <? key j'); constructor.
        -- exact E.
        -- now inversion HR.
Qed.

Lemma fold_insert_by_perm (l acc : list nat) :
  Permutation (fold_left (fun a i => insert_by key i a) l acc) (l ++ acc).
Proof.
  revert acc. induction l as [|i l IH]; intros acc; simpl.
  - apply Permutation_refl.
  - eapply Permutation_trans; [apply IH|].
    eapply Permutation_trans;
      [apply Permutation_app_head, insert_by_perm|].
    apply Permutation_sym, Permutation_middle.
Qed.

Lemma fold_insert_by_sorted (l acc : list nat) :
  Sorted key_le acc ->
  Sorted key_le (fold_left (fun a i => insert_by key i a) l acc).
Proof.
  revert acc. induction l as [|i l IH]; intros acc HS; simpl.
  - assumption.
  - apply IH. now apply insert_by_sorted.
Qed.

Lemma sorted_map_key (l : list nat) :
  Sorted key_le l -> Sorted le (map key l).
Proof.
  induction 1 as [|a l HS IH HR]; simpl; constructor; [assumption|].
  destruct HR; simpl; constructor. assumption.
Qed.

End Argsort.

Lemma sorted_perm_seq (n s : nat) (l : list nat) :
  Sorted le l -> Permutation l (seq s n) -> l = seq s n.
Proof.
  revert s l. induction n as [|n IH]; intros s l HS HP.
  - simpl in HP. now apply Permutation_sym, Permutation_nil in HP.
  - destruct l as [|h t].
    { apply Permutation_length in HP. discriminate. }
    assert (Hh : h = s).
    { assert (Hs : In s (h :: t))
        by (apply (Permutation_in _ (Permutation_sym HP)); simpl; now left).
      assert (Hin : In h (seq s (S n)))
        by (apply (Permutation_in _ HP); now left).
      apply in_seq in Hin.
      apply Sorted_StronglySorted in HS; [|intros x y z; lia].
      inversion HS as [|? ? _ HF]; subst.
      destruct Hs as [Hs|Hs]; [assumption|].
      rewrite Forall_forall in HF. specialize (HF s Hs). lia. }
    subst h. simpl. f_equal. apply IH.
    + now inversion HS.
    + simpl in HP. now apply Permutation_cons_inv in HP.
Qed.

Lemma argsort_perm (l : list nat) :
  Permutation (argsort l) (seq 0 (length l)).
Proof.
  unfold argsort.
  eapply Permutation_trans; [apply fold_insert_by_perm|].
  now rewrite app_nil_r.
Qed.

Lemma gather_argsort (n : nat) (perm : list nat) :
  Permutation perm (seq 0 n) -> gather (argsort perm) perm = seq 0 n.
Proof.
  intros HP. apply sorted_perm_seq.
  - unfold gather, argsort.
    apply (sorted_map_key (fun p => nth p perm 0)).
    apply fold_insert_by_sorted. constructor.
  - eapply Permutation_trans; [|exact HP].
    eapply Permutation_trans;
      [apply Permutation_map, argsort_perm|].
    fold (gather (seq 0 (length perm)) perm). rewrite gather_seq.
    apply Permutation_refl.
Qed.

Lemma argsort_inverse (n : nat) (perm : list nat) :
  Permutation perm (seq 0 n) -> inverse_axes n perm (argsort perm).
Proof.
  intros HP.
  pose proof (perm_seq_length n perm HP) as Lp.
  pose proof (argsort_perm perm) as HI. rewrite Lp in HI.
  pose proof (perm_seq_length n _ HI) as Li.
  assert (Hip : forall p, p < n -> nth (nth p (argsort perm) 0) perm 0 = p).
  { intros p Hp.
    rewrite <- nth_gather by now rewrite Li.
    rewrite (gather_argsort n perm HP). now rewrite seq_nth. }
  repeat split; try assumption.
  intros a Ha.
  assert (ND : NoDup perm)
    by (apply (Permutation_NoDup (Permutation_sym HP)), seq_NoDup).
  rewrite (NoDup_nth perm 0) in ND. apply ND.
  - rewrite Lp. apply perm_seq_nth_lt; [assumption|].
    now apply perm_seq_nth_lt.
  - now rewrite Lp.
  - apply Hip. now apply perm_seq_nth_lt.
Qed.

(** ** Valid qubit tuples and the axes they select *)

Lemma permutation_of_eq (n : nat) (qubits : list Z) :
  permutation_of n qubits = map Z.to_nat qubits ++ other_qubits n qubits.
Proof. reflexivity. Qed.

Lemma existsb_qubit (i : nat) (qubits : list Z) :
  Forall (fun q => (0 <= q)%Z) qubits ->
  existsb (Z.eqb (Z.of_nat i)) qubits = true <-> In i (map Z.to_nat qubits).
Proof.
  intros HF. rewrite existsb_exists, in_map_iff. split.
  - intros [q [Hq E]]. apply Z.eqb_eq in E. exists q. split; [lia|assumption].
  - intros [q [E Hq]]. exists q. split; [assumption|].
    rewrite Forall_forall in HF. specialize (HF q Hq).
    apply Z.eqb_eq. lia.
Qed.

Lemma valid_qubits_nonneg (n : nat) (qubits : list Z) :
  valid_qubits n qubits -> Forall (fun q => (0 <= q)%Z) qubits.
Proof.
  intros [_ HF]. eapply Forall_impl; [|exact HF]. simpl. intros; lia.
Qed.

Lemma valid_qubits_nodup (n : nat) (qubits : list Z) :
  valid_qubits n qubits -> NoDup (map Z.to_nat qubits).
Proof.
  intros [ND HF]. induction ND as [|q l Hq ND IH]; simpl; constructor.
  - inversion HF as [|? ? Hq0 HF']; subst.
    rewrite in_map_iff. intros [q' [E Hq']].
    rewrite Forall_forall in HF'. specialize (HF' q' Hq').
    assert (q' = q) by lia. now subst.
  - apply IH. now inversion HF.
Qed.

Lemma valid_qubits_lt (n : nat) (qubits : list Z) :
  valid_qubits n qubits -> Forall (fun p => p < n) (map Z.to_nat qubits).
Proof.
  intros [_ HF]. apply Forall_forall. intros p Hp.
  apply in_map_iff in Hp. destruct Hp as [q [<- Hq]].
  rewrite Forall_forall in HF. specialize (HF q Hq). lia.
Qed.

Lemma filter_partition_perm {A} (f : A -> bool) (l : list A) :
  Permutation l (filter f l ++ filter (fun x => negb (f x)) l).
Proof.
  induction l as [|x l IH]; simpl; [constructor|].
  destruct (f x); simpl.
  - now constructor.
  - now apply Permutation_cons_app.
Qed.

Lemma permutation_of_perm (n : nat) (qubits : list Z) :
  valid_qubits n qubits -> Permutation (permutation_of n qubits) (seq 0 n).
Proof.
  intros HV. rewrite permutation_of_eq. unfold other_qubits.
  eapply Permutation_trans;
    [|apply Permutation_sym,
        (filter_partition_perm (fun i => existsb (Z.eqb (Z.of_nat i)) qubits))].
  apply Permutation_app_tail.
  apply NoDup_Permutation.
  - now apply (valid_qubits_nodup n).
  - apply NoDup_filter, seq_NoDup.
  - intros p. rewrite filter_In, in_seq.
    rewrite (existsb_qubit p qubits (valid_qubits_nonneg n qubits HV)).
    pose proof (valid_qubits_lt n qubits HV) as HL.
    rewrite Forall_forall in HL. split.
    + intros Hp. specialize (HL p Hp). split; [lia|assumption].
    + now intros [_ Hp].
Qed.

Lemma permutation_of_inverse (n : nat) (qubits : list Z) :
  valid_qubits n qubits ->
  inverse_axes n (permutation_of n qubits) (argsort (permutation_of n qubits)).
Proof. intros HV. now apply argsort_inverse, permutation_of_perm. Qed.

Lemma valid_qubits_length (n : nat) (qubits : list Z) :
  valid_qubits n qubits -> length qubits <= n.
Proof.
  intros HV.
  pose proof (perm_seq_length n _ (permutation_of_perm n qubits HV)) as L.
  rewrite permutation_of_eq, length_app, length_map in L. lia.
Qed.

Lemma other_qubits_length (n : nat) (qubits : list Z) :
  valid_qubits n qubits -> length (other_qubits n qubits) = n - length qubits.
Proof.
  intros HV.
  pose proof (perm_seq_length n _ (permutation_of_perm n qubits HV)) as L.
  rewrite permutation_of_eq, length_app, length_map in L. lia.
Qed.

(* ================================================================== *)
(** * Transposing binary tensors                                       *)
(* ================================================================== *)

Lemma nth_map_seq {A} (f : nat -> A) (n i : nat) (d : A) :
  i < n -> nth i (map f (seq 0 n)) d = f i.
Proof.
  intros Hi. rewrite (nth_indep _ d (f 0)) by now rewrite length_map, length_seq.
  rewrite (map_nth f). now rewrite seq_nth.
Qed.

Lemma transpose_data {A} (d : A) (n : nat) (v : list A) (perm inv : list nat) :
  inverse_axes n perm inv ->
  transpose d (mk_ndarray (repeat 2 n) v) perm
  = mk_ndarray (repeat 2 n)
      (map (fun j => nth (source_index n inv j) v d) (seq 0 (2 ^ n))).
Proof.
  intros HI. pose proof HI as (HP & _).
  unfold transpose. cbn [shape data].
  fold (gather perm (repeat 2 n)).
  fold (gather perm (strides (repeat 2 n))).
  rewrite (gather_repeat perm n 2 (perm_seq_lt n perm HP)).
  rewrite (perm_seq_length n perm HP), size_of_repeat2.
  f_equal. apply map_ext. intros j.
  rewrite <- (transpose_offset n perm inv j HI).
  rewrite (gather_repeat perm n 2 (perm_seq_lt n perm HP)).
  now rewrite (perm_seq_length n perm HP).
Qed.

(* ================================================================== *)
(** * Validation of qubit arguments                                    *)
(* ================================================================== *)

Lemma nodup_length_le {A} (dec : forall x y : A, {x = y} + {x <> y}) (l : list A) :
  length (nodup dec l) <= length l.
Proof.
  induction l as [|x l IH]; simpl; [lia|].
  destruct (in_dec dec x l); simpl; lia.
Qed.

Lemma nodup_length_iff {A} (dec : forall x y : A, {x = y} + {x <> y}) (l : list A) :
  length l = length (nodup dec l) <-> NoDup l.
Proof.
  split.
  - induction l as [|x l IH]; simpl; intros H; [constructor|].
    pose proof (nodup_length_le dec l).
    destruct (in_dec dec x l) as [Hin|Hin]; simpl in H; [lia|].
    constructor; [assumption|]. apply IH. lia.
  - intros H. now rewrite nodup_fixed_point.
Qed.

Lemma check_range_ok (n : nat) (qubits : list Z) :
  check_range n qubits = Ok tt <->
  Forall (fun q => (0 <= q < Z.of_nat n)%Z) qubits.
Proof.
  induction qubits as [|q l IH]; simpl.
  - split; [constructor|reflexivity].
  - destruct (0 <=? q)%Z eqn:E1; destruct (q <? Z.of_nat n)%Z eqn:E2; simpl;
      rewrite ?Z.leb_le, ?Z.leb_gt, ?Z.ltb_lt, ?Z.ltb_ge in *.
    + rewrite IH. split; [intros H; constructor; [lia|assumption]
                         |intros H; now inversion H].
    + split; [discriminate|intros H; inversion H; lia].
    + split; [discriminate|intros H; inversion H; lia].
    + split; [discriminate|intros H; inversion H; lia].
Qed.

Lemma normalise_valid (self : QuantumCircuit) (qubits : list Z) :
  valid_qubits (num_qubits self) qubits ->
  _normalise_qubits (Some qubits) self = mk_run (Ok qubits) self [].
Proof.
  intros [ND HF]. unfold _normalise_qubits, bind, get_self. cbn [value self_after writes].
  apply (nodup_length_iff Z.eq_dec) in ND. rewrite <- ND, Nat.eqb_refl.
  cbn [negb]. apply check_range_ok in HF. rewrite HF. reflexivity.
Qed.

Lemma valid_all_qubits (n : nat) : valid_qubits n (map Z.of_nat (seq 0 n)).
Proof.
  split.
  - apply Finite.Injective_map_NoDup; [|apply seq_NoDup].
    intros x y H. lia.
  - apply Forall_forall. intros q Hq. apply in_map_iff in Hq.
    destruct Hq as [p [<- Hp]]. apply in_seq in Hp. lia.
Qed.

Lemma normalise_none (self : QuantumCircuit) :
  _normalise_qubits None self
  = mk_run (Ok (map Z.of_nat (seq 0 (num_qubits self)))) self [].
Proof. reflexivity. Qed.

(** Whatever [_normalise_qubits] is given, it leaves the object alone, and
    what it returns is a valid tuple of qubits. *)
Lemma normalise_cases (self : QuantumCircuit) (qubits : option (list Z)) :
  (exists qt, _normalise_qubits qubits self = mk_run (Ok qt) self []
              /\ valid_qubits (num_qubits self) qt
              /\ (forall qs, qubits = Some qs -> qt = qs))
  \/ (exists e, _normalise_qubits qubits self = mk_run (Raise e) self []
                /\ exists qs, qubits = Some qs
                              /\ ~ valid_qubits (num_qubits self) qs).
Proof.
  destruct qubits as [qs|].
  - destruct (Nat.eqb_spec (length qs) (length (nodup Z.eq_dec qs))) as [E|E].
    + destruct (check_range (num_qubits self) qs) as [[]|e] eqn:R.
      * left. exists qs. apply check_range_ok in R.
        apply (nodup_length_iff Z.eq_dec) in E.
        split; [now apply normalise_valid|]. split; [now split|].
        intros ? [= ->]. reflexivity.
      * right. exists e. split.
        -- unfold _normalise_qubits, bind, get_self.
           cbn [value self_after writes].
           apply Nat.eqb_eq in E. rewrite E. cbn [negb]. rewrite R. reflexivity.
        -- exists qs. split; [reflexivity|]. intros [_ HF].
           apply check_range_ok in HF. congruence.
    + right. exists ValueError. split.
      * unfold _normalise_qubits, bind, get_self.
        cbn [value self_after writes].
        apply Nat.eqb_neq in E. rewrite E. reflexivity.
      * exists qs. split; [reflexivity|]. intros [ND _].
        apply (nodup_length_iff Z.eq_dec) in ND. contradiction.
  - left. exists (map Z.of_nat (seq 0 (num_qubits self))).
    split; [reflexivity|]. split; [apply valid_all_qubits|discriminate].
Qed.

(* ================================================================== *)
(** * Arithmetic of amplitudes                                         *)
(* ================================================================== *)

Lemma C_ring_theory : ring_theory Czero Cone Cadd Cmul Csub Copp (@eq C).
Proof.
  constructor; intros; repeat match goal with z : C |- _ => destruct z end;
    unfold Csub; unfold Czero, Cone, RtoC, Cadd, Cmul, Copp, Re, Im; simpl;
    f_equal; ring.
Qed.

Add Ring C_ring : C_ring_theory.

Lemma Cabs_sq_norm2 (z : C) : Cabs_sq z = Cnorm2 z.
Proof.
  unfold Cabs_sq, Cabs. simpl pow. rewrite Rmult_1_r.
  apply sqrt_sqrt. unfold Cnorm2. nra.
Qed.

Lemma Cnorm2_nonneg (z : C) : (0 <= Cnorm2 z)%R.
Proof. unfold Cnorm2. nra. Qed.

Lemma Cnorm2_Czero : Cnorm2 Czero = 0%R.
Proof. unfold Cnorm2, Czero, RtoC, Re, Im. simpl. ring. Qed.

Lemma Cnorm2_Cone : Cnorm2 Cone = 1%R.
Proof. unfold Cnorm2, Cone, RtoC, Re, Im. simpl. ring. Qed.

(* ================================================================== *)
(** * Gate application                                                 *)
(* ================================================================== *)

(** ** What the claim calls (U tensor I), on basis indices *)

Lemma index_of_nth (l : list nat) (a : nat) :
  NoDup l -> a < length l -> index_of (nth a l 0) l = Some a.
Proof.
  intros ND. revert a. induction ND as [|q l Hq ND IH]; intros a Ha.
  - simpl in Ha. lia.
  - destruct a as [|a]; simpl.
    + now rewrite Nat.eqb_refl.
    + simpl in Ha. destruct (Nat.eqb_spec (nth a l 0) q) as [E|E].
      * exfalso. apply Hq. rewrite <- E. apply nth_In. lia.
      * rewrite IH by lia. reflexivity.
Qed.

Lemma index_of_none (l : list nat) (p : nat) :
  ~ In p l -> index_of p l = None.
Proof.
  induction l as [|q l IH]; intros H; simpl; [reflexivity|].
  destruct (Nat.eqb_spec p q) as [E|E].
  - exfalso. apply H. now left.
  - rewrite IH; [reflexivity|]. intros Hin. apply H. now right.
Qed.

Lemma other_qubits_not_in (n : nat) (qubits : list Z) (p : nat) :
  valid_qubits n qubits ->
  In p (other_qubits n qubits) -> ~ In p (map Z.to_nat qubits).
Proof.
  intros HV Hin. unfold other_qubits in Hin. apply filter_In in Hin.
  destruct Hin as [_ H]. apply negb_true_iff in H.
  rewrite <- (existsb_qubit p qubits (valid_qubits_nonneg n qubits HV)).
  congruence.
Qed.

Lemma gather_bits (n : nat) (q : list nat) (x : nat) :
  Forall (fun p => p < n) q ->
  gather q (bits n x) = map (fun p => qubit_bit n p x) q.
Proof.
  intros HF. unfold gather. apply map_ext_in. intros p Hp.
  rewrite Forall_forall in HF. now apply nth_bits, HF.
Qed.

Lemma gather_lt2 (q l : list nat) :
  Forall (fun b => b < 2) l -> Forall (fun b => b < 2) (gather q l).
Proof.
  intros HF. unfold gather. apply Forall_forall. intros b Hb.
  apply in_map_iff in Hb. destruct Hb as [p [<- _]].
  destruct (Nat.lt_ge_cases p (length l)) as [Hp|Hp].
  - rewrite Forall_forall in HF. apply HF. now apply nth_In.
  - rewrite nth_overflow by assumption. lia.
Qed.

(** The bits read through the inverse permutation: target positions take
    the bits of the row index, the others keep theirs. *)
Lemma gather_inverse_scatter (n : nat) (qubits : list Z) (yb bx : list nat) :
  valid_qubits n qubits ->
  length yb = length qubits -> length bx = n ->
  gather (argsort (permutation_of n qubits))
         (yb ++ gather (other_qubits n qubits) bx)
  = map (fun p => match index_of p (map Z.to_nat qubits) with
                  | Some a => nth a yb 0
                  | None => nth p bx 0
                  end)
        (seq 0 n).
Proof.
  intros HV Hy Hx.
  pose proof (permutation_of_inverse n qubits HV) as (HP & HI & Hpi & Hip).
  pose proof (perm_seq_length n _ HI) as Li.
  apply list_eq_nth.
  - now rewrite gather_length, length_map, length_seq.
  - intros p Hp. rewrite gather_length, Li in Hp.
    rewrite nth_gather by now rewrite Li.
    rewrite (nth_map_seq _ n p 0 Hp).
    set (a := nth p (argsort (permutation_of n qubits)) 0).
    assert (Ha : a < n) by (apply perm_seq_nth_lt; assumption).
    specialize (Hip p Hp). fold a in Hip.
    rewrite permutation_of_eq in Hip.
    destruct (Nat.lt_ge_cases a (length qubits)) as [Hk|Hk].
    + rewrite app_nth1 in Hip by now rewrite length_map.
      rewrite app_nth1 by lia.
      rewrite <- Hip, index_of_nth;
        [reflexivity|now apply (valid_qubits_nodup n)|now rewrite length_map].
    + rewrite app_nth2 in Hip by (rewrite length_map; lia).
      rewrite length_map in Hip.
      rewrite app_nth2 by lia. rewrite Hy.
      assert (Hr : a - length qubits < length (other_qubits n qubits))
        by (rewrite other_qubits_length by assumption; lia).
      rewrite nth_gather by assumption. rewrite Hip.
      rewrite index_of_none; [reflexivity|].
      apply (other_qubits_not_in n qubits p HV).
      rewrite <- Hip. now apply nth_In.
Qed.

Lemma index_of_lt (l : list nat) (p a : nat) :
  index_of p l = Some a -> a < length l.
Proof.
  revert a. induction l as [|q l IH]; intros a H; simpl in *; [discriminate|].
  destruct (p =? q).
  - injection H as <-. lia.
  - destruct (index_of p l) as [b|]; [|discriminate].
    injection H as <-. specialize (IH b eq_refl). lia.
Qed.

Lemma pow2_split (n k : nat) : k <= n -> 2 ^ k * 2 ^ (n - k) = 2 ^ n.
Proof. intros H. rewrite <- Nat.pow_add_r. f_equal. lia. Qed.

Lemma pow2_div (n k : nat) : k <= n -> 2 ^ n / 2 ^ k = 2 ^ (n - k).
Proof.
  intros H. rewrite <- (pow2_split n k H), Nat.mul_comm.
  apply Nat.div_mul. pose proof (pow2_pos k). lia.
Qed.

(** Reading through the permutation: the target bits lead. *)
Lemma source_index_split (n : nat) (qubits : list Z) (x : nat) :
  valid_qubits n qubits ->
  source_index n (permutation_of n qubits) x
  = sub_index n (map Z.to_nat qubits) x * 2 ^ (n - length qubits)
    + from_bits (gather (other_qubits n qubits) (bits n x)).
Proof.
  intros HV. unfold source_index. rewrite permutation_of_eq.
  unfold gather at 1. rewrite map_app. fold (gather (map Z.to_nat qubits) (bits n x)).
  fold (gather (other_qubits n qubits) (bits n x)).
  rewrite from_bits_app, gather_length, (other_qubits_length n qubits HV).
  now rewrite (gather_bits n _ x (valid_qubits_lt n qubits HV)).
Qed.

Lemma other_bits_lt (n : nat) (qubits : list Z) (x : nat) :
  valid_qubits n qubits ->
  from_bits (gather (other_qubits n qubits) (bits n x))
  < 2 ^ (n - length qubits).
Proof.
  intros HV. rewrite <- (other_qubits_length n qubits HV).
  rewrite <- (gather_length (other_qubits n qubits) (bits n x)).
  apply from_bits_lt, gather_lt2, bits_lt2.
Qed.

Lemma sub_index_lt (n : nat) (targets : list nat) (x : nat) :
  sub_index n targets x < 2 ^ length targets.
Proof.
  unfold sub_index.
  rewrite <- (length_map (fun q => qubit_bit n q x) targets).
  apply from_bits_lt. apply Forall_forall. intros b Hb.
  apply in_map_iff in Hb. destruct Hb as [p [<- _]].
  unfold qubit_bit. apply Nat.mod_upper_bound. lia.
Qed.

(** Reading through the inverse permutation a position whose leading
    bits spell [y] and whose other bits are those of [x]. *)
Lemma source_index_with_targets (n : nat) (qubits : list Z) (x y : nat) :
  valid_qubits n qubits -> y < 2 ^ length qubits ->
  source_index n (argsort (permutation_of n qubits))
    (y * 2 ^ (n - length qubits)
     + from_bits (gather (other_qubits n qubits) (bits n x)))
  = with_targets n (map Z.to_nat qubits) y x.
Proof.
  intros HV Hy.
  pose proof (valid_qubits_length n qubits HV) as Hk.
  unfold source_index, with_targets.
  assert (E : bits n (y * 2 ^ (n - length qubits)
                      + from_bits (gather (other_qubits n qubits) (bits n x)))
              = bits (length qubits) y
                ++ gather (other_qubits n qubits) (bits n x)).
  { replace n with (length qubits + (n - length qubits)) at 1 by lia.
    rewrite bits_app by (assumption || now apply other_bits_lt).
    f_equal.
    rewrite <- (other_qubits_length n qubits HV).
    rewrite <- (gather_length (other_qubits n qubits) (bits n x)) at 1.
    apply bits_from_bits, gather_lt2, bits_lt2. }
  rewrite E.
  rewrite (gather_inverse_scatter n qubits _ (bits n x) HV)
    by apply bits_length.
  f_equal. apply map_ext_in. intros p Hp. apply in_seq in Hp.
  rewrite length_map.
  destruct (index_of p (map Z.to_nat qubits)) as [a|] eqn:Ei.
  - apply index_of_lt in Ei. rewrite length_map in Ei. now apply nth_bits.
  - apply nth_bits. lia.
Qed.

(** The array pipeline of [_apply_unitary], end to end. *)
Lemma unitary_pipeline (n : nat) (v : list C) (u : ndarray C) (qubits : list Z) :
  length v = 2 ^ n -> valid_qubits n qubits ->
  shape u = [2 ^ length qubits; 2 ^ length qubits] ->
  ravel
    (transpose Czero
       (reshape
          (matmul u
             (reshape_rows
                (transpose Czero (mk_ndarray (repeat 2 n) v)
                   (permutation_of n qubits))
                (2 ^ length qubits)))
          (repeat 2 (length qubits) ++ repeat 2 (n - length qubits)))
       (argsort (permutation_of n qubits)))
  = map (acts_on_targets n u (map Z.to_nat qubits) v) (seq 0 (2 ^ n)).
Proof.
  intros Hv HV Hu.
  pose proof (valid_qubits_length n qubits HV) as Hk.
  pose proof (permutation_of_inverse n qubits HV) as HI.
  rewrite (transpose_data Czero n v _ _ HI).
  unfold reshape_rows, matmul, reshape. cbn [shape data nth].
  rewrite Hu. cbn [nth]. rewrite length_map, length_seq, (pow2_div n _ Hk).
  rewrite <- repeat_app. replace (length qubits + (n - length qubits)) with n by lia.
  rewrite (transpose_data Czero n _ _ _ (inverse_axes_sym _ _ _ HI)).
  unfold ravel. cbn [data].
  apply map_ext_in. intros x Hx. apply in_seq in Hx.
  rewrite (pow2_split n _ Hk).
  rewrite nth_map_seq
    by (apply source_index_lt, (perm_seq_length n), (permutation_of_perm n qubits HV)).
  rewrite (source_index_split n qubits x HV).
  pose proof (other_bits_lt n qubits x HV) as Hc.
  set (c := from_bits (gather (other_qubits n qubits) (bits n x))) in *.
  set (t := 2 ^ (n - length qubits)) in *.
  assert (Ht : t <> 0) by (unfold t; pose proof (pow2_pos (n - length qubits)); lia).
  rewrite Nat.div_add_l, (Nat.div_small c t), Nat.add_0_r by assumption.
  rewrite (Nat.add_comm _ c), Nat.Div0.mod_add, (Nat.mod_small c t) by assumption.
  unfold acts_on_targets. rewrite length_map.
  f_equal. apply map_ext_in. intros y Hy. apply in_seq in Hy.
  f_equal.
  - unfold entry. rewrite Hu. reflexivity.
  - rewrite nth_map_seq.
    + f_equal. unfold c, t. apply source_index_with_targets; [assumption|lia].
    + rewrite <- (pow2_split n _ Hk). fold t. nia.
Qed.

Lemma apply_unitary_run (self : QuantumCircuit) (u : ndarray C) (qubits : list Z) :
  well_formed self -> valid_qubits (num_qubits self) qubits ->
  shape u = [2 ^ length qubits; 2 ^ length qubits] ->
  _apply_unitary u qubits self
  = let v' := map (acts_on_targets (num_qubits self) u (map Z.to_nat qubits)
                     (_state self))
                  (seq 0 (2 ^ num_qubits self)) in
    mk_run (Ok tt) (mk_QuantumCircuit (num_qubits self) v') [v'].
Proof.
  intros WF HV Hu. unfold _apply_unitary, ndim. rewrite Hu.
  cbn [length nth]. rewrite !Nat.eqb_refl. cbn [negb orb].
  unfold bind at 1. rewrite (normalise_valid self qubits HV).
  cbn [value self_after writes]. rewrite Nat.eqb_refl. cbn [negb].
  unfold bind, get_self, set_state. cbn [value self_after writes app].
  cbv zeta. rewrite (unitary_pipeline _ _ u qubits WF HV Hu). reflexivity.
Qed.

(* ================================================================== *)
(** * Bit strings                                                      *)
(* ================================================================== *)

Open Scope string_scope.

Lemma string_length_app (s1 s2 : string) :
  String.length (s1 ++ s2) = String.length s1 + String.length s2.
Proof. induction s1 as [|c s1 IH]; simpl; [reflexivity|]. now rewrite IH. Qed.

Lemma bits_of_string_app (s1 s2 : string) :
  bits_of_string (s1 ++ s2) = (bits_of_string s1 ++ bits_of_string s2)%list.
Proof. induction s1 as [|c s1 IH]; simpl; [reflexivity|]. now rewrite IH. Qed.

Lemma binary_string_app (s1 s2 : string) :
  binary_string (s1 ++ s2) = binary_string s1 && binary_string s2.
Proof.
  induction s1 as [|c s1 IH]; simpl; [reflexivity|].
  rewrite IH. now rewrite andb_assoc.
Qed.

Lemma bits_of_string_length (s : string) :
  length (bits_of_string s) = String.length s.
Proof. induction s as [|c s IH]; simpl; [reflexivity|]. now rewrite IH. Qed.

Lemma bits_of_string_lt2 (s : string) :
  Forall (fun b => b < 2) (bits_of_string s).
Proof.
  induction s as [|c s IH]; simpl; constructor; [|assumption].
  destruct (Ascii.eqb c "1"); lia.
Qed.

Lemma bitstring_of_bits_of_string (s : string) :
  binary_string s = true -> bitstring_of (bits_of_string s) = s.
Proof.
  induction s as [|c s IH]; simpl; [reflexivity|].
  intros H. apply andb_true_iff in H. destruct H as [Hc Hs].
  rewrite (IH Hs). f_equal.
  destruct (Ascii.eqb_spec c "1") as [->|N1]; [reflexivity|].
  destruct (Ascii.eqb_spec c "0") as [->|N0]; [reflexivity|discriminate].
Qed.

Lemma bits_of_string_bitstring_of (l : list nat) :
  Forall (fun b => b < 2) l -> bits_of_string (bitstring_of l) = l.
Proof.
  induction 1 as [|b l Hb _ IH]; simpl; [reflexivity|].
  rewrite IH. f_equal. destruct b as [|[|b]]; try reflexivity. lia.
Qed.

Lemma bitstring_of_length (l : list nat) :
  String.length (bitstring_of l) = length l.
Proof. induction l as [|b l IH]; simpl; [reflexivity|]. now rewrite IH. Qed.

Lemma bitstring_of_binary (l : list nat) :
  binary_string (bitstring_of l) = true.
Proof.
  induction l as [|b l IH]; simpl; [reflexivity|]. rewrite IH.
  unfold bit_char. now destruct (b =? 0)%nat.
Qed.

Lemma from_bits_snoc (l : list nat) (b : nat) :
  from_bits (l ++ [b]) = 2 * from_bits l + b.
Proof. rewrite from_bits_app. simpl. lia. Qed.

Lemma pos_bin_value (p : positive) :
  from_bits (bits_of_string (pos_bin p)) = Pos.to_nat p.
Proof.
  induction p as [p IH|p IH|]; cbn [pos_bin].
  - rewrite bits_of_string_app. change (bits_of_string "1") with [1].
    rewrite from_bits_snoc, IH, Pos2Nat.inj_xI. lia.
  - rewrite bits_of_string_app. change (bits_of_string "0") with [0].
    rewrite from_bits_snoc, IH, Pos2Nat.inj_xO. lia.
  - reflexivity.
Qed.

Lemma pos_bin_binary (p : positive) : binary_string (pos_bin p) = true.
Proof.
  induction p as [p IH|p IH|]; simpl; try reflexivity;
    rewrite binary_string_app, IH; reflexivity.
Qed.

Lemma pos_bin_length (p : positive) (w : nat) :
  Pos.to_nat p < 2 ^ w -> String.length (pos_bin p) <= w.
Proof.
  revert w. induction p as [p IH|p IH|]; intros w H; simpl.
  - destruct w as [|w]; [simpl in H; lia|].
    rewrite string_length_app. simpl.
    rewrite Pos2Nat.inj_xI in H. simpl in H.
    specialize (IH w). lia.
  - destruct w as [|w]; [simpl in H; lia|].
    rewrite string_length_app. simpl.
    rewrite Pos2Nat.inj_xO in H. simpl in H.
    specialize (IH w). lia.
  - destruct w; simpl in *; lia.
Qed.

Lemma bin_digits_value (x : nat) :
  from_bits (bits_of_string (bin_digits x)) = x.
Proof.
  unfold bin_digits. destruct (N.of_nat x) as [|p] eqn:E.
  - simpl. lia.
  - rewrite pos_bin_value. lia.
Qed.

Lemma bin_digits_binary (x : nat) : binary_string (bin_digits x) = true.
Proof.
  unfold bin_digits. destruct (N.of_nat x); [reflexivity|apply pos_bin_binary].
Qed.

Lemma bin_digits_length (x w : nat) :
  0 < w -> x < 2 ^ w -> String.length (bin_digits x) <= w.
Proof.
  intros Hw Hx. unfold bin_digits. destruct (N.of_nat x) as [|p] eqn:E.
  - simpl. lia.
  - apply pos_bin_length. lia.
Qed.

Lemma zeros_length (k : nat) : String.length (zeros k) = k.
Proof. induction k; simpl; [reflexivity|]. now rewrite IHk. Qed.

Lemma zeros_bits (k : nat) : bits_of_string (zeros k) = repeat 0 k.
Proof. induction k; simpl; [reflexivity|]. now rewrite IHk. Qed.

Lemma zeros_binary (k : nat) : binary_string (zeros k) = true.
Proof. induction k; simpl; [reflexivity|assumption]. Qed.

Lemma from_bits_zeros (k : nat) : from_bits (repeat 0 k) = 0.
Proof. induction k; simpl; [reflexivity|assumption]. Qed.

(** [format(x, "0<w>b")] is the [w]-bit string of [x], qubit [0] first. *)
Lemma format_0b_bits (w x : nat) :
  0 < w -> x < 2 ^ w -> format_0b w x = bitstring_of (bits w x).
Proof.
  intros Hw Hx. unfold format_0b.
  pose proof (bin_digits_length x w Hw Hx) as Hl.
  set (s := zeros (w - String.length (bin_digits x)) ++ bin_digits x).
  assert (Hb : binary_string s = true)
    by (unfold s; now rewrite binary_string_app, zeros_binary, bin_digits_binary).
  assert (Hlen : length (bits_of_string s) = w).
  { rewrite bits_of_string_length. unfold s.
    rewrite string_length_app, zeros_length. lia. }
  assert (Hv : from_bits (bits_of_string s) = x).
  { unfold s. rewrite bits_of_string_app, from_bits_app, zeros_bits.
    now rewrite from_bits_zeros, bin_digits_value. }
  rewrite <- (bitstring_of_bits_of_string s Hb). f_equal.
  rewrite <- Hv, <- Hlen at 1.
  symmetry. apply bits_from_bits, bits_of_string_lt2.
Qed.

Lemma int2_digits_value (l : list nat) (acc : nat) :
  Forall (fun b => b < 2) l ->
  int2_digits (bitstring_of l) acc = Some (acc * 2 ^ length l + from_bits l).
Proof.
  intros HF. revert acc. induction HF as [|b l Hb _ IH]; intros acc; simpl.
  - f_equal. lia.
  - destruct b as [|[|b]]; try lia; simpl; rewrite IH; f_equal; lia.
Qed.

(** [int(s, 2)] reads a non-empty bit string back. *)
Lemma int_base2_bitstring (l : list nat) :
  l <> [] -> Forall (fun b => b < 2) l ->
  int_base2 (bitstring_of l) = Some (from_bits l).
Proof.
  intros Hne HF. unfold int_base2.
  destruct l as [|b l]; [contradiction|].
  change (String (bit_char b) (bitstring_of l)) with (bitstring_of (b :: l)).
  rewrite int2_digits_value by assumption. now rewrite Nat.mul_0_l.
Qed.

Lemma bitstring_of_inj (l1 l2 : list nat) :
  Forall (fun b => b < 2) l1 -> Forall (fun b => b < 2) l2 ->
  bitstring_of l1 = bitstring_of l2 -> l1 = l2.
Proof.
  intros H1 H2 E.
  rewrite <- (bits_of_string_bitstring_of l1 H1).
  rewrite <- (bits_of_string_bitstring_of l2 H2). now rewrite E.
Qed.

Lemma bitstring_of_bits_inj (w x y : nat) :
  x < 2 ^ w -> y < 2 ^ w ->
  bitstring_of (bits w x) = bitstring_of (bits w y) -> x = y.
Proof.
  intros Hx Hy E. apply (bits_inj w x y Hx Hy).
  apply bitstring_of_inj; [apply bits_lt2|apply bits_lt2|assumption].
Qed.

Close Scope string_scope.

(* ================================================================== *)
(** * Dictionaries and sums                                            *)
(* ================================================================== *)

Lemma dict_set_fresh {V} (d : dict V) (k : string) (v : V) :
  ~ In k (keys d) -> dict_set d k v = d ++ [(k, v)].
Proof.
  induction d as [|[k' v'] d IH]; simpl; intros H; [reflexivity|].
  destruct (String.eqb_spec k' k) as [E|E].
  - exfalso. apply H. now left.
  - rewrite IH; [reflexivity|]. intros Hin. apply H. now right.
Qed.

Lemma dict_of_items_from {V} (its acc : list (string * V)) :
  NoDup (map fst (acc ++ its)) ->
  fold_left (fun d kv => dict_set d (fst kv) (snd kv)) its acc = acc ++ its.
Proof.
  revert acc. induction its as [|[k v] its IH]; intros acc ND; simpl.
  - now rewrite app_nil_r.
  - rewrite dict_set_fresh.
    + rewrite IH; rewrite <- app_assoc; [reflexivity|assumption].
    + rewrite map_app in ND. simpl in ND.
      apply NoDup_remove_2 in ND. intros Hin. apply ND.
      apply in_or_app. now left.
Qed.

(** A dict built from items with distinct keys is those items, in order. *)
Lemma dict_of_items_nodup {V} (its : list (string * V)) :
  NoDup (map fst its) -> dict_of_items its = its.
Proof. intros ND. unfold dict_of_items. now rewrite dict_of_items_from. Qed.

Lemma dict_get_in {V} (d : dict V) (k : string) (v : V) :
  NoDup (keys d) -> In (k, v) d -> dict_get d k = Some v.
Proof.
  induction d as [|[k' v'] d IH]; simpl; intros ND Hin; [contradiction|].
  inversion ND as [|? ? Hk ND']; subst.
  destruct Hin as [E|Hin].
  - injection E as -> ->. now rewrite String.eqb_refl.
  - destruct (String.eqb_spec k' k) as [->|N].
    + exfalso. apply Hk. unfold keys. apply in_map_iff. now exists (k, v).
    + now apply IH.
Qed.

Lemma combine_map_map {A B D} (f : A -> B) (g : A -> D) (l : list A) :
  combine (map f l) (map g l) = map (fun a => (f a, g a)) l.
Proof. induction l as [|a l IH]; simpl; [reflexivity|]. now rewrite IH. Qed.

Lemma Rsum_perm (l1 l2 : list R) : Permutation l1 l2 -> Rsum l1 = Rsum l2.
Proof. induction 1; simpl; lra. Qed.

Lemma Rsum_app (l1 l2 : list R) : Rsum (l1 ++ l2) = (Rsum l1 + Rsum l2)%R.
Proof. induction l1 as [|x l1 IH]; simpl; [lra|]. rewrite IH. lra. Qed.

Lemma Rsum_nonneg (l : list R) :
  Forall (fun x => (0 <= x)%R) l -> (0 <= Rsum l)%R.
Proof. induction 1; simpl; lra. Qed.

Lemma Rsum_zero (l : list R) :
  Forall (fun x => x = 0%R) l -> Rsum l = 0%R.
Proof. induction 1 as [|x l Hx _ IH]; simpl; [reflexivity|]. rewrite Hx, IH. lra. Qed.

Lemma seq_add_map (a n : nat) : seq a n = map (Nat.add a) (seq 0 n).
Proof.
  revert a. induction n as [|n IH]; intros a; [reflexivity|].
  simpl. f_equal; [lia|].
  rewrite (IH (S a)), <- seq_shift, map_map.
  apply map_ext. intros; lia.
Qed.

Lemma repeat_firstn {A} (x : A) (n k : nat) :
  k <= n -> firstn k (repeat x n) = repeat x k.
Proof.
  revert n. induction k as [|k IH]; intros n H; [reflexivity|].
  destruct n as [|n]; [lia|]. simpl. f_equal. apply IH. lia.
Qed.

Lemma repeat_skipn {A} (x : A) (n k : nat) :
  skipn k (repeat x n) = repeat x (n - k).
Proof.
  revert n. induction k as [|k IH]; intros n.
  - now rewrite Nat.sub_0_r.
  - destruct n as [|n]; [reflexivity|]. simpl. apply IH.
Qed.

(* ================================================================== *)
(** * Probability extraction                                           *)
(* ================================================================== *)

Lemma agrees_on_iff (n : nat) (targets b : list nat) (x : nat) :
  length b = length targets ->
  agrees_on n targets b x = true <->
  map (fun q => qubit_bit n q x) targets = b.
Proof.
  unfold agrees_on. revert b.
  induction targets as [|q l IH]; intros [|c b] Hlen; simpl in *;
    try discriminate.
  - split; reflexivity.
  - rewrite andb_true_iff, Nat.eqb_eq, IH by lia. split.
    + intros [-> ->]. reflexivity.
    + intros [= -> ->]. split; reflexivity.
Qed.

Lemma agrees_on_sub_index (n : nat) (targets : list nat) (r x : nat) :
  r < 2 ^ length targets ->
  agrees_on n targets (bits (length targets) r) x
  = (sub_index n targets x =? r).
Proof.
  intros Hr. apply eq_true_iff_eq.
  rewrite agrees_on_iff by apply bits_length.
  rewrite Nat.eqb_eq. unfold sub_index. split.
  - intros ->. now apply from_bits_bits_small.
  - intros <-.
    rewrite <- (length_map (fun q => qubit_bit n q x) targets).
    symmetry. apply bits_from_bits. apply Forall_forall. intros b Hb.
    apply in_map_iff in Hb. destruct Hb as [p [<- _]].
    unfold qubit_bit. apply Nat.mod_upper_bound. lia.
Qed.

(** Row [r] of the transposed tensor holds exactly the amplitudes whose
    basis state spells [r] on the requested qubits. *)
Lemma transposed_row_perm (n : nat) (qubits : list Z) (r : nat) :
  valid_qubits n qubits -> r < 2 ^ length qubits ->
  Permutation
    (map (source_index n (argsort (permutation_of n qubits)))
         (seq (r * 2 ^ (n - length qubits)) (2 ^ (n - length qubits))))
    (filter (fun x => sub_index n (map Z.to_nat qubits) x =? r)
            (seq 0 (2 ^ n))).
Proof.
  intros HV Hr.
  pose proof (valid_qubits_length n qubits HV) as Hk.
  pose proof (permutation_of_inverse n qubits HV) as HI.
  pose proof (pow2_split n _ Hk) as Hsplit.
  pose proof (pow2_pos (n - length qubits)) as Ht.
  set (t := 2 ^ (n - length qubits)) in *.
  set (perm := permutation_of n qubits) in *.
  set (inv := argsort perm) in *.
  assert (Hblock : forall j, In j (seq (r * t) t) -> j < 2 ^ n).
  { intros j Hj. apply in_seq in Hj. nia. }
  apply NoDup_Permutation.
  - apply Finite.Injective_map_NoDup_in; [|apply seq_NoDup].
    intros j1 j2 H1 H2 E.
    rewrite <- (source_index_inverse n perm inv j1 HI (Hblock j1 H1)).
    rewrite <- (source_index_inverse n perm inv j2 HI (Hblock j2 H2)).
    now rewrite E.
  - apply NoDup_filter, seq_NoDup.
  - intros x. rewrite in_map_iff, filter_In, in_seq, Nat.eqb_eq. split.
    + intros [j [<- Hj]]. pose proof (Hblock j Hj) as Hjn.
      split.
      * split; [lia|]. simpl. apply source_index_lt.
        destruct HI as (_ & HI' & _). now apply (perm_seq_length n).
      * pose proof (source_index_split n qubits (source_index n inv j) HV) as S.
        fold perm in S. rewrite (source_index_inverse n perm inv j HI Hjn) in S.
        pose proof (other_bits_lt n qubits (source_index n inv j) HV) as Hc.
        fold t in S, Hc. apply in_seq in Hj.
        set (s := sub_index n (map Z.to_nat qubits) (source_index n inv j)) in *.
        nia.
    + intros [[_ Hx] Hs]. simpl in Hx.
      exists (source_index n perm x). split.
      * apply (source_index_inverse n inv perm x (inverse_axes_sym _ _ _ HI) Hx).
      * pose proof (source_index_split n qubits x HV) as S.
        pose proof (other_bits_lt n qubits x HV) as Hc.
        fold perm in S. fold t in S, Hc. rewrite Hs in S.
        apply in_seq. lia.
Qed.

Lemma marginal_row (n : nat) (qubits : list Z) (v : list C) (r : nat) :
  length v = 2 ^ n -> valid_qubits n qubits -> r < 2 ^ length qubits ->
  Rsum (map (fun c =>
               nth (r * 2 ^ (n - length qubits) + c)
                   (map Cabs_sq
                      (map (fun j => nth (source_index n
                                            (argsort (permutation_of n qubits)) j)
                                         v Czero)
                           (seq 0 (2 ^ n)))) 0%R)
            (seq 0 (2 ^ (n - length qubits))))
  = marginal n (map Z.to_nat qubits) (bits (length qubits) r) v.
Proof.
  intros Hv HV Hr.
  pose proof (valid_qubits_length n qubits HV) as Hk.
  pose proof (pow2_split n _ Hk) as Hsplit.
  unfold marginal.
  rewrite (filter_ext _ (fun x => sub_index n (map Z.to_nat qubits) x =? r)).
  2:{ intros x. rewrite <- (length_map Z.to_nat qubits).
      apply agrees_on_sub_index. now rewrite length_map. }
  rewrite <- (Rsum_perm _ _
    (Permutation_map (fun x => Cnorm2 (nth x v Czero))
       (transposed_row_perm n qubits r HV Hr))).
  rewrite (seq_add_map (r * 2 ^ (n - length qubits))), !map_map. f_equal.
  apply map_ext_in. intros c Hc. apply in_seq in Hc.
  rewrite nth_map_seq by nia. now rewrite Cabs_sq_norm2.
Qed.

Lemma bitstring_keys_nodup (k : nat) :
  NoDup (map (fun r => bitstring_of (bits k r)) (seq 0 (2 ^ k))).
Proof.
  apply Finite.Injective_map_NoDup_in; [|apply seq_NoDup].
  intros x y Hx Hy. apply in_seq in Hx, Hy.
  apply bitstring_of_bits_inj; lia.
Qed.

Lemma probabilities_run (self : QuantumCircuit) (qubits : list Z) :
  well_formed self -> valid_qubits (num_qubits self) qubits -> qubits <> [] ->
  probabilities (Some qubits) self
  = mk_run (Ok (marginal_distribution (num_qubits self) qubits (_state self)))
           self [].
Proof.
  intros WF HV Hne. unfold probabilities.
  unfold bind at 1. rewrite (normalise_valid self qubits HV).
  cbn [value self_after writes].
  unfold bind, get_self. cbn [value self_after writes app].
  destruct qubits as [|q0 qs] eqn:Eq; [contradiction|]. rewrite <- Eq in *.
  unfold ret. cbn [value self_after writes app].
  pose proof (valid_qubits_length _ qubits HV) as Hk.
  pose proof (permutation_of_inverse _ qubits HV) as HI.
  rewrite (transpose_data Czero _ _ _ _ HI).
  unfold _distribution_from_probabilities, ravel, sum_trailing, map_array.
  cbn [shape data].
  rewrite (repeat_firstn 2 _ _ Hk), repeat_skipn, !size_of_repeat2.
  rewrite combine_map_map.
  assert (E : map (fun a =>
               (format_0b (length qubits) a,
                Rsum (map (fun c =>
                  nth (a * 2 ^ (num_qubits self - length qubits) + c)
                    (map Cabs_sq
                       (map (fun j => nth (source_index (num_qubits self)
                               (argsort (permutation_of (num_qubits self) qubits)) j)
                               (_state self) Czero)
                          (seq 0 (2 ^ num_qubits self)))) 0%R)
                  (seq 0 (2 ^ (num_qubits self - length qubits))))))
               (seq 0 (2 ^ length qubits))
             = marginal_distribution (num_qubits self) qubits (_state self)).
  { unfold marginal_distribution. apply map_ext_in. intros r Hr.
    apply in_seq in Hr. f_equal.
    - apply format_0b_bits; [rewrite Eq; simpl; lia|lia].
    - apply marginal_row; [exact WF|assumption|lia]. }
  rewrite E, dict_of_items_nodup; [reflexivity|].
  unfold marginal_distribution. rewrite map_map. cbn [fst].
  apply bitstring_keys_nodup.
Qed.

(* ================================================================== *)
(** * Collapse                                                         *)
(* ================================================================== *)

Lemma Rsum_filter {A} (p : A -> bool) (f : A -> R) (l : list A) :
  Rsum (map (fun x => if p x then f x else 0%R) l) = Rsum (map f (filter p l)).
Proof.
  induction l as [|x l IH]; simpl; [reflexivity|].
  destruct (p x); simpl; rewrite IH; lra.
Qed.

Lemma source_index_perm (n : nat) (perm inv : list nat) :
  inverse_axes n perm inv ->
  Permutation (map (source_index n inv) (seq 0 (2 ^ n))) (seq 0 (2 ^ n)).
Proof.
  intros HI. pose proof HI as (HP & HI' & _).
  apply NoDup_Permutation_bis.
  - apply Finite.Injective_map_NoDup_in; [|apply seq_NoDup].
    intros j1 j2 H1 H2 E. apply in_seq in H1, H2.
    rewrite <- (source_index_inverse n perm inv j1 HI) by lia.
    rewrite <- (source_index_inverse n perm inv j2 HI) by lia.
    now rewrite E.
  - now rewrite length_map.
  - intros x Hx. apply in_map_iff in Hx. destruct Hx as [j [<- _]].
    apply in_seq. split; [lia|]. simpl.
    apply source_index_lt. now apply (perm_seq_length n).
Qed.

(** The row of a position of the transposed tensor is what its source
    spells on the requested qubits. *)
Lemma sub_index_source (n : nat) (qubits : list Z) (j : nat) :
  valid_qubits n qubits -> j < 2 ^ n ->
  sub_index n (map Z.to_nat qubits)
    (source_index n (argsort (permutation_of n qubits)) j)
  = j / 2 ^ (n - length qubits).
Proof.
  intros HV Hj.
  pose proof (permutation_of_inverse n qubits HV) as HI.
  set (x := source_index n (argsort (permutation_of n qubits)) j).
  pose proof (source_index_split n qubits x HV) as S.
  unfold x in S at 1. rewrite (source_index_inverse n _ _ j HI Hj) in S.
  pose proof (other_bits_lt n qubits x HV) as Hc.
  rewrite S, Nat.div_add_l, Nat.div_small, Nat.add_0_r;
    [reflexivity|assumption|].
  pose proof (pow2_pos (n - length qubits)). lia.
Qed.

(** The array pipeline of [_collapse_state], before the division. *)
Lemma collapse_pipeline (n : nat) (v : list C) (qubits : list Z) (r : nat) :
  length v = 2 ^ n -> valid_qubits n qubits -> r < 2 ^ length qubits ->
  let kept :=
    keep_row
      (reshape_rows
         (transpose Czero (mk_ndarray (repeat 2 n) v) (permutation_of n qubits))
         (2 ^ length qubits)) r in
  linalg_norm kept
  = sqrt (marginal n (map Z.to_nat qubits) (bits (length qubits) r) v)
  /\ forall f : C -> C,
       ravel (transpose Czero
                (reshape (map_array f kept) (repeat 2 n))
                (argsort (permutation_of n qubits)))
       = map f (projected n (map Z.to_nat qubits) (bits (length qubits) r) v).
Proof.
  intros Hv HV Hr.
  pose proof (valid_qubits_length n qubits HV) as Hk.
  pose proof (permutation_of_inverse n qubits HV) as HI.
  pose proof (pow2_split n _ Hk) as Hsplit.
  cbv zeta.
  rewrite (transpose_data Czero n v _ _ HI).
  unfold reshape_rows, keep_row. cbn [shape data nth].
  rewrite !length_map, !length_seq, (pow2_div n _ Hk).
  assert (Ekept :
    map (fun idx =>
           if idx / 2 ^ (n - length qubits) =? r
           then nth idx
                  (map (fun j => nth (source_index n
                                        (argsort (permutation_of n qubits)) j)
                                     v Czero)
                       (seq 0 (2 ^ n))) Czero
           else Czero)
        (seq 0 (2 ^ n))
    = map (fun j =>
             (fun x => if agrees_on n (map Z.to_nat qubits)
                            (bits (length qubits) r) x
                       then nth x v Czero else Czero)
               (source_index n (argsort (permutation_of n qubits)) j))
          (seq 0 (2 ^ n))).
  { apply map_ext_in. intros j Hj. apply in_seq in Hj.
    rewrite nth_map_seq by lia.
    rewrite <- (length_map Z.to_nat qubits) at 2.
    rewrite agrees_on_sub_index by now rewrite length_map.
    rewrite (sub_index_source n qubits j HV) by lia. reflexivity. }
  rewrite Ekept. split.
  - unfold linalg_norm, marginal. cbn [data]. f_equal.
    rewrite <- Rsum_filter.
    rewrite <- (Rsum_perm _ _
      (Permutation_map _ (source_index_perm n _ _ HI))).
    rewrite !map_map. f_equal. apply map_ext. intros j.
    destruct (agrees_on n (map Z.to_nat qubits) (bits (length qubits) r)
                (source_index n (argsort (permutation_of n qubits)) j));
      [reflexivity|apply Cnorm2_Czero].
  - intros f. unfold map_array, reshape. cbn [shape data].
    rewrite (transpose_data Czero n _ _ _ (inverse_axes_sym _ _ _ HI)).
    unfold ravel, projected. cbn [data].
    etransitivity; [|symmetry; apply map_map].
    apply map_ext_in. intros x Hx. apply in_seq in Hx.
    assert (Hs : source_index n (permutation_of n qubits) x < 2 ^ n).
    { apply source_index_lt.
      apply (perm_seq_length n), (permutation_of_perm n qubits HV). }
    rewrite (nth_indep _ Czero (f Czero)) by now rewrite !length_map, length_seq.
    rewrite (map_nth f). f_equal.
    rewrite nth_map_seq by assumption.
    now rewrite (source_index_inverse n _ _ x (inverse_axes_sym _ _ _ HI)) by lia.
Qed.

Lemma collapse_run (self : QuantumCircuit) (qubits : list Z) (r : nat) :
  well_formed self -> valid_qubits (num_qubits self) qubits -> qubits <> [] ->
  r < 2 ^ length qubits ->
  _collapse_state qubits (bitstring_of (bits (length qubits) r)) self
  = let v' := collapsed (num_qubits self) (map Z.to_nat qubits)
                (bits (length qubits) r) (_state self) in
    mk_run (Ok tt) (mk_QuantumCircuit (num_qubits self) v') [v'].
Proof.
  intros WF HV Hne Hr. unfold _collapse_state.
  unfold bind at 1, get_self. cbn [value self_after writes app].
  destruct qubits as [|q0 qs] eqn:Eq; [contradiction|]. rewrite <- Eq in *.
  assert (Hk : 0 < length qubits) by (rewrite Eq; simpl; lia).
  rewrite int_base2_bitstring;
    [|intros E; apply (f_equal (@length nat)) in E;
      rewrite bits_length in E; simpl in E; lia
     |apply bits_lt2].
  rewrite (from_bits_bits_small _ _ Hr).
  apply Nat.ltb_lt in Hr. rewrite Hr. apply Nat.ltb_lt in Hr.
  destruct (collapse_pipeline (num_qubits self) (_state self) qubits r WF HV Hr)
    as [Hnorm Hpipe].
  cbv zeta in Hnorm, Hpipe. cbv zeta. rewrite Hnorm.
  unfold collapsed, set_state.
  destruct (Rlt_dec 0 (sqrt (marginal (num_qubits self) (map Z.to_nat qubits)
                               (bits (length qubits) r) (_state self)))).
  - unfold div_real. rewrite Hpipe. reflexivity.
  - specialize (Hpipe (fun z => z)). unfold map_array in Hpipe.
    rewrite !map_id in Hpipe.
    match goal with
    | H : ravel (transpose _ (reshape ?a _) _) = _ |- context [reshape ?b _] =>
        replace b with a by (now destruct b)
    end.
    rewrite Hpipe. reflexivity.
Qed.

Lemma collapse_run_empty (self : QuantumCircuit) (x : nat) :
  well_formed self -> 0 < num_qubits self -> x < 2 ^ num_qubits self ->
  _collapse_state [] (bitstring_of (bits (num_qubits self) x)) self
  = let v' := basis_like (_state self) x in
    mk_run (Ok tt) (mk_QuantumCircuit (num_qubits self) v') [v'].
Proof.
  intros WF Hn Hx. unfold _collapse_state.
  unfold bind at 1, get_self. cbn [value self_after writes app].
  rewrite int_base2_bitstring;
    [|intros E; apply (f_equal (@length nat)) in E;
      rewrite bits_length in E; simpl in E; lia
     |apply bits_lt2].
  rewrite (from_bits_bits_small _ _ Hx), WF.
  apply Nat.ltb_lt in Hx. rewrite Hx. reflexivity.
Qed.

(* ================================================================== *)
(** * Measurement                                                      *)
(* ================================================================== *)

(** ** Bit strings of one width are ordered like the numbers they spell *)

Lemma bitstring_compare_lt (l1 l2 : list nat) :
  length l1 = length l2 ->
  Forall (fun b => b < 2) l1 -> Forall (fun b => b < 2) l2 ->
  from_bits l1 < from_bits l2 ->
  String.compare (bitstring_of l1) (bitstring_of l2) = Lt.
Proof.
  revert l2. induction l1 as [|b1 l1 IH]; intros [|b2 l2] Hlen H1 H2 Hlt;
    try discriminate.
  - simpl in Hlt. lia.
  - inversion H1 as [|? ? Hb1 H1']; inversion H2 as [|? ? Hb2 H2']; subst.
    simpl in Hlen. injection Hlen as Hlen.
    pose proof (from_bits_lt l1 H1') as B1.
    pose proof (from_bits_lt l2 H2') as B2.
    cbn [from_bits] in Hlt. rewrite Hlen in Hlt, B1.
    pose proof (pow2_pos (length l2)) as Hp.
    destruct b1 as [|[|b1]]; destruct b2 as [|[|b2]]; try lia;
      simpl; try reflexivity; apply IH; try assumption; lia.
Qed.

Lemma bitstring_ltb_later (w x y : nat) :
  x < y -> y < 2 ^ w ->
  String.ltb (bitstring_of (bits w y)) (bitstring_of (bits w x)) = false.
Proof.
  intros Hxy Hy. unfold String.ltb.
  rewrite String.compare_antisym.
  rewrite bitstring_compare_lt; [reflexivity| | | |].
  - now rewrite !bits_length.
  - apply bits_lt2.
  - apply bits_lt2.
  - rewrite !from_bits_bits_small by lia. assumption.
Qed.

Lemma insert_sorted_last (s : string) (acc : list string) :
  (forall t, In t acc -> String.ltb s t = false) ->
  insert_sorted s acc = acc ++ [s].
Proof.
  induction acc as [|t acc IH]; intros H; simpl; [reflexivity|].
  rewrite (H t) by now left. f_equal. apply IH.
  intros t' Ht'. apply H. now right.
Qed.

Lemma sorted_bitstrings_from (w a m : nat) :
  a + m <= 2 ^ w ->
  fold_left (fun acc s => insert_sorted s acc)
    (map (fun r => bitstring_of (bits w r)) (seq a m))
    (map (fun r => bitstring_of (bits w r)) (seq 0 a))
  = map (fun r => bitstring_of (bits w r)) (seq 0 (a + m)).
Proof.
  revert a. induction m as [|m IH]; intros a H.
  - now rewrite Nat.add_0_r.
  - cbn [seq map fold_left]. rewrite insert_sorted_last.
    + replace (a + S m) with (S a + m) by lia.
      rewrite <- IH by lia. f_equal.
      now rewrite seq_S, map_app.
    + intros t Ht. apply in_map_iff in Ht. destruct Ht as [x [<- Hx]].
      apply in_seq in Hx. apply bitstring_ltb_later; lia.
Qed.

(** The keys of a distribution come out of [sorted] as they went in. *)
Lemma sorted_bitstrings (w : nat) :
  sorted (map (fun r => bitstring_of (bits w r)) (seq 0 (2 ^ w)))
  = map (fun r => bitstring_of (bits w r)) (seq 0 (2 ^ w)).
Proof. unfold sorted. apply (sorted_bitstrings_from w 0 (2 ^ w)). lia. Qed.

(** ** A distribution as a table indexed by outcome *)

Lemma outcome_table_keys {V} (w : nat) (f : nat -> V) :
  keys (outcome_table w f)
  = map (fun r => bitstring_of (bits w r)) (seq 0 (2 ^ w)).
Proof. unfold keys, outcome_table. now rewrite map_map. Qed.

Lemma outcome_table_values {V} (w : nat) (f : nat -> V) :
  values (outcome_table w f) = map f (seq 0 (2 ^ w)).
Proof. unfold values, outcome_table. now rewrite map_map. Qed.

Lemma outcome_table_get {V} (w : nat) (f : nat -> V) (r : nat) :
  r < 2 ^ w ->
  dict_get (outcome_table w f) (bitstring_of (bits w r)) = Some (f r).
Proof.
  intros Hr. apply dict_get_in.
  - rewrite outcome_table_keys. apply bitstring_keys_nodup.
  - unfold outcome_table. apply in_map_iff. exists r. split; [reflexivity|].
    apply in_seq. lia.
Qed.

Lemma outcome_table_of_items {V} (w : nat) (f : nat -> V) :
  dict_of_items (outcome_table w f) = outcome_table w f.
Proof.
  apply dict_of_items_nodup.
  change (map fst (outcome_table w f)) with (keys (outcome_table w f)).
  rewrite outcome_table_keys. apply bitstring_keys_nodup.
Qed.

Lemma getitems_sub {V} (d : dict V) (its : list (string * V)) :
  NoDup (keys d) -> incl its d ->
  getitems d (map fst its) = Ok (map snd its).
Proof.
  intros ND. induction its as [|[k v] its IH]; intros Hin; simpl;
    [reflexivity|].
  unfold getitem. rewrite (dict_get_in d k v ND) by (apply Hin; now left).
  rewrite IH; [reflexivity|]. intros x Hx. apply Hin. now right.
Qed.

Lemma getitems_keys {V} (d : dict V) :
  NoDup (keys d) -> getitems d (keys d) = Ok (values d).
Proof. intros ND. apply getitems_sub; [assumption|apply incl_refl]. Qed.

(** ** Tallying *)

Lemma fold_left_add_from (l : list Z) (a : Z) :
  fold_left Z.add l a = (a + sumZ l)%Z.
Proof.
  unfold sumZ. revert a. induction l as [|x l IH]; intros a; simpl; [lia|].
  rewrite (IH (a + x)%Z), (IH x). lia.
Qed.

Lemma sumZ_cons (x : Z) (l : list Z) : sumZ (x :: l) = (x + sumZ l)%Z.
Proof. unfold sumZ at 1. simpl. apply fold_left_add_from. Qed.

Lemma dict_get_set {V} (d : dict V) (k k' : string) (v : V) :
  dict_get (dict_set d k v) k'
  = if String.eqb k k' then Some v else dict_get d k'.
Proof.
  induction d as [|[k0 v0] d IH]; simpl.
  - reflexivity.
  - destruct (String.eqb_spec k0 k) as [->|N]; simpl.
    + destruct (String.eqb k k'); reflexivity.
    + rewrite IH. destruct (String.eqb_spec k0 k') as [->|N'].
      * destruct (String.eqb_spec k k') as [E|_]; [congruence|reflexivity].
      * reflexivity.
Qed.

Lemma dict_set_keys {V} (d : dict V) (k : string) (v : V) :
  In k (keys d) -> keys (dict_set d k v) = keys d.
Proof.
  induction d as [|[k0 v0] d IH]; simpl; intros H; [contradiction|].
  destruct (String.eqb_spec k0 k) as [->|N]; [reflexivity|].
  simpl. f_equal. apply IH. destruct H; [contradiction|assumption].
Qed.

Lemma dict_set_total (d : dict Z) (k : string) (c v : Z) :
  dict_get d k = Some c ->
  sumZ (values (dict_set d k v)) = (sumZ (values d) - c + v)%Z.
Proof.
  induction d as [|[k0 v0] d IH]; simpl; intros H; [discriminate|].
  destruct (String.eqb_spec k0 k) as [->|N].
  - injection H as ->. unfold values. cbn [map snd]. rewrite !sumZ_cons. lia.
  - unfold values in *. cbn [map snd]. rewrite !sumZ_cons.
    rewrite (IH H). lia.
Qed.

Lemma dict_get_some_in {V} (d : dict V) (k : string) :
  In k (keys d) -> exists c, dict_get d k = Some c.
Proof.
  induction d as [|[k0 v0] d IH]; simpl; intros H; [contradiction|].
  destruct (String.eqb_spec k0 k) as [->|N]; [now exists v0|].
  apply IH. destruct H; [contradiction|assumption].
Qed.

Lemma tally_run (bitstrings : list string) (outcomes : list nat)
    (counts0 : dict Z) :
  Forall (fun i => i < length bitstrings) outcomes ->
  incl bitstrings (keys counts0) ->
  exists counts1,
    tally bitstrings outcomes counts0 = Ok counts1
    /\ keys counts1 = keys counts0
    /\ sumZ (values counts1)
       = (sumZ (values counts0) + Z.of_nat (length outcomes))%Z
    /\ forall s c, dict_get counts0 s = Some c ->
         dict_get counts1 s
         = Some (c + Z.of_nat (count_occ string_dec
                                 (drawn bitstrings outcomes) s))%Z.
Proof.
  intros HF. revert counts0.
  induction HF as [|i outs Hi _ IH]; intros counts0 Hincl.
  - exists counts0. simpl. repeat split; try reflexivity; try lia.
    intros s c H. rewrite H. f_equal. lia.
  - cbn [tally]. unfold list_getitem.
    destruct (nth_error bitstrings i) as [key|] eqn:En;
      [|apply nth_error_None in En; lia].
    assert (Hkey : nth i bitstrings EmptyString = key)
      by now apply nth_error_nth.
    assert (Hin : In key (keys counts0))
      by (apply Hincl; eapply nth_error_In; eassumption).
    destruct (dict_get_some_in counts0 key Hin) as [c Hc].
    unfold getitem. rewrite Hc.
    destruct (IH (dict_set counts0 key (c + 1)%Z)) as (counts1 & T & K & S & G).
    { now rewrite dict_set_keys. }
    exists counts1. split; [exact T|]. split.
    { now rewrite K, dict_set_keys. }
    split.
    { rewrite S, (dict_set_total counts0 key c _ Hc). cbn [length]. lia. }
    intros s c' Hs. cbn [drawn map]. fold (drawn bitstrings outs).
    rewrite Hkey. cbn [count_occ].
    destruct (string_dec key s) as [->|N].
    + rewrite (G s (c + 1)%Z).
      * rewrite Hs in Hc. injection Hc as ->. f_equal. lia.
      * rewrite dict_get_set. now rewrite String.eqb_refl.
    + rewrite (G s c').
      * reflexivity.
      * rewrite dict_get_set.
        destruct (String.eqb_spec key s) as [E|_]; [contradiction|assumption].
Qed.

Lemma count_occ_drawn (w : nat) (outcomes : list nat) (r : nat) :
  Forall (fun i => i < 2 ^ w) outcomes -> r < 2 ^ w ->
  count_occ string_dec
    (drawn (map (fun x => bitstring_of (bits w x)) (seq 0 (2 ^ w))) outcomes)
    (bitstring_of (bits w r))
  = count_occ Nat.eq_dec outcomes r.
Proof.
  intros HF Hr. induction HF as [|i outs Hi _ IH]; [reflexivity|].
  cbn [drawn map count_occ]. fold (drawn (map (fun x => bitstring_of (bits w x))
                                             (seq 0 (2 ^ w))) outs).
  rewrite (nth_map_seq (fun x => bitstring_of (bits w x)) _ i EmptyString Hi).
  destruct (string_dec (bitstring_of (bits w i)) (bitstring_of (bits w r))) as [E|N];
    destruct (Nat.eq_dec i r) as [E'|N']; try (now rewrite IH).
  - apply bitstring_of_bits_inj in E; [contradiction|assumption|assumption].
  - subst. contradiction.
Qed.

(** ** Running [measure] *)

Lemma bind_ok {A B} (m : M A) (k : A -> M B) (self self' : QuantumCircuit)
    (a : A) (w : list (list C)) :
  m self = mk_run (Ok a) self' w ->
  bind m k self
  = mk_run (value (k a self')) (self_after (k a self')) (w ++ writes (k a self')).
Proof. intros H. unfold bind. rewrite H. reflexivity. Qed.

Lemma bind_pure {A B} (m : M A) (k : A -> M B) (self : QuantumCircuit) (a : A) :
  m self = mk_run (Ok a) self [] -> bind m k self = k a self.
Proof.
  intros H. rewrite (bind_ok m k self self a [] H).
  now destruct (k a self).
Qed.

Lemma bind_raise {A B} (m : M A) (k : A -> M B) (self self' : QuantumCircuit)
    (e : exn) (w : list (list C)) :
  m self = mk_run (Raise e) self' w ->
  bind m k self = mk_run (Raise e) self' w.
Proof. intros H. unfold bind. rewrite H. reflexivity. Qed.

Lemma lift_ok {A} (a : A) (self : QuantumCircuit) :
  lift (Ok a) self = mk_run (Ok a) self [].
Proof. reflexivity. Qed.

Lemma nth_seq_map_gen {A} (l : list A) (d : A) :
  map (fun i => nth i l d) (seq 0 (length l)) = l.
Proof.
  induction l as [|a l IH]; [reflexivity|].
  cbn [length]. rewrite <- cons_seq, <- seq_shift. cbn [map nth].
  rewrite map_map. cbn [nth]. now rewrite IH.
Qed.

Lemma combine_seq_map {A B} (g : A -> B) (l : list A) (d : A) :
  combine (seq 0 (length l)) (map g l)
  = map (fun x => (x, g (nth x l d))) (seq 0 (length l)).
Proof.
  rewrite <- (nth_seq_map_gen l d) at 2.
  rewrite map_map.
  rewrite <- (map_id (seq 0 (length l))) at 1.
  apply combine_map_map.
Qed.

Lemma probabilities_run_empty (self : QuantumCircuit) :
  well_formed self -> 0 < num_qubits self ->
  probabilities (Some []) self
  = mk_run (Ok (outcome_table (num_qubits self)
                  (fun x => Cnorm2 (nth x (_state self) Czero))))
           self [].
Proof.
  intros WF Hn. unfold probabilities.
  rewrite (bind_pure _ _ self []).
  2:{ apply normalise_valid. split; constructor. }
  unfold bind, get_self, ret. cbn [value self_after writes app].
  rewrite length_map, (combine_seq_map Cabs_sq _ Czero), map_map. cbn [fst snd].
  rewrite WF.
  rewrite (map_ext_in _
    (fun x => (bitstring_of (bits (num_qubits self) x),
               Cnorm2 (nth x (_state self) Czero)))).
  - fold (outcome_table (num_qubits self)
            (fun x => Cnorm2 (nth x (_state self) Czero))).
    now rewrite outcome_table_of_items.
  - intros x Hx. apply in_seq in Hx.
    rewrite format_0b_bits by lia. now rewrite Cabs_sq_norm2.
Qed.

(** What [probabilities] returns on a validated tuple. *)
Lemma probabilities_tuple (self : QuantumCircuit) (qubit_tuple : list Z) :
  well_formed self -> 0 < num_qubits self ->
  valid_qubits (num_qubits self) qubit_tuple ->
  probabilities (Some qubit_tuple) self
  = mk_run (Ok (outcome_table (outcome_width (num_qubits self) qubit_tuple)
                  (outcome_probability (num_qubits self) qubit_tuple
                     (_state self))))
           self [].
Proof.
  intros WF Hn HV. destruct qubit_tuple as [|q qs] eqn:E.
  - now apply probabilities_run_empty.
  - rewrite <- E in *. rewrite (probabilities_run self qubit_tuple WF HV).
    + now rewrite E.
    + rewrite E. discriminate.
Qed.

Lemma collapse_tuple (self : QuantumCircuit) (qubit_tuple : list Z) (r : nat) :
  well_formed self -> 0 < num_qubits self ->
  valid_qubits (num_qubits self) qubit_tuple ->
  r < 2 ^ outcome_width (num_qubits self) qubit_tuple ->
  _collapse_state qubit_tuple
    (bitstring_of (bits (outcome_width (num_qubits self) qubit_tuple) r)) self
  = let v' := post_measurement (num_qubits self) qubit_tuple (_state self) r in
    mk_run (Ok tt) (mk_QuantumCircuit (num_qubits self) v') [v'].
Proof.
  intros WF Hn HV Hr. destruct qubit_tuple as [|q qs] eqn:E.
  - now apply collapse_run_empty.
  - rewrite <- E in *.
    assert (Ew : outcome_width (num_qubits self) qubit_tuple = length qubit_tuple)
      by now rewrite E.
    rewrite Ew in *.
    rewrite (collapse_run self qubit_tuple r WF HV); [|rewrite E; discriminate|assumption].
    now rewrite E.
Qed.

(** ** The outcome probabilities add up to the total probability *)

Lemma Rsum_plus {A} (f g : A -> R) (l : list A) :
  Rsum (map (fun x => (f x + g x)%R) l) = (Rsum (map f l) + Rsum (map g l))%R.
Proof. induction l as [|x l IH]; simpl; [lra|]. rewrite IH. lra. Qed.

Lemma Rsum_const_zero {A} (l : list A) : Rsum (map (fun _ => 0%R) l) = 0%R.
Proof. induction l as [|x l IH]; simpl; [reflexivity|]. rewrite IH. lra. Qed.

Lemma Rsum_indicator (i k : nat) (c : R) :
  Rsum (map (fun r => if i =? r then c else 0%R) (seq 0 k))
  = if i <? k then c else 0%R.
Proof.
  induction k as [|k IH]; [reflexivity|].
  rewrite seq_S, map_app, Rsum_app, IH. cbn [Nat.add map Rsum].
  destruct (Nat.eqb_spec i k) as [->|N].
  - rewrite Nat.ltb_irrefl.
    assert (H : (k <? S k) = true) by (apply Nat.ltb_lt; lia).
    rewrite H. lra.
  - destruct (Nat.ltb_spec i k) as [L|L];
      destruct (Nat.ltb_spec i (S k)) as [L'|L']; try lia; lra.
Qed.

Lemma Rsum_partition (f : nat -> R) (g : nat -> nat) (k : nat) (l : list nat) :
  Forall (fun x => g x < k) l ->
  Rsum (map (fun r => Rsum (map f (filter (fun x => g x =? r) l))) (seq 0 k))
  = Rsum (map f l).
Proof.
  induction 1 as [|x l Hx _ IH].
  - simpl. apply Rsum_const_zero.
  - cbn [map Rsum]. rewrite <- IH.
    assert (E : f x = Rsum (map (fun r => if g x =? r then f x else 0%R)
                                (seq 0 k))).
    { rewrite Rsum_indicator. apply Nat.ltb_lt in Hx. now rewrite Hx. }
    transitivity
      (Rsum (map (fun r => if g x =? r then f x else 0%R) (seq 0 k))
       + Rsum (map (fun r => Rsum (map f (filter (fun x0 => g x0 =? r) l)))
                   (seq 0 k)))%R.
    + rewrite <- Rsum_plus. f_equal. apply map_ext. intros r.
      cbn [filter]. destruct (g x =? r); simpl; lra.
    + now rewrite <- E.
Qed.

Lemma outcome_probability_total (n : nat) (qubit_tuple : list Z) (v : list C) :
  length v = 2 ^ n -> valid_qubits n qubit_tuple ->
  Rsum (map (outcome_probability n qubit_tuple v)
            (seq 0 (2 ^ outcome_width n qubit_tuple)))
  = norm_sq v.
Proof.
  intros Hv HV. unfold norm_sq. destruct qubit_tuple as [|q qs] eqn:E.
  - cbn [outcome_probability outcome_width].
    rewrite <- Hv, <- (map_map (fun r => nth r v Czero) Cnorm2).
    now rewrite nth_seq_map_gen.
  - rewrite <- E in *.
    assert (Ew : outcome_width n qubit_tuple = length qubit_tuple) by now rewrite E.
    rewrite Ew.
    rewrite (map_ext_in _
      (fun r => Rsum (map (fun x => Cnorm2 (nth x v Czero))
                       (filter (fun x => sub_index n (map Z.to_nat qubit_tuple) x =? r)
                               (seq 0 (2 ^ n)))))).
    + rewrite Rsum_partition.
      * rewrite <- Hv, <- (map_map (fun r => nth r v Czero) Cnorm2).
        now rewrite nth_seq_map_gen.
      * apply Forall_forall. intros x _.
        rewrite <- (length_map Z.to_nat qubit_tuple). apply sub_index_lt.
    + intros r Hr. apply in_seq in Hr.
      unfold outcome_probability. rewrite E. rewrite <- E.
      unfold marginal. f_equal. f_equal. apply filter_ext. intros x.
      rewrite <- (length_map Z.to_nat qubit_tuple).
      apply agrees_on_sub_index. rewrite length_map. lia.
Qed.

Lemma marginal_nonneg (n : nat) (targets b : list nat) (v : list C) :
  (0 <= marginal n targets b v)%R.
Proof.
  unfold marginal. apply Rsum_nonneg, Forall_forall. intros y Hy.
  apply in_map_iff in Hy. destruct Hy as [x [<- _]]. apply Cnorm2_nonneg.
Qed.

Lemma outcome_probability_nonneg (n : nat) (qubit_tuple : list Z) (v : list C)
    (r : nat) :
  (0 <= outcome_probability n qubit_tuple v r)%R.
Proof.
  destruct qubit_tuple; simpl; [apply Cnorm2_nonneg|apply marginal_nonneg].
Qed.

Lemma isclose_one_1 : isclose_one 1 = true.
Proof.
  unfold isclose_one. destruct (Rle_dec _ _) as [H|H]; [reflexivity|].
  exfalso. apply H. replace (1 - 1)%R with 0%R by ring.
  rewrite Rabs_R0, Rabs_R1. lra.
Qed.

Lemma sampling_weights_unit (probs : list R) :
  Rsum probs = 1%R -> sampling_weights probs = probs.
Proof. intros H. unfold sampling_weights. now rewrite H, isclose_one_1. Qed.

Lemma normalise_tuple (self : QuantumCircuit) (qubits : option (list Z)) :
  valid_qubits (num_qubits self) (qubit_tuple_of (num_qubits self) qubits) ->
  _normalise_qubits qubits self
  = mk_run (Ok (qubit_tuple_of (num_qubits self) qubits)) self [].
Proof.
  intros HV. destruct qubits as [qs|]; [now apply normalise_valid|reflexivity].
Qed.

Lemma nth_error_map_seq {A} (f : nat -> A) (n i : nat) :
  i < n -> nth_error (map f (seq 0 n)) i = Some (f i).
Proof.
  intros Hi. rewrite nth_error_map, nth_error_seq.
  apply Nat.ltb_lt in Hi. now rewrite Hi.
Qed.

(* ================================================================== *)
(** * Unitary matrices preserve the total probability                  *)
(* ================================================================== *)

Lemma Csum_plus {A} (f g : A -> C) (l : list A) :
  Csum (map (fun x => Cadd (f x) (g x)) l)
  = Cadd (Csum (map f l)) (Csum (map g l)).
Proof. induction l as [|x l IH]; simpl; [ring|]. rewrite IH. ring. Qed.

Lemma Csum_zero {A} (l : list A) : Csum (map (fun _ => Czero) l) = Czero.
Proof. induction l as [|x l IH]; simpl; [reflexivity|]. rewrite IH. ring. Qed.

Lemma Csum_scale_l {A} (a : C) (f : A -> C) (l : list A) :
  Csum (map (fun x => Cmul a (f x)) l) = Cmul a (Csum (map f l)).
Proof. induction l as [|x l IH]; simpl; [ring|]. rewrite IH. ring. Qed.

Lemma Csum_scale_r {A} (a : C) (f : A -> C) (l : list A) :
  Csum (map (fun x => Cmul (f x) a) l) = Cmul (Csum (map f l)) a.
Proof. induction l as [|x l IH]; simpl; [ring|]. rewrite IH. ring. Qed.

Lemma Csum_swap {A B} (g : A -> B -> C) (l1 : list A) (l2 : list B) :
  Csum (map (fun x => Csum (map (fun y => g x y) l2)) l1)
  = Csum (map (fun y => Csum (map (fun x => g x y) l1)) l2).
Proof.
  induction l1 as [|x l1 IH]; simpl.
  - now rewrite Csum_zero.
  - rewrite IH. now rewrite <- Csum_plus.
Qed.

Lemma Csum_ext {A} (f g : A -> C) (l : list A) :
  (forall x, In x l -> f x = g x) -> Csum (map f l) = Csum (map g l).
Proof. intros H. f_equal. now apply map_ext_in. Qed.

Lemma Csum_delta (f : nat -> C) (a d : nat) :
  a < d ->
  Csum (map (fun b => Cmul (if a =? b then Cone else Czero) (f b)) (seq 0 d))
  = f a.
Proof.
  intros Ha.
  assert (G : forall k,
    Csum (map (fun b => Cmul (if a =? b then Cone else Czero) (f b)) (seq 0 k))
    = if a <? k then f a else Czero).
  { induction k as [|k IH]; [reflexivity|].
    rewrite seq_S, map_app. cbn [Nat.add map].
    assert (App : forall l1 l2, Csum (l1 ++ l2) = Cadd (Csum l1) (Csum l2)).
    { induction l1 as [|z l1 IH1]; intros l2; simpl; [ring|].
      rewrite IH1. ring. }
    rewrite App, IH. cbn [Csum].
    destruct (Nat.eqb_spec a k) as [->|N].
    - rewrite Nat.ltb_irrefl.
      assert (H : (k <? S k) = true) by (apply Nat.ltb_lt; lia).
      rewrite H. ring.
    - destruct (Nat.ltb_spec a k) as [L|L];
        destruct (Nat.ltb_spec a (S k)) as [L'|L']; try lia; ring. }
  rewrite G. apply Nat.ltb_lt in Ha. now rewrite Ha.
Qed.

Lemma Cconj_mul (a b : C) : Cconj (Cmul a b) = Cmul (Cconj a) (Cconj b).
Proof.
  destruct a, b. unfold Cconj, Cmul, Re, Im. simpl. f_equal; ring.
Qed.

Lemma Cconj_Csum {A} (f : A -> C) (l : list A) :
  Cconj (Csum (map f l)) = Csum (map (fun x => Cconj (f x)) l).
Proof.
  induction l as [|x l IH]; simpl.
  - unfold Cconj, Czero, RtoC, Re, Im. simpl. f_equal. ring.
  - rewrite <- IH. destruct (f x), (Csum (map f l)).
    unfold Cconj, Cadd, Re, Im. simpl. f_equal. ring.
Qed.

Lemma Cnorm2_mul (z : C) : RtoC (Cnorm2 z) = Cmul (Cconj z) z.
Proof.
  destruct z. unfold RtoC, Cnorm2, Cmul, Cconj, Re, Im. simpl. f_equal; ring.
Qed.

Lemma RtoC_Rsum {A} (f : A -> R) (l : list A) :
  RtoC (Rsum (map f l)) = Csum (map (fun x => RtoC (f x)) l).
Proof.
  induction l as [|x l IH]; simpl; [reflexivity|].
  rewrite <- IH. unfold RtoC, Cadd, Re, Im. simpl. f_equal. ring.
Qed.

Lemma RtoC_inj (x y : R) : RtoC x = RtoC y -> x = y.
Proof. unfold RtoC. now intros [= ->]. Qed.

(** One column: the squared norm of [U m] is that of [m]. *)
Lemma unitary_column (u : ndarray C) (d : nat) (m : nat -> C) :
  is_unitary u d ->
  Rsum (map (fun r =>
               Cnorm2 (Csum (map (fun y => Cmul (entry u r y) (m y))
                                 (seq 0 d))))
            (seq 0 d))
  = Rsum (map (fun y => Cnorm2 (m y)) (seq 0 d)).
Proof.
  intros [_ HU]. apply RtoC_inj. rewrite !RtoC_Rsum.
  transitivity
    (Csum (map (fun y =>
       Csum (map (fun y' =>
         Cmul (Cmul (Cconj (m y)) (m y'))
              (Csum (map (fun r => Cmul (Cconj (entry u r y)) (entry u r y'))
                         (seq 0 d))))
         (seq 0 d)))
       (seq 0 d))).
  - transitivity
      (Csum (map (fun r =>
         Csum (map (fun y =>
           Csum (map (fun y' =>
             Cmul (Cmul (Cconj (m y)) (m y'))
                  (Cmul (Cconj (entry u r y)) (entry u r y')))
             (seq 0 d)))
           (seq 0 d)))
         (seq 0 d))).
    + apply Csum_ext. intros r _.
      rewrite Cnorm2_mul, Cconj_Csum, <- Csum_scale_r.
      apply Csum_ext. intros y _.
      rewrite <- Csum_scale_l. apply Csum_ext. intros y' _.
      rewrite Cconj_mul. ring.
    + rewrite Csum_swap. apply Csum_ext. intros y _.
      rewrite Csum_swap. apply Csum_ext. intros y' _.
      now rewrite Csum_scale_l.
  - apply Csum_ext. intros y Hy. apply in_seq in Hy.
    rewrite (Csum_ext _ (fun y' => Cmul (if y =? y' then Cone else Czero)
                                        (Cmul (Cconj (m y)) (m y')))).
    + rewrite Csum_delta by lia. now rewrite Cnorm2_mul.
    + intros y' Hy'. apply in_seq in Hy'. rewrite HU by lia. ring.
Qed.

(** Sums over a matrix in row-major order. *)
Lemma Rsum_rows (h : nat -> R) (d t : nat) :
  Rsum (map h (seq 0 (d * t)))
  = Rsum (map (fun r => Rsum (map (fun c => h (r * t + c)) (seq 0 t)))
              (seq 0 d)).
Proof.
  induction d as [|d IH]; [reflexivity|].
  rewrite seq_S, map_app, Rsum_app, <- IH. cbn [Nat.add map Rsum].
  replace (S d * t) with (d * t + t) by lia.
  rewrite seq_app, map_app, Rsum_app. f_equal.
  rewrite Rplus_0_r. cbn [Nat.add].
  rewrite (seq_add_map (d * t)), map_map. reflexivity.
Qed.

Lemma Rsum_swap {A B} (g : A -> B -> R) (l1 : list A) (l2 : list B) :
  Rsum (map (fun x => Rsum (map (fun y => g x y) l2)) l1)
  = Rsum (map (fun y => Rsum (map (fun x => g x y) l1)) l2).
Proof.
  induction l1 as [|x l1 IH]; simpl.
  - now rewrite Rsum_const_zero.
  - rewrite IH. now rewrite <- Rsum_plus.
Qed.

Lemma Rsum_ext {A} (f g : A -> R) (l : list A) :
  (forall x, In x l -> f x = g x) -> Rsum (map f l) = Rsum (map g l).
Proof. intros H. f_equal. now apply map_ext_in. Qed.

Lemma norm_sq_nth (v : list C) :
  norm_sq v = Rsum (map (fun x => Cnorm2 (nth x v Czero)) (seq 0 (length v))).
Proof.
  unfold norm_sq. rewrite <- (map_map (fun x => nth x v Czero) Cnorm2).
  now rewrite nth_seq_map_gen.
Qed.

Lemma matmul_norm (u : ndarray C) (d t : nat) (l : list C) :
  is_unitary u d -> 0 < t -> length l = d * t ->
  norm_sq (data (matmul u (mk_ndarray [d; t] l))) = norm_sq l.
Proof.
  intros HU Ht Hl. pose proof HU as [Hs _].
  unfold matmul. cbn [shape data nth]. rewrite Hs. cbn [nth].
  unfold norm_sq at 1. rewrite map_map.
  rewrite Rsum_rows.
  rewrite (Rsum_ext _
    (fun r => Rsum (map (fun c =>
       Cnorm2 (Csum (map (fun y => Cmul (entry u r y)
                                        (nth (y * t + c) l Czero))
                         (seq 0 d))))
       (seq 0 t)))).
  2:{ intros r _. apply Rsum_ext. intros c Hc. apply in_seq in Hc.
      rewrite Nat.div_add_l, Nat.div_small, Nat.add_0_r by lia.
      rewrite (Nat.add_comm _ c), Nat.Div0.mod_add, Nat.mod_small by lia.
      f_equal. apply Csum_ext. intros y _. unfold entry. rewrite Hs.
      reflexivity. }
  rewrite Rsum_swap.
  rewrite (Rsum_ext _
    (fun c => Rsum (map (fun y => Cnorm2 (nth (y * t + c) l Czero)) (seq 0 d)))).
  2:{ intros c _. apply (unitary_column u d (fun y => nth (y * t + c) l Czero) HU). }
  rewrite Rsum_swap, <- (Rsum_rows (fun x => Cnorm2 (nth x l Czero))).
  now rewrite norm_sq_nth, Hl.
Qed.

Lemma transpose_norm (n : nat) (v : list C) (perm inv : list nat) :
  inverse_axes n perm inv -> length v = 2 ^ n ->
  norm_sq (data (transpose Czero (mk_ndarray (repeat 2 n) v) perm))
  = norm_sq v.
Proof.
  intros HI Hv. rewrite (transpose_data Czero n v perm inv HI). cbn [data].
  unfold norm_sq at 1. rewrite map_map.
  rewrite <- (map_map (source_index n inv) (fun x => Cnorm2 (nth x v Czero))).
  rewrite (Rsum_perm _ _ (Permutation_map _ (source_index_perm n perm inv HI))).
  now rewrite norm_sq_nth, Hv.
Qed.

(** A unitary gate keeps the total probability. *)
Lemma acts_on_targets_norm (n : nat) (v : list C) (u : ndarray C)
    (qubits : list Z) :
  length v = 2 ^ n -> valid_qubits n qubits ->
  is_unitary u (2 ^ length qubits) ->
  norm_sq (map (acts_on_targets n u (map Z.to_nat qubits) v) (seq 0 (2 ^ n)))
  = norm_sq v.
Proof.
  intros Hv HV HU. pose proof HU as [Hs _].
  pose proof (valid_qubits_length n qubits HV) as Hk.
  pose proof (permutation_of_inverse n qubits HV) as HI.
  rewrite <- (unitary_pipeline n v u qubits Hv HV Hs).
  unfold ravel, reshape. cbn [data].
  rewrite <- repeat_app.
  replace (length qubits + (n - length qubits)) with n by lia.
  set (tensor := transpose Czero (mk_ndarray (repeat 2 n) v) (permutation_of n qubits)).
  assert (Ht : length (data tensor) = 2 ^ n).
  { unfold tensor. rewrite (transpose_data Czero n v _ _ HI). cbn [data].
    now rewrite length_map, length_seq. }
  assert (Hm : length (data (matmul u (reshape_rows tensor (2 ^ length qubits))))
               = 2 ^ n).
  { unfold matmul, reshape_rows. cbn [shape data nth]. rewrite Hs. cbn [nth].
    rewrite length_map, length_seq, Ht, (pow2_div n _ Hk).
    apply pow2_split. assumption. }
  rewrite (transpose_norm n _ _ _ (inverse_axes_sym _ _ _ HI) Hm).
  unfold reshape_rows. rewrite Ht, (pow2_div n _ Hk).
  rewrite (matmul_norm u _ _ _ HU (pow2_pos _)).
  - unfold tensor. now apply (transpose_norm n v _ _ HI).
  - rewrite Ht. symmetry. now apply pow2_split.
Qed.

(* ================================================================== *)
(** * Effects: which methods write, and when                           *)
(* ================================================================== *)

Lemma pure_atomic {A} (m : M A) : pure_run m -> atomic m.
Proof. intros H self e _. apply H. Qed.

Lemma pure_ret {A} (a : A) : pure_run (ret a).
Proof. intros self. now split. Qed.

Lemma pure_raise {A} (e : exn) : pure_run (@raise A e).
Proof. intros self. now split. Qed.

Lemma pure_lift {A} (r : result A) : pure_run (lift r).
Proof. destruct r; [apply pure_ret|apply pure_raise]. Qed.

Lemma pure_get_self : pure_run get_self.
Proof. intros self. now split. Qed.

Lemma pure_bind {A B} (m : M A) (k : A -> M B) :
  pure_run m -> (forall a, pure_run (k a)) -> pure_run (bind m k).
Proof.
  intros Hm Hk self. unfold bind.
  destruct (Hm self) as [S W].
  destruct (value (m self)) as [a|e]; cbn [self_after writes].
  - destruct (Hk a (self_after (m self))) as [S' W'].
    rewrite S', W, W', S. now split.
  - now split.
Qed.

Lemma atomic_bind_pure {A B} (m : M A) (k : A -> M B) :
  pure_run m -> (forall a, atomic (k a)) -> atomic (bind m k).
Proof.
  intros Hm Hk self e. unfold bind.
  destruct (Hm self) as [S W].
  destruct (value (m self)) as [a|e']; cbn [value self_after writes].
  - intros H. destruct (Hk a (self_after (m self)) e H) as [S' W'].
    rewrite S', W, W', S. now split.
  - intros _. now split.
Qed.

Lemma atomic_then_ret {A B} (m : M A) (f : A -> B) :
  atomic m -> atomic (bind m (fun a => ret (f a))).
Proof.
  intros Hm self e. unfold bind, ret.
  destruct (value (m self)) as [a|e'] eqn:E; cbn [value self_after writes].
  - discriminate.
  - intros _. apply (Hm self e' E).
Qed.

Lemma atomic_set_state (v : list C) : atomic (set_state v).
Proof. intros self e H. discriminate. Qed.

Create HintDb effects.
#[export] Hint Resolve pure_ret pure_raise pure_lift pure_get_self
  atomic_set_state : effects.

Ltac effects_step :=
  match goal with
  | |- pure_run (bind _ _) => apply pure_bind; [|intros ?]
  | |- pure_run (if ?c then _ else _) => destruct c
  | |- pure_run (match ?x with _ => _ end) => destruct x
  | |- atomic (bind _ (fun _ => ret _)) => apply atomic_then_ret
  | |- atomic (bind _ _) => apply atomic_bind_pure; [|intros ?]
  | |- atomic (if ?c then _ else _) => destruct c
  | |- atomic (match ?x with _ => _ end) => destruct x
  | |- atomic (raise _) => apply pure_atomic
  | |- atomic (ret _) => apply pure_atomic
  | |- _ => solve [auto with effects]
  end.

Ltac effects := cbv zeta; repeat effects_step.

Lemma pure_normalise (qubits : option (list Z)) :
  pure_run (_normalise_qubits qubits).
Proof. unfold _normalise_qubits. effects. Qed.

Lemma pure_probabilities (qubits : option (list Z)) :
  pure_run (probabilities qubits).
Proof.
  unfold probabilities.
  apply pure_bind; [apply pure_normalise|intros qt]. effects.
Qed.

#[export] Hint Resolve pure_normalise pure_probabilities : effects.

Lemma atomic_apply_unitary (u : ndarray C) (qubits : list Z) :
  atomic (_apply_unitary u qubits).
Proof. unfold _apply_unitary. effects. Qed.

Lemma atomic_collapse_state (qubits : list Z) (bitstring : string) :
  atomic (_collapse_state qubits bitstring).
Proof. unfold _collapse_state. effects. Qed.

#[export] Hint Resolve atomic_apply_unitary atomic_collapse_state : effects.

Lemma atomic_measure (qubits : option (list Z)) (shots : Z) (rng : Generator) :
  atomic (measure qubits shots rng).
Proof. unfold measure. effects. Qed.

(** ** The public methods, as calls *)

Lemma atomic_perform (c : call) : atomic (perform c).
Proof.
  destruct c; unfold perform, hadamard, pauli_x, cnot, apply_custom.
  - effects.
  - effects.
  - effects.
  - effects.
  - apply pure_atomic. effects.
  - apply atomic_then_ret, atomic_measure.
Qed.

Lemma run_eta {A} (r : run A) :
  r = mk_run (value r) (self_after r) (writes r).
Proof. now destruct r. Qed.

Lemma raises_unchanged {A} (m : M A) (self : QuantumCircuit) (e : exn) :
  atomic m -> value (m self) = Raise e -> m self = mk_run (Raise e) self [].
Proof.
  intros Ha H. destruct (Ha self e H) as [S W].
  rewrite (run_eta (m self)), H, S, W. reflexivity.
Qed.

Lemma value_bind_raise {A B} (m : M A) (k : A -> M B) (self : QuantumCircuit)
    (e : exn) :
  value (m self) = Raise e -> value (bind m k self) = Raise e.
Proof. intros H. unfold bind. now rewrite H. Qed.

Lemma normalise_invalid (self : QuantumCircuit) (qubits : list Z) :
  ~ valid_qubits (num_qubits self) qubits ->
  exists e, _normalise_qubits (Some qubits) self = mk_run (Raise e) self [].
Proof.
  intros HN. destruct (normalise_cases self (Some qubits))
    as [(qt & _ & HV & Hq)|(e & H & _)].
  - rewrite (Hq qubits eq_refl) in HV. contradiction.
  - now exists e.
Qed.

Lemma apply_unitary_invalid_qubits (self : QuantumCircuit) (u : ndarray C)
    (qubits : list Z) :
  ~ valid_qubits (num_qubits self) qubits ->
  exists e, value (_apply_unitary u qubits self) = Raise e.
Proof.
  intros HN. unfold _apply_unitary.
  destruct (negb (ndim u =? 2) || negb (nth 0 (shape u) 0 =? nth 1 (shape u) 0)).
  - now exists ValueError.
  - destruct (normalise_invalid self qubits HN) as [e He].
    exists e. apply value_bind_raise. now rewrite He.
Qed.

Lemma apply_unitary_bad_shape (self : QuantumCircuit) (u : ndarray C)
    (qubits : list Z) :
  ndim u <> 2 \/ nth 0 (shape u) 0 <> nth 1 (shape u) 0
  \/ nth 0 (shape u) 0 <> 2 ^ length qubits ->
  exists e, value (_apply_unitary u qubits self) = Raise e.
Proof.
  intros H. unfold _apply_unitary.
  destruct (Nat.eqb_spec (ndim u) 2) as [E1|N1]; cbn [negb orb];
    [|now exists ValueError].
  destruct (Nat.eqb_spec (nth 0 (shape u) 0) (nth 1 (shape u) 0)) as [E2|N2];
    cbn [negb]; [|now exists ValueError].
  destruct H as [H|[H|H]]; try contradiction.
  destruct (normalise_cases self (Some qubits))
    as [(qt & Hq & _ & Eq)|(e & He & _)].
  - rewrite (Eq qubits eq_refl) in Hq.
    rewrite (bind_pure _ _ self qubits Hq).
    destruct (Nat.eqb_spec (nth 0 (shape u) 0) (2 ^ length qubits)) as [E3|N3];
      [contradiction|]. now exists ValueError.
  - exists e. apply value_bind_raise. now rewrite He.
Qed.

Lemma invalid_singleton (n : nat) (q : Z) :
  ~ (0 <= q < Z.of_nat n)%Z -> ~ valid_qubits n [q].
Proof. intros H [_ HF]. inversion HF; subst. contradiction. Qed.

Lemma invalid_call_value (c : call) (self : QuantumCircuit) :
  invalid_call (num_qubits self) c ->
  exists e, value (perform c self) = Raise e.
Proof.
  destruct c as [q|q|c t|u qs|qs|qs shots rng]; cbn [invalid_call perform];
    intros H.
  - destruct (apply_unitary_invalid_qubits self _H [q] (invalid_singleton _ _ H))
      as [e He].
    exists e. now apply value_bind_raise.
  - destruct (apply_unitary_invalid_qubits self _X [q] (invalid_singleton _ _ H))
      as [e He].
    exists e. now apply value_bind_raise.
  - unfold cnot. destruct (Z.eqb_spec c t) as [E|N].
    + now exists ValueError.
    + destruct H as [H|H]; [contradiction|].
      destruct (apply_unitary_invalid_qubits self _CNOT [c; t] H) as [e He].
      exists e. now apply value_bind_raise.
  - unfold apply_custom.
    assert (G : exists e, value (_apply_unitary u qs self) = Raise e).
    { destruct H as [H|[H|[H|H]]].
      - apply apply_unitary_bad_shape. now left.
      - apply apply_unitary_bad_shape. right. now left.
      - now apply apply_unitary_invalid_qubits.
      - apply apply_unitary_bad_shape. right. now right. }
    destruct G as [e He]. exists e. now apply value_bind_raise.
  - destruct H as (l & -> & HN).
    destruct (normalise_invalid self l HN) as [e He].
    exists e. apply value_bind_raise. unfold probabilities.
    apply value_bind_raise. now rewrite He.
  - destruct H as [H|(l & -> & HN)].
    + exists ValueError. apply value_bind_raise. unfold measure.
      destruct (Z.leb_spec shots 0); [reflexivity|lia].
    + destruct (normalise_invalid self l HN) as [e He].
      exists (if (shots <=? 0)%Z then ValueError else e).
      apply value_bind_raise. unfold measure.
      destruct (shots <=? 0)%Z; [reflexivity|].
      apply value_bind_raise. now rewrite He.
Qed.

Lemma invalid_call_raises (c : call) (self : QuantumCircuit) :
  invalid_call (num_qubits self) c ->
  exists e, perform c self = mk_run (Raise e) self [].
Proof.
  intros H. destruct (invalid_call_value c self H) as [e He].
  exists e. apply raises_unchanged; [apply atomic_perform|assumption].
Qed.

Lemma init_invalid (num_qubits : Z) :
  (num_qubits <= 0)%Z -> __init__ num_qubits = Raise ValueError.
Proof.
  intros H. unfold __init__. destruct (Z.leb_spec num_qubits 0); [reflexivity|lia].
Qed.

(* ================================================================== *)
(** * The named gates are unitary                                      *)
(* ================================================================== *)

Lemma sqrt2_sq : (sqrt 2 * sqrt 2 = 2)%R.
Proof. apply sqrt_sqrt. lra. Qed.

Lemma sqrt2_neq0 : sqrt 2 <> 0%R.
Proof. pose proof sqrt2_sq. intros E. rewrite E in H. lra. Qed.

Ltac cases_below_2 a Ha :=
  let H := fresh in
  assert (H : a = 0 \/ a = 1) by lia; clear Ha; destruct H as [->| ->].

Ltac cases_below_4 a Ha :=
  let H := fresh in
  assert (H : a = 0 \/ a = 1 \/ a = 2 \/ a = 3) by lia; clear Ha;
  destruct H as [->|[->|[->| ->]]].

Lemma X_unitary : is_unitary _X 2.
Proof.
  split; [reflexivity|]. intros a b Ha Hb.
  cases_below_2 a Ha; cases_below_2 b Hb;
    cbv [entry _X shape data nth Nat.mul Nat.add seq map Csum Nat.eqb
         Cmul Cadd Cconj RtoC Cone Czero Re Im fst snd];
    f_equal; ring.
Qed.

Lemma CNOT_unitary : is_unitary _CNOT 4.
Proof.
  split; [reflexivity|]. intros a b Ha Hb.
  cases_below_4 a Ha; cases_below_4 b Hb;
    cbv [entry _CNOT shape data nth Nat.mul Nat.add seq map Csum Nat.eqb
         Cmul Cadd Cconj RtoC Cone Czero Re Im fst snd];
    f_equal; ring.
Qed.

Lemma H_unitary : is_unitary _H 2.
Proof.
  pose proof sqrt2_sq as S. pose proof sqrt2_neq0 as N.
  split; [reflexivity|]. intros a b Ha Hb.
  cases_below_2 a Ha; cases_below_2 b Hb;
    cbv [entry _H shape data nth Nat.mul Nat.add seq map Csum Nat.eqb
         Cmul Cadd Cconj Cdiv_real RtoC Cone Czero Re Im fst snd];
    f_equal; field_simplify; try assumption;
    replace (sqrt 2 ^ 2)%R with 2%R
      by (simpl; rewrite Rmult_1_r; symmetry; exact S);
    lra.
Qed.

(* ================================================================== *)
(** * The unit-norm invariant                                          *)
(* ================================================================== *)

Lemma projected_length (n : nat) (targets b : list nat) (v : list C) :
  length (projected n targets b v) = 2 ^ n.
Proof. unfold projected. now rewrite length_map, length_seq. Qed.

Lemma collapsed_length (n : nat) (targets b : list nat) (v : list C) :
  length (collapsed n targets b v) = 2 ^ n.
Proof.
  unfold collapsed. destruct (Rlt_dec _ _).
  - now rewrite length_map, projected_length.
  - apply projected_length.
Qed.

Lemma norm_sq_projected (n : nat) (targets b : list nat) (v : list C) :
  norm_sq (projected n targets b v) = marginal n targets b v.
Proof.
  unfold norm_sq, projected, marginal. rewrite map_map, <- Rsum_filter.
  apply Rsum_ext. intros x _.
  destruct (agrees_on n targets b x); [reflexivity|apply Cnorm2_Czero].
Qed.

Lemma Cnorm2_div_real (z : C) (r : R) :
  r <> 0%R -> Cnorm2 (Cdiv_real z r) = (Cnorm2 z * / (r * r))%R.
Proof.
  intros Hr. destruct z. unfold Cnorm2, Cdiv_real, Re, Im. simpl.
  field. assumption.
Qed.

Lemma norm_sq_div_real (l : list C) (r : R) :
  r <> 0%R ->
  norm_sq (map (fun z => Cdiv_real z r) l) = (norm_sq l * / (r * r))%R.
Proof.
  intros Hr. unfold norm_sq. rewrite map_map.
  rewrite (map_ext _ (fun z => (Cnorm2 z * / (r * r))%R))
    by (intros z; now apply Cnorm2_div_real).
  induction l as [|z l IH]; simpl; [lra|]. rewrite IH. lra.
Qed.

(** Collapse onto an outcome of positive probability leaves unit norm. *)
Lemma norm_sq_collapsed (n : nat) (targets b : list nat) (v : list C) :
  (0 < marginal n targets b v)%R -> norm_sq (collapsed n targets b v) = 1%R.
Proof.
  intros Hm. unfold collapsed.
  pose proof (sqrt_lt_R0 _ Hm) as Hs.
  destruct (Rlt_dec 0 (sqrt (marginal n targets b v))) as [_|N];
    [|contradiction].
  rewrite norm_sq_div_real by lra.
  rewrite norm_sq_projected, sqrt_sqrt by lra.
  field. lra.
Qed.

Lemma basis_like_length (v : list C) (x : nat) :
  length (basis_like v x) = length v.
Proof. unfold basis_like. now rewrite length_map, length_seq. Qed.

Lemma nth_basis_like (v : list C) (x i : nat) :
  i < length v ->
  nth i (basis_like v x) Czero = if i =? x then Cone else Czero.
Proof. intros Hi. unfold basis_like. now rewrite nth_map_seq. Qed.

Lemma norm_sq_basis_like (v : list C) (x : nat) :
  x < length v -> norm_sq (basis_like v x) = 1%R.
Proof.
  intros Hx. unfold norm_sq, basis_like. rewrite map_map.
  rewrite (map_ext _ (fun i => if x =? i then 1%R else 0%R)).
  - rewrite Rsum_indicator. apply Nat.ltb_lt in Hx. now rewrite Hx.
  - intros i. rewrite (Nat.eqb_sym x i).
    destruct (i =? x); [apply Cnorm2_Cone|apply Cnorm2_Czero].
Qed.

Lemma post_measurement_unit_norm (n : nat) (qubit_tuple : list Z) (v : list C)
    (r : nat) :
  length v = 2 ^ n -> 0 < n -> r < 2 ^ outcome_width n qubit_tuple ->
  (0 < outcome_probability n qubit_tuple v r)%R ->
  unit_norm (mk_QuantumCircuit n (post_measurement n qubit_tuple v r)).
Proof.
  intros Hv Hn Hr Hp. unfold unit_norm, well_formed. cbn [num_qubits _state].
  destruct qubit_tuple as [|q qs]; cbn [post_measurement outcome_probability
                                        outcome_width] in *.
  - rewrite basis_like_length. repeat split; try assumption.
    apply norm_sq_basis_like. now rewrite Hv.
  - rewrite collapsed_length. repeat split; try assumption.
    now apply norm_sq_collapsed.
Qed.

Lemma init_unit_norm (nq : Z) (self : QuantumCircuit) :
  __init__ nq = Ok self -> unit_norm self.
Proof.
  unfold __init__. destruct (Z.leb_spec nq 0) as [L|G]; [discriminate|].
  intros [= <-]. unfold unit_norm, well_formed. cbn [num_qubits _state].
  rewrite length_map, length_seq. split; [reflexivity|]. split; [lia|].
  unfold norm_sq. rewrite map_map.
  rewrite (map_ext _ (fun i => if 0 =? i then 1%R else 0%R)).
  - rewrite Rsum_indicator.
    pose proof (pow2_pos (Z.to_nat nq)) as Hp. apply Nat.ltb_lt in Hp.
    now rewrite Hp.
  - intros i. rewrite (Nat.eqb_sym 0 i).
    destruct (i =? 0); [apply Cnorm2_Cone|apply Cnorm2_Czero].
Qed.

(** When [_apply_unitary] returns, its arguments were valid. *)
Lemma apply_unitary_ok_inv (self : QuantumCircuit) (u : ndarray C)
    (qubits : list Z) :
  value (_apply_unitary u qubits self) = Ok tt ->
  valid_qubits (num_qubits self) qubits
  /\ shape u = [2 ^ length qubits; 2 ^ length qubits].
Proof.
  unfold _apply_unitary.
  destruct (Nat.eqb_spec (ndim u) 2) as [E1|N1]; cbn [negb orb];
    [|discriminate].
  destruct (Nat.eqb_spec (nth 0 (shape u) 0) (nth 1 (shape u) 0)) as [E2|N2];
    cbn [negb]; [|discriminate].
  destruct (normalise_cases self (Some qubits))
    as [(qt & Hq & HV & Eq)|(e & He & _)].
  - rewrite (Eq qubits eq_refl) in Hq, HV.
    rewrite (bind_pure _ _ self qubits Hq).
    destruct (Nat.eqb_spec (nth 0 (shape u) 0) (2 ^ length qubits)) as [E3|N3];
      cbn [negb]; [|discriminate].
    intros _. split; [assumption|].
    unfold ndim in E1. destruct (shape u) as [|a [|b [|c l]]]; try discriminate.
    cbn [nth] in E2, E3. now subst.
  - intros H. rewrite (bind_raise _ _ self self e [] He) in H. discriminate.
Qed.

Lemma apply_unitary_unit_norm (self : QuantumCircuit) (u : ndarray C)
    (qubits : list Z) (d : nat) :
  unit_norm self -> is_unitary u d ->
  unit_norm (self_after (_apply_unitary u qubits self)).
Proof.
  intros (WF & Hn & N1) HU.
  destruct (value (_apply_unitary u qubits self)) as [[]|e] eqn:E.
  - destruct (apply_unitary_ok_inv self u qubits E) as [HV Hs].
    assert (Hd : d = 2 ^ length qubits).
    { destruct HU as [Hs' _]. rewrite Hs in Hs'. now injection Hs' as ->. }
    subst d. rewrite (apply_unitary_run self u qubits WF HV Hs).
    cbv zeta. cbn [self_after]. unfold unit_norm, well_formed.
    cbn [num_qubits _state]. rewrite length_map, length_seq.
    split; [reflexivity|]. split; [assumption|].
    now rewrite (acts_on_targets_norm _ _ u qubits WF HV HU).
  - destruct (atomic_apply_unitary u qubits self e E) as [-> _].
    now repeat split.
Qed.

(** [measure], once its arguments are checked and the distribution is
    computed. *)
Lemma measure_unfold (self : QuantumCircuit) (qubits : option (list Z))
    (shots : Z) (rng : Generator) :
  let n := num_qubits self in
  let qt := qubit_tuple_of n qubits in
  let w := outcome_width n qt in
  let ks := map (fun r => bitstring_of (bits w r)) (seq 0 (2 ^ w)) in
  well_formed self -> 0 < n -> valid_qubits n qt -> (0 < shots)%Z ->
  measure qubits shots rng self
  = (outcomes <- lift (choice rng (2 ^ w) (Z.to_nat shots)
                         (sampling_weights
                            (map (outcome_probability n qt (_state self))
                                 (seq 0 (2 ^ w))))) ;;
     counts <- lift (tally ks outcomes (outcome_table w (fun _ => 0%Z))) ;;
     index <- lift (list_getitem outcomes (length outcomes - 1)) ;;
     final_outcome <- lift (list_getitem ks index) ;;
     _collapse_state qt final_outcome ;;;
     ret (mk_MeasurementResult counts)) self.
Proof.
  intros n qt w ks WF Hn HV Hshots.
  set (P := outcome_probability n qt (_state self)).
  assert (HKs : length ks = 2 ^ w)
    by (unfold ks; now rewrite length_map, length_seq).
  assert (Hc0 : dict_of_items (map (fun key => (key, 0%Z)) ks)
                = outcome_table w (fun _ => 0%Z)).
  { unfold ks. rewrite map_map. apply outcome_table_of_items. }
  unfold measure.
  destruct (Z.leb_spec shots 0) as [L|_]; [lia|].
  rewrite (bind_pure _ _ self qt (normalise_tuple self qubits HV)).
  rewrite (bind_pure _ _ self _ (probabilities_tuple self qt WF Hn HV)).
  fold n. fold w. fold P.
  rewrite outcome_table_keys. fold ks.
  assert (Hsorted : sorted ks = ks) by apply sorted_bitstrings.
  rewrite Hsorted.
  assert (Hget : getitems (outcome_table w P) ks = Ok (map P (seq 0 (2 ^ w)))).
  { unfold ks. rewrite <- (outcome_table_keys w P), <- outcome_table_values.
    apply getitems_keys. rewrite outcome_table_keys.
    apply bitstring_keys_nodup. }
  rewrite Hget. rewrite (bind_pure _ _ self _ (lift_ok _ self)).
  rewrite HKs, Hc0. reflexivity.
Qed.

(** When [measure] returns, the register sits on the last outcome the
    generator drew. *)
Lemma measure_ok_inv (self : QuantumCircuit) (qubits : option (list Z))
    (shots : Z) (rng : Generator) (res : MeasurementResult) :
  let n := num_qubits self in
  let qt := qubit_tuple_of n qubits in
  let w := outcome_width n qt in
  well_formed self -> 0 < n -> valid_qubits n qt -> (0 < shots)%Z ->
  value (measure qubits shots rng self) = Ok res ->
  exists outcomes last,
    choice rng (2 ^ w) (Z.to_nat shots)
      (sampling_weights
         (map (outcome_probability n qt (_state self)) (seq 0 (2 ^ w))))
    = Ok outcomes
    /\ nth_error outcomes (length outcomes - 1) = Some last
    /\ last < 2 ^ w
    /\ self_after (measure qubits shots rng self)
       = mk_QuantumCircuit n (post_measurement n qt (_state self) last)
    /\ writes (measure qubits shots rng self)
       = [post_measurement n qt (_state self) last].
Proof.
  intros n qt w WF Hn HV Hshots.
  pose proof (measure_unfold self qubits shots rng WF Hn HV Hshots) as Hm.
  cbv zeta in Hm. fold n in Hm. fold qt in Hm. fold w in Hm.
  destruct (choice rng (2 ^ w) (Z.to_nat shots)
              (sampling_weights
                 (map (outcome_probability n qt (_state self))
                      (seq 0 (2 ^ w)))))
    as [outcomes|e] eqn:Ec;
    [|intros H; rewrite Hm in H; discriminate H].
  rewrite (bind_pure _ _ self _ (lift_ok _ self)) in Hm.
  destruct (tally (map (fun r => bitstring_of (bits w r)) (seq 0 (2 ^ w)))
              outcomes (outcome_table w (fun _ => 0%Z)))
    as [counts1|e]; [|intros H; rewrite Hm in H; discriminate H].
  rewrite (bind_pure _ _ self _ (lift_ok _ self)) in Hm.
  unfold list_getitem at 1 in Hm.
  destruct (nth_error outcomes (length outcomes - 1)) as [last|] eqn:El;
    [|intros H; rewrite Hm in H; discriminate H].
  rewrite (bind_pure _ _ self _ (lift_ok _ self)) in Hm.
  unfold list_getitem in Hm.
  destruct (Nat.lt_ge_cases last (2 ^ w)) as [Hl|Hl].
  - rewrite (nth_error_map_seq _ _ _ Hl) in Hm.
    rewrite (bind_pure _ _ self _ (lift_ok _ self)) in Hm.
    rewrite (bind_ok _ _ self _ tt _ (collapse_tuple self qt last WF Hn HV Hl))
      in Hm.
    cbn [value self_after writes ret app] in Hm. intros _.
    exists outcomes, last. rewrite Hm. cbn [self_after writes].
    repeat split; assumption || reflexivity.
  - assert (E : nth_error (map (fun r => bitstring_of (bits w r)) (seq 0 (2 ^ w)))
                  last = None)
      by (apply nth_error_None; now rewrite length_map, length_seq).
    rewrite E in Hm. intros H. rewrite Hm in H. discriminate H.
Qed.

(** What [measure] returns and leaves behind, given what the generator
    drew for the weights it was handed; no assumption on the norm. *)
Lemma measure_draws_run (self : QuantumCircuit) (qubits : option (list Z))
    (shots : Z) (rng : Generator) (outcomes : list nat) :
  let n := num_qubits self in
  let qt := qubit_tuple_of n qubits in
  let w := outcome_width n qt in
  well_formed self -> 0 < n -> valid_qubits n qt -> (0 < shots)%Z ->
  choice rng (2 ^ w) (Z.to_nat shots)
    (sampling_weights
       (map (outcome_probability n qt (_state self)) (seq 0 (2 ^ w))))
  = Ok outcomes ->
  length outcomes = Z.to_nat shots ->
  Forall (fun i => i < 2 ^ w) outcomes ->
  exists counts1 last,
    nth_error outcomes (length outcomes - 1) = Some last
    /\ last < 2 ^ w
    /\ measure qubits shots rng self
       = mk_run (Ok (mk_MeasurementResult counts1))
           (mk_QuantumCircuit n (post_measurement n qt (_state self) last))
           [post_measurement n qt (_state self) last]
    /\ keys counts1 = map (fun r => bitstring_of (bits w r)) (seq 0 (2 ^ w))
    /\ total_shots (mk_MeasurementResult counts1) = shots
    /\ forall r, r < 2 ^ w ->
         dict_get counts1 (bitstring_of (bits w r))
         = Some (Z.of_nat (count_occ Nat.eq_dec outcomes r)).
Proof.
  intros n qt w WF Hn HV Hshots Hchoice Hlen Hrange.
  set (Ks := map (fun r => bitstring_of (bits w r)) (seq 0 (2 ^ w))).
  assert (HKs : length Ks = 2 ^ w)
    by (unfold Ks; now rewrite length_map, length_seq).
  destruct (tally_run Ks outcomes (outcome_table w (fun _ => 0%Z)))
    as (counts1 & HT & HK & HS & HG).
  { now rewrite HKs. }
  { rewrite outcome_table_keys. apply incl_refl. }
  destruct (nth_error outcomes (length outcomes - 1)) as [last|] eqn:Elast;
    [|apply nth_error_None in Elast; lia].
  assert (Hlast : last < 2 ^ w).
  { rewrite Forall_forall in Hrange. apply Hrange.
    eapply nth_error_In. eassumption. }
  exists counts1, last.
  split; [reflexivity|]. split; [assumption|]. split; [|split; [|split]].
  - rewrite (measure_unfold self qubits shots rng WF Hn HV Hshots).
    fold n. fold qt. fold w. fold Ks.
    rewrite Hchoice.
    rewrite (bind_pure _ _ self _ (lift_ok _ self)).
    rewrite HT.
    rewrite (bind_pure _ _ self _ (lift_ok _ self)).
    unfold list_getitem at 1. rewrite Elast.
    rewrite (bind_pure _ _ self _ (lift_ok _ self)).
    unfold list_getitem, Ks. rewrite (nth_error_map_seq _ _ _ Hlast).
    rewrite (bind_pure _ _ self _ (lift_ok _ self)).
    rewrite (bind_ok _ _ self _ tt _ (collapse_tuple self qt last WF Hn HV Hlast)).
    reflexivity.
  - rewrite HK. apply outcome_table_keys.
  - unfold total_shots. cbn [counts]. fold (sumZ (values counts1)).
    rewrite HS, outcome_table_values.
    assert (Z0 : forall l : list nat, sumZ (map (fun _ => 0%Z) l) = 0%Z).
    { induction l as [|x l IH]; [reflexivity|].
      cbn [map]. rewrite sumZ_cons, IH. reflexivity. }
    rewrite Z0, Hlen. lia.
  - intros r Hr.
    rewrite (HG _ 0%Z (outcome_table_get w (fun _ => 0%Z) r Hr)).
    unfold Ks. rewrite (count_occ_drawn w outcomes r Hrange Hr). reflexivity.
Qed.

(** The same on a register of unit norm, where the weights are the
    probabilities themselves. *)
Lemma measure_run (self : QuantumCircuit) (qubits : option (list Z))
    (shots : Z) (rng : Generator) (outcomes : list nat) :
  let n := num_qubits self in
  let qt := qubit_tuple_of n qubits in
  let w := outcome_width n qt in
  well_formed self -> 0 < n -> valid_qubits n qt -> (0 < shots)%Z ->
  norm_sq (_state self) = 1%R ->
  choice rng (2 ^ w) (Z.to_nat shots)
    (map (outcome_probability n qt (_state self)) (seq 0 (2 ^ w)))
  = Ok outcomes ->
  length outcomes = Z.to_nat shots ->
  Forall (fun i => i < 2 ^ w) outcomes ->
  exists counts1 last,
    nth_error outcomes (length outcomes - 1) = Some last
    /\ last < 2 ^ w
    /\ measure qubits shots rng self
       = mk_run (Ok (mk_MeasurementResult counts1))
           (mk_QuantumCircuit n (post_measurement n qt (_state self) last))
           [post_measurement n qt (_state self) last]
    /\ keys counts1 = map (fun r => bitstring_of (bits w r)) (seq 0 (2 ^ w))
    /\ total_shots (mk_MeasurementResult counts1) = shots
    /\ forall r, r < 2 ^ w ->
         dict_get counts1 (bitstring_of (bits w r))
         = Some (Z.of_nat (count_occ Nat.eq_dec outcomes r)).
Proof.
  intros n qt w WF Hn HV Hshots Hnorm Hchoice Hlen Hrange.
  apply (measure_draws_run self qubits shots rng outcomes WF Hn HV Hshots);
    try assumption.
  fold n qt w. rewrite sampling_weights_unit; [exact Hchoice|].
  unfold w, qt, n. rewrite outcome_probability_total; assumption.
Qed.

(* ================================================================== *)
(** * The full register, and the state after a measurement             *)
(* ================================================================== *)

Lemma to_nat_of_nat_seq (n : nat) :
  map Z.to_nat (map Z.of_nat (seq 0 n)) = seq 0 n.
Proof.
  rewrite map_map. rewrite <- (map_id (seq 0 n)) at 2.
  apply map_ext. intros x. apply Nat2Z.id.
Qed.

Lemma sub_index_all (n x : nat) :
  x < 2 ^ n -> sub_index n (seq 0 n) x = x.
Proof. intros Hx. unfold sub_index. now apply (from_bits_bits_small n x). Qed.

Lemma Rsum_single (f : nat -> R) (x k : nat) :
  x < k ->
  Rsum (map f (filter (fun x' => x' =? x) (seq 0 k))) = f x.
Proof.
  intros Hx. rewrite <- Rsum_filter.
  rewrite (Rsum_ext _ (fun x' => if x =? x' then f x else 0%R)).
  - rewrite Rsum_indicator. apply Nat.ltb_lt in Hx. now rewrite Hx.
  - intros x' _. rewrite (Nat.eqb_sym x x').
    destruct (Nat.eqb_spec x' x) as [->|N]; reflexivity.
Qed.

(** Over all the qubits in index order, the marginal is the squared
    magnitude of one amplitude. *)
Lemma marginal_all (n x : nat) (v : list C) :
  x < 2 ^ n ->
  marginal n (seq 0 n) (bits n x) v = Cnorm2 (nth x v Czero).
Proof.
  intros Hx. unfold marginal.
  rewrite (filter_ext_in _ (fun x' => x' =? x)).
  - now apply (Rsum_single (fun x' => Cnorm2 (nth x' v Czero))).
  - intros x' Hx'. apply in_seq in Hx'.
    pose proof (agrees_on_sub_index n (seq 0 n) x x') as A.
    rewrite length_seq in A. rewrite (A Hx).
    rewrite sub_index_all by lia. reflexivity.
Qed.

Lemma probabilities_none_run (self : QuantumCircuit) :
  well_formed self -> 0 < num_qubits self ->
  probabilities None self
  = mk_run (Ok (outcome_table (num_qubits self)
                  (fun x => Cnorm2 (nth x (_state self) Czero))))
           self [].
Proof.
  intros WF Hn. set (n := num_qubits self).
  assert (E : probabilities None self
              = probabilities (Some (map Z.of_nat (seq 0 n))) self).
  { unfold probabilities.
    rewrite (bind_pure _ _ self _ (normalise_none self)).
    rewrite (bind_pure _ _ self _
               (normalise_valid self _ (valid_all_qubits n))).
    reflexivity. }
  rewrite E.
  assert (Hne : map Z.of_nat (seq 0 n) <> [])
    by (intros H; apply (f_equal (@length Z)) in H;
        rewrite length_map, length_seq in H; simpl in H; lia).
  rewrite (probabilities_run self _ WF (valid_all_qubits n) Hne).
  f_equal. f_equal. unfold marginal_distribution, outcome_table.
  rewrite length_map, length_seq, to_nat_of_nat_seq. fold n.
  apply map_ext_in. intros x Hx. apply in_seq in Hx.
  f_equal. apply marginal_all. lia.
Qed.

Lemma Cdiv_real_zero (r : R) : Cnorm2 (Cdiv_real Czero r) = 0%R.
Proof. unfold Cnorm2, Cdiv_real, Czero, RtoC, Re, Im. simpl. unfold Rdiv. ring. Qed.

Lemma nth_projected (n : nat) (targets b : list nat) (v : list C) (x : nat) :
  x < 2 ^ n ->
  nth x (projected n targets b v) Czero
  = if agrees_on n targets b x then nth x v Czero else Czero.
Proof. intros Hx. unfold projected. now rewrite nth_map_seq. Qed.

(** After collapse, an amplitude off the outcome is zero. *)
Lemma collapsed_off_outcome (n : nat) (targets b : list nat) (v : list C)
    (x : nat) :
  x < 2 ^ n -> agrees_on n targets b x = false ->
  Cnorm2 (nth x (collapsed n targets b v) Czero) = 0%R.
Proof.
  intros Hx Ha. unfold collapsed. destruct (Rlt_dec _ _).
  - rewrite (nth_indep _ Czero (Cdiv_real Czero (sqrt (marginal n targets b v))))
      by now rewrite length_map, projected_length.
    rewrite (map_nth (fun z => Cdiv_real z (sqrt (marginal n targets b v)))).
    rewrite nth_projected, Ha by assumption. apply Cdiv_real_zero.
  - rewrite nth_projected, Ha by assumption. apply Cnorm2_Czero.
Qed.

Lemma projected_idem (n : nat) (targets b : list nat) (v : list C) :
  projected n targets b (collapsed n targets b v) = collapsed n targets b v.
Proof.
  apply nth_ext with (d := Czero) (d' := Czero).
  - now rewrite projected_length, collapsed_length.
  - intros x Hx. rewrite projected_length in Hx.
    rewrite nth_projected by assumption.
    destruct (agrees_on n targets b x) eqn:Ha; [reflexivity|].
    unfold collapsed. destruct (Rlt_dec _ _).
    + rewrite (nth_indep _ Czero
                 (Cdiv_real Czero (sqrt (marginal n targets b v))))
        by now rewrite length_map, projected_length.
      rewrite (map_nth (fun z => Cdiv_real z (sqrt (marginal n targets b v)))).
      rewrite nth_projected, Ha by assumption.
      unfold Cdiv_real, Czero, RtoC, Re, Im. simpl. f_equal; unfold Rdiv; ring.
    + now rewrite nth_projected, Ha.
Qed.

(** The distribution over the measured qubits after collapse onto [r]. *)
Lemma marginal_after_collapse (n : nat) (targets : list nat) (v : list C)
    (r r' : nat) :
  r < 2 ^ length targets -> r' < 2 ^ length targets ->
  (0 < marginal n targets (bits (length targets) r) v)%R ->
  marginal n targets (bits (length targets) r')
    (collapsed n targets (bits (length targets) r) v)
  = if r' =? r then 1%R else 0%R.
Proof.
  intros Hr Hr' Hp. destruct (Nat.eqb_spec r' r) as [->|N].
  - rewrite <- norm_sq_projected, projected_idem.
    now apply norm_sq_collapsed.
  - unfold marginal. apply Rsum_zero, Forall_forall. intros y Hy.
    apply in_map_iff in Hy. destruct Hy as [x [<- Hx]].
    apply filter_In in Hx. destruct Hx as [Hx Ha]. apply in_seq in Hx.
    apply collapsed_off_outcome; [lia|].
    rewrite agrees_on_sub_index in Ha |- * by assumption.
    apply Nat.eqb_eq in Ha. apply Nat.eqb_neq. lia.
Qed.

Lemma post_measurement_support (n : nat) (qubit_tuple : list Z) (v : list C)
    (r x : nat) :
  length v = 2 ^ n -> x < 2 ^ n ->
  Cnorm2 (nth x (post_measurement n qubit_tuple v r) Czero) <> 0%R ->
  consistent n qubit_tuple r x = true.
Proof.
  intros Hv Hx Hnz. destruct qubit_tuple as [|q qs];
    cbn [post_measurement consistent] in *.
  - rewrite nth_basis_like in Hnz by now rewrite Hv.
    destruct (x =? r); [reflexivity|]. exfalso. apply Hnz, Cnorm2_Czero.
  - destruct (agrees_on n (map Z.to_nat (q :: qs))
                (bits (length (q :: qs)) r) x) eqn:Ha; [reflexivity|].
    exfalso. apply Hnz. now apply collapsed_off_outcome.
Qed.

Lemma post_measurement_distribution (n : nat) (qubit_tuple : list Z)
    (v : list C) (r r' : nat) :
  length v = 2 ^ n ->
  r < 2 ^ outcome_width n qubit_tuple ->
  r' < 2 ^ outcome_width n qubit_tuple ->
  (0 < outcome_probability n qubit_tuple v r)%R ->
  outcome_probability n qubit_tuple (post_measurement n qubit_tuple v r) r'
  = if r' =? r then 1%R else 0%R.
Proof.
  intros Hv Hr Hr' Hp. destruct qubit_tuple as [|q qs];
    cbn [post_measurement outcome_probability outcome_width] in *.
  - rewrite nth_basis_like by now rewrite Hv.
    destruct (r' =? r); [apply Cnorm2_Cone|apply Cnorm2_Czero].
  - rewrite <- (length_map Z.to_nat (q :: qs)) in *.
    now apply marginal_after_collapse.
Qed.

(* ================================================================== *)
(** * Registers reachable through the public interface                 *)
(* ================================================================== *)

Lemma measure_unit_norm (self : QuantumCircuit) (qubits : option (list Z))
    (shots : Z) (rng : Generator) :
  unit_norm self -> draws_possible self qubits shots rng ->
  unit_norm (self_after (measure qubits shots rng self)).
Proof.
  intros HU HD.
  destruct (value (measure qubits shots rng self)) as [res|e] eqn:E.
  - assert (Hshots : (0 < shots)%Z).
    { destruct (Z.leb_spec shots 0) as [L|G]; [|assumption].
      unfold measure in E. apply Z.leb_le in L. rewrite L in E. discriminate. }
    assert (HV : valid_qubits (num_qubits self)
                   (qubit_tuple_of (num_qubits self) qubits)).
    { destruct (normalise_cases self qubits)
        as [(qt & Hq & HV & Eq)|(e & He & _)].
      - destruct qubits as [qs|]; cbn [qubit_tuple_of].
        + now rewrite <- (Eq qs eq_refl).
        + apply valid_all_qubits.
      - exfalso. unfold measure in E.
        destruct (shots <=? 0)%Z; [discriminate|].
        rewrite (bind_raise _ _ self self e [] He) in E. discriminate. }
    destruct HU as (WF & Hn & _).
    destruct (measure_ok_inv self qubits shots rng res WF Hn HV Hshots E)
      as (outcomes & last & Hc & Hl & Hlt & Hs & _).
    rewrite Hs.
    apply post_measurement_unit_norm; try assumption.
    exact (HD outcomes last Hc Hl).
  - destruct (atomic_measure qubits shots rng self e E) as [-> _]. assumption.
Qed.

Lemma reachable_unit_norm (self : QuantumCircuit) :
  reachable self -> unit_norm self.
Proof.
  induction 1 as [nq self Hi|self q _ IH|self q _ IH|self c t _ IH
                 |self u qs d _ IH HU|self qs _ IH|self qs shots rng _ IH HD].
  - now apply (init_unit_norm nq).
  - now apply (apply_unitary_unit_norm self _H [q] 2 IH H_unitary).
  - now apply (apply_unitary_unit_norm self _X [q] 2 IH X_unitary).
  - unfold cnot. destruct (c =? t)%Z; [exact IH|].
    now apply (apply_unitary_unit_norm self _CNOT [c; t] 4 IH CNOT_unitary).
  - now apply (apply_unitary_unit_norm self u qs d IH HU).
  - destruct (pure_probabilities qs self) as [-> _]. exact IH.
  - now apply measure_unit_norm.
Qed.

(* ================================================================== *)
(** * Auxiliary facts for the main theorems                            *)
(* ================================================================== *)

Lemma qubit_bit_lt2 (n p x : nat) : qubit_bit n p x < 2.
Proof. unfold qubit_bit. apply Nat.mod_upper_bound. lia. Qed.

(** The bits of [with_targets]: the targets spell [y], the others are
    those of [x]. *)
Lemma with_targets_bits (n : nat) (targets : list nat) (y x p : nat) :
  p < n ->
  qubit_bit n p (with_targets n targets y x)
  = match index_of p targets with
    | Some a => qubit_bit (length targets) a y
    | None => qubit_bit n p x
    end.
Proof.
  intros Hp. unfold with_targets.
  set (g := fun p => match index_of p targets with
                     | Some a => qubit_bit (length targets) a y
                     | None => qubit_bit n p x
                     end).
  rewrite <- (nth_bits n p _ Hp).
  assert (L : length (map g (seq 0 n)) = n)
    by now rewrite length_map, length_seq.
  rewrite <- L at 1. rewrite bits_from_bits.
  - now rewrite nth_map_seq.
  - apply Forall_forall. intros b Hb. apply in_map_iff in Hb.
    destruct Hb as [q [<- _]]. unfold g.
    destruct (index_of q targets); apply qubit_bit_lt2.
Qed.

(** The keys of a distribution are exactly the bit strings of its width. *)
Lemma bitstring_keys_iff (w : nat) (s : string) :
  In s (map (fun r => bitstring_of (bits w r)) (seq 0 (2 ^ w)))
  <-> String.length s = w /\ binary_string s = true.
Proof.
  split.
  - intros H. apply in_map_iff in H. destruct H as [r [<- _]].
    split; [now rewrite bitstring_of_length, bits_length
           |apply bitstring_of_binary].
  - intros [Hl Hb]. apply in_map_iff.
    exists (from_bits (bits_of_string s)). split.
    + rewrite <- Hl, <- bits_of_string_length.
      rewrite bits_from_bits by apply bits_of_string_lt2.
      now apply bitstring_of_bits_of_string.
    + apply in_seq. split; [lia|]. simpl.
      rewrite <- Hl, <- bits_of_string_length.
      apply from_bits_lt, bits_of_string_lt2.
Qed.

Lemma marginal_distribution_get (n : nat) (qubits : list Z) (v : list C)
    (b : list nat) :
  length b = length qubits -> Forall (fun c => c < 2) b ->
  dict_get (marginal_distribution n qubits v) (bitstring_of b)
  = Some (marginal n (map Z.to_nat qubits) b v).
Proof.
  intros Hl Hb.
  assert (E : b = bits (length qubits) (from_bits b))
    by (rewrite <- Hl; symmetry; now apply bits_from_bits).
  rewrite E at 1 2.
  change (marginal_distribution n qubits v)
    with (outcome_table (length qubits)
            (fun r => marginal n (map Z.to_nat qubits)
                        (bits (length qubits) r) v)).
  rewrite outcome_table_get.
  - now rewrite <- E.
  - rewrite <- Hl. now apply from_bits_lt.
Qed.

Lemma probabilities_qubit_tuple (self : QuantumCircuit)
    (qubits : option (list Z)) :
  probabilities qubits self
  = probabilities (Some (qubit_tuple_of (num_qubits self) qubits)) self.
Proof.
  destruct qubits as [qs|]; [reflexivity|]. cbn [qubit_tuple_of].
  unfold probabilities.
  rewrite (bind_pure _ _ self _ (normalise_none self)).
  rewrite (bind_pure _ _ self _
             (normalise_valid self _ (valid_all_qubits (num_qubits self)))).
  reflexivity.
Qed.

Lemma Cnorm2_zero_inv (z : C) : Cnorm2 z = 0%R -> z = Czero.
Proof.
  destruct z as [a b]. unfold Cnorm2, Czero, RtoC, Re, Im. simpl. intros H.
  assert (a = 0%R) by nra. assert (b = 0%R) by nra. now subst.
Qed.

Lemma norm_sq_zero_inv (l : list C) :
  norm_sq l = 0%R -> l = repeat Czero (length l).
Proof.
  unfold norm_sq. induction l as [|z l IH]; [reflexivity|].
  cbn [map Rsum length repeat]. intros H.
  pose proof (Cnorm2_nonneg z) as Hz.
  assert (Hl : (0 <= Rsum (map Cnorm2 l))%R).
  { apply Rsum_nonneg, Forall_forall. intros y Hy. apply in_map_iff in Hy.
    destruct Hy as [c [<- _]]. apply Cnorm2_nonneg. }
  rewrite (Cnorm2_zero_inv z) by lra. f_equal. apply IH. lra.
Qed.

(** A collapse onto an outcome of probability zero leaves no amplitude. *)
Lemma collapsed_zero (n : nat) (targets b : list nat) (v : list C) :
  marginal n targets b v = 0%R ->
  collapsed n targets b v = repeat Czero (2 ^ n).
Proof.
  intros Hm. unfold collapsed. rewrite Hm, sqrt_0.
  destruct (Rlt_dec 0 0) as [L|_]; [lra|].
  rewrite <- (projected_length n targets b v).
  apply norm_sq_zero_inv. now rewrite norm_sq_projected.
Qed.

Lemma Cdiv_real_Czero (r : R) : Cdiv_real Czero r = Czero.
Proof.
  unfold Cdiv_real, Czero, RtoC, Re, Im. cbn [fst snd].
  f_equal; unfold Rdiv; ring.
Qed.

(** The amplitudes [_collapse_state] assigns. *)
Lemma nth_post_measurement (n : nat) (qubit_tuple : list Z) (v : list C)
    (r x : nat) :
  length v = 2 ^ n -> x < 2 ^ n ->
  nth x (post_measurement n qubit_tuple v r) Czero
  = collapsed_amplitude n qubit_tuple v r x.
Proof.
  intros Hv Hx. unfold collapsed_amplitude.
  destruct qubit_tuple as [|q qs].
  - cbn [post_measurement consistent].
    rewrite nth_basis_like by now rewrite Hv.
    destruct (x =? r); reflexivity.
  - cbn [post_measurement consistent outcome_probability]. cbv zeta.
    set (targets := map Z.to_nat (q :: qs)).
    set (b := bits (length (q :: qs)) r).
    unfold collapsed.
    destruct (Rlt_dec 0 (sqrt (marginal n targets b v))) as [L|L].
    + rewrite (nth_indep _ Czero (Cdiv_real Czero (sqrt (marginal n targets b v))))
        by now rewrite length_map, projected_length.
      rewrite (map_nth (fun z => Cdiv_real z (sqrt (marginal n targets b v)))).
      rewrite nth_projected by assumption.
      destruct (agrees_on n targets b x); [reflexivity|apply Cdiv_real_Czero].
    + rewrite nth_projected by assumption.
      destruct (agrees_on n targets b x); reflexivity.
Qed.

Lemma post_measurement_length (n : nat) (qubit_tuple : list Z) (v : list C)
    (r : nat) :
  length v = 2 ^ n -> length (post_measurement n qubit_tuple v r) = 2 ^ n.
Proof.
  intros Hv. destruct qubit_tuple as [|q qs]; cbn [post_measurement].
  - now rewrite basis_like_length.
  - apply collapsed_length.
Qed.

(** The probability of the outcome measured, read again after the
    collapse: what the program adds up. *)
Lemma outcome_probability_after (n : nat) (qubit_tuple : list Z) (v : list C)
    (r : nat) :
  length v = 2 ^ n -> r < 2 ^ outcome_width n qubit_tuple ->
  (0 < outcome_probability n qubit_tuple v r)%R ->
  outcome_probability n qubit_tuple (post_measurement n qubit_tuple v r) r
  = match qubit_tuple with
    | [] => 1%R
    | _ :: _ =>
        Rsum (map (fun x =>
                     Cnorm2 (Cdiv_real (nth x v Czero)
                               (sqrt (outcome_probability n qubit_tuple v r))))
                  (filter (consistent n qubit_tuple r) (seq 0 (2 ^ n))))
    end.
Proof.
  intros Hv Hr Hp. destruct qubit_tuple as [|q qs].
  - cbn [outcome_probability post_measurement]. cbn [outcome_width] in Hr.
    rewrite nth_basis_like by (rewrite Hv; exact Hr).
    rewrite Nat.eqb_refl. apply Cnorm2_Cone.
  - set (qt := q :: qs) in *.
    change (outcome_probability n qt (post_measurement n qt v r) r)
      with (marginal n (map Z.to_nat qt) (bits (length qt) r)
              (post_measurement n qt v r)).
    change (consistent n qt r)
      with (agrees_on n (map Z.to_nat qt) (bits (length qt) r)).
    unfold marginal at 1. f_equal. apply map_ext_in. intros x Hx.
    apply filter_In in Hx. destruct Hx as [Hx Ha]. apply in_seq in Hx.
    rewrite (nth_post_measurement n qt v r x Hv) by lia.
    unfold collapsed_amplitude.
    change (consistent n qt r x)
      with (agrees_on n (map Z.to_nat qt) (bits (length qt) r) x).
    rewrite Ha. cbv zeta. unfold qt at 1.
    destruct (Rlt_dec 0 (sqrt (outcome_probability n qt v r))) as [_|F];
      [reflexivity|].
    exfalso. apply F. apply sqrt_lt_R0. exact Hp.
Qed.

(** ** A register and a generator to try the theorems on *)

Lemma ground1_init : __init__ 1 = Ok ground1.
Proof. reflexivity. Qed.

Lemma ground1_unit_norm : unit_norm ground1.
Proof. exact (init_unit_norm 1 ground1 ground1_init). Qed.

Lemma ground1_valid : valid_qubits 1 [0%Z].
Proof.
  split.
  - constructor; [intros []|constructor].
  - constructor; [lia|constructor].
Qed.

Lemma first_outcome_rng_sound : sound_generator first_outcome_rng.
Proof.
  intros a size p Ha _ _. exists (repeat 0 size).
  split; [reflexivity|]. split; [apply repeat_length|].
  apply Forall_forall. intros i Hi. apply repeat_spec in Hi. lia.
Qed.

Lemma ground1_first_outcome (qubits : option (list Z)) :
  qubits = None \/ qubits = Some [0%Z] \/ qubits = Some [] ->
  (0 < outcome_probability 1 (qubit_tuple_of 1 qubits) [Cone; Czero] 0)%R.
Proof.
  intros [->|[->| ->]]; cbn [qubit_tuple_of seq map outcome_probability].
  - change [Z.of_nat 0] with [0%Z]. cbn [map length].
    change [Z.to_nat 0] with (seq 0 1). rewrite (marginal_all 1 0) by (simpl; lia).
    cbn [nth]. rewrite Cnorm2_Cone. lra.
  - cbn [map length].
    change [Z.to_nat 0] with (seq 0 1). rewrite (marginal_all 1 0) by (simpl; lia).
    cbn [nth]. rewrite Cnorm2_Cone. lra.
  - cbn [nth]. rewrite Cnorm2_Cone. lra.
Qed.

Lemma ground1_draws_possible (qubits : option (list Z)) (shots : Z) :
  qubits = None \/ qubits = Some [0%Z] \/ qubits = Some [] ->
  (0 < shots)%Z ->
  draws_possible ground1 qubits shots first_outcome_rng.
Proof.
  intros Hq Hs outcomes last Hc Hl. cbn [num_qubits ground1 _state] in *.
  cbn [choice first_outcome_rng] in Hc. injection Hc as <-.
  apply nth_error_In, repeat_spec in Hl. subst last.
  now apply ground1_first_outcome.
Qed.

Lemma Cnorm2_plus_amplitude : Cnorm2 plus_amplitude = (1 / 2)%R.
Proof.
  unfold Cnorm2, plus_amplitude, Cdiv_real, RtoC, Re, Im. cbn [fst snd].
  pose proof sqrt2_sq as S. pose proof sqrt2_neq0 as N.
  field_simplify; [|assumption].
  replace (sqrt 2 ^ 2)%R with 2%R
    by (simpl; rewrite Rmult_1_r; symmetry; exact S).
  lra.
Qed.

Lemma plus1_unit_norm : unit_norm plus1.
Proof.
  split; [reflexivity|]. split; [simpl; lia|].
  unfold norm_sq, plus1. cbn [_state map Rsum].
  rewrite Cnorm2_plus_amplitude. lra.
Qed.

Lemma plus1_outcome_probability (r : nat) :
  r < 2 -> outcome_probability 1 [0%Z] (_state plus1) r = (1 / 2)%R.
Proof.
  intros Hr. cbn [outcome_probability plus1 _state map length].
  change [Z.to_nat 0] with (seq 0 1).
  rewrite (marginal_all 1 r) by (simpl; lia).
  destruct r as [|[|r]]; [| |lia]; cbn [nth]; apply Cnorm2_plus_amplitude.
Qed.

Lemma sqrt_half : (sqrt (1 / 2) = 1 / sqrt 2)%R.
Proof.
  pose proof sqrt2_neq0 as N. pose proof sqrt2_sq as S.
  assert (P : (0 < sqrt 2)%R) by (apply sqrt_lt_R0; lra).
  apply sqrt_lem_1.
  - lra.
  - apply Rlt_le. apply Rdiv_lt_0_compat; lra.
  - field_simplify; [|assumption].
    replace (sqrt 2 ^ 2)%R with 2%R
      by (simpl; rewrite Rmult_1_r; symmetry; exact S).
    reflexivity.
Qed.

(** Collapsing |+> onto outcome [0] gives |0>. *)
Lemma plus1_collapse :
  post_measurement 1 [0%Z] (_state plus1) 0 = [Cone; Czero].
Proof.
  apply nth_ext with (d := Czero) (d' := Czero).
  - cbn [post_measurement]. now rewrite collapsed_length.
  - intros x Hx. cbn [post_measurement] in Hx. rewrite collapsed_length in Hx.
    rewrite nth_post_measurement by (try reflexivity; exact Hx).
    unfold collapsed_amplitude. cbv zeta.
    rewrite plus1_outcome_probability by lia.
    rewrite sqrt_half.
    pose proof sqrt2_neq0 as N.
    assert (P : (0 < 1 / sqrt 2)%R).
    { apply Rdiv_lt_0_compat; [lra|]. apply sqrt_lt_R0. lra. }
    destruct (Rlt_dec 0 (1 / sqrt 2)) as [_|F]; [|contradiction].
    destruct x as [|[|x]]; [| |simpl in Hx; lia].
    + cbn. unfold plus_amplitude, Cdiv_real, Cone, RtoC, Re, Im. cbn [fst snd].
      f_equal; field; assumption.
    + reflexivity.
Qed.

Lemma first_positive_spec (p : list R) (i : nat) :
  first_positive p = Some i -> i < length p /\ (0 < nth i p 0)%R.
Proof.
  revert i. induction p as [|x p IH]; intros i; [discriminate|].
  cbn [first_positive]. destruct (Rlt_dec 0 x) as [Hx|Hx].
  - intros E. injection E as <-. cbn. split; [lia|exact Hx].
  - destruct (first_positive p) as [j|]; [|discriminate].
    intros E. injection E as <-. destruct (IH j eq_refl) as [Hj Hp].
    cbn. split; [lia|exact Hp].
Qed.

Lemma first_positive_none (p : list R) :
  first_positive p = None -> (Rsum p <= 0)%R.
Proof.
  induction p as [|x p IH]; cbn [first_positive Rsum]; [lra|].
  destruct (Rlt_dec 0 x) as [Hx|Hx]; [discriminate|].
  destruct (first_positive p); [discriminate|].
  intros _. specialize (IH eq_refl). lra.
Qed.

Lemma first_positive_rng_sound : sound_generator first_positive_rng.
Proof.
  intros a size p Ha Hlen [_ Hsum]. cbn [choice first_positive_rng].
  destruct (first_positive p) as [i|] eqn:E.
  - destruct (first_positive_spec p i E) as [Hi _].
    exists (repeat i size). split; [reflexivity|].
    split; [apply repeat_length|].
    apply Forall_forall. intros x Hx. apply repeat_spec in Hx. lia.
  - apply first_positive_none in E. lra.
Qed.

Lemma first_positive_rng_support : support_generator first_positive_rng.
Proof.
  intros a size p outcomes. cbn [choice first_positive_rng].
  destruct (first_positive p) as [i|] eqn:E; [|discriminate].
  intros H. injection H as <-.
  destruct (first_positive_spec p i E) as [_ Hp].
  apply Forall_forall. intros x Hx. apply repeat_spec in Hx. subst x. exact Hp.
Qed.

Lemma ground1_second_outcome :
  outcome_probability 1 [0%Z] (_state ground1) 1 = 0%R.
Proof.
  cbn [outcome_probability ground1 _state map length].
  change [Z.to_nat 0] with (seq 0 1).
  rewrite (marginal_all 1 1) by (simpl; lia).
  cbn [nth]. apply Cnorm2_Czero.
Qed.

Lemma null1_outcome_probability (r : nat) :
  r < 2 -> outcome_probability 1 [0%Z] (_state null1) r = 0%R.
Proof.
  intros Hr. cbn [outcome_probability null1 _state map length].
  change [Z.to_nat 0] with (seq 0 1).
  rewrite (marginal_all 1 r) by (simpl; lia).
  destruct r as [|[|r]]; [| |lia]; cbn [nth]; apply Cnorm2_Czero.
Qed.

(** Weights that are all zero stay so, whichever branch
    [sampling_weights] takes, and none of them is positive. *)
Lemma first_positive_zero_weights (probs : list R) :
  Forall (fun p => p = 0%R) probs ->
  first_positive (sampling_weights probs) = None.
Proof.
  intros H.
  assert (G : forall s l, Forall (fun p => p = 0%R) l ->
                first_positive (map (fun p => (p / s)%R) l) = None).
  { intros s l. induction 1 as [|p l Hp _ IH]; [reflexivity|].
    cbn [map first_positive]. subst p.
    destruct (Rlt_dec 0 (0 / s)) as [L|_];
      [unfold Rdiv in L; rewrite Rmult_0_l in L; lra|].
    rewrite IH. reflexivity. }
  unfold sampling_weights. destruct (isclose_one (Rsum probs)); [|now apply G].
  induction H as [|p l Hp _ IH]; [reflexivity|].
  cbn [first_positive]. subst p.
  destruct (Rlt_dec 0 0) as [L|_]; [lra|]. rewrite IH. reflexivity.
Qed.

(** The zero matrix wipes the register. *)
Lemma zero_matrix_run :
  apply_custom zero_matrix [0%Z] ground1
  = mk_run (Ok tt) null1 [_state null1].
Proof.
  unfold apply_custom.
  rewrite (apply_unitary_run ground1 zero_matrix [0%Z] eq_refl ground1_valid
             eq_refl).
  cbv zeta. cbn [num_qubits _state ground1 null1].
  assert (E : map (acts_on_targets 1 zero_matrix (map Z.to_nat [0%Z])
                     [Cone; Czero]) (seq 0 (2 ^ 1))
              = [Czero; Czero]).
  { cbv [map seq acts_on_targets sub_index with_targets entry from_bits
         qubit_bit index_of option_map length nth shape data zero_matrix Csum
         Nat.pow Nat.mul Nat.add Nat.sub Nat.div Nat.modulo Nat.divmod
         Nat.eqb fst snd Z.to_nat Pos.to_nat Pos.iter_op].
    unfold Cmul, Cadd, Czero, Cone, RtoC, Re, Im. cbn [fst snd].
    repeat (apply (f_equal2 (@cons C)); [f_equal; ring|]). reflexivity. }
  rewrite E. reflexivity.
Qed.

(** So does a collapse of |0> onto outcome ["1"]. *)
Lemma collapse_to_null1 :
  _collapse_state [0%Z] "1" ground1 = mk_run (Ok tt) null1 [[Czero; Czero]].
Proof.
  assert (WF : well_formed ground1) by reflexivity.
  assert (Hn : 0 < num_qubits ground1) by (simpl; lia).
  assert (Hr : 1 < 2 ^ outcome_width (num_qubits ground1) [0%Z])
    by (simpl; lia).
  etransitivity;
    [exact (collapse_tuple ground1 [0%Z] 1 WF Hn ground1_valid Hr)|].
  cbv zeta. cbn [post_measurement]. change (num_qubits ground1) with 1.
  rewrite (collapsed_zero 1 (map Z.to_nat [0%Z]) (bits (length [0%Z]) 1)
             (_state ground1) ground1_second_outcome).
  reflexivity.
Qed.

Lemma plus1_measure_returns :
  exists res,
    value (measure (Some [0%Z]) 1 first_outcome_rng plus1) = Ok res.
Proof.
  destruct plus1_unit_norm as (WF & Hn & _).
  destruct (measure_draws_run plus1 (Some [0%Z]) 1 first_outcome_rng [0] WF Hn
              ground1_valid)
    as (counts1 & last & _ & _ & Hm & _); try reflexivity; try lia.
  - constructor; [|constructor]. apply pow2_pos.
  - exists (mk_MeasurementResult counts1). now rewrite Hm.
Qed.

Lemma plus1_draws_possible (shots : Z) :
  draws_possible plus1 (Some [0%Z]) shots first_outcome_rng.
Proof.
  intros outcomes last Hc Hl. cbn [num_qubits plus1 qubit_tuple_of] in *.
  cbn [choice first_outcome_rng] in Hc. injection Hc as <-.
  apply nth_error_In, repeat_spec in Hl. subst last.
  change [plus_amplitude; plus_amplitude] with (_state plus1).
  rewrite plus1_outcome_probability by lia. lra.
Qed.

(* ================================================================== *)
(** * The most frequent outcome                                        *)
(* ================================================================== *)

Lemma ascii_compare_refl (a : ascii) : Ascii.compare a a = Eq.
Proof. unfold Ascii.compare. apply N.compare_refl. Qed.

Lemma ascii_compare_lt_trans (a b c : ascii) :
  Ascii.compare a b = Lt -> Ascii.compare b c = Lt -> Ascii.compare a c = Lt.
Proof.
  unfold Ascii.compare. rewrite !N.compare_lt_iff. apply N.lt_trans.
Qed.

Lemma string_compare_refl (s : string) : String.compare s s = Eq.
Proof.
  induction s as [|a s IH]; simpl; [reflexivity|].
  now rewrite ascii_compare_refl.
Qed.

Lemma string_compare_lt_trans (s1 s2 s3 : string) :
  String.compare s1 s2 = Lt -> String.compare s2 s3 = Lt ->
  String.compare s1 s3 = Lt.
Proof.
  revert s2 s3. induction s1 as [|a s1 IH]; intros [|b s2] [|c s3];
    simpl; try discriminate; try reflexivity.
  destruct (Ascii.compare a b) eqn:Eab; try discriminate;
    destruct (Ascii.compare b c) eqn:Ebc; try discriminate; intros H1 H2.
  - apply Ascii.compare_eq_iff in Eab, Ebc. subst.
    rewrite ascii_compare_refl. now apply (IH s2).
  - apply Ascii.compare_eq_iff in Eab. subst. now rewrite Ebc.
  - apply Ascii.compare_eq_iff in Ebc. subst. now rewrite Eab.
  - now rewrite (ascii_compare_lt_trans a b c Eab Ebc).
Qed.

Lemma string_ltb_lt (s1 s2 : string) :
  String.ltb s1 s2 = true <-> String.compare s1 s2 = Lt.
Proof.
  unfold String.ltb. destruct (String.compare s1 s2); split;
    congruence || discriminate.
Qed.

Lemma tuple_lt_irrefl (a : Z * string) : tuple_lt a a = false.
Proof.
  unfold tuple_lt. rewrite Z.ltb_irrefl, Z.eqb_refl. cbn [orb andb].
  unfold String.ltb. now rewrite string_compare_refl.
Qed.

Lemma tuple_lt_trans (a b c : Z * string) :
  tuple_lt a b = true -> tuple_lt b c = true -> tuple_lt a c = true.
Proof.
  unfold tuple_lt. destruct a as [x s], b as [y t], c as [z u]. cbn [fst snd].
  rewrite !orb_true_iff, !andb_true_iff, !Z.ltb_lt, !Z.eqb_eq, !string_ltb_lt.
  intros [H1|[H1 L1]] [H2|[H2 L2]].
  - left. lia.
  - left. lia.
  - left. lia.
  - right. split; [lia|]. now apply (string_compare_lt_trans s t u).
Qed.

Lemma tuple_le_lt_trans (m b y : Z * string) :
  tuple_lt m b = false -> tuple_lt m y = true -> tuple_lt b y = true.
Proof.
  unfold tuple_lt. destruct m as [cm sm], b as [cb sb], y as [cy sy].
  cbn [fst snd].
  rewrite orb_false_iff, andb_false_iff, !orb_true_iff, !andb_true_iff,
          !Z.ltb_lt, Z.ltb_ge, !Z.eqb_eq, Z.eqb_neq, !string_ltb_lt.
  intros [H1 H2] H3.
  destruct (Z.eq_dec cb cm) as [->|N].
  - destruct H3 as [H3|[-> H3]]; [now left|]. right. split; [reflexivity|].
    destruct H2 as [H2|H2]; [contradiction|].
    unfold String.ltb in H2. rewrite String.compare_antisym in H2.
    destruct (String.compare sb sm) eqn:Cmp; try discriminate.
    + apply String.compare_eq_iff in Cmp. now subst.
    + now apply (string_compare_lt_trans sb sm sy).
  - left. destruct H3 as [H3|[H3 _]]; lia.
Qed.

(** [max] returns an element of the sequence that no element's key
    exceeds. *)
Lemma max_from_spec {A} (key : A -> Z * string) (l : list A) (best : A) :
  In (max_from key best l) (best :: l)
  /\ forall x, In x (best :: l) ->
       tuple_lt (key (max_from key best l)) (key x) = false.
Proof.
  revert best. induction l as [|y l IH]; intros best; cbn [max_from].
  - split; [now left|]. intros x [<-|[]]. apply tuple_lt_irrefl.
  - destruct (tuple_lt (key best) (key y)) eqn:E.
    + destruct (IH y) as [Hin Hmax]. split; [now right|].
      intros x [<-|Hx]; [|now apply Hmax].
      destruct (tuple_lt (key (max_from key y l)) (key best)) eqn:F;
        [|reflexivity].
      rewrite <- (Hmax y (or_introl eq_refl)). symmetry.
      now apply (tuple_lt_trans _ (key best)).
    + destruct (IH best) as [Hin Hmax]. split.
      * destruct Hin as [<-|Hin]; [now left|right; now right].
      * intros x [<-|[<-|Hx]].
        -- apply Hmax. now left.
        -- destruct (tuple_lt (key (max_from key best l)) (key y)) eqn:F;
             [|reflexivity].
           rewrite <- E. symmetry.
           apply (tuple_le_lt_trans (key (max_from key best l))); [|exact F].
           apply Hmax. now left.
        -- apply Hmax. now right.
Qed.

(** What [most_likely] returns: a key with the highest count and, among
    the keys of that count, the largest in lexicographic order. *)
Lemma most_likely_spec (res : MeasurementResult) (k : string) :
  most_likely res = Ok k ->
  exists c,
    In (k, c) (counts res)
    /\ forall k' c', In (k', c') (counts res) ->
         (c' <= c)%Z /\ (c' = c -> String.ltb k k' = false).
Proof.
  unfold most_likely, max_key, items.
  destruct (counts res) as [|item l] eqn:E; [discriminate|].
  intros [= <-].
  set (key := fun item0 : string * Z => (snd item0, fst item0)).
  destruct (max_from_spec key l item) as [Hin Hmax].
  exists (snd (max_from key item l)). split.
  - now rewrite <- surjective_pairing.
  - intros k' c' H. specialize (Hmax (k', c') H).
    unfold tuple_lt, key in Hmax. cbn [fst snd] in Hmax.
    apply orb_false_iff in Hmax. destruct Hmax as [H1 H2].
    apply Z.ltb_ge in H1. split; [assumption|].
    intros ->. rewrite Z.eqb_refl in H2. exact H2.
Qed.

(* ================================================================== *)
(** * Main theorems                                                    *)
(* ================================================================== *)

(** C1. For a register of [n] qubits, a tuple of [k] distinct qubit
    indices in range and a [2^k] by [2^k] matrix [u], [apply_custom]
    returns after assigning the state once, and the new amplitude of every
    basis state [x] is the sum over [y] of [u[r, y]] times the old
    amplitude of the basis state that spells [y] on the target qubits and
    agrees with [x] on all the others, where [r] is what [x] spells on the
    targets (first target most significant, qubit [0] the most
    significant bit of an index).  The named gates are [apply_custom] at
    their matrices. *)
Theorem C1_gate_acts_on_target_qubits
    (self : QuantumCircuit) (u : ndarray C) (qubits : list Z) :
  well_formed self ->
  valid_qubits (num_qubits self) qubits ->
  shape u = [2 ^ length qubits; 2 ^ length qubits] ->
  let n := num_qubits self in
  let targets := map Z.to_nat qubits in
  (exists v',
      apply_custom u qubits self
      = mk_run (Ok tt) (mk_QuantumCircuit n v') [v']
      /\ length v' = 2 ^ n
      /\ forall x, x < 2 ^ n ->
           nth x v' Czero
           = Csum (map (fun y =>
                          Cmul (entry u (sub_index n targets x) y)
                               (nth (with_targets n targets y x)
                                    (_state self) Czero))
                       (seq 0 (2 ^ length qubits))))
  /\ (forall x y p, p < n ->
        qubit_bit n p (with_targets n targets y x)
        = match index_of p targets with
          | Some a => qubit_bit (length targets) a y
          | None => qubit_bit n p x
          end)
  /\ (forall x, sub_index n targets x
                = from_bits (map (fun q => qubit_bit n q x) targets))
  /\ (forall q, hadamard q self = apply_custom _H [q] self)
  /\ (forall q, pauli_x q self = apply_custom _X [q] self)
  /\ (forall c t, c <> t -> cnot c t self = apply_custom _CNOT [c; t] self).
Proof.
  intros WF HV Hu n targets. repeat split.
  - exists (map (acts_on_targets n u targets (_state self)) (seq 0 (2 ^ n))).
    split; [|split].
    + unfold apply_custom. now rewrite (apply_unitary_run self u qubits WF HV Hu).
    + now rewrite length_map, length_seq.
    + intros x Hx. rewrite nth_map_seq by assumption.
      unfold acts_on_targets, targets. now rewrite length_map.
  - intros x y p Hp. now apply with_targets_bits.
  - intros c t Hct. unfold cnot, apply_custom.
    destruct (Z.eqb_spec c t); [contradiction|reflexivity].
Qed.

Lemma C1_gate_acts_on_target_qubits_witness :
  (exists v',
      apply_custom _X [0%Z] ground1
      = mk_run (Ok tt) (mk_QuantumCircuit 1 v') [v']
      /\ length v' = 2 ^ 1
      /\ forall x, x < 2 ^ 1 ->
           nth x v' Czero
           = Csum (map (fun y =>
                          Cmul (entry _X (sub_index 1 [Z.to_nat 0] x) y)
                               (nth (with_targets 1 [Z.to_nat 0] y x)
                                    [Cone; Czero] Czero))
                       (seq 0 (2 ^ 1))))
  /\ (forall x y p, p < 1 ->
        qubit_bit 1 p (with_targets 1 [Z.to_nat 0] y x)
        = match index_of p [Z.to_nat 0] with
          | Some a => qubit_bit 1 a y
          | None => qubit_bit 1 p x
          end)
  /\ (forall x, sub_index 1 [Z.to_nat 0] x
                = from_bits (map (fun q => qubit_bit 1 q x) [Z.to_nat 0]))
  /\ (forall q, hadamard q ground1 = apply_custom _H [q] ground1)
  /\ (forall q, pauli_x q ground1 = apply_custom _X [q] ground1)
  /\ (forall c t, c <> t -> cnot c t ground1 = apply_custom _CNOT [c; t] ground1).
Proof.
  apply (C1_gate_acts_on_target_qubits ground1 _X [0%Z]).
  - reflexivity.
  - exact ground1_valid.
  - reflexivity.
Defined.

(** C2. For a non-empty tuple of [k] distinct qubits in range,
    [probabilities] returns, without touching the register, a mapping
    whose keys are exactly the strings of ['0'] and ['1'] of length [k],
    and whose value at the string of the bits [b] is the sum of the
    squared magnitudes of the amplitudes of the basis states that show
    [b[a]] on the [a]-th requested qubit (so the first character belongs
    to the first qubit requested).  With no argument the result is the
    full-register distribution in ascending index order. *)
Theorem C2_probabilities_marginal (self : QuantumCircuit) :
  well_formed self -> 0 < num_qubits self ->
  let n := num_qubits self in
  (forall qubits, qubits <> [] -> valid_qubits n qubits ->
     exists d,
       probabilities (Some qubits) self = mk_run (Ok d) self []
       /\ keys d = map (fun r => bitstring_of (bits (length qubits) r))
                       (seq 0 (2 ^ length qubits))
       /\ (forall s, In s (keys d)
                     <-> String.length s = length qubits
                         /\ binary_string s = true)
       /\ forall b, length b = length qubits -> Forall (fun c => c < 2) b ->
            dict_get d (bitstring_of b)
            = Some (Rsum (map (fun x => Cnorm2 (nth x (_state self) Czero))
                              (filter (agrees_on n (map Z.to_nat qubits) b)
                                      (seq 0 (2 ^ n))))))
  /\ probabilities None self
     = mk_run (Ok (map (fun x => (bitstring_of (bits n x),
                                  Cnorm2 (nth x (_state self) Czero)))
                       (seq 0 (2 ^ n))))
              self [].
Proof.
  intros WF Hn n. split.
  - intros qubits Hne HV.
    exists (marginal_distribution n qubits (_state self)).
    split; [now apply probabilities_run|]. split; [|split].
    + unfold marginal_distribution, keys. now rewrite map_map.
    + intros s. unfold marginal_distribution, keys. rewrite map_map. cbn [fst].
      apply bitstring_keys_iff.
    + intros b Hl Hb. now apply marginal_distribution_get.
  - now apply probabilities_none_run.
Qed.

Lemma C2_probabilities_marginal_witness :
  (forall qubits, qubits <> [] -> valid_qubits 1 qubits ->
     exists d,
       probabilities (Some qubits) ground1 = mk_run (Ok d) ground1 []
       /\ keys d = map (fun r => bitstring_of (bits (length qubits) r))
                       (seq 0 (2 ^ length qubits))
       /\ (forall s, In s (keys d)
                     <-> String.length s = length qubits
                         /\ binary_string s = true)
       /\ forall b, length b = length qubits -> Forall (fun c => c < 2) b ->
            dict_get d (bitstring_of b)
            = Some (Rsum (map (fun x => Cnorm2 (nth x [Cone; Czero] Czero))
                              (filter (agrees_on 1 (map Z.to_nat qubits) b)
                                      (seq 0 (2 ^ 1))))))
  /\ probabilities None ground1
     = mk_run (Ok (map (fun x => (bitstring_of (bits 1 x),
                                  Cnorm2 (nth x [Cone; Czero] Czero)))
                       (seq 0 (2 ^ 1))))
              ground1 [].
Proof.
  apply (C2_probabilities_marginal ground1).
  - reflexivity.
  - simpl. lia.
Defined.

(** C3, as the code has it.  On a register of [2 ^ num_qubits]
    amplitudes, for a valid qubit subset and a positive shot count,
    [measure] consults the generator once: it asks for [shots] draws
    among the outcomes of the subset, weighted by the distribution
    [probabilities] returns for it (divided by its sum unless that is
    close to one).  If the generator raises, so does [measure], and the
    register is untouched.  If the generator returns [shots] indices in
    range, [measure] returns counts with one key per outcome, each
    counting how often that outcome was drawn, summing to [shots]; and it
    assigns the state exactly once, whatever [shots] is: the amplitudes
    off the last outcome drawn become zero, the others are divided by
    the square root of that outcome's probability (for the empty tuple:
    amplitude [1] at the outcome).  How the draws are distributed is the
    generator's business. *)
Theorem C3_measure_counts_and_single_collapse
    (self : QuantumCircuit) (qubits : option (list Z)) (shots : Z)
    (rng : Generator) :
  well_formed self -> 0 < num_qubits self ->
  valid_qubits (num_qubits self) (qubit_tuple_of (num_qubits self) qubits) ->
  (0 < shots)%Z ->
  let n := num_qubits self in
  let qt := qubit_tuple_of n qubits in
  let w := outcome_width n qt in
  let P := outcome_probability n qt (_state self) in
  let drawn_by_rng :=
    choice rng (2 ^ w) (Z.to_nat shots)
      (sampling_weights (map P (seq 0 (2 ^ w)))) in
  probabilities qubits self
  = mk_run (Ok (map (fun r => (bitstring_of (bits w r), P r)) (seq 0 (2 ^ w))))
      self []
  /\ sampling_weights (map P (seq 0 (2 ^ w)))
     = (if isclose_one (Rsum (map P (seq 0 (2 ^ w))))
        then map P (seq 0 (2 ^ w))
        else map (fun p => (p / Rsum (map P (seq 0 (2 ^ w))))%R)
                 (map P (seq 0 (2 ^ w))))
  /\ (forall e, drawn_by_rng = Raise e ->
        measure qubits shots rng self = mk_run (Raise e) self [])
  /\ (forall outcomes,
        drawn_by_rng = Ok outcomes ->
        length outcomes = Z.to_nat shots ->
        Forall (fun i => i < 2 ^ w) outcomes ->
        exists last res v',
          nth_error outcomes (length outcomes - 1) = Some last
          /\ last < 2 ^ w
          /\ measure qubits shots rng self
             = mk_run (Ok res) (mk_QuantumCircuit n v') [v']
          /\ length v' = 2 ^ n
          /\ (forall x, x < 2 ^ n ->
                nth x v' Czero
                = if consistent n qt last x
                  then match qt with
                       | [] => Cone
                       | _ :: _ =>
                           if Rlt_dec 0 (sqrt (P last))
                           then Cdiv_real (nth x (_state self) Czero)
                                          (sqrt (P last))
                           else nth x (_state self) Czero
                       end
                  else Czero)
          /\ keys (counts res)
             = map (fun r => bitstring_of (bits w r)) (seq 0 (2 ^ w))
          /\ (forall r, r < 2 ^ w ->
                dict_get (counts res) (bitstring_of (bits w r))
                = Some (Z.of_nat (count_occ Nat.eq_dec outcomes r)))
          /\ total_shots res = shots).
Proof.
  intros WF Hn HV Hshots n qt w P drawn_by_rng.
  split; [|split; [|split]].
  - rewrite probabilities_qubit_tuple.
    exact (probabilities_tuple self qt WF Hn HV).
  - reflexivity.
  - intros e He.
    rewrite (measure_unfold self qubits shots rng WF Hn HV Hshots).
    fold n qt w P drawn_by_rng. rewrite He. reflexivity.
  - intros outcomes Hc Hlen Hrange.
    destruct (measure_draws_run self qubits shots rng outcomes WF Hn HV Hshots
                Hc Hlen Hrange)
      as (counts1 & last & Hl & Hlast & Hm & Hk & Ht & Hg).
    exists last, (mk_MeasurementResult counts1),
           (post_measurement n qt (_state self) last).
    split; [exact Hl|]. split; [exact Hlast|]. split; [exact Hm|].
    split; [|split; [|split; [|split]]].
    + exact (post_measurement_length n qt (_state self) last WF).
    + intros x Hx. rewrite (nth_post_measurement n qt (_state self) last x WF Hx).
      reflexivity.
    + exact Hk.
    + exact Hg.
    + exact Ht.
Qed.

Lemma C3_measure_counts_and_single_collapse_witness :
  exists res,
    measure (Some [0%Z]) 3 first_outcome_rng plus1
    = mk_run (Ok res) (mk_QuantumCircuit 1 [Cone; Czero]) [[Cone; Czero]]
    /\ dict_get (counts res) "0" = Some 3%Z
    /\ dict_get (counts res) "1" = Some 0%Z
    /\ total_shots res = 3%Z.
Proof.
  destruct (C3_measure_counts_and_single_collapse plus1 (Some [0%Z]) 3
              first_outcome_rng)
    as (_ & _ & _ & H).
  - reflexivity.
  - simpl. lia.
  - exact ground1_valid.
  - lia.
  - destruct (H [0; 0; 0])
      as (last & res & v' & Hl & _ & Hm & Hlen & Hv & _ & Hg & Ht).
    + reflexivity.
    + reflexivity.
    + repeat constructor.
    + cbn in Hl. injection Hl as <-.
      assert (E : v' = [Cone; Czero]).
      { rewrite <- plus1_collapse.
        apply nth_ext with (d := Czero) (d' := Czero).
        - rewrite Hlen. symmetry.
          exact (post_measurement_length 1 [0%Z] (_state plus1) 0 eq_refl).
        - intros x Hx. rewrite Hlen in Hx. rewrite (Hv x Hx).
          symmetry.
          exact (nth_post_measurement 1 [0%Z] (_state plus1) 0 x eq_refl Hx). }
      exists res. rewrite <- E. split; [exact Hm|].
      split; [exact (Hg 0 ltac:(simpl; lia))|].
      split; [exact (Hg 1 ltac:(simpl; lia))|exact Ht].
Defined.

(** C3, the claim refuted.  A register can lose all its amplitude:
    [apply_custom] takes any square matrix of the right size, the matrix
    of zeros among them, and [_collapse_state] onto an outcome of
    probability zero leaves the same register.  On it every probability
    is zero, the weights [measure] hands over are no probability vector,
    and [measure] raises what the generator raises -- here a generator
    that honours [choice] on every probability vector -- instead of
    returning counts. *)
Lemma C3_measure_raises_on_register_without_amplitude :
  __init__ 1 = Ok ground1
  /\ apply_custom zero_matrix [0%Z] ground1
     = mk_run (Ok tt) null1 [[Czero; Czero]]
  /\ _collapse_state [0%Z] "1" ground1
     = mk_run (Ok tt) null1 [[Czero; Czero]]
  /\ sound_generator first_positive_rng
  /\ measure None 1 first_positive_rng null1
     = mk_run (Raise ValueError) null1 [].
Proof.
  split; [reflexivity|]. split; [exact zero_matrix_run|].
  split; [exact collapse_to_null1|].
  split; [exact first_positive_rng_sound|].
  assert (WF : well_formed null1) by reflexivity.
  assert (Hn : 0 < num_qubits null1) by (simpl; lia).
  rewrite (measure_unfold null1 None 1 first_positive_rng WF Hn
             (valid_all_qubits 1) ltac:(lia)).
  cbn [num_qubits null1 qubit_tuple_of outcome_width seq map length].
  change [Z.of_nat 0] with [0%Z]. cbn [length Nat.pow Nat.mul Nat.add seq map].
  cbn [choice first_positive_rng].
  rewrite first_positive_zero_weights.
  - reflexivity.
  - constructor; [exact (null1_outcome_probability 0 ltac:(lia))|].
    constructor; [exact (null1_outcome_probability 1 ltac:(lia))|constructor].
Qed.

(** C4, as the code has it.  When [measure] returns and the last outcome
    drawn had positive probability, then right afterwards
    [probabilities] over the measured subset gives exactly [0] on every
    bit string but that outcome, and on the outcome a positive value:
    the sum of the squared magnitudes of the surviving amplitudes, each
    divided by the square root of the outcome's probability ([1] when
    the tuple is empty and the basis state itself is installed).
    [probabilities] over the full register gives a non-zero value only to
    basis states that show the outcome on the measured qubits. *)
Theorem C4_round_trip_after_collapse
    (self : QuantumCircuit) (qubits : option (list Z)) (shots : Z)
    (rng : Generator) (res : MeasurementResult) :
  well_formed self -> 0 < num_qubits self ->
  value (measure qubits shots rng self) = Ok res ->
  draws_possible self qubits shots rng ->
  let n := num_qubits self in
  let qt := qubit_tuple_of n qubits in
  let w := outcome_width n qt in
  let P := outcome_probability n qt (_state self) in
  let self' := self_after (measure qubits shots rng self) in
  exists outcomes last subset full,
    choice rng (2 ^ w) (Z.to_nat shots)
      (sampling_weights (map P (seq 0 (2 ^ w))))
    = Ok outcomes
    /\ nth_error outcomes (length outcomes - 1) = Some last
    /\ last < 2 ^ w
    /\ (0 < P last)%R
    /\ probabilities qubits self' = mk_run (Ok subset) self' []
    /\ keys subset = map (fun r => bitstring_of (bits w r)) (seq 0 (2 ^ w))
    /\ (forall r, r < 2 ^ w -> r <> last ->
          dict_get subset (bitstring_of (bits w r)) = Some 0%R)
    /\ (exists p,
          dict_get subset (bitstring_of (bits w last)) = Some p
          /\ (0 < p)%R
          /\ p = match qt with
                 | [] => 1%R
                 | _ :: _ =>
                     Rsum (map (fun x =>
                                  Cnorm2 (Cdiv_real (nth x (_state self) Czero)
                                                    (sqrt (P last))))
                               (filter (consistent n qt last) (seq 0 (2 ^ n))))
                 end)
    /\ probabilities None self' = mk_run (Ok full) self' []
    /\ forall x p, x < 2 ^ n ->
         dict_get full (bitstring_of (bits n x)) = Some p -> p <> 0%R ->
         consistent n qt last x = true.
Proof.
  intros WF Hn0 E HD n qt w P self'.
  assert (Hshots : (0 < shots)%Z).
  { destruct (Z.leb_spec shots 0) as [L|G]; [|assumption].
    unfold measure in E. apply Z.leb_le in L. rewrite L in E. discriminate. }
  assert (HV : valid_qubits n qt).
  { destruct (normalise_cases self qubits)
      as [(qt' & Hq & HV & Eq)|(e & He & _)].
    - unfold qt. destruct qubits as [qs|]; cbn [qubit_tuple_of].
      + now rewrite <- (Eq qs eq_refl).
      + apply valid_all_qubits.
    - exfalso. unfold measure in E.
      destruct (shots <=? 0)%Z; [discriminate|].
      rewrite (bind_raise _ _ self self e [] He) in E. discriminate. }
  destruct (measure_ok_inv self qubits shots rng res WF Hn0 HV Hshots E)
    as (outcomes & last & Hc & Hl & Hlt & Hs & _).
  fold n in Hc, Hl, Hlt, Hs. fold qt in Hc, Hl, Hlt, Hs. fold w in Hc, Hl, Hlt, Hs.
  fold P in Hc.
  pose proof (HD outcomes last Hc Hl) as Hp. fold n in Hp. fold qt in Hp.
  fold P in Hp.
  pose proof Hn0 as Hn. fold n in Hn.
  pose proof (post_measurement_unit_norm n qt (_state self) last WF Hn Hlt Hp)
    as (WF' & Hn' & _).
  fold self' in Hs. rewrite <- Hs in WF', Hn'.
  assert (En : num_qubits self' = n) by now rewrite Hs.
  set (P' := outcome_probability n qt (_state self')).
  assert (HP' : forall r, r < 2 ^ w -> P' r = if r =? last then 1%R else 0%R).
  { intros r Hr. unfold P'. rewrite Hs. cbn [_state].
    apply post_measurement_distribution; assumption. }
  exists outcomes, last, (outcome_table w P'),
    (outcome_table n (fun x => Cnorm2 (nth x (_state self') Czero))).
  split; [assumption|]. split; [assumption|]. split; [assumption|].
  split; [assumption|]. split; [|split; [|split; [|split; [|split]]]].
  - rewrite probabilities_qubit_tuple, En. fold qt.
    assert (HV' : valid_qubits (num_qubits self') qt) by now rewrite En.
    rewrite (probabilities_tuple self' qt WF' Hn' HV'). rewrite En.
    reflexivity.
  - apply outcome_table_keys.
  - intros r Hr Hne. rewrite outcome_table_get by assumption.
    rewrite (HP' r Hr).
    destruct (Nat.eqb_spec r last) as [Heq|_]; [contradiction|reflexivity].
  - exists (P' last). split; [apply outcome_table_get; assumption|].
    split; [rewrite (HP' last Hlt), Nat.eqb_refl; lra|].
    unfold P'. rewrite Hs. cbn [_state].
    exact (outcome_probability_after n qt (_state self) last WF Hlt Hp).
  - rewrite <- En. now apply probabilities_none_run.
  - intros x p Hx Hg Hnz. rewrite outcome_table_get in Hg by assumption.
    injection Hg as <-. rewrite Hs in Hnz. cbn [_state] in Hnz.
    now apply (post_measurement_support n qt (_state self) last x WF Hx).
Qed.

Lemma C4_round_trip_after_collapse_witness :
  exists res subset full,
    value (measure (Some [0%Z]) 1 first_outcome_rng plus1) = Ok res
    /\ probabilities (Some [0%Z])
         (self_after (measure (Some [0%Z]) 1 first_outcome_rng plus1))
       = mk_run (Ok subset)
           (self_after (measure (Some [0%Z]) 1 first_outcome_rng plus1)) []
    /\ keys subset = ["0"%string; "1"%string]
    /\ dict_get subset "1" = Some 0%R
    /\ (exists p, dict_get subset "0" = Some p /\ (0 < p)%R)
    /\ probabilities None
         (self_after (measure (Some [0%Z]) 1 first_outcome_rng plus1))
       = mk_run (Ok full)
           (self_after (measure (Some [0%Z]) 1 first_outcome_rng plus1)) []
    /\ (forall p, dict_get full "1" = Some p -> p <> 0%R -> False).
Proof.
  destruct plus1_measure_returns as [res E].
  destruct (C4_round_trip_after_collapse plus1 (Some [0%Z]) 1 first_outcome_rng
              res)
    as (outcomes & last & subset & full & Hc & Hl & _ & _ & Hs & Hk & Hz & Hp
        & Hf & Hsupp).
  - reflexivity.
  - simpl. lia.
  - exact E.
  - apply plus1_draws_possible.
  - cbn [choice first_outcome_rng] in Hc. injection Hc as <-.
    cbn in Hl. injection Hl as <-.
    exists res, subset, full.
    split; [exact E|]. split; [exact Hs|]. split; [exact Hk|].
    split; [exact (Hz 1 ltac:(simpl; lia) ltac:(discriminate))|].
    split.
    + destruct Hp as (p & Hg & Hpos & _). exists p. split; assumption.
    + split; [exact Hf|]. intros p Hg Hnz.
      pose proof (Hsupp 1 p ltac:(simpl; lia) Hg Hnz) as Hcons.
      discriminate Hcons.
Defined.

(** C5, in exact arithmetic.  Every register reachable from the
    constructor through the public methods -- the named gates,
    [apply_custom] with a unitary matrix, [probabilities], and [measure]
    whenever the last outcome drawn has positive probability -- holds
    [2 ^ num_qubits] amplitudes whose squared magnitudes sum to [1] when
    sums, products, quotients and square roots are exact; calls that
    raise are included, and so is the collapse, which renormalises. *)
Theorem C5_unit_norm_invariant (self : QuantumCircuit) :
  reachable self ->
  0 < num_qubits self
  /\ length (_state self) = 2 ^ num_qubits self
  /\ Rsum (map Cnorm2 (_state self)) = 1%R.
Proof.
  intros H. destruct (reachable_unit_norm self H) as (WF & Hn & Hnorm).
  repeat split; assumption.
Qed.

Lemma C5_unit_norm_invariant_witness :
  0 < num_qubits
        (self_after (hadamard 0
                       (self_after (measure None 1 first_outcome_rng ground1))))
  /\ length (_state (self_after (hadamard 0
                       (self_after (measure None 1 first_outcome_rng ground1)))))
     = 2 ^ num_qubits
             (self_after (hadamard 0
                       (self_after (measure None 1 first_outcome_rng ground1))))
  /\ Rsum (map Cnorm2
             (_state (self_after (hadamard 0
                       (self_after (measure None 1 first_outcome_rng ground1))))))
     = 1%R.
Proof.
  apply (C5_unit_norm_invariant
           (self_after (hadamard 0
                       (self_after (measure None 1 first_outcome_rng ground1))))).
  apply reach_hadamard. apply reach_measure.
  - exact (reach_init 1 ground1 ground1_init).
  - apply ground1_draws_possible; [now left|lia].
Defined.

(** ** The numbers the program computes *)

Section Binary64.

Import PrimFloat.

Set Warnings "-inexact-float".

(** C5, the claim refuted.  In binary64 the entries of [_H] are
    [0.7071067811865475], not [1 / sqrt 2], and after one [hadamard] on a
    fresh register of one qubit the squared magnitudes,
    [0.4999999999999999] each, add up to [0.9999999999999998]: close to
    one in the sense of [np.isclose], but not one. *)
Lemma C5_squared_norm_in_binary64_is_not_one :
  F64.__init__ 1 = Ok (F64.mk_QuantumCircuit 1 [(1, 0); (0, 0)]%float)
  /\ F64.hadamard 0 (F64.mk_QuantumCircuit 1 [(1, 0); (0, 0)]%float)
     = Ok (F64.mk_QuantumCircuit 1
             [(0.7071067811865475, 0); (0.7071067811865475, 0)]%float)
  /\ F64.probabilities None
       (F64.mk_QuantumCircuit 1
          [(0.7071067811865475, 0); (0.7071067811865475, 0)]%float)
     = Ok [("0"%string, 0.4999999999999999%float);
           ("1"%string, 0.4999999999999999%float)]
  /\ F64.Fsum (map F64.Cnorm2
                 [(0.7071067811865475, 0); (0.7071067811865475, 0)]%float)
     = 0.9999999999999998%float
  /\ (0.9999999999999998 <? 1)%float = true
  /\ F64.isclose_one 0.9999999999999998%float = true.
Proof. repeat split; vm_compute; reflexivity. Qed.

(** C4, the claim refuted.  On a fresh register of two qubits,
    [hadamard(0)] and [hadamard(1)] leave four amplitudes
    [0.4999999999999999], so that outcome ["0"] of qubit [0] has the
    positive probability [0.4999999999999998].  A measurement of qubit
    [0] that draws it divides the two surviving amplitudes by their norm,
    which gives [0.7071067811865476] each, and [probabilities([0])] then
    returns [1.0000000000000002] for the outcome: more than one.  The
    other outcome has probability [0] exactly. *)
Lemma C4_probability_after_collapse_in_binary64_is_not_one :
  F64.__init__ 2
  = Ok (F64.mk_QuantumCircuit 2 [(1, 0); (0, 0); (0, 0); (0, 0)]%float)
  /\ F64.hadamard 0
       (F64.mk_QuantumCircuit 2 [(1, 0); (0, 0); (0, 0); (0, 0)]%float)
     = Ok (F64.mk_QuantumCircuit 2
             [(0.7071067811865475, 0); (0, 0);
              (0.7071067811865475, 0); (0, 0)]%float)
  /\ F64.hadamard 1
       (F64.mk_QuantumCircuit 2
          [(0.7071067811865475, 0); (0, 0);
           (0.7071067811865475, 0); (0, 0)]%float)
     = Ok (F64.mk_QuantumCircuit 2
             [(0.4999999999999999, 0); (0.4999999999999999, 0);
              (0.4999999999999999, 0); (0.4999999999999999, 0)]%float)
  /\ F64.probabilities (Some [0%Z])
       (F64.mk_QuantumCircuit 2
          [(0.4999999999999999, 0); (0.4999999999999999, 0);
           (0.4999999999999999, 0); (0.4999999999999999, 0)]%float)
     = Ok [("0"%string, 0.4999999999999998%float);
           ("1"%string, 0.4999999999999998%float)]
  /\ F64.measure (Some [0%Z]) 1 F64.first_outcome_rng
       (F64.mk_QuantumCircuit 2
          [(0.4999999999999999, 0); (0.4999999999999999, 0);
           (0.4999999999999999, 0); (0.4999999999999999, 0)]%float)
     = Ok (mk_MeasurementResult [("0"%string, 1%Z); ("1"%string, 0%Z)],
           F64.mk_QuantumCircuit 2
             [(0.7071067811865476, 0); (0.7071067811865476, 0);
              (0, 0); (0, 0)]%float)
  /\ F64.probabilities (Some [0%Z])
       (F64.mk_QuantumCircuit 2
          [(0.7071067811865476, 0); (0.7071067811865476, 0);
           (0, 0); (0, 0)]%float)
     = Ok [("0"%string, 1.0000000000000002%float); ("1"%string, 0%float)]
  /\ (1 <? 1.0000000000000002)%float = true.
Proof. repeat split; vm_compute; reflexivity. Qed.

End Binary64.

(** C6. The constructor raises on a qubit count that is zero or
    negative.  Every public method called with an invalid argument --
    duplicate or out-of-range qubits, [cnot] with control equal to target,
    a unitary that is not two-dimensional and square or whose dimension is
    not [2^k], a shot count that is not positive -- raises, leaves the
    register as it was and has assigned nothing.  And whenever a public
    method raises, for whatever reason, the register is as it was and
    nothing has been assigned. *)
Theorem C6_atomic_failure :
  (forall nq, (nq <= 0)%Z -> __init__ nq = Raise ValueError)
  /\ (forall c self,
        invalid_call (num_qubits self) c ->
        exists e, perform c self = mk_run (Raise e) self [])
  /\ (forall c self e,
        value (perform c self) = Raise e ->
        self_after (perform c self) = self /\ writes (perform c self) = []).
Proof.
  split; [|split].
  - exact init_invalid.
  - exact invalid_call_raises.
  - exact atomic_perform.
Qed.

Lemma C6_atomic_failure_witness :
  __init__ 0 = Raise ValueError
  /\ (exists e, perform (Cnot 0 0) ground1 = mk_run (Raise e) ground1 [])
  /\ (exists e, perform (Hadamard 1) ground1 = mk_run (Raise e) ground1 [])
  /\ (exists e, perform (ApplyCustom _CNOT [0%Z]) ground1
                = mk_run (Raise e) ground1 [])
  /\ (exists e, perform (Measure None 0 first_outcome_rng) ground1
                = mk_run (Raise e) ground1 []).
Proof.
  destruct C6_atomic_failure as (Hi & Hc & _).
  split; [apply Hi; lia|]. split; [|split; [|split]]; apply Hc.
  - left. reflexivity.
  - cbn. lia.
  - right. right. right. cbn. lia.
  - left. lia.
Defined.

(** C7, as the code has it.  A collapse onto an outcome of probability
    zero does not raise.  With a non-empty tuple the division by the norm
    is skipped and every amplitude is left zero; with the empty tuple the
    basis state of the outcome is installed. *)
Theorem C7_zero_probability_collapse_is_silent
    (self : QuantumCircuit) (qubits : list Z) (r : nat) :
  well_formed self -> 0 < num_qubits self ->
  valid_qubits (num_qubits self) qubits ->
  r < 2 ^ outcome_width (num_qubits self) qubits ->
  outcome_probability (num_qubits self) qubits (_state self) r = 0%R ->
  let n := num_qubits self in
  let v' := match qubits with
            | [] => map (fun i => if i =? r then Cone else Czero)
                        (seq 0 (2 ^ n))
            | _ :: _ => repeat Czero (2 ^ n)
            end in
  _collapse_state qubits
    (bitstring_of (bits (outcome_width n qubits) r)) self
  = mk_run (Ok tt) (mk_QuantumCircuit n v') [v'].
Proof.
  intros WF Hn HV Hr Hp n v'. subst n.
  rewrite (collapse_tuple self qubits r WF Hn HV Hr). cbv zeta.
  assert (E : post_measurement (num_qubits self) qubits (_state self) r = v').
  { unfold v'. destruct qubits as [|q qs];
      cbn [post_measurement outcome_probability] in *.
    - unfold basis_like. now rewrite WF.
    - now apply collapsed_zero. }
  now rewrite E.
Qed.

Lemma C7_zero_probability_collapse_is_silent_witness :
  _collapse_state [0%Z] (bitstring_of (bits (outcome_width 1 [0%Z]) 1)) ground1
  = mk_run (Ok tt) (mk_QuantumCircuit 1 (repeat Czero (2 ^ 1)))
           [repeat Czero (2 ^ 1)].
Proof.
  apply (C7_zero_probability_collapse_is_silent ground1 [0%Z] 1).
  - reflexivity.
  - simpl. lia.
  - exact ground1_valid.
  - simpl. lia.
  - exact ground1_second_outcome.
Defined.

(** C7, the claim refuted: on one qubit in state |0>, outcome ["1"] has
    probability zero, and [_collapse_state] returns normally, leaving the
    register with no amplitude at all. *)
Lemma C7_collapse_on_zero_probability_returns :
  outcome_probability 1 [0%Z] (_state ground1) 1 = 0%R
  /\ _collapse_state [0%Z] "1" ground1
     = mk_run (Ok tt) (mk_QuantumCircuit 1 [Czero; Czero]) [[Czero; Czero]]
  /\ norm_sq [Czero; Czero] = 0%R.
Proof.
  split; [exact ground1_second_outcome|]. split.
  - assert (WF : well_formed ground1) by reflexivity.
    assert (Hn : 0 < num_qubits ground1) by (simpl; lia).
    assert (Hr : 1 < 2 ^ outcome_width (num_qubits ground1) [0%Z])
      by (simpl; lia).
    etransitivity;
      [exact (collapse_tuple ground1 [0%Z] 1 WF Hn ground1_valid Hr)|].
    cbv zeta. cbn [post_measurement]. change (num_qubits ground1) with 1.
    rewrite (collapsed_zero 1 (map Z.to_nat [0%Z]) (bits (length [0%Z]) 1)
               (_state ground1) ground1_second_outcome).
    reflexivity.
  - unfold norm_sq. cbn [map Rsum]. rewrite Cnorm2_Czero. lra.
Qed.

(** C8.  [most_likely] returns a bit string with the highest count,
    and among the bit strings of that count the lexicographically
    LARGEST one: the key [(count, string)] makes [max] prefer the larger
    string.  With counts [{"0": 1, "1": 1}] both strings have the highest
    count, ["0"] is the smaller, and ["1"] is returned, whichever way the
    dictionary was filled. *)
Theorem C8_most_likely_tie_returns_largest :
  (forall res k,
     most_likely res = Ok k ->
     exists c,
       In (k, c) (counts res)
       /\ forall k' c', In (k', c') (counts res) ->
            (c' <= c)%Z /\ (c' = c -> String.ltb k k' = false))
  /\ most_likely (mk_MeasurementResult [("0"%string, 1%Z); ("1"%string, 1%Z)])
     = Ok "1"%string
  /\ most_likely (mk_MeasurementResult [("1"%string, 1%Z); ("0"%string, 1%Z)])
     = Ok "1"%string
  /\ String.ltb "0" "1" = true.
Proof.
  split; [exact most_likely_spec|]. repeat split.
Qed.

(** C10. An explicitly empty list of qubits is accepted.
    [probabilities([])] is the full-register distribution, keyed by the
    bit strings of length [num_qubits]; [measure([], shots, rng)] draws
    from that distribution and leaves the register in the basis state of
    the last outcome drawn, with amplitude exactly [1] there and [0]
    elsewhere, whatever the amplitudes were before. *)
Theorem C10_empty_subset_is_full_register
    (self : QuantumCircuit) (shots : Z) (rng : Generator) :
  unit_norm self -> (0 < shots)%Z -> sound_generator rng ->
  let n := num_qubits self in
  probabilities (Some []) self
  = mk_run (Ok (map (fun x => (bitstring_of (bits n x),
                               Cnorm2 (nth x (_state self) Czero)))
                    (seq 0 (2 ^ n))))
           self []
  /\ exists outcomes last res,
       choice rng (2 ^ n) (Z.to_nat shots)
         (map (fun x => Cnorm2 (nth x (_state self) Czero)) (seq 0 (2 ^ n)))
       = Ok outcomes
       /\ nth_error outcomes (length outcomes - 1) = Some last
       /\ last < 2 ^ n
       /\ total_shots res = shots
       /\ measure (Some []) shots rng self
          = mk_run (Ok res)
              (mk_QuantumCircuit n
                 (map (fun i => if i =? last then Cone else Czero)
                      (seq 0 (2 ^ n))))
              [map (fun i => if i =? last then Cone else Czero)
                   (seq 0 (2 ^ n))].
Proof.
  intros (WF & Hn & Hnorm) Hshots Hrng n. split.
  - now apply probabilities_run_empty.
  - assert (HV : valid_qubits n (qubit_tuple_of n (Some [])))
      by (split; constructor).
    destruct (Hrng (2 ^ n) (Z.to_nat shots)
                (map (fun x => Cnorm2 (nth x (_state self) Czero))
                     (seq 0 (2 ^ n))))
      as (outcomes & Hc & Hlen & Hrange).
    { apply pow2_pos. }
    { now rewrite length_map, length_seq. }
    { split.
      - apply Forall_forall. intros y Hy. apply in_map_iff in Hy.
        destruct Hy as [r [<- _]]. apply Cnorm2_nonneg.
      - rewrite <- Hnorm. symmetry. rewrite norm_sq_nth. now rewrite WF. }
    destruct (measure_run self (Some []) shots rng outcomes WF Hn HV Hshots
                Hnorm Hc Hlen Hrange)
      as (counts1 & last & Hl & Hlast & Hm & _ & Ht & _).
    exists outcomes, last, (mk_MeasurementResult counts1).
    repeat split; try assumption.
    rewrite Hm. cbn [qubit_tuple_of post_measurement]. unfold basis_like.
    now rewrite WF.
Qed.

Lemma C10_empty_subset_is_full_register_witness :
  probabilities (Some []) ground1
  = mk_run (Ok (map (fun x => (bitstring_of (bits 1 x),
                               Cnorm2 (nth x [Cone; Czero] Czero)))
                    (seq 0 (2 ^ 1))))
           ground1 []
  /\ exists outcomes last res,
       choice first_outcome_rng (2 ^ 1) (Z.to_nat 2)
         (map (fun x => Cnorm2 (nth x [Cone; Czero] Czero)) (seq 0 (2 ^ 1)))
       = Ok outcomes
       /\ nth_error outcomes (length outcomes - 1) = Some last
       /\ last < 2 ^ 1
       /\ total_shots res = 2%Z
       /\ measure (Some []) 2 first_outcome_rng ground1
          = mk_run (Ok res)
              (mk_QuantumCircuit 1
                 (map (fun i => if i =? last then Cone else Czero)
                      (seq 0 (2 ^ 1))))
              [map (fun i => if i =? last then Cone else Czero)
                   (seq 0 (2 ^ 1))].
Proof.
  apply (C10_empty_subset_is_full_register ground1 2 first_outcome_rng).
  - exact ground1_unit_norm.
  - lia.
  - exact first_outcome_rng_sound.
Defined.

(** ** The Bell state *)

Ltac amplitude_eq :=
  unfold plus_amplitude, Cdiv_real, Cmul, Cadd, Czero, Cone, RtoC, Re, Im;
  cbn [fst snd]; f_equal; field; apply sqrt2_neq0.

Ltac amplitudes_eq :=
  repeat match goal with
         | |- _ :: _ = _ :: _ => apply (f_equal2 (@cons C)); [amplitude_eq|]
         | |- [] = [] => reflexivity
         end.

Ltac evaluate_indices :=
  cbv [map seq acts_on_targets sub_index with_targets entry from_bits
       qubit_bit index_of option_map length nth shape data _H _X _CNOT Csum
       Nat.pow Nat.mul Nat.add Nat.sub Nat.div Nat.modulo Nat.divmod
       Nat.eqb fst snd Z.to_nat Pos.to_nat Pos.iter_op
       outcome_table bits bitstring_of bit_char].

Lemma hadamard_zero_state :
  map (acts_on_targets 2 _H (map Z.to_nat [0%Z])
         [RtoC 1; RtoC 0; RtoC 0; RtoC 0]) (seq 0 (2 ^ 2))
  = [plus_amplitude; Czero; plus_amplitude; Czero].
Proof. evaluate_indices. amplitudes_eq. Qed.

Lemma cnot_plus_state :
  map (acts_on_targets 2 _CNOT (map Z.to_nat [0%Z; 1%Z])
         [plus_amplitude; Czero; plus_amplitude; Czero]) (seq 0 (2 ^ 2))
  = [plus_amplitude; Czero; Czero; plus_amplitude].
Proof. evaluate_indices. amplitudes_eq. Qed.

(** C9. On a fresh register of two qubits, Hadamard on qubit [0] and
    then CNOT with control [0] and target [1] give the distribution
    [{"00": 1/2, "01": 0, "10": 0, "11": 1/2}], exactly. *)
Theorem C9_bell_state :
  exists s0 s1 s2,
    __init__ 2 = Ok s0
    /\ hadamard 0 s0 = mk_run (Ok tt) s1 [_state s1]
    /\ cnot 0 1 s1 = mk_run (Ok tt) s2 [_state s2]
    /\ probabilities None s2
       = mk_run (Ok [("00"%string, (1 / 2)%R); ("01"%string, 0%R);
                     ("10"%string, 0%R); ("11"%string, (1 / 2)%R)])
                s2 [].
Proof.
  set (s0 := mk_QuantumCircuit 2 [RtoC 1; RtoC 0; RtoC 0; RtoC 0]).
  set (s1 := mk_QuantumCircuit 2 [plus_amplitude; Czero; plus_amplitude; Czero]).
  set (s2 := mk_QuantumCircuit 2 [plus_amplitude; Czero; Czero; plus_amplitude]).
  assert (V0 : valid_qubits 2 [0%Z]).
  { split; [constructor; [intros []|constructor]
           |constructor; [lia|constructor]]. }
  assert (V01 : valid_qubits 2 [0%Z; 1%Z]).
  { split.
    - constructor; [intros [H|[]]; discriminate|].
      constructor; [intros []|constructor].
    - constructor; [lia|]. constructor; [lia|constructor]. }
  exists s0, s1, s2. split; [reflexivity|]. split; [|split].
  - unfold hadamard.
    rewrite (apply_unitary_run s0 _H [0%Z]); [|reflexivity|exact V0|reflexivity].
    cbv zeta. cbn [num_qubits _state s0].
    rewrite hadamard_zero_state. reflexivity.
  - unfold cnot. cbn [Z.eqb].
    rewrite (apply_unitary_run s1 _CNOT [0%Z; 1%Z]);
      [|reflexivity|exact V01|reflexivity].
    cbv zeta. cbn [num_qubits _state s1].
    rewrite cnot_plus_state. reflexivity.
  - rewrite (probabilities_none_run s2); [|reflexivity|simpl; lia].
    cbn [num_qubits _state s2]. evaluate_indices.
    rewrite Cnorm2_plus_amplitude, Cnorm2_Czero. reflexivity.
Qed.

(* ================================================================== *)
(** * Further properties of the simulator                          *)
(* ================================================================== *)

(** ** Flipping one qubit of a basis state *)

Lemma qubit_bit_testbit (n p x : nat) :
  qubit_bit n p x = Nat.b2n (Nat.testbit x (n - 1 - p)).
Proof. unfold qubit_bit. symmetry. apply Nat.testbit_spec'. Qed.

Lemma qubit_bit_flip (n q p x : nat) :
  q < n -> p < n ->
  qubit_bit n p (flip_qubit n q x)
  = if p =? q then 1 - qubit_bit n q x else qubit_bit n p x.
Proof.
  intros Hq Hp. rewrite !qubit_bit_testbit. unfold flip_qubit.
  rewrite Nat.lxor_spec, Nat.pow2_bits_eqb.
  destruct (Nat.eqb_spec p q) as [->|Hne].
  - rewrite Nat.eqb_refl. destruct (Nat.testbit x (n - 1 - q)); reflexivity.
  - replace (n - 1 - q =? n - 1 - p) with false
      by (symmetry; apply Nat.eqb_neq; lia).
    rewrite xorb_false_r. reflexivity.
Qed.

Lemma flip_qubit_lt (n q x : nat) :
  q < n -> x < 2 ^ n -> flip_qubit n q x < 2 ^ n.
Proof.
  intros Hq Hx. unfold flip_qubit.
  destruct (Nat.eq_dec (Nat.lxor x (2 ^ (n - 1 - q))) 0) as [->|Hne].
  - apply pow2_pos.
  - apply Nat.log2_lt_pow2; [lia|].
    apply Nat.le_lt_trans with (Nat.max (Nat.log2 x) (Nat.log2 (2 ^ (n - 1 - q)))).
    + apply Nat.log2_lxor.
    + rewrite Nat.log2_pow2 by lia.
      apply Nat.max_lub_lt; [|lia].
      destruct (Nat.eq_dec x 0) as [->|Hx0];
        [replace (Nat.log2 0) with 0 by reflexivity; lia|].
      apply Nat.log2_lt_pow2; lia.
Qed.

Lemma flip_qubit_involutive (n q x : nat) : flip_qubit n q (flip_qubit n q x) = x.
Proof.
  unfold flip_qubit. rewrite Nat.lxor_assoc, Nat.lxor_nilpotent, Nat.lxor_0_r.
  reflexivity.
Qed.

(** Two basis states with the same bits are the same. *)
Lemma index_eq_bits (n x y : nat) :
  x < 2 ^ n -> y < 2 ^ n ->
  (forall p, p < n -> qubit_bit n p x = qubit_bit n p y) -> x = y.
Proof.
  intros Hx Hy H. apply (bits_inj n); [exact Hx|exact Hy|].
  unfold bits. apply map_ext_in. intros p Hp. apply in_seq in Hp. apply H. lia.
Qed.

Lemma with_targets_lt (n : nat) (targets : list nat) (y x : nat) :
  with_targets n targets y x < 2 ^ n.
Proof.
  unfold with_targets.
  match goal with |- from_bits ?l < _ =>
    pose proof (from_bits_lt l) as H; rewrite length_map, length_seq in H
  end.
  apply H. apply Forall_forall. intros b Hb. apply in_map_iff in Hb.
  destruct Hb as [p [<- _]]. destruct (index_of p targets); apply qubit_bit_lt2.
Qed.

Lemma qubit_bit_1 (y : nat) : y < 2 -> qubit_bit 1 0 y = y.
Proof.
  intros Hy. unfold qubit_bit. cbn [Nat.sub Nat.pow]. rewrite Nat.div_1_r.
  apply Nat.mod_small. exact Hy.
Qed.

Lemma with_targets_single (n q y x : nat) :
  q < n -> x < 2 ^ n -> y < 2 ->
  with_targets n [q] y x
  = if qubit_bit n q x =? y then x else flip_qubit n q x.
Proof.
  intros Hq Hx Hy.
  assert (Hb := qubit_bit_lt2 n q x).
  apply (index_eq_bits n).
  - apply with_targets_lt.
  - destruct (qubit_bit n q x =? y); [exact Hx|apply flip_qubit_lt; assumption].
  - intros p Hp. rewrite with_targets_bits by exact Hp.
    cbn [index_of length].
    destruct (Nat.eqb_spec p q) as [->|Hne].
    + rewrite qubit_bit_1 by exact Hy.
      destruct (Nat.eqb_spec (qubit_bit n q x) y) as [E|E]; [symmetry; exact E|].
      rewrite qubit_bit_flip, Nat.eqb_refl by assumption. lia.
    + cbn [option_map].
      destruct (qubit_bit n q x =? y); [reflexivity|].
      rewrite qubit_bit_flip by assumption.
      apply Nat.eqb_neq in Hne. rewrite Hne. reflexivity.
Qed.

Lemma sub_index_single (n q x : nat) : sub_index n [q] x = qubit_bit n q x.
Proof. unfold sub_index. cbn [map from_bits length Nat.pow]. lia. Qed.

(** A matrix on one qubit mixes each amplitude with the amplitude of the
    basis state that differs in that qubit. *)
Lemma acts_on_single (n q : nat) (u : ndarray C) (v : list C) (x : nat) :
  q < n -> x < 2 ^ n ->
  acts_on_targets n u [q] v x
  = let b := qubit_bit n q x in
    Cadd (Cmul (entry u b b) (nth x v Czero))
         (Cmul (entry u b (1 - b)) (nth (flip_qubit n q x) v Czero)).
Proof.
  intros Hq Hx. unfold acts_on_targets. rewrite sub_index_single.
  cbn [length Nat.pow Nat.mul Nat.add seq map Csum].
  rewrite !with_targets_single by (assumption || lia).
  cbv zeta. assert (Hb := qubit_bit_lt2 n q x).
  destruct (qubit_bit n q x) as [|[|b]]; [| |lia]; cbn [Nat.eqb Nat.sub]; ring.
Qed.

(** ** What the named gates do to the amplitudes *)

Lemma valid_single (n : nat) (q : Z) :
  (0 <= q < Z.of_nat n)%Z -> valid_qubits n [q].
Proof.
  intros Hq. split.
  - constructor; [intros []|constructor].
  - constructor; [exact Hq|constructor].
Qed.

Lemma valid_pair (n : nat) (c t : Z) :
  (0 <= c < Z.of_nat n)%Z -> (0 <= t < Z.of_nat n)%Z -> c <> t ->
  valid_qubits n [c; t].
Proof.
  intros Hc Ht Hne. split.
  - constructor; [intros [E|[]]; congruence|].
    constructor; [intros []|constructor].
  - constructor; [exact Hc|]. constructor; [exact Ht|constructor].
Qed.

Lemma single_gate_run (self : QuantumCircuit) (u : ndarray C) (q : Z) :
  well_formed self -> (0 <= q < Z.of_nat (num_qubits self))%Z ->
  shape u = [2; 2] ->
  _apply_unitary u [q] self
  = let n := num_qubits self in
    let v' :=
      map (fun x =>
             let b := qubit_bit n (Z.to_nat q) x in
             Cadd (Cmul (entry u b b) (nth x (_state self) Czero))
                  (Cmul (entry u b (1 - b))
                        (nth (flip_qubit n (Z.to_nat q) x) (_state self) Czero)))
          (seq 0 (2 ^ n)) in
    mk_run (Ok tt) (mk_QuantumCircuit n v') [v'].
Proof.
  intros Hwf Hq Hsh.
  rewrite (apply_unitary_run self u [q] Hwf (valid_single _ _ Hq) Hsh).
  cbv zeta. cbn [map].
  assert (E : map (acts_on_targets (num_qubits self) u [Z.to_nat q] (_state self))
                  (seq 0 (2 ^ num_qubits self))
              = map (fun x =>
                       Cadd (Cmul (entry u (qubit_bit (num_qubits self) (Z.to_nat q) x)
                                          (qubit_bit (num_qubits self) (Z.to_nat q) x))
                                  (nth x (_state self) Czero))
                            (Cmul (entry u (qubit_bit (num_qubits self) (Z.to_nat q) x)
                                          (1 - qubit_bit (num_qubits self) (Z.to_nat q) x))
                                  (nth (flip_qubit (num_qubits self) (Z.to_nat q) x)
                                       (_state self) Czero)))
                    (seq 0 (2 ^ num_qubits self))).
  { apply map_ext_in. intros x Hx. apply in_seq in Hx.
    rewrite acts_on_single by lia. reflexivity. }
  rewrite E. reflexivity.
Qed.

Lemma pauli_x_run (self : QuantumCircuit) (q : Z) :
  well_formed self -> (0 <= q < Z.of_nat (num_qubits self))%Z ->
  pauli_x q self
  = let n := num_qubits self in
    let v' := map (fun x => nth (flip_qubit n (Z.to_nat q) x) (_state self) Czero)
                  (seq 0 (2 ^ n)) in
    mk_run (Ok tt) (mk_QuantumCircuit n v') [v'].
Proof.
  intros Hwf Hq. unfold pauli_x.
  rewrite (single_gate_run self _X q Hwf Hq eq_refl). cbv zeta.
  match goal with |- mk_run _ (mk_QuantumCircuit _ ?a) _ = mk_run _ (mk_QuantumCircuit _ ?b) _ =>
    assert (E : a = b) end.
  { apply map_ext. intros x.
    assert (Hb := qubit_bit_lt2 (num_qubits self) (Z.to_nat q) x).
    destruct (qubit_bit (num_qubits self) (Z.to_nat q) x) as [|[|b]]; [| |lia];
      cbn [Nat.sub];
      [change (entry _X 0 0) with (RtoC 0); change (entry _X 0 1) with (RtoC 1)
      |change (entry _X 1 1) with (RtoC 0); change (entry _X 1 0) with (RtoC 1)];
      unfold Cadd, Cmul, RtoC, Re, Im; cbn [fst snd];
      destruct (nth (flip_qubit (num_qubits self) (Z.to_nat q) x) (_state self) Czero);
      destruct (nth x (_state self) Czero); cbn [fst snd]; f_equal; ring. }
  rewrite E. reflexivity.
Qed.

Lemma hadamard_run (self : QuantumCircuit) (q : Z) :
  well_formed self -> (0 <= q < Z.of_nat (num_qubits self))%Z ->
  hadamard q self
  = let n := num_qubits self in
    let v' :=
      map (fun x =>
             let a := nth x (_state self) Czero in
             let a' := nth (flip_qubit n (Z.to_nat q) x) (_state self) Czero in
             Cdiv_real (if qubit_bit n (Z.to_nat q) x =? 0
                        then Cadd a a' else Csub a' a)
                       (sqrt 2))
          (seq 0 (2 ^ n)) in
    mk_run (Ok tt) (mk_QuantumCircuit n v') [v'].
Proof.
  intros Hwf Hq. unfold hadamard.
  rewrite (single_gate_run self _H q Hwf Hq eq_refl). cbv zeta.
  match goal with |- mk_run _ (mk_QuantumCircuit _ ?a) _ = mk_run _ (mk_QuantumCircuit _ ?b) _ =>
    assert (E : a = b) end.
  { apply map_ext. intros x. pose proof sqrt2_neq0 as N.
    assert (Hb := qubit_bit_lt2 (num_qubits self) (Z.to_nat q) x).
    destruct (qubit_bit (num_qubits self) (Z.to_nat q) x) as [|[|b]]; [| |lia];
      cbv zeta; cbn [Nat.sub Nat.eqb];
      [change (entry _H 0 0) with (Cdiv_real (RtoC 1) (sqrt 2));
       change (entry _H 0 1) with (Cdiv_real (RtoC 1) (sqrt 2))
      |change (entry _H 1 1) with (Cdiv_real (RtoC (-1)) (sqrt 2));
       change (entry _H 1 0) with (Cdiv_real (RtoC 1) (sqrt 2))];
      unfold Csub; unfold Cadd, Copp, Cmul, Cdiv_real, RtoC, Re, Im; cbn [fst snd];
      destruct (nth (flip_qubit (num_qubits self) (Z.to_nat q) x) (_state self) Czero);
      destruct (nth x (_state self) Czero); cbn [fst snd]; f_equal; field; exact N. }
  rewrite E. reflexivity.
Qed.

Lemma with_targets_pair (n c t y x : nat) :
  c < n -> t < n -> c <> t -> x < 2 ^ n -> y < 4 ->
  y / 2 = qubit_bit n c x ->
  with_targets n [c; t] y x
  = if qubit_bit n t x =? y mod 2 then x else flip_qubit n t x.
Proof.
  intros Hc Ht Hne Hx Hy Hyc.
  apply (index_eq_bits n).
  - apply with_targets_lt.
  - destruct (qubit_bit n t x =? y mod 2);
      [exact Hx|apply flip_qubit_lt; assumption].
  - intros p Hp. rewrite with_targets_bits by exact Hp.
    cbn [index_of length].
    assert (B0 : qubit_bit 2 0 y = y / 2).
    { unfold qubit_bit. cbn [Nat.sub Nat.pow Nat.mul].
      apply Nat.mod_small. apply Nat.Div0.div_lt_upper_bound. lia. }
    assert (B1 : qubit_bit 2 1 y = y mod 2).
    { unfold qubit_bit. cbn [Nat.sub Nat.pow]. rewrite Nat.div_1_r. reflexivity. }
    destruct (Nat.eqb_spec p c) as [->|Hpc].
    + rewrite B0, Hyc.
      destruct (qubit_bit n t x =? y mod 2); [reflexivity|].
      rewrite qubit_bit_flip by assumption.
      apply Nat.eqb_neq in Hne. rewrite Hne. reflexivity.
    + destruct (Nat.eqb_spec p t) as [->|Hpt]; cbn [option_map].
      * rewrite B1.
        destruct (Nat.eqb_spec (qubit_bit n t x) (y mod 2)) as [E|E];
          [symmetry; exact E|].
        rewrite qubit_bit_flip, Nat.eqb_refl by assumption.
        assert (Hb := qubit_bit_lt2 n t x).
        assert (y mod 2 < 2) by (apply Nat.mod_upper_bound; lia). lia.
      * destruct (qubit_bit n t x =? y mod 2); [reflexivity|].
        rewrite qubit_bit_flip by assumption.
        apply Nat.eqb_neq in Hpt. rewrite Hpt. reflexivity.
Qed.

Lemma sub_index_pair (n c t x : nat) :
  sub_index n [c; t] x = 2 * qubit_bit n c x + qubit_bit n t x.
Proof. unfold sub_index. cbn [map from_bits length Nat.pow]. lia. Qed.

Lemma acts_on_cnot (n c t : nat) (v : list C) (x : nat) :
  c < n -> t < n -> c <> t -> x < 2 ^ n ->
  acts_on_targets n _CNOT [c; t] v x
  = nth (if qubit_bit n c x =? 1 then flip_qubit n t x else x) v Czero.
Proof.
  intros Hc Ht Hne Hx. unfold acts_on_targets. rewrite sub_index_pair.
  assert (Hbc := qubit_bit_lt2 n c x). assert (Hbt := qubit_bit_lt2 n t x).
  cbn [length Nat.pow Nat.mul Nat.add seq map Csum].
  destruct (qubit_bit n c x) as [|[|bc]] eqn:Ec; [| |lia];
    destruct (qubit_bit n t x) as [|[|bt]] eqn:Et; [| |lia| | |lia];
    cbn [Nat.mul Nat.add Nat.eqb].
  - rewrite (with_targets_pair n c t 0 x) by (assumption || lia || (rewrite Ec; reflexivity)).
    rewrite Et. cbn [Nat.modulo Nat.divmod fst snd Nat.sub Nat.eqb].
    change (entry _CNOT 0 0) with (RtoC 1). change (entry _CNOT 0 1) with (RtoC 0).
    change (entry _CNOT 0 2) with (RtoC 0). change (entry _CNOT 0 3) with (RtoC 0).
    fold Cone Czero. ring.
  - rewrite (with_targets_pair n c t 1 x) by (assumption || lia || (rewrite Ec; reflexivity)).
    rewrite Et. cbn [Nat.modulo Nat.divmod fst snd Nat.sub Nat.eqb].
    change (entry _CNOT 1 0) with (RtoC 0). change (entry _CNOT 1 1) with (RtoC 1).
    change (entry _CNOT 1 2) with (RtoC 0). change (entry _CNOT 1 3) with (RtoC 0).
    fold Cone Czero. ring.
  - rewrite (with_targets_pair n c t 3 x) by (assumption || lia || (rewrite Ec; reflexivity)).
    rewrite Et. cbn [Nat.modulo Nat.divmod fst snd Nat.sub Nat.eqb].
    change (entry _CNOT 2 0) with (RtoC 0). change (entry _CNOT 2 1) with (RtoC 0).
    change (entry _CNOT 2 2) with (RtoC 0). change (entry _CNOT 2 3) with (RtoC 1).
    fold Cone Czero. ring.
  - rewrite (with_targets_pair n c t 2 x) by (assumption || lia || (rewrite Ec; reflexivity)).
    rewrite Et. cbn [Nat.modulo Nat.divmod fst snd Nat.sub Nat.eqb].
    change (entry _CNOT 3 0) with (RtoC 0). change (entry _CNOT 3 1) with (RtoC 0).
    change (entry _CNOT 3 2) with (RtoC 1). change (entry _CNOT 3 3) with (RtoC 0).
    fold Cone Czero. ring.
Qed.

Lemma cnot_run (self : QuantumCircuit) (c t : Z) :
  well_formed self ->
  (0 <= c < Z.of_nat (num_qubits self))%Z ->
  (0 <= t < Z.of_nat (num_qubits self))%Z -> c <> t ->
  cnot c t self
  = let n := num_qubits self in
    let v' :=
      map (fun x => nth (if qubit_bit n (Z.to_nat c) x =? 1
                         then flip_qubit n (Z.to_nat t) x else x)
                        (_state self) Czero)
          (seq 0 (2 ^ n)) in
    mk_run (Ok tt) (mk_QuantumCircuit n v') [v'].
Proof.
  intros Hwf Hc Ht Hne. unfold cnot.
  apply Z.eqb_neq in Hne as Hne'. rewrite Hne'.
  rewrite (apply_unitary_run self _CNOT [c; t] Hwf (valid_pair _ _ _ Hc Ht Hne) eq_refl).
  cbv zeta. cbn [map].
  match goal with |- mk_run _ (mk_QuantumCircuit _ ?a) _ = mk_run _ (mk_QuantumCircuit _ ?b) _ =>
    assert (E : a = b) end.
  { apply map_ext_in. intros x Hx. apply in_seq in Hx.
    apply acts_on_cnot; try lia. }
  rewrite E. reflexivity.
Qed.

(** X1. [pauli_x(q)] on a register of [n] qubits succeeds for every
    in-range [q], assigns the state once, and the new amplitude of basis
    state [x] is the old amplitude of [x] with qubit [q] flipped, i.e. of
    [x xor 2^(n-1-q)]: the gate exchanges the amplitudes of the basis
    states that differ in qubit [q] only. *)
Theorem pauli_x_swaps_amplitudes (self : QuantumCircuit) (q : Z) :
  well_formed self -> (0 <= q < Z.of_nat (num_qubits self))%Z ->
  let n := num_qubits self in
  let v' := map (fun x => nth (flip_qubit n (Z.to_nat q) x) (_state self) Czero)
                (seq 0 (2 ^ n)) in
  pauli_x q self = mk_run (Ok tt) (mk_QuantumCircuit n v') [v']
  /\ forall x, x < 2 ^ n ->
       flip_qubit n (Z.to_nat q) x < 2 ^ n
       /\ forall p, p < n ->
            qubit_bit n p (flip_qubit n (Z.to_nat q) x)
            = if p =? Z.to_nat q then 1 - qubit_bit n p x
              else qubit_bit n p x.
Proof.
  intros Hwf Hq n v'. split; [exact (pauli_x_run self q Hwf Hq)|].
  intros x Hx. assert (Hqn : Z.to_nat q < n) by (unfold n; lia).
  split; [apply flip_qubit_lt; assumption|].
  intros p Hp. rewrite qubit_bit_flip by assumption.
  destruct (Nat.eqb_spec p (Z.to_nat q)) as [->|_]; reflexivity.
Qed.

Lemma pauli_x_swaps_amplitudes_witness :
  pauli_x 0 ground1
  = mk_run (Ok tt)
      (mk_QuantumCircuit 1
         (map (fun x => nth (flip_qubit 1 (Z.to_nat 0) x) [Cone; Czero] Czero)
              (seq 0 (2 ^ 1))))
      [map (fun x => nth (flip_qubit 1 (Z.to_nat 0) x) [Cone; Czero] Czero)
           (seq 0 (2 ^ 1))]
  /\ forall x, x < 2 ^ 1 ->
       flip_qubit 1 (Z.to_nat 0) x < 2 ^ 1
       /\ forall p, p < 1 ->
            qubit_bit 1 p (flip_qubit 1 (Z.to_nat 0) x)
            = if p =? Z.to_nat 0 then 1 - qubit_bit 1 p x
              else qubit_bit 1 p x.
Proof.
  apply (pauli_x_swaps_amplitudes ground1 0).
  - reflexivity.
  - simpl. lia.
Defined.



(** X3. [cnot(c, t)] with distinct in-range qubits succeeds and assigns
    the state once; the new amplitude of basis state [x] is the old
    amplitude of [x] itself when qubit [c] of [x] is 0, and of [x] with
    qubit [t] flipped when qubit [c] of [x] is 1. *)
Theorem cnot_flips_target_when_control_set (self : QuantumCircuit) (c t : Z) :
  well_formed self ->
  (0 <= c < Z.of_nat (num_qubits self))%Z ->
  (0 <= t < Z.of_nat (num_qubits self))%Z -> c <> t ->
  let n := num_qubits self in
  let v' :=
    map (fun x => nth (if qubit_bit n (Z.to_nat c) x =? 1
                       then flip_qubit n (Z.to_nat t) x else x)
                      (_state self) Czero)
        (seq 0 (2 ^ n)) in
  cnot c t self = mk_run (Ok tt) (mk_QuantumCircuit n v') [v'].
Proof.
  intros Hwf Hc Ht Hne n v'. unfold n, v'.
  apply cnot_run; assumption.
Qed.

Lemma cnot_flips_target_when_control_set_witness :
  cnot 0 1 ground2
  = mk_run (Ok tt)
      (mk_QuantumCircuit 2
         (map (fun x => nth (if qubit_bit 2 (Z.to_nat 0) x =? 1
                             then flip_qubit 2 (Z.to_nat 1) x else x)
                            [Cone; Czero; Czero; Czero] Czero)
              (seq 0 (2 ^ 2))))
      [map (fun x => nth (if qubit_bit 2 (Z.to_nat 0) x =? 1
                          then flip_qubit 2 (Z.to_nat 1) x else x)
                         [Cone; Czero; Czero; Czero] Czero)
           (seq 0 (2 ^ 2))].
Proof.
  apply (cnot_flips_target_when_control_set ground2 0 1).
  - reflexivity.
  - simpl. lia.
  - simpl. lia.
  - lia.
Defined.

(** ** The gates that move amplitudes undo themselves *)

Lemma state_rebuild (self : QuantumCircuit) (f : nat -> C) :
  well_formed self ->
  (forall x, x < 2 ^ num_qubits self -> f x = nth x (_state self) Czero) ->
  mk_QuantumCircuit (num_qubits self) (map f (seq 0 (2 ^ num_qubits self)))
  = self.
Proof.
  intros Hwf H. destruct self as [n v]. cbn [num_qubits _state] in *.
  unfold well_formed in Hwf. cbn [num_qubits _state] in Hwf. f_equal.
  rewrite <- (nth_seq_map_gen v Czero). rewrite Hwf.
  apply map_ext_in. intros x Hx. apply in_seq in Hx. apply H. lia.
Qed.

Lemma well_formed_map (n : nat) (f : nat -> C) :
  well_formed (mk_QuantumCircuit n (map f (seq 0 (2 ^ n)))).
Proof. unfold well_formed. cbn [num_qubits _state]. now rewrite length_map, length_seq. Qed.

(** A method that rewrites the amplitudes by [g] and undoes itself. *)
Lemma twice_restores (m : M unit) (g : nat -> list C -> nat -> C)
    (self : QuantumCircuit) :
  well_formed self ->
  (forall s, well_formed s -> num_qubits s = num_qubits self ->
     m s = let v' := map (g (num_qubits s) (_state s)) (seq 0 (2 ^ num_qubits s)) in
           mk_run (Ok tt) (mk_QuantumCircuit (num_qubits s) v') [v']) ->
  (forall x, x < 2 ^ num_qubits self ->
     g (num_qubits self)
       (map (g (num_qubits self) (_state self)) (seq 0 (2 ^ num_qubits self))) x
     = nth x (_state self) Czero) ->
  (m ;;; m) self
  = mk_run (Ok tt) self
      [map (g (num_qubits self) (_state self)) (seq 0 (2 ^ num_qubits self));
       _state self].
Proof.
  intros Hwf Hm Hg. set (n := num_qubits self) in *.
  set (v1 := map (g n (_state self)) (seq 0 (2 ^ n))) in *.
  rewrite (bind_ok m (fun _ => m) self (mk_QuantumCircuit n v1) tt [v1]
             (Hm self Hwf eq_refl)).
  rewrite (Hm (mk_QuantumCircuit n v1) (well_formed_map n _) eq_refl).
  cbv zeta. cbn [value self_after writes num_qubits _state app].
  assert (E : map (g n v1) (seq 0 (2 ^ n)) = _state self).
  { exact (f_equal _state (state_rebuild self (g n v1) Hwf Hg)). }
  rewrite E. f_equal. destruct self; reflexivity.
Qed.

Lemma pauli_x_twice (self : QuantumCircuit) (q : Z) :
  well_formed self -> (0 <= q < Z.of_nat (num_qubits self))%Z ->
  (pauli_x q ;;; pauli_x q) self
  = mk_run (Ok tt) self
      [map (fun x => nth (flip_qubit (num_qubits self) (Z.to_nat q) x)
                         (_state self) Czero)
           (seq 0 (2 ^ num_qubits self));
       _state self].
Proof.
  intros Hwf Hq.
  apply (twice_restores (pauli_x q)
           (fun n v x => nth (flip_qubit n (Z.to_nat q) x) v Czero) self Hwf).
  - intros s Hs Hn. apply pauli_x_run; [exact Hs|rewrite Hn; exact Hq].
  - intros x Hx.
    rewrite nth_map_seq by (apply flip_qubit_lt; [lia|exact Hx]).
    rewrite flip_qubit_involutive. reflexivity.
Qed.

Lemma cnot_twice (self : QuantumCircuit) (c t : Z) :
  well_formed self ->
  (0 <= c < Z.of_nat (num_qubits self))%Z ->
  (0 <= t < Z.of_nat (num_qubits self))%Z -> c <> t ->
  (cnot c t ;;; cnot c t) self
  = mk_run (Ok tt) self
      [map (fun x => nth (if qubit_bit (num_qubits self) (Z.to_nat c) x =? 1
                          then flip_qubit (num_qubits self) (Z.to_nat t) x
                          else x)
                         (_state self) Czero)
           (seq 0 (2 ^ num_qubits self));
       _state self].
Proof.
  intros Hwf Hc Ht Hne.
  apply (twice_restores (cnot c t)
           (fun n v x => nth (if qubit_bit n (Z.to_nat c) x =? 1
                              then flip_qubit n (Z.to_nat t) x else x) v Czero)
           self Hwf).
  - intros s Hs Hn. apply cnot_run; try rewrite Hn; assumption.
  - intros x Hx. set (n := num_qubits self) in *.
    destruct (qubit_bit n (Z.to_nat c) x =? 1) eqn:E.
    + rewrite nth_map_seq by (apply flip_qubit_lt; [lia|exact Hx]).
      rewrite qubit_bit_flip by lia.
      replace (Z.to_nat c =? Z.to_nat t) with false
        by (symmetry; apply Nat.eqb_neq; lia).
      rewrite E, flip_qubit_involutive. reflexivity.
    + rewrite nth_map_seq by exact Hx. rewrite E. reflexivity.
Qed.

(** X4. The two gates that only move amplitudes are their own inverses:
    applying [pauli_x(q)] or [cnot(c, t)] twice in a row succeeds and
    assigns the state twice, first the vector with the amplitudes
    exchanged and then the vector the register started with. *)
Theorem permutation_gates_are_self_inverse (self : QuantumCircuit) :
  well_formed self ->
  let n := num_qubits self in
  (forall q, (0 <= q < Z.of_nat n)%Z ->
     (pauli_x q ;;; pauli_x q) self
     = mk_run (Ok tt) self
         [map (fun x => nth (flip_qubit n (Z.to_nat q) x) (_state self) Czero)
              (seq 0 (2 ^ n));
          _state self])
  /\ (forall c t, (0 <= c < Z.of_nat n)%Z -> (0 <= t < Z.of_nat n)%Z ->
        c <> t ->
        (cnot c t ;;; cnot c t) self
        = mk_run (Ok tt) self
            [map (fun x => nth (if qubit_bit n (Z.to_nat c) x =? 1
                                then flip_qubit n (Z.to_nat t) x else x)
                               (_state self) Czero)
                 (seq 0 (2 ^ n));
             _state self]).
Proof.
  intros Hwf n. split.
  - intros q Hq. exact (pauli_x_twice self q Hwf Hq).
  - intros c t Hc Ht Hne. exact (cnot_twice self c t Hwf Hc Ht Hne).
Qed.

Lemma permutation_gates_are_self_inverse_witness :
  (pauli_x 1 ;;; pauli_x 1) excited2
  = mk_run (Ok tt) excited2
      [[Czero; Czero; Czero; Cone]; [Czero; Czero; Cone; Czero]]
  /\ (cnot 0 1 ;;; cnot 0 1) excited2
     = mk_run (Ok tt) excited2
         [[Czero; Czero; Czero; Cone]; [Czero; Czero; Cone; Czero]].
Proof.
  destruct (permutation_gates_are_self_inverse excited2 eq_refl) as (HX & HC).
  split.
  - rewrite (HX 1%Z) by (simpl; lia). reflexivity.
  - rewrite (HC 0%Z 1%Z) by (simpl; lia || discriminate). reflexivity.
Defined.

(** ** Which exception, and in which order the arguments are checked *)

Lemma check_range_cases (n : nat) (qubits : list Z) :
  check_range n qubits
  = if forallb (fun q => (0 <=? q)%Z && (q <? Z.of_nat n)%Z) qubits
    then Ok tt else Raise IndexError.
Proof.
  induction qubits as [|q qs IH]; [reflexivity|].
  cbn [check_range forallb].
  destruct ((0 <=? q)%Z && (q <? Z.of_nat n)%Z); cbn [negb andb];
    [exact IH|reflexivity].
Qed.

Lemma forallb_in_range (n : nat) (qubits : list Z) :
  forallb (fun q => (0 <=? q)%Z && (q <? Z.of_nat n)%Z) qubits = true
  <-> Forall (fun q => (0 <= q < Z.of_nat n)%Z) qubits.
Proof.
  rewrite forallb_forall, Forall_forall. split; intros H q Hq.
  - specialize (H q Hq). apply andb_true_iff in H. lia.
  - apply andb_true_iff. specialize (H q Hq). lia.
Qed.

Lemma normalise_duplicate (self : QuantumCircuit) (qubits : list Z) :
  ~ NoDup qubits ->
  _normalise_qubits (Some qubits) self = mk_run (Raise ValueError) self [].
Proof.
  intros Hd. unfold _normalise_qubits, bind, get_self.
  cbn [value self_after writes].
  destruct (Nat.eqb_spec (length qubits) (length (nodup Z.eq_dec qubits))) as [E|E].
  - exfalso. apply Hd. apply (nodup_length_iff Z.eq_dec). exact E.
  - reflexivity.
Qed.

Lemma normalise_out_of_range (self : QuantumCircuit) (qubits : list Z) :
  NoDup qubits ->
  ~ Forall (fun q => (0 <= q < Z.of_nat (num_qubits self))%Z) qubits ->
  _normalise_qubits (Some qubits) self = mk_run (Raise IndexError) self [].
Proof.
  intros Hd Hr. unfold _normalise_qubits, bind, get_self.
  cbn [value self_after writes].
  apply (nodup_length_iff Z.eq_dec) in Hd. rewrite Hd, Nat.eqb_refl.
  cbn [negb]. rewrite check_range_cases.
  destruct (forallb _ qubits) eqn:E.
  - exfalso. apply Hr. apply forallb_in_range. exact E.
  - reflexivity.
Qed.

Lemma apply_unitary_not_square (self : QuantumCircuit) (u : ndarray C)
    (qubits : list Z) :
  ndim u <> 2 \/ nth 0 (shape u) 0 <> nth 1 (shape u) 0 ->
  _apply_unitary u qubits self = mk_run (Raise ValueError) self [].
Proof.
  intros H. unfold _apply_unitary.
  assert (E : negb (ndim u =? 2)
              || negb (nth 0 (shape u) 0 =? nth 1 (shape u) 0) = true).
  { apply orb_true_iff. destruct H as [H|H]; [left|right];
      apply negb_true_iff, Nat.eqb_neq; exact H. }
  rewrite E. reflexivity.
Qed.

Lemma apply_unitary_square_checks (self : QuantumCircuit) (u : ndarray C)
    (qubits : list Z) :
  ndim u = 2 -> nth 0 (shape u) 0 = nth 1 (shape u) 0 ->
  _apply_unitary u qubits self
  = (qubit_tuple <- _normalise_qubits (Some qubits) ;;
     if negb (nth 0 (shape u) 0 =? 2 ^ length qubit_tuple)
     then raise ValueError
     else
       self <- get_self ;;
       set_state
         (ravel
            (transpose Czero
               (reshape
                  (matmul u
                     (reshape_rows
                        (transpose Czero
                           (mk_ndarray (repeat 2 (num_qubits self)) (_state self))
                           (permutation_of (num_qubits self) qubit_tuple))
                        (2 ^ length qubit_tuple)))
                  (repeat 2 (length qubit_tuple)
                   ++ repeat 2 (num_qubits self - length qubit_tuple)))
               (argsort (permutation_of (num_qubits self) qubit_tuple))))) self.
Proof.
  intros H2 Hsq. unfold _apply_unitary.
  rewrite H2, Hsq, !Nat.eqb_refl. cbn [negb orb]. reflexivity.
Qed.

Lemma apply_unitary_duplicate (self : QuantumCircuit) (u : ndarray C)
    (qubits : list Z) :
  ndim u = 2 -> nth 0 (shape u) 0 = nth 1 (shape u) 0 ->
  ~ NoDup qubits ->
  _apply_unitary u qubits self = mk_run (Raise ValueError) self [].
Proof.
  intros H2 Hsq Hd. rewrite apply_unitary_square_checks by assumption.
  apply bind_raise. apply normalise_duplicate. exact Hd.
Qed.

Lemma apply_unitary_out_of_range (self : QuantumCircuit) (u : ndarray C)
    (qubits : list Z) :
  ndim u = 2 -> nth 0 (shape u) 0 = nth 1 (shape u) 0 ->
  NoDup qubits ->
  ~ Forall (fun q => (0 <= q < Z.of_nat (num_qubits self))%Z) qubits ->
  _apply_unitary u qubits self = mk_run (Raise IndexError) self [].
Proof.
  intros H2 Hsq Hd Hr. rewrite apply_unitary_square_checks by assumption.
  apply bind_raise. apply normalise_out_of_range; assumption.
Qed.

Lemma apply_unitary_wrong_dimension (self : QuantumCircuit) (u : ndarray C)
    (qubits : list Z) :
  ndim u = 2 -> nth 0 (shape u) 0 = nth 1 (shape u) 0 ->
  valid_qubits (num_qubits self) qubits ->
  nth 0 (shape u) 0 <> 2 ^ length qubits ->
  _apply_unitary u qubits self = mk_run (Raise ValueError) self [].
Proof.
  intros H2 Hsq Hv Hdim. rewrite apply_unitary_square_checks by assumption.
  rewrite (bind_pure _ _ self qubits (normalise_valid self qubits Hv)).
  apply Nat.eqb_neq in Hdim. rewrite Hdim. reflexivity.
Qed.

Lemma measure_nonpositive_shots (self : QuantumCircuit)
    (qubits : option (list Z)) (shots : Z) (rng : Generator) :
  (shots <= 0)%Z ->
  measure qubits shots rng self = mk_run (Raise ValueError) self [].
Proof.
  intros H. unfold measure. apply Z.leb_le in H. rewrite H. reflexivity.
Qed.

Lemma measure_bad_qubits (self : QuantumCircuit) (qubits : list Z) (shots : Z)
    (rng : Generator) (e : exn) :
  (0 < shots)%Z ->
  _normalise_qubits (Some qubits) self = mk_run (Raise e) self [] ->
  measure (Some qubits) shots rng self = mk_run (Raise e) self [].
Proof.
  intros Hs Hn. unfold measure.
  replace (shots <=? 0)%Z with false by (symmetry; apply Z.leb_gt; exact Hs).
  apply bind_raise. exact Hn.
Qed.

Lemma measure_generator_raises (self : QuantumCircuit)
    (qubits : option (list Z)) (shots : Z) (rng : Generator) (e : exn) :
  let n := num_qubits self in
  let qt := qubit_tuple_of n qubits in
  let w := outcome_width n qt in
  well_formed self -> 0 < n -> valid_qubits n qt -> (0 < shots)%Z ->
  choice rng (2 ^ w) (Z.to_nat shots)
    (sampling_weights
       (map (outcome_probability n qt (_state self)) (seq 0 (2 ^ w))))
  = Raise e ->
  measure qubits shots rng self = mk_run (Raise e) self [].
Proof.
  intros n qt w Hwf Hn Hv Hs Hc.
  rewrite (measure_unfold self qubits shots rng Hwf Hn Hv Hs).
  fold n qt w. rewrite Hc. reflexivity.
Qed.

(** X8. [_normalise_qubits] checks distinctness before range and changes
    nothing else: a sequence with a repeated index raises [ValueError]
    (also when an index is out of range); a sequence of distinct indices
    one of which is out of range raises [IndexError]; a sequence of
    distinct in-range indices is returned as given, in the order given;
    and [None] stands for [0, ..., n-1].  The register is never touched,
    and [probabilities] raises what [_normalise_qubits] raises. *)
Theorem normalise_qubits_classification (self : QuantumCircuit) :
  let n := num_qubits self in
  let in_range := Forall (fun q => (0 <= q < Z.of_nat n)%Z) in
  _normalise_qubits None self
  = mk_run (Ok (map Z.of_nat (seq 0 n))) self []
  /\ (forall qubits, ~ NoDup qubits ->
        _normalise_qubits (Some qubits) self
        = mk_run (Raise ValueError) self [])
  /\ (forall qubits, NoDup qubits -> ~ in_range qubits ->
        _normalise_qubits (Some qubits) self
        = mk_run (Raise IndexError) self [])
  /\ (forall qubits, NoDup qubits -> in_range qubits ->
        _normalise_qubits (Some qubits) self = mk_run (Ok qubits) self [])
  /\ (forall qubits e,
        _normalise_qubits (Some qubits) self = mk_run (Raise e) self [] ->
        probabilities (Some qubits) self = mk_run (Raise e) self []).
Proof.
  intros n in_range. split; [apply normalise_none|]. split; [|split; [|split]].
  - intros qubits Hd. apply normalise_duplicate. exact Hd.
  - intros qubits Hd Hr. apply normalise_out_of_range; assumption.
  - intros qubits Hd Hr. apply normalise_valid. split; assumption.
  - intros qubits e Hn. unfold probabilities. apply bind_raise. exact Hn.
Qed.

Lemma nodup_single (q : Z) : NoDup [q].
Proof. constructor; [intros []|constructor]. Qed.

Lemma not_nodup_pair (q : Z) : ~ NoDup [q; q].
Proof. intros H. inversion H as [|x l Hn _]. apply Hn. left. reflexivity. Qed.

Lemma not_in_range_single (n : nat) (q : Z) :
  ~ (0 <= q < Z.of_nat n)%Z ->
  ~ Forall (fun q => (0 <= q < Z.of_nat n)%Z) [q].
Proof. intros H HF. inversion HF. contradiction. Qed.

Lemma normalise_qubits_classification_witness :
  _normalise_qubits None ground1 = mk_run (Ok (map Z.of_nat (seq 0 1))) ground1 []
  /\ _normalise_qubits (Some [5%Z; 5%Z]) ground1
     = mk_run (Raise ValueError) ground1 []
  /\ _normalise_qubits (Some [5%Z]) ground1
     = mk_run (Raise IndexError) ground1 []
  /\ _normalise_qubits (Some [0%Z]) ground1 = mk_run (Ok [0%Z]) ground1 []
  /\ probabilities (Some [5%Z; 5%Z]) ground1
     = mk_run (Raise ValueError) ground1 [].
Proof.
  destruct (normalise_qubits_classification ground1)
    as (HN & HD & HR & HV & HP).
  split; [exact HN|]. split; [|split; [|split]].
  - apply HD. apply not_nodup_pair.
  - apply HR; [apply nodup_single|]. apply not_in_range_single. simpl. lia.
  - apply HV; [apply nodup_single|]. constructor; [simpl; lia|constructor].
  - apply HP. apply HD. apply not_nodup_pair.
Defined.

(** X9. The gates check their arguments in a fixed order and leave the
    register alone when they raise.  [cnot(c, c)] raises [ValueError]
    whatever [c] is, in range or not.  [apply_custom] raises [ValueError]
    for a matrix that is not two-dimensional and square, whatever the
    qubits are; for a square matrix it raises [ValueError] on repeated
    qubits, [IndexError] on distinct qubits one of which is out of range
    (also when the matrix has the wrong size), and [ValueError] when the
    qubits are valid and the matrix is not [2^k] by [2^k].  [hadamard] and
    [pauli_x] raise [IndexError] on an out-of-range qubit. *)
Theorem gate_errors_in_order (self : QuantumCircuit) :
  let n := num_qubits self in
  let in_range := Forall (fun q => (0 <= q < Z.of_nat n)%Z) in
  let square u := ndim u = 2 /\ nth 0 (shape u) 0 = nth 1 (shape u) 0 in
  (forall c, cnot c c self = mk_run (Raise ValueError) self [])
  /\ (forall u qubits, ~ square u ->
        apply_custom u qubits self = mk_run (Raise ValueError) self [])
  /\ (forall u qubits, square u -> ~ NoDup qubits ->
        apply_custom u qubits self = mk_run (Raise ValueError) self [])
  /\ (forall u qubits, square u -> NoDup qubits -> ~ in_range qubits ->
        apply_custom u qubits self = mk_run (Raise IndexError) self [])
  /\ (forall u qubits, square u -> NoDup qubits -> in_range qubits ->
        nth 0 (shape u) 0 <> 2 ^ length qubits ->
        apply_custom u qubits self = mk_run (Raise ValueError) self [])
  /\ (forall q, ~ (0 <= q < Z.of_nat n)%Z ->
        hadamard q self = mk_run (Raise IndexError) self []
        /\ pauli_x q self = mk_run (Raise IndexError) self []).
Proof.
  intros n in_range square. repeat split.
  - intros c. unfold cnot. rewrite Z.eqb_refl. reflexivity.
  - intros u qubits Hsq. apply apply_unitary_not_square.
    destruct (Nat.eq_dec (ndim u) 2) as [E2|E2]; [|left; exact E2].
    right. intros E. apply Hsq. split; assumption.
  - intros u qubits [H2 Hsq] Hd. apply apply_unitary_duplicate; assumption.
  - intros u qubits [H2 Hsq] Hd Hr.
    apply apply_unitary_out_of_range; assumption.
  - intros u qubits [H2 Hsq] Hd Hr Hdim.
    apply apply_unitary_wrong_dimension; try assumption. split; assumption.
  - unfold hadamard.
    apply apply_unitary_out_of_range;
      [reflexivity|reflexivity|apply nodup_single
      |apply not_in_range_single; assumption].
  - unfold pauli_x.
    apply apply_unitary_out_of_range;
      [reflexivity|reflexivity|apply nodup_single
      |apply not_in_range_single; assumption].
Qed.

Lemma gate_errors_in_order_witness :
  cnot 7 7 ground1 = mk_run (Raise ValueError) ground1 []
  /\ apply_custom (mk_ndarray [2; 3] []) [9%Z; 9%Z] ground1
     = mk_run (Raise ValueError) ground1 []
  /\ apply_custom _X [0%Z; 0%Z] ground1 = mk_run (Raise ValueError) ground1 []
  /\ apply_custom _CNOT [5%Z] ground1 = mk_run (Raise IndexError) ground1 []
  /\ apply_custom _CNOT [0%Z] ground1 = mk_run (Raise ValueError) ground1 []
  /\ hadamard 1 ground1 = mk_run (Raise IndexError) ground1 []
  /\ pauli_x (-1) ground1 = mk_run (Raise IndexError) ground1 [].
Proof.
  destruct (gate_errors_in_order ground1) as (H1 & H2 & H3 & H4 & H5 & H6).
  split; [apply H1|]. split; [|split; [|split; [|split; [|split]]]].
  - apply H2. intros [_ E]. discriminate E.
  - apply H3; [split; reflexivity|apply not_nodup_pair].
  - apply H4; [split; reflexivity|apply nodup_single|].
    apply not_in_range_single. simpl. lia.
  - apply H5; [split; reflexivity|apply nodup_single| |simpl; lia].
    constructor; [simpl; lia|constructor].
  - apply H6. simpl. lia.
  - apply H6. simpl. lia.
Defined.

(** X10. [measure] checks the shot count first, then the qubits, and
    only then consults the generator: with [shots <= 0] it raises
    [ValueError] whatever the qubits and the generator are; with positive
    [shots] it raises [ValueError] on repeated qubits and [IndexError] on
    distinct qubits one of which is out of range, whatever the generator
    is; and when [rng.choice] raises on the one call [measure] makes --
    [shots] draws among the outcomes, weighted by their probabilities --
    that exception comes out of [measure] unchanged.  In every case the
    register is left as it was. *)
Theorem measure_errors_in_order (self : QuantumCircuit) :
  well_formed self -> 0 < num_qubits self ->
  let n := num_qubits self in
  let in_range := Forall (fun q => (0 <= q < Z.of_nat n)%Z) in
  (forall qubits shots rng, (shots <= 0)%Z ->
     measure qubits shots rng self = mk_run (Raise ValueError) self [])
  /\ (forall qubits shots rng, (0 < shots)%Z -> ~ NoDup qubits ->
        measure (Some qubits) shots rng self
        = mk_run (Raise ValueError) self [])
  /\ (forall qubits shots rng, (0 < shots)%Z -> NoDup qubits ->
        ~ in_range qubits ->
        measure (Some qubits) shots rng self
        = mk_run (Raise IndexError) self [])
  /\ (forall qubits shots rng e, (0 < shots)%Z ->
        let qt := qubit_tuple_of n qubits in
        let w := outcome_width n qt in
        valid_qubits n qt ->
        choice rng (2 ^ w) (Z.to_nat shots)
          (sampling_weights
             (map (outcome_probability n qt (_state self)) (seq 0 (2 ^ w))))
        = Raise e ->
        measure qubits shots rng self = mk_run (Raise e) self []).
Proof.
  intros Hwf Hn n in_range. split; [|split; [|split]].
  - intros qubits shots rng Hs. apply measure_nonpositive_shots. exact Hs.
  - intros qubits shots rng Hs Hd. apply measure_bad_qubits; [exact Hs|].
    apply normalise_duplicate. exact Hd.
  - intros qubits shots rng Hs Hd Hr. apply measure_bad_qubits; [exact Hs|].
    apply normalise_out_of_range; assumption.
  - intros qubits shots rng e Hs qt w Hv Hc.
    apply measure_generator_raises; assumption.
Qed.

Lemma measure_errors_in_order_witness :
  measure None 0 first_positive_rng null1
  = mk_run (Raise ValueError) null1 []
  /\ measure (Some [3%Z; 3%Z]) 1 first_positive_rng null1
     = mk_run (Raise ValueError) null1 []
  /\ measure (Some [3%Z]) 1 first_positive_rng null1
     = mk_run (Raise IndexError) null1 []
  /\ measure (Some [0%Z]) 2 first_positive_rng null1
     = mk_run (Raise ValueError) null1 [].
Proof.
  destruct (measure_errors_in_order null1 eq_refl)
    as (H1 & H2 & H3 & H4); [simpl; lia|].
  split; [apply H1; lia|]. split; [|split].
  - apply H2; [lia|apply not_nodup_pair].
  - apply H3; [lia|apply nodup_single|].
    apply not_in_range_single. simpl. lia.
  - apply H4; [lia|exact ground1_valid|].
    cbn [num_qubits null1 qubit_tuple_of outcome_width length Nat.pow
         Nat.mul Nat.add seq map choice first_positive_rng].
    rewrite first_positive_zero_weights; [reflexivity|].
    constructor; [exact (null1_outcome_probability 0 ltac:(lia))|].
    constructor; [exact (null1_outcome_probability 1 ltac:(lia))|constructor].
Defined.

(** ** What [probabilities] returns *)

Lemma init_ok_inv (nq : Z) (self : QuantumCircuit) :
  __init__ nq = Ok self ->
  (0 < nq)%Z
  /\ self = mk_QuantumCircuit (Z.to_nat nq)
              (map (fun i => if i =? 0 then Cone else Czero)
                   (seq 0 (2 ^ Z.to_nat nq))).
Proof.
  unfold __init__. destruct (nq <=? 0)%Z eqn:E; [discriminate|].
  intros H. injection H as <-. split; [apply Z.leb_gt; exact E|reflexivity].
Qed.

Lemma outcome_table_ext {V} (w : nat) (f g : nat -> V) :
  (forall r, r < 2 ^ w -> f r = g r) -> outcome_table w f = outcome_table w g.
Proof.
  intros H. unfold outcome_table. apply map_ext_in. intros r Hr.
  apply in_seq in Hr. rewrite H by lia. reflexivity.
Qed.

Lemma probabilities_values (self : QuantumCircuit) (qubits : option (list Z)) :
  well_formed self -> 0 < num_qubits self ->
  valid_qubits (num_qubits self) (qubit_tuple_of (num_qubits self) qubits) ->
  exists d,
    probabilities qubits self = mk_run (Ok d) self []
    /\ length d
       = 2 ^ outcome_width (num_qubits self)
               (qubit_tuple_of (num_qubits self) qubits)
    /\ Forall (fun p => (0 <= p)%R) (values d)
    /\ Rsum (values d) = norm_sq (_state self).
Proof.
  intros Hwf Hn Hv. eexists. split; [|split; [|split]].
  - rewrite probabilities_qubit_tuple.
    apply (probabilities_tuple self _ Hwf Hn Hv).
  - unfold outcome_table. now rewrite length_map, length_seq.
  - rewrite outcome_table_values. apply Forall_forall. intros p Hp.
    apply in_map_iff in Hp. destruct Hp as [r [<- _]].
    apply outcome_probability_nonneg.
  - rewrite outcome_table_values.
    apply outcome_probability_total; assumption.
Qed.

Lemma qubit_bit_pow2 (n q p : nat) :
  q < n -> p < n -> qubit_bit n p (2 ^ (n - 1 - q)) = if p =? q then 1 else 0.
Proof.
  intros Hq Hp. rewrite qubit_bit_testbit, Nat.pow2_bits_eqb.
  destruct (Nat.eqb_spec p q) as [->|Hne].
  - rewrite Nat.eqb_refl. reflexivity.
  - replace (n - 1 - q =? n - 1 - p) with false
      by (symmetry; apply Nat.eqb_neq; lia).
    reflexivity.
Qed.

Lemma flip_qubit_zero (n q x : nat) :
  (flip_qubit n q x =? 0) = (x =? 2 ^ (n - 1 - q)).
Proof.
  unfold flip_qubit.
  destruct (Nat.eqb_spec x (2 ^ (n - 1 - q))) as [->|Hne].
  - rewrite Nat.lxor_nilpotent. reflexivity.
  - apply Nat.eqb_neq. intros E. apply Hne. apply Nat.lxor_eq. exact E.
Qed.

Lemma Cnorm2_indicator (b : bool) :
  Cnorm2 (if b then Cone else Czero) = if b then 1%R else 0%R.
Proof. destruct b; [apply Cnorm2_Cone|apply Cnorm2_Czero]. Qed.

Lemma fresh_probabilities (nq : Z) (self : QuantumCircuit) :
  __init__ nq = Ok self ->
  probabilities None self
  = mk_run (Ok (outcome_table (num_qubits self)
                  (fun x => if x =? 0 then 1%R else 0%R)))
           self [].
Proof.
  intros Hi. destruct (init_unit_norm nq self Hi) as [Hwf [Hn _]].
  rewrite (probabilities_none_run self Hwf Hn). f_equal. f_equal.
  apply outcome_table_ext. intros x Hx.
  destruct (init_ok_inv nq self Hi) as [_ ->]. cbn [_state num_qubits] in *.
  rewrite nth_map_seq by exact Hx. apply Cnorm2_indicator.
Qed.

Lemma fresh_pauli_x (nq q : Z) (self : QuantumCircuit) :
  __init__ nq = Ok self -> (0 <= q < nq)%Z ->
  exists s1,
    pauli_x q self = mk_run (Ok tt) s1 [_state s1]
    /\ probabilities None s1
       = mk_run (Ok (outcome_table (num_qubits self)
                       (fun x => if x =? 2 ^ (num_qubits self - 1 - Z.to_nat q)
                                 then 1%R else 0%R)))
                s1 [].
Proof.
  intros Hi Hq. destruct (init_unit_norm nq self Hi) as [Hwf [Hn _]].
  destruct (init_ok_inv nq self Hi) as [Hnq E].
  assert (Hq' : (0 <= q < Z.of_nat (num_qubits self))%Z).
  { rewrite E. cbn [num_qubits]. lia. }
  set (n := num_qubits self) in *.
  exists (mk_QuantumCircuit n
            (map (fun x => nth (flip_qubit n (Z.to_nat q) x) (_state self) Czero)
                 (seq 0 (2 ^ n)))).
  split.
  - rewrite (pauli_x_run self q Hwf Hq'). reflexivity.
  - rewrite probabilities_none_run;
      [|apply well_formed_map|cbn [num_qubits]; exact Hn].
    cbn [num_qubits _state]. f_equal. f_equal.
    apply outcome_table_ext. intros x Hx.
    rewrite nth_map_seq by exact Hx.
    assert (Hs : _state self
                 = map (fun i => if i =? 0 then Cone else Czero) (seq 0 (2 ^ n))).
    { unfold n. rewrite E. reflexivity. }
    rewrite Hs.
    rewrite nth_map_seq by (apply flip_qubit_lt; [lia|exact Hx]).
    rewrite flip_qubit_zero. apply Cnorm2_indicator.
Qed.

(** X11. For a valid qubit argument [probabilities] returns, without
    touching the register, a dictionary with one entry per bit string of
    the queried width -- [2 ^ k] entries for [k] qubits, [2 ^ num_qubits]
    for [None] and for the empty tuple -- and none of its values is
    negative. *)
Theorem probabilities_entries_nonnegative
    (self : QuantumCircuit) (qubits : option (list Z)) :
  well_formed self -> 0 < num_qubits self ->
  valid_qubits (num_qubits self) (qubit_tuple_of (num_qubits self) qubits) ->
  exists d,
    probabilities qubits self = mk_run (Ok d) self []
    /\ length d
       = match qubits with
         | None | Some [] => 2 ^ num_qubits self
         | Some (q :: qs) => 2 ^ length (q :: qs)
         end
    /\ Forall (fun p => (0 <= p)%R) (values d).
Proof.
  intros Hwf Hn Hv.
  destruct (probabilities_values self qubits Hwf Hn Hv)
    as (d & Hrun & Hlen & Hpos & _).
  exists d. split; [exact Hrun|]. split; [|exact Hpos].
  rewrite Hlen. destruct qubits as [[|q qs]|]; cbn [qubit_tuple_of outcome_width].
  - reflexivity.
  - reflexivity.
  - pose proof Hn as Hn'. destruct (num_qubits self) as [|k]; [lia|].
    cbn [seq map outcome_width length]. rewrite length_map, length_seq.
    reflexivity.
Qed.

Lemma probabilities_entries_nonnegative_witness :
  exists d,
    probabilities (Some [0%Z]) plus1 = mk_run (Ok d) plus1 []
    /\ length d = 2 ^ length [0%Z]
    /\ Forall (fun p => (0 <= p)%R) (values d).
Proof.
  apply (probabilities_entries_nonnegative plus1 (Some [0%Z])).
  - reflexivity.
  - simpl. lia.
  - exact ground1_valid.
Defined.

(** ** Fresh registers *)

Lemma Cnorm2_half (z : C) :
  Cnorm2 z = 1%R -> Cnorm2 (Cdiv_real z (sqrt 2)) = (1 / 2)%R.
Proof.
  intros H. rewrite Cnorm2_div_real by apply sqrt2_neq0.
  rewrite H, sqrt2_sq. lra.
Qed.

Lemma Cnorm2_div_zero (z : C) (r : R) :
  z = Czero -> Cnorm2 (Cdiv_real z r) = 0%R.
Proof. intros ->. apply Cdiv_real_zero. Qed.

Lemma fresh_hadamard (nq q : Z) (self : QuantumCircuit) :
  __init__ nq = Ok self -> (0 <= q < nq)%Z ->
  exists s1,
    hadamard q self = mk_run (Ok tt) s1 [_state s1]
    /\ probabilities None s1
       = mk_run (Ok (outcome_table (num_qubits self)
                       (fun x =>
                          if (x =? 0) || (x =? 2 ^ (num_qubits self - 1 - Z.to_nat q))
                          then (1 / 2)%R else 0%R)))
                s1 [].
Proof.
  intros Hi Hq. destruct (init_unit_norm nq self Hi) as [Hwf [Hn _]].
  destruct (init_ok_inv nq self Hi) as [Hnq E].
  assert (Hq' : (0 <= q < Z.of_nat (num_qubits self))%Z).
  { rewrite E. cbn [num_qubits]. lia. }
  set (n := num_qubits self) in *.
  exists (mk_QuantumCircuit n
            (map (fun x =>
                    Cdiv_real
                      (if qubit_bit n (Z.to_nat q) x =? 0
                       then Cadd (nth x (_state self) Czero)
                                 (nth (flip_qubit n (Z.to_nat q) x) (_state self) Czero)
                       else Csub (nth (flip_qubit n (Z.to_nat q) x) (_state self) Czero)
                                 (nth x (_state self) Czero))
                      (sqrt 2))
                 (seq 0 (2 ^ n)))).
  split; [rewrite (hadamard_run self q Hwf Hq'); reflexivity|].
  rewrite probabilities_none_run;
    [|apply well_formed_map|cbn [num_qubits]; exact Hn].
  cbn [num_qubits _state]. f_equal. f_equal.
  apply outcome_table_ext. intros x Hx.
  rewrite nth_map_seq by exact Hx.
  assert (Hs : _state self
               = map (fun i => if i =? 0 then Cone else Czero) (seq 0 (2 ^ n))).
  { unfold n. rewrite E. reflexivity. }
  rewrite Hs.
  assert (Hqn : Z.to_nat q < n) by lia.
  rewrite !nth_map_seq by (try apply flip_qubit_lt; assumption).
  rewrite flip_qubit_zero.
  set (m := 2 ^ (n - 1 - Z.to_nat q)).
  assert (Hm : 0 < m) by apply pow2_pos.
  destruct (Nat.eqb_spec x 0) as [->|Hx0].
  - replace (0 =? m) with false by (symmetry; apply Nat.eqb_neq; lia).
    replace (qubit_bit n (Z.to_nat q) 0) with 0
      by (unfold qubit_bit; rewrite Nat.Div0.div_0_l; reflexivity).
    cbn [Nat.eqb orb]. apply Cnorm2_half.
    unfold Cnorm2, Cadd, Cone, Czero, RtoC, Re, Im. cbn [fst snd]. lra.
  - destruct (Nat.eqb_spec x m) as [->|Hxm]; cbn [orb].
    + unfold m at 1. rewrite qubit_bit_pow2, Nat.eqb_refl by assumption.
      cbn [Nat.eqb]. apply Cnorm2_half.
      unfold Csub; unfold Cnorm2, Cadd, Copp, Cone, Czero, RtoC, Re, Im.
      cbn [fst snd]. lra.
    + apply Cnorm2_div_zero.
      destruct (qubit_bit n (Z.to_nat q) x =? 0);
        unfold Csub; unfold Cadd, Copp, Czero, RtoC, Re, Im; cbn [fst snd];
        f_equal; lra.
Qed.

Lemma bits_zero (n : nat) : bits n 0 = repeat 0 n.
Proof.
  unfold bits.
  assert (G : forall s m, map (fun p => qubit_bit n p 0) (seq s m) = repeat 0 m).
  { intros s m. revert s. induction m as [|m IH]; intros s; [reflexivity|].
    cbn [seq map repeat]. rewrite IH. f_equal.
    unfold qubit_bit. rewrite Nat.Div0.div_0_l. reflexivity. }
  apply G.
Qed.

Lemma bitstring_of_zeros (n : nat) : bitstring_of (repeat 0 n) = zeros n.
Proof. induction n as [|n IH]; [reflexivity|]. cbn. rewrite IH. reflexivity. Qed.

(** X12. A register constructed with [num_qubits > 0] has that many
    qubits and starts in the all-zeros basis state: [probabilities()]
    gives 1 to the key of index 0, which is the string of [num_qubits]
    zeros, and 0 to every other key. *)
Theorem fresh_register_is_all_zeros (nq : Z) (self : QuantumCircuit) :
  __init__ nq = Ok self ->
  let n := num_qubits self in
  (0 < nq)%Z /\ n = Z.to_nat nq
  /\ probabilities None self
     = mk_run (Ok (map (fun x => (bitstring_of (bits n x),
                                  if x =? 0 then 1%R else 0%R))
                       (seq 0 (2 ^ n))))
              self []
  /\ bitstring_of (bits n 0) = zeros n.
Proof.
  intros Hi n. destruct (init_ok_inv nq self Hi) as [Hnq E].
  split; [exact Hnq|]. split; [unfold n; rewrite E; reflexivity|]. split.
  - exact (fresh_probabilities nq self Hi).
  - rewrite bits_zero. apply bitstring_of_zeros.
Qed.

Lemma fresh_register_is_all_zeros_witness :
  (0 < 1)%Z /\ num_qubits ground1 = Z.to_nat 1
  /\ probabilities None ground1
     = mk_run (Ok (map (fun x => (bitstring_of (bits (num_qubits ground1) x),
                                  if x =? 0 then 1%R else 0%R))
                       (seq 0 (2 ^ num_qubits ground1))))
              ground1 []
  /\ bitstring_of (bits (num_qubits ground1) 0) = zeros (num_qubits ground1).
Proof. exact (fresh_register_is_all_zeros 1 ground1 ground1_init). Defined.

Lemma Cnorm2_H00 : Cnorm2 (entry _H 0 0) = (1 / 2)%R.
Proof. exact Cnorm2_plus_amplitude. Qed.

(** X13. One gate on a fresh register of any size, as the tests check it
    on one qubit: after [pauli_x(q)] the distribution is 1 on the basis
    state whose only set qubit is [q] (index [2^(n-1-q)]) and 0 elsewhere;
    after [hadamard(q)] the all-zeros state and that basis state get the
    same value, the squared magnitude of the matrix entry [_H[0, 0]] (one
    half up to the rounding of [1 / np.sqrt(2)]), and every other state
    gets 0. *)
Theorem single_gate_on_fresh_register (nq q : Z) (self : QuantumCircuit) :
  __init__ nq = Ok self -> (0 <= q < nq)%Z ->
  let n := num_qubits self in
  let m := 2 ^ (n - 1 - Z.to_nat q) in
  (exists s1,
      pauli_x q self = mk_run (Ok tt) s1 [_state s1]
      /\ probabilities None s1
         = mk_run (Ok (map (fun x => (bitstring_of (bits n x),
                                      if x =? m then 1%R else 0%R))
                           (seq 0 (2 ^ n))))
                  s1 [])
  /\ (exists s1,
        hadamard q self = mk_run (Ok tt) s1 [_state s1]
        /\ probabilities None s1
           = mk_run (Ok (map (fun x => (bitstring_of (bits n x),
                                        if (x =? 0) || (x =? m)
                                        then Cnorm2 (entry _H 0 0) else 0%R))
                             (seq 0 (2 ^ n))))
                    s1 [])
  /\ (forall p, p < n -> qubit_bit n p m = if p =? Z.to_nat q then 1 else 0).
Proof.
  intros Hi Hq n m. split; [|split].
  - exact (fresh_pauli_x nq q self Hi Hq).
  - rewrite Cnorm2_H00. exact (fresh_hadamard nq q self Hi Hq).
  - intros p Hp. destruct (init_ok_inv nq self Hi) as [Hnq E].
    apply qubit_bit_pow2; [|exact Hp].
    unfold n. rewrite E. cbn [num_qubits]. lia.
Qed.

Lemma single_gate_on_fresh_register_witness :
  (exists s1,
      pauli_x 0 ground1 = mk_run (Ok tt) s1 [_state s1]
      /\ probabilities None s1
         = mk_run (Ok (map (fun x => (bitstring_of (bits (num_qubits ground1) x),
                                      if x =? 2 ^ (num_qubits ground1 - 1 - Z.to_nat 0)
                                      then 1%R else 0%R))
                           (seq 0 (2 ^ num_qubits ground1))))
                  s1 [])
  /\ (exists s1,
        hadamard 0 ground1 = mk_run (Ok tt) s1 [_state s1]
        /\ probabilities None s1
           = mk_run (Ok (map (fun x => (bitstring_of (bits (num_qubits ground1) x),
                                        if (x =? 0)
                                           || (x =? 2 ^ (num_qubits ground1 - 1 - Z.to_nat 0))
                                        then Cnorm2 (entry _H 0 0) else 0%R))
                             (seq 0 (2 ^ num_qubits ground1))))
                    s1 [])
  /\ (forall p, p < num_qubits ground1 ->
        qubit_bit (num_qubits ground1) p (2 ^ (num_qubits ground1 - 1 - Z.to_nat 0))
        = if p =? Z.to_nat 0 then 1 else 0).
Proof.
  apply (single_gate_on_fresh_register 1 0 ground1 ground1_init). lia.
Defined.

(** ** The most frequent outcome of a measurement *)

Lemma dict_get_some_pair {V} (d : dict V) (k : string) (v : V) :
  dict_get d k = Some v -> In (k, v) d.
Proof.
  induction d as [|[k' v'] d IH]; [discriminate|].
  cbn [dict_get]. destruct (String.eqb_spec k' k) as [->|Hne].
  - intros H. injection H as ->. left. reflexivity.
  - intros H. right. apply IH. exact H.
Qed.

(** [measure] on a unit-norm register with a generator that honours the
    contract of [choice]. *)
Lemma measure_sound_run (self : QuantumCircuit) (qubits : option (list Z))
    (shots : Z) (rng : Generator) :
  let n := num_qubits self in
  let qt := qubit_tuple_of n qubits in
  let w := outcome_width n qt in
  unit_norm self -> valid_qubits n qt -> (0 < shots)%Z -> sound_generator rng ->
  exists outcomes counts1 last,
    choice rng (2 ^ w) (Z.to_nat shots)
      (map (outcome_probability n qt (_state self)) (seq 0 (2 ^ w)))
    = Ok outcomes
    /\ length outcomes = Z.to_nat shots
    /\ Forall (fun i => i < 2 ^ w) outcomes
    /\ nth_error outcomes (length outcomes - 1) = Some last
    /\ last < 2 ^ w
    /\ measure qubits shots rng self
       = mk_run (Ok (mk_MeasurementResult counts1))
           (mk_QuantumCircuit n (post_measurement n qt (_state self) last))
           [post_measurement n qt (_state self) last]
    /\ keys counts1 = map (fun r => bitstring_of (bits w r)) (seq 0 (2 ^ w))
    /\ total_shots (mk_MeasurementResult counts1) = shots
    /\ forall r, r < 2 ^ w ->
         dict_get counts1 (bitstring_of (bits w r))
         = Some (Z.of_nat (count_occ Nat.eq_dec outcomes r)).
Proof.
  intros n qt w HU HV Hshots Hrng. pose proof HU as (WF & Hn & Hnorm).
  destruct (Hrng (2 ^ w) (Z.to_nat shots)
              (map (outcome_probability n qt (_state self)) (seq 0 (2 ^ w))))
    as (outcomes & Hc & Hlen & Hrange).
  { apply pow2_pos. }
  { now rewrite length_map, length_seq. }
  { split.
    - apply Forall_forall. intros y Hy. apply in_map_iff in Hy.
      destruct Hy as [r [<- _]]. apply outcome_probability_nonneg.
    - unfold w, qt. rewrite outcome_probability_total; assumption. }
  destruct (measure_run self qubits shots rng outcomes WF Hn HV Hshots Hnorm
              Hc Hlen Hrange)
    as (counts1 & last & Hl & Hlast & Hm & Hk & Ht & Hg).
  exists outcomes, counts1, last. repeat split; assumption.
Qed.

Lemma count_occ_zero_out_of_range (outcomes : list nat) (k r : nat) :
  Forall (fun i => i < k) outcomes -> k <= r ->
  count_occ Nat.eq_dec outcomes r = 0.
Proof.
  intros HF Hr. apply count_occ_not_In. intros Hin.
  rewrite Forall_forall in HF. specialize (HF r Hin). lia.
Qed.

Lemma most_likely_of_counts (w : nat) (counts1 : dict Z) (outcomes : list nat) :
  keys counts1 = map (fun r => bitstring_of (bits w r)) (seq 0 (2 ^ w)) ->
  (forall r, r < 2 ^ w ->
     dict_get counts1 (bitstring_of (bits w r))
     = Some (Z.of_nat (count_occ Nat.eq_dec outcomes r))) ->
  Forall (fun i => i < 2 ^ w) outcomes -> outcomes <> [] ->
  exists r,
    r < 2 ^ w
    /\ most_likely (mk_MeasurementResult counts1) = Ok (bitstring_of (bits w r))
    /\ In r outcomes
    /\ forall r', count_occ Nat.eq_dec outcomes r'
                  <= count_occ Nat.eq_dec outcomes r.
Proof.
  intros Hk Hg Hrange Hne.
  assert (Hnd : NoDup (keys counts1)) by (rewrite Hk; apply bitstring_keys_nodup).
  destruct (most_likely (mk_MeasurementResult counts1)) as [k|e] eqn:Em.
  2:{ exfalso. unfold most_likely, max_key, items in Em. cbn [counts] in Em.
      destruct counts1 as [|it rest]; [|discriminate].
      cbn [keys map] in Hk. pose proof (pow2_pos w) as Hp.
      destruct (2 ^ w); [lia|discriminate]. }
  destruct (most_likely_spec _ _ Em) as (c & Hin & Hmax). cbn [counts] in Hin, Hmax.
  assert (Hkin : In k (keys counts1)).
  { unfold keys. apply in_map_iff. exists (k, c). split; [reflexivity|exact Hin]. }
  rewrite Hk in Hkin. apply in_map_iff in Hkin. destruct Hkin as (r & <- & Hr).
  apply in_seq in Hr. assert (Hr' : r < 2 ^ w) by lia.
  assert (Hc : c = Z.of_nat (count_occ Nat.eq_dec outcomes r)).
  { pose proof (dict_get_in counts1 _ c Hnd Hin) as G.
    rewrite (Hg r Hr') in G. injection G as <-. reflexivity. }
  assert (Hle : forall r', count_occ Nat.eq_dec outcomes r'
                           <= count_occ Nat.eq_dec outcomes r).
  { intros r'. destruct (Nat.lt_ge_cases r' (2 ^ w)) as [Hr2|Hr2].
    - pose proof (dict_get_some_pair _ _ _ (Hg r' Hr2)) as Hin'.
      destruct (Hmax _ _ Hin') as [Hcc _]. lia.
    - rewrite (count_occ_zero_out_of_range outcomes (2 ^ w) r' Hrange Hr2). lia. }
  exists r. split; [exact Hr'|]. split; [reflexivity|]. split; [|exact Hle].
  destruct outcomes as [|o os]; [congruence|].
  specialize (Hle o). apply (count_occ_In Nat.eq_dec).
  assert (count_occ Nat.eq_dec (o :: os) o > 0)
    by (apply count_occ_In; left; reflexivity).
  lia.
Qed.

(** X14. On a unit-norm register, with a generator that honours the
    contract of [choice], [most_likely()] of the result of [measure] does
    not raise: it returns the key of an outcome that was drawn, and no
    outcome was drawn more often.  With [shots = 1] that key is the
    outcome the register collapsed onto. *)
Theorem most_likely_after_measure
    (self : QuantumCircuit) (qubits : option (list Z)) (shots : Z)
    (rng : Generator) :
  let n := num_qubits self in
  let qt := qubit_tuple_of n qubits in
  let w := outcome_width n qt in
  unit_norm self -> valid_qubits n qt -> (0 < shots)%Z -> sound_generator rng ->
  exists outcomes last res r,
    choice rng (2 ^ w) (Z.to_nat shots)
      (map (outcome_probability n qt (_state self)) (seq 0 (2 ^ w)))
    = Ok outcomes
    /\ nth_error outcomes (length outcomes - 1) = Some last
    /\ measure qubits shots rng self
       = mk_run (Ok res)
           (mk_QuantumCircuit n (post_measurement n qt (_state self) last))
           [post_measurement n qt (_state self) last]
    /\ r < 2 ^ w
    /\ most_likely res = Ok (bitstring_of (bits w r))
    /\ In r outcomes
    /\ (forall r', count_occ Nat.eq_dec outcomes r'
                   <= count_occ Nat.eq_dec outcomes r)
    /\ (shots = 1%Z -> r = last).
Proof.
  intros n qt w HU HV Hs Hrng.
  destruct (measure_sound_run self qubits shots rng HU HV Hs Hrng)
    as (outcomes & counts1 & last & Hc & Hlen & Hrange & Hl & Hlast & Hm & Hk
        & _ & Hg).
  fold n qt w in Hc, Hrange, Hlast, Hm, Hk, Hg.
  destruct (most_likely_of_counts w counts1 outcomes Hk Hg Hrange)
    as (r & Hr & Hml & Hin & Hmax).
  { intros E. rewrite E in Hlen. cbn [length] in Hlen. lia. }
  exists outcomes, last, (mk_MeasurementResult counts1), r.
  repeat split; try assumption.
  intros ->. destruct outcomes as [|o [|o' os]]; cbn [length] in Hlen; try lia.
  cbn in Hl. injection Hl as <-. destruct Hin as [E|[]]. symmetry. exact E.
Qed.

Lemma most_likely_after_measure_witness :
  exists outcomes last res r,
    choice first_outcome_rng (2 ^ 1) (Z.to_nat 3)
      (map (outcome_probability 1 [0%Z] [Cone; Czero]) (seq 0 (2 ^ 1)))
    = Ok outcomes
    /\ nth_error outcomes (length outcomes - 1) = Some last
    /\ measure (Some [0%Z]) 3 first_outcome_rng ground1
       = mk_run (Ok res)
           (mk_QuantumCircuit 1 (post_measurement 1 [0%Z] [Cone; Czero] last))
           [post_measurement 1 [0%Z] [Cone; Czero] last]
    /\ r < 2 ^ 1
    /\ most_likely res = Ok (bitstring_of (bits 1 r))
    /\ In r outcomes
    /\ (forall r', count_occ Nat.eq_dec outcomes r'
                   <= count_occ Nat.eq_dec outcomes r)
    /\ (3%Z = 1%Z -> r = last).
Proof.
  apply (most_likely_after_measure ground1 (Some [0%Z]) 3 first_outcome_rng).
  - exact ground1_unit_norm.
  - exact ground1_valid.
  - lia.
  - exact first_outcome_rng_sound.
Defined.

(** ** Measuring twice *)

Lemma count_occ_all_equal (outcomes : list nat) (x r : nat) :
  Forall (fun i => i = x) outcomes ->
  count_occ Nat.eq_dec outcomes r = if r =? x then length outcomes else 0.
Proof.
  induction 1 as [|o os Ho _ IH]; [destruct (r =? x); reflexivity|].
  subst o. cbn [count_occ length]. rewrite IH.
  destruct (Nat.eq_dec x r) as [->|Hne].
  - rewrite Nat.eqb_refl. reflexivity.
  - replace (r =? x) with false by (symmetry; apply Nat.eqb_neq; congruence).
    reflexivity.
Qed.

(** X15. Measurement is repeatable.  On a register of unit norm, with
    generators that honour the contract of [choice] and only draw
    outcomes of positive weight, measuring the same qubits a second time,
    right after a first measurement, finds the outcome [last] the first
    one collapsed onto in every shot: the counts are [shots] for that key
    and 0 for the others, [most_likely()] returns it, and the second
    measurement collapses the register onto that same outcome again. *)
Theorem measurement_is_repeatable
    (self : QuantumCircuit) (qubits : option (list Z))
    (shots1 shots2 : Z) (rng1 rng2 : Generator) :
  let n := num_qubits self in
  let qt := qubit_tuple_of n qubits in
  let w := outcome_width n qt in
  unit_norm self -> valid_qubits n qt ->
  (0 < shots1)%Z -> (0 < shots2)%Z ->
  sound_generator rng1 -> support_generator rng1 ->
  sound_generator rng2 -> support_generator rng2 ->
  exists outcomes1 last res1 s1 res2,
    choice rng1 (2 ^ w) (Z.to_nat shots1)
      (map (outcome_probability n qt (_state self)) (seq 0 (2 ^ w)))
    = Ok outcomes1
    /\ nth_error outcomes1 (length outcomes1 - 1) = Some last
    /\ last < 2 ^ w
    /\ (0 < outcome_probability n qt (_state self) last)%R
    /\ measure qubits shots1 rng1 self = mk_run (Ok res1) s1 [_state s1]
    /\ s1 = mk_QuantumCircuit n (post_measurement n qt (_state self) last)
    /\ measure qubits shots2 rng2 s1
       = mk_run (Ok res2)
           (mk_QuantumCircuit n (post_measurement n qt (_state s1) last))
           [post_measurement n qt (_state s1) last]
    /\ (forall r, r < 2 ^ w ->
          dict_get (counts res2) (bitstring_of (bits w r))
          = Some (if r =? last then shots2 else 0%Z))
    /\ most_likely res2 = Ok (bitstring_of (bits w last)).
Proof.
  intros n qt w HU HV Hs1 Hs2 Hsound1 Hsupp1 Hsound2 Hsupp2.
  pose proof HU as (WF & Hn & Hnorm).
  destruct (measure_sound_run self qubits shots1 rng1 HU HV Hs1 Hsound1)
    as (outcomes1 & counts1 & last & Hc1 & Hlen1 & Hrange1 & Hl1 & Hlast & Hm1
        & _).
  fold n qt w in Hc1, Hrange1, Hlast, Hm1.
  set (P := outcome_probability n qt (_state self)) in *.
  set (v1 := post_measurement n qt (_state self) last) in *.
  set (s1 := mk_QuantumCircuit n v1).
  assert (Hpos : (0 < P last)%R).
  { pose proof (Hsupp1 _ _ _ _ Hc1) as HF. rewrite Forall_forall in HF.
    specialize (HF last (nth_error_In _ _ Hl1)). cbv beta in HF.
    rewrite (nth_map_seq P (2 ^ w) last 0%R Hlast) in HF. exact HF. }
  assert (HU1 : unit_norm s1).
  { apply post_measurement_unit_norm; assumption. }
  assert (HV1 : valid_qubits (num_qubits s1)
                  (qubit_tuple_of (num_qubits s1) qubits)) by exact HV.
  destruct (measure_sound_run s1 qubits shots2 rng2 HU1 HV1 Hs2 Hsound2)
    as (outcomes2 & counts2 & last2 & Hc2 & Hlen2 & Hrange2 & Hl2 & Hlast2 & Hm2
        & Hk2 & _ & Hg2).
  cbn [num_qubits _state s1] in Hc2, Hrange2, Hlast2, Hm2, Hk2, Hg2.
  fold qt w in Hc2, Hrange2, Hlast2, Hm2, Hk2, Hg2.
  assert (Hall : Forall (fun i => i = last) outcomes2).
  { pose proof (Hsupp2 _ _ _ _ Hc2) as HF. rewrite Forall_forall in HF, Hrange2.
    apply Forall_forall. intros i Hi.
    specialize (HF i Hi). specialize (Hrange2 i Hi). cbv beta in HF.
    rewrite (nth_map_seq _ (2 ^ w) i 0%R Hrange2) in HF.
    unfold v1 in HF.
    rewrite (post_measurement_distribution n qt (_state self) last i WF Hlast
               Hrange2 Hpos) in HF.
    destruct (Nat.eqb_spec i last) as [E|E]; [exact E|lra]. }
  assert (Hlast2eq : last2 = last).
  { rewrite Forall_forall in Hall. apply Hall. eapply nth_error_In. exact Hl2. }
  subst last2.
  assert (Hcounts : forall r, r < 2 ^ w ->
            dict_get counts2 (bitstring_of (bits w r))
            = Some (if r =? last then shots2 else 0%Z)).
  { intros r Hr. rewrite (Hg2 r Hr), (count_occ_all_equal outcomes2 last r Hall).
    rewrite Hlen2. destruct (r =? last); [|reflexivity].
    rewrite Z2Nat.id by lia. reflexivity. }
  exists outcomes1, last, (mk_MeasurementResult counts1), s1,
         (mk_MeasurementResult counts2).
  split; [exact Hc1|]. split; [exact Hl1|]. split; [exact Hlast|].
  split; [exact Hpos|]. split; [exact Hm1|]. split; [reflexivity|].
  split; [exact Hm2|]. split; [exact Hcounts|].
  destruct (most_likely_of_counts w counts2 outcomes2 Hk2 Hg2 Hrange2)
    as (r & Hr & Hml & Hin & _).
  { intros E. rewrite E in Hlen2. cbn [length] in Hlen2. lia. }
  rewrite Forall_forall in Hall. rewrite (Hall r Hin) in Hml. exact Hml.
Qed.

Lemma measurement_is_repeatable_witness :
  exists res1 res2,
    measure (Some [0%Z]) 2 first_positive_rng plus1
    = mk_run (Ok res1) ground1 [[Cone; Czero]]
    /\ value (measure (Some [0%Z]) 3 first_positive_rng ground1) = Ok res2
    /\ dict_get (counts res2) "0" = Some 3%Z
    /\ dict_get (counts res2) "1" = Some 0%Z
    /\ most_likely res2 = Ok "0"%string.
Proof.
  destruct (measurement_is_repeatable plus1 (Some [0%Z]) 2 3
              first_positive_rng first_positive_rng)
    as (outcomes1 & last & res1 & s1 & res2 & Hc & Hl & _ & _ & Hm1 & Es & Hm2
        & Hg & Hml).
  - exact plus1_unit_norm.
  - exact ground1_valid.
  - lia.
  - lia.
  - exact first_positive_rng_sound.
  - exact first_positive_rng_support.
  - exact first_positive_rng_sound.
  - exact first_positive_rng_support.
  - assert (E0 : last = 0).
    { cbn [choice first_positive_rng num_qubits plus1 qubit_tuple_of
           outcome_width length Nat.pow Nat.mul Nat.add seq map] in Hc.
      change [plus_amplitude; plus_amplitude] with (_state plus1) in Hc.
      rewrite !plus1_outcome_probability in Hc by lia.
      cbn [first_positive] in Hc.
      destruct (Rlt_dec 0 (1 / 2)) as [_|F]; [|exfalso; apply F; lra].
      injection Hc as <-. cbn in Hl. injection Hl as <-. reflexivity. }
    subst last.
    change (post_measurement (num_qubits plus1)
              (qubit_tuple_of (num_qubits plus1) (Some [0%Z])) (_state plus1) 0)
      with (post_measurement 1 [0%Z] (_state plus1) 0) in Es.
    rewrite plus1_collapse in Es.
    change (mk_QuantumCircuit (num_qubits plus1) [Cone; Czero]) with ground1
      in Es.
    subst s1.
    exists res1, res2. split; [exact Hm1|].
    split; [rewrite Hm2; reflexivity|].
    split; [exact (Hg 0 ltac:(simpl; lia))|].
    split; [exact (Hg 1 ltac:(simpl; lia))|exact Hml].
Defined.

(** ** Keys and dictionaries *)

Lemma format_int_round_trip (w x : nat) :
  0 < w -> x < 2 ^ w ->
  int_base2 (format_0b w x) = Some x
  /\ String.length (format_0b w x) = w
  /\ binary_string (format_0b w x) = true.
Proof.
  intros Hw Hx. rewrite (format_0b_bits w x Hw Hx). split; [|split].
  - rewrite int_base2_bitstring.
    + rewrite from_bits_bits_small by exact Hx. reflexivity.
    + intros E. apply (f_equal (@length nat)) in E.
      rewrite bits_length in E. cbn in E. lia.
    + apply bits_lt2.
  - rewrite bitstring_of_length. apply bits_length.
  - apply bitstring_of_binary.
Qed.

Lemma combine_map_seq {A B} (f : nat -> A) (p : list B) (d : B) (s N : nat) :
  combine (map f (seq s N)) p
  = map (fun r => (f r, nth (r - s) p d)) (seq s (Nat.min N (length p))).
Proof.
  revert s p. induction N as [|N IH]; intros s p; [reflexivity|].
  destruct p as [|b p]; [reflexivity|].
  cbn [seq map combine length Nat.min]. rewrite Nat.sub_diag. cbn [nth].
  f_equal. rewrite IH. apply map_ext_in. intros r Hr. apply in_seq in Hr.
  replace (r - s) with (S (r - S s)) by lia. reflexivity.
Qed.

Lemma distribution_from_probabilities_zip (p : list R) (k : nat) :
  0 < k ->
  _distribution_from_probabilities p k
  = map (fun r => (bitstring_of (bits k r), nth r p 0%R))
        (seq 0 (Nat.min (2 ^ k) (length p))).
Proof.
  intros Hk. unfold _distribution_from_probabilities.
  rewrite (combine_map_seq (format_0b k) p 0%R 0 (2 ^ k)).
  assert (E : map (fun r => (format_0b k r, nth (r - 0) p 0%R))
                  (seq 0 (Nat.min (2 ^ k) (length p)))
              = map (fun r => (bitstring_of (bits k r), nth r p 0%R))
                    (seq 0 (Nat.min (2 ^ k) (length p)))).
  { apply map_ext_in. intros r Hr. apply in_seq in Hr.
    rewrite format_0b_bits by lia. rewrite Nat.sub_0_r. reflexivity. }
  rewrite E. apply dict_of_items_nodup. rewrite map_map. cbn [fst].
  apply Finite.Injective_map_NoDup_in; [|apply seq_NoDup].
  intros x y Hx Hy Exy. apply in_seq in Hx. apply in_seq in Hy.
  apply (bitstring_of_bits_inj k); (lia || exact Exy).
Qed.

Lemma most_likely_empty (res : MeasurementResult) :
  most_likely res = Raise ValueError <-> counts res = [].
Proof.
  unfold most_likely, max_key, items. destruct (counts res) as [|it rest].
  - split; reflexivity.
  - split; discriminate.
Qed.

Lemma most_likely_total (res : MeasurementResult) :
  counts res <> [] -> exists k, most_likely res = Ok k /\ In k (keys (counts res)).
Proof.
  intros Hne. destruct (most_likely res) as [k|e] eqn:E.
  - exists k. split; [reflexivity|].
    destruct (most_likely_spec res k E) as (c & Hin & _).
    apply in_map_iff. exists (k, c). split; [reflexivity|exact Hin].
  - exfalso. unfold most_likely, max_key, items in E.
    destruct (counts res); [congruence|discriminate].
Qed.

(** X16. The keys [probabilities] formats are read back by
    [_collapse_state]: for a valid tuple the keys are
    [format(r, "0<w>b")] for [r = 0, ..., 2^w - 1] in that order, each has
    [w] characters, [int(key, 2)] is [r] again, and [_collapse_state]
    accepts every one of them without raising. *)
Theorem outcome_keys_round_trip (self : QuantumCircuit) (qubit_tuple : list Z) :
  well_formed self -> 0 < num_qubits self ->
  valid_qubits (num_qubits self) qubit_tuple ->
  let w := outcome_width (num_qubits self) qubit_tuple in
  exists d,
    probabilities (Some qubit_tuple) self = mk_run (Ok d) self []
    /\ keys d = map (format_0b w) (seq 0 (2 ^ w))
    /\ forall r, r < 2 ^ w ->
         String.length (format_0b w r) = w
         /\ int_base2 (format_0b w r) = Some r
         /\ value (_collapse_state qubit_tuple (format_0b w r) self) = Ok tt.
Proof.
  intros Hwf Hn Hv w.
  assert (Hw : 0 < w).
  { unfold w, outcome_width. destruct qubit_tuple; [exact Hn|cbn; lia]. }
  exists (outcome_table w (outcome_probability (num_qubits self) qubit_tuple
                             (_state self))).
  split; [apply probabilities_tuple; assumption|]. split.
  - rewrite outcome_table_keys. apply map_ext_in. intros r Hr.
    apply in_seq in Hr. rewrite format_0b_bits by lia. reflexivity.
  - intros r Hr.
    destruct (format_int_round_trip w r Hw Hr) as (Hint & Hlen & _).
    split; [exact Hlen|]. split; [exact Hint|].
    rewrite (format_0b_bits w r Hw Hr). unfold w.
    rewrite (collapse_tuple self qubit_tuple r Hwf Hn Hv Hr). reflexivity.
Qed.

Lemma outcome_keys_round_trip_witness :
  exists d,
    probabilities (Some [0%Z]) ground1 = mk_run (Ok d) ground1 []
    /\ keys d = map (format_0b (outcome_width 1 [0%Z]))
                    (seq 0 (2 ^ outcome_width 1 [0%Z]))
    /\ forall r, r < 2 ^ outcome_width 1 [0%Z] ->
         String.length (format_0b (outcome_width 1 [0%Z]) r)
         = outcome_width 1 [0%Z]
         /\ int_base2 (format_0b (outcome_width 1 [0%Z]) r) = Some r
         /\ value (_collapse_state [0%Z] (format_0b (outcome_width 1 [0%Z]) r)
                     ground1)
            = Ok tt.
Proof.
  apply (outcome_keys_round_trip ground1 [0%Z]).
  - reflexivity.
  - simpl. lia.
  - exact ground1_valid.
Defined.

(** X17. [_distribution_from_probabilities] pairs the bit strings of
    width [k], in index order, with the probabilities given, and stops at
    the shorter of the two ([zip]): the result has
    [min(2^k, len(probabilities))] entries, entry [r] being the pair of
    the [k]-character binary string of [r] and [probabilities[r]]; no
    probabilities give the empty dictionary; and for [k = 0] the only key
    is ["0"]. *)
Theorem distribution_from_probabilities_truncates (p : list R) (k : nat) :
  (0 < k ->
   _distribution_from_probabilities p k
   = map (fun r => (bitstring_of (bits k r), nth r p 0%R))
         (seq 0 (Nat.min (2 ^ k) (length p))))
  /\ _distribution_from_probabilities [] k = []
  /\ (forall p0, _distribution_from_probabilities (p0 :: p) 0
                 = [("0"%string, p0)]).
Proof.
  split; [apply distribution_from_probabilities_zip|]. split.
  - unfold _distribution_from_probabilities.
    destruct (map (format_0b k) (seq 0 (2 ^ k))); reflexivity.
  - intros p0. reflexivity.
Qed.

Lemma distribution_from_probabilities_truncates_witness :
  _distribution_from_probabilities [1%R; 0%R; 0%R] 1
  = map (fun r => (bitstring_of (bits 1 r), nth r [1%R; 0%R; 0%R] 0%R))
        (seq 0 (Nat.min (2 ^ 1) (length [1%R; 0%R; 0%R])))
  /\ _distribution_from_probabilities [] 1 = []
  /\ (forall p0, _distribution_from_probabilities (p0 :: [1%R; 0%R; 0%R]) 0
                 = [("0"%string, p0)]).
Proof.
  destruct (distribution_from_probabilities_truncates [1%R; 0%R; 0%R] 1)
    as (H1 & H0 & Hk).
  split; [apply H1; lia|]. split; [exact H0|exact Hk].
Defined.

Lemma string_ltb_total (s1 s2 : string) :
  String.ltb s1 s2 = false -> String.ltb s2 s1 = false -> s1 = s2.
Proof.
  unfold String.ltb. rewrite (String.compare_antisym s2 s1).
  destruct (String.compare s1 s2) eqn:E; cbn [CompOpp]; try discriminate.
  intros _ _. apply String.compare_eq_iff. exact E.
Qed.

Lemma sumZ_perm (l1 l2 : list Z) : Permutation l1 l2 -> sumZ l1 = sumZ l2.
Proof.
  induction 1 as [|x l1 l2 _ IH|x y l|l1 l2 l3 _ IH1 _ IH2].
  - reflexivity.
  - rewrite !sumZ_cons, IH. reflexivity.
  - rewrite !sumZ_cons. lia.
  - rewrite IH1. exact IH2.
Qed.

(** X18. [most_likely()] and [total_shots()] depend on the items of the
    counts only, not on the order they were inserted in; [most_likely()]
    raises [ValueError] exactly when the counts are empty ([max] of an
    empty sequence) and otherwise returns one of the keys. *)
Theorem most_likely_ignores_insertion_order (r1 r2 : MeasurementResult) :
  (most_likely r1 = Raise ValueError <-> counts r1 = [])
  /\ (counts r1 <> [] ->
        exists k, most_likely r1 = Ok k /\ In k (keys (counts r1)))
  /\ (Permutation (counts r1) (counts r2) ->
        most_likely r1 = most_likely r2 /\ total_shots r1 = total_shots r2).
Proof.
  split; [apply most_likely_empty|]. split; [apply most_likely_total|].
  intros Hperm. split.
  - destruct (counts r1) as [|it rest] eqn:E1.
    + apply Permutation_nil in Hperm.
      transitivity (@Raise string ValueError).
      * apply most_likely_empty. exact E1.
      * symmetry. apply most_likely_empty. exact Hperm.
    + rewrite <- E1 in Hperm.
      destruct (most_likely_total r1) as (k1 & Hk1 & _); [congruence|].
      destruct (most_likely_total r2) as (k2 & Hk2 & _).
      { intros E2. rewrite E2 in Hperm. apply Permutation_sym in Hperm.
        apply Permutation_nil in Hperm. congruence. }
      destruct (most_likely_spec r1 k1 Hk1) as (c1 & Hin1 & Hmax1).
      destruct (most_likely_spec r2 k2 Hk2) as (c2 & Hin2 & Hmax2).
      destruct (Hmax1 k2 c2) as [Hle21 Htie1].
      { apply (Permutation_in _ (Permutation_sym Hperm)). exact Hin2. }
      destruct (Hmax2 k1 c1) as [Hle12 Htie2].
      { apply (Permutation_in _ Hperm). exact Hin1. }
      assert (Hc : c1 = c2) by lia.
      rewrite Hk1, Hk2. f_equal.
      apply string_ltb_total; [apply Htie1|apply Htie2]; congruence.
  - unfold total_shots, values. fold (sumZ (map snd (counts r1))).
    fold (sumZ (map snd (counts r2))).
    apply sumZ_perm. apply Permutation_map. exact Hperm.
Qed.

Lemma most_likely_ignores_insertion_order_witness :
  (most_likely (mk_MeasurementResult [("0"%string, 2%Z); ("1"%string, 2%Z)])
   = Raise ValueError
   <-> counts (mk_MeasurementResult [("0"%string, 2%Z); ("1"%string, 2%Z)]) = [])
  /\ (exists k,
        most_likely (mk_MeasurementResult [("0"%string, 2%Z); ("1"%string, 2%Z)])
        = Ok k
        /\ In k (keys (counts (mk_MeasurementResult
                                 [("0"%string, 2%Z); ("1"%string, 2%Z)]))))
  /\ most_likely (mk_MeasurementResult [("0"%string, 2%Z); ("1"%string, 2%Z)])
     = most_likely (mk_MeasurementResult [("1"%string, 2%Z); ("0"%string, 2%Z)])
  /\ total_shots (mk_MeasurementResult [("0"%string, 2%Z); ("1"%string, 2%Z)])
     = total_shots (mk_MeasurementResult [("1"%string, 2%Z); ("0"%string, 2%Z)]).
Proof.
  destruct (most_likely_ignores_insertion_order
              (mk_MeasurementResult [("0"%string, 2%Z); ("1"%string, 2%Z)])
              (mk_MeasurementResult [("1"%string, 2%Z); ("0"%string, 2%Z)]))
    as (H1 & H2 & H3).
  split; [exact H1|]. split; [apply H2; discriminate|].
  apply H3. apply perm_swap.
Defined.

(* ================================================================== *)
(** * Properties of the trinary logic                              *)
(* ================================================================== *)

Section TrinaryConnectives.
Import Trinary.
Local Open Scope Z_scope.

Lemma t_implies_bounds (a b : Z) : FALSE <= t_implies a b <= TRUE.
Proof. unfold t_implies, FALSE, TRUE. cbv zeta. lia. Qed.

Lemma t_implies_true (a b : Z) : t_implies a b = TRUE <-> a <= b.
Proof. unfold t_implies, FALSE, TRUE. cbv zeta. lia. Qed.

Lemma t_equiv_true (a b : Z) : t_equiv a b = TRUE <-> a = b.
Proof. unfold t_equiv, t_and, t_implies, FALSE, TRUE. cbv zeta. lia. Qed.

Lemma truth_value_cases (a : Z) : truth_value a <-> -1 <= a <= 1.
Proof. unfold truth_value, FALSE, UNKNOWN, TRUE. lia. Qed.

Lemma trinary_connectives_closed_aux (a b : Z) :
  truth_value a -> truth_value b ->
  truth_value (t_not a) /\ truth_value (t_and a b) /\ truth_value (t_or a b)
  /\ truth_value (t_implies a b).
Proof.
  intros Ha Hb. apply truth_value_cases in Ha. apply truth_value_cases in Hb.
  repeat split; apply truth_value_cases;
    unfold t_not, t_and, t_or, t_implies, FALSE, TRUE; cbv zeta; lia.
Qed.

End TrinaryConnectives.

Section TrinaryReasoner.
Import Trinary Trinary.Proposition Trinary.Reasoner.
Context {F : FloatOps}.
Local Open Scope Z_scope.

Lemma get_or_create_spec (s : string) (self : TrinaryReasoner F) :
  snd (_get_or_create s self) = query s self
  /\ dict_get (fst (_get_or_create s self)) s = Some (query s self)
  /\ forall s', s' <> s ->
       dict_get (fst (_get_or_create s self)) s' = dict_get self s'.
Proof.
  unfold _get_or_create, query. destruct (dict_get self s) as [p|] eqn:E;
    cbn [fst snd].
  - split; [reflexivity|]. split; [exact E|]. reflexivity.
  - split; [reflexivity|]. split.
    + rewrite dict_get_set, String.eqb_refl. reflexivity.
    + intros s' Hne. rewrite dict_get_set.
      destruct (String.eqb_spec s s') as [->|_]; [congruence|reflexivity].
Qed.

Lemma query_dict_set (s s' : string) (p : TrinaryProposition F)
    (self : TrinaryReasoner F) :
  query s' (dict_set self s p) = if String.eqb s s' then p else query s' self.
Proof.
  unfold query. rewrite dict_get_set. destruct (String.eqb s s'); reflexivity.
Qed.

Lemma assert_true_spec (s : string) (c : float F) (ev : string)
    (self : TrinaryReasoner F) :
  let old := query s self in
  let p := Proposition.assert_true c ev
             (if truth old =? FALSE
              then contradict ("Previously FALSE, now asserted TRUE (conf="
                               ++ fstr F c ++ ")")%string old
              else old) in
  snd (Reasoner.assert_true s c ev self) = p
  /\ forall s', query s' (fst (Reasoner.assert_true s c ev self))
                = if String.eqb s s' then p else query s' self.
Proof.
  cbv zeta. unfold Reasoner.assert_true.
  destruct (get_or_create_spec s self) as (Hp & Hg & Hother).
  destruct (_get_or_create s self) as [self1 prop]. cbn [fst snd] in *.
  subst prop. split; [reflexivity|].
  intros s'. rewrite query_dict_set.
  destruct (String.eqb_spec s s') as [->|Hne]; [reflexivity|].
  unfold query. rewrite Hother by congruence. reflexivity.
Qed.

Lemma assert_false_spec (s : string) (c : float F) (ev : string)
    (self : TrinaryReasoner F) :
  let old := query s self in
  let p := Proposition.assert_false c ev
             (if truth old =? TRUE
              then contradict ("Previously TRUE, now asserted FALSE (conf="
                               ++ fstr F c ++ ")")%string old
              else old) in
  snd (Reasoner.assert_false s c ev self) = p
  /\ forall s', query s' (fst (Reasoner.assert_false s c ev self))
                = if String.eqb s s' then p else query s' self.
Proof.
  cbv zeta. unfold Reasoner.assert_false.
  destruct (get_or_create_spec s self) as (Hp & Hg & Hother).
  destruct (_get_or_create s self) as [self1 prop]. cbn [fst snd] in *.
  subst prop. split; [reflexivity|].
  intros s'. rewrite query_dict_set.
  destruct (String.eqb_spec s s') as [->|Hne]; [reflexivity|].
  unfold query. rewrite Hother by congruence. reflexivity.
Qed.





Lemma quarantine_keys (self : TrinaryReasoner F) :
  keys (fst (quarantine_contradicted self)) = keys self.
Proof.
  unfold quarantine_contradicted, keys. cbn [fst]. rewrite map_map.
  reflexivity.
Qed.

End TrinaryReasoner.

Section TrinarySummary.
Import Trinary Trinary.Proposition Trinary.Reasoner.
Context {F : FloatOps}.
Local Open Scope Z_scope.

Lemma count_truths_ok (l : list (TrinaryProposition F)) (t u f : Z) :
  Forall (fun p => truth_value (truth p)) l ->
  count_truths l (t, u, f)
  = Ok (t + Z.of_nat (length (filter (fun p => truth p =? TRUE) l)),
        u + Z.of_nat (length (filter (fun p => truth p =? UNKNOWN) l)),
        f + Z.of_nat (length (filter (fun p => truth p =? FALSE) l))).
Proof.
  intros H. revert t u f. induction H as [|p l Hp _ IH]; intros t u f.
  - cbn. rewrite !Z.add_0_r. reflexivity.
  - cbn [count_truths filter].
    destruct Hp as [E|[E|E]]; rewrite E;
      change (FALSE =? TRUE) with false; change (FALSE =? UNKNOWN) with false;
      change (FALSE =? FALSE) with true; change (UNKNOWN =? TRUE) with false;
      change (UNKNOWN =? UNKNOWN) with true; change (UNKNOWN =? FALSE) with false;
      change (TRUE =? TRUE) with true; change (TRUE =? UNKNOWN) with false;
      change (TRUE =? FALSE) with false;
      cbv iota; rewrite IH; cbn [length];
      apply f_equal; (apply f_equal2; [apply f_equal2|]); lia.
Qed.

Lemma count_truths_bad (l : list (TrinaryProposition F)) (c : Z * Z * Z) :
  ~ Forall (fun p => truth_value (truth p)) l ->
  count_truths l c = Raise KeyError.
Proof.
  revert c. induction l as [|p l IH]; intros c H.
  - exfalso. apply H. constructor.
  - destruct c as [[t u] f]. cbn [count_truths].
    destruct (Z.eqb_spec (truth p) TRUE) as [E1|E1].
    { apply IH. intros HF. apply H. constructor; [|exact HF].
      right. right. exact E1. }
    destruct (Z.eqb_spec (truth p) UNKNOWN) as [E2|E2].
    { apply IH. intros HF. apply H. constructor; [|exact HF].
      right. left. exact E2. }
    destruct (Z.eqb_spec (truth p) FALSE) as [E3|E3]; [|reflexivity].
    apply IH. intros HF. apply H. constructor; [|exact HF]. left. exact E3.
Qed.

Lemma truth_partition (l : list (TrinaryProposition F)) :
  Forall (fun p => truth_value (truth p)) l ->
  Z.of_nat (length (filter (fun p => truth p =? TRUE) l))
  + Z.of_nat (length (filter (fun p => truth p =? UNKNOWN) l))
  + Z.of_nat (length (filter (fun p => truth p =? FALSE) l))
  = Z.of_nat (length l).
Proof.
  induction 1 as [|p l Hp _ IH]; [reflexivity|].
  cbn [filter length].
  destruct Hp as [E|[E|E]]; rewrite E;
    change (FALSE =? TRUE) with false; change (FALSE =? UNKNOWN) with false;
    change (FALSE =? FALSE) with true; change (UNKNOWN =? TRUE) with false;
    change (UNKNOWN =? UNKNOWN) with true; change (UNKNOWN =? FALSE) with false;
    change (TRUE =? TRUE) with true; change (TRUE =? UNKNOWN) with false;
    change (TRUE =? FALSE) with false;
    cbv iota; cbn [length]; lia.
Qed.

Lemma dict_set_forall {V} (P : string * V -> Prop) (d : dict V) (k : string)
    (v : V) :
  Forall P d -> P (k, v) -> Forall P (dict_set d k v).
Proof.
  intros Hd Hkv. induction Hd as [|[k' v'] d Hh Ht IH]; cbn [dict_set].
  - constructor; [exact Hkv|constructor].
  - destruct (String.eqb_spec k' k) as [->|Hne].
    + constructor; assumption.
    + constructor; assumption.
Qed.

Lemma dict_set_nodup {V} (d : dict V) (k : string) (v : V) :
  NoDup (keys d) -> NoDup (keys (dict_set d k v)).
Proof.
  intros Hd. destruct (in_dec string_dec k (keys d)) as [Hin|Hout].
  - rewrite dict_set_keys by exact Hin. exact Hd.
  - rewrite dict_set_fresh by exact Hout. unfold keys in *.
    rewrite map_app. cbn [map fst].
    apply NoDup_app; [exact Hd|constructor; [intros []|constructor]|].
    intros x Hx [<-|[]]. exact (Hout Hx).
Qed.

Lemma store_ok_set (self : TrinaryReasoner F) (s : string)
    (p : TrinaryProposition F) :
  store_ok self -> statement p = s -> truth_value (truth p) ->
  store_ok (dict_set self s p).
Proof.
  intros [Hnd Hall] Hs Ht. split.
  - apply dict_set_nodup. exact Hnd.
  - apply dict_set_forall; [exact Hall|]. cbn [fst snd]. split; assumption.
Qed.

Lemma store_ok_query (self : TrinaryReasoner F) (s : string) :
  store_ok self ->
  statement (query s self) = s /\ truth_value (truth (query s self)).
Proof.
  intros [_ Hall]. unfold query. destruct (dict_get self s) as [p|] eqn:E.
  - apply dict_get_some_pair in E. rewrite Forall_forall in Hall.
    exact (Hall _ E).
  - cbn. split; [reflexivity|]. right. left. reflexivity.
Qed.

Lemma store_ok_get_or_create (self : TrinaryReasoner F) (s : string) :
  store_ok self -> store_ok (fst (_get_or_create s self)).
Proof.
  intros H. unfold _get_or_create. destruct (dict_get self s); cbn [fst].
  - exact H.
  - apply store_ok_set; [exact H|reflexivity|]. right. left. reflexivity.
Qed.

Lemma store_ok_step (c : reasoner_call F) (self : TrinaryReasoner F) :
  store_ok self -> store_ok (reasoner_step c self).
Proof.
  intros H. destruct c as [s conf ev|s conf ev|]; cbn [reasoner_step].
  - unfold Reasoner.assert_true.
    pose proof (store_ok_get_or_create self s H) as H1.
    destruct (get_or_create_spec s self) as (Hp & _).
    destruct (_get_or_create s self) as [self1 prop]. cbn [fst snd] in *.
    apply store_ok_set; [exact H1| |right; right; reflexivity].
    cbn [Proposition.assert_true statement]. subst prop.
    destruct (truth (query s self) =? FALSE); cbn [contradict statement];
      apply (store_ok_query self s H).
  - unfold Reasoner.assert_false.
    pose proof (store_ok_get_or_create self s H) as H1.
    destruct (get_or_create_spec s self) as (Hp & _).
    destruct (_get_or_create s self) as [self1 prop]. cbn [fst snd] in *.
    apply store_ok_set; [exact H1| |left; reflexivity].
    cbn [Proposition.assert_false statement]. subst prop.
    destruct (truth (query s self) =? TRUE); cbn [contradict statement];
      apply (store_ok_query self s H).
  - destruct H as [Hnd Hall]. split.
    + rewrite quarantine_keys. exact Hnd.
    + unfold quarantine_contradicted. cbn [fst].
      apply Forall_map. eapply Forall_impl; [|exact Hall].
      intros [k p] [Hs Ht]. cbn [fst snd] in *.
      destruct (is_contradicted p); cbn [quarantine statement truth].
      * split; [exact Hs|]. right. left. reflexivity.
      * split; assumption.
Qed.

Lemma store_ok_after (calls : list (reasoner_call F)) :
  store_ok (reasoner_after calls).
Proof.
  unfold reasoner_after.
  assert (G : forall (self : TrinaryReasoner F), store_ok self ->
            store_ok (fold_left (fun self c => reasoner_step c self) calls self)).
  { induction calls as [|c calls IH]; intros self H; [exact H|].
    cbn [fold_left]. apply IH. apply store_ok_step. exact H. }
  apply G. split; [constructor|constructor].
Qed.

End TrinarySummary.

Section TrinaryLaws.
Import Trinary.
Local Open Scope Z_scope.

(** X19. The three truth values are closed under every connective:
    when [a] and [b] are in [{-1, 0, 1}], so are [t_not a], [t_and a b],
    [t_or a b], [t_implies a b], [t_equiv a b] and [t_xor a b]. *)
Theorem trinary_connectives_closed (a b : Z) :
  truth_value a -> truth_value b ->
  truth_value (t_not a) /\ truth_value (t_and a b) /\ truth_value (t_or a b)
  /\ truth_value (t_implies a b) /\ truth_value (t_equiv a b)
  /\ truth_value (t_xor a b).
Proof.
  intros Ha Hb. apply truth_value_cases in Ha. apply truth_value_cases in Hb.
  repeat split; apply truth_value_cases;
    unfold t_xor, t_equiv, t_not, t_and, t_or, t_implies, FALSE, TRUE;
    cbv zeta; lia.
Qed.

Lemma trinary_connectives_closed_witness :
  truth_value (t_not TRUE) /\ truth_value (t_and TRUE UNKNOWN)
  /\ truth_value (t_or TRUE UNKNOWN) /\ truth_value (t_implies TRUE UNKNOWN)
  /\ truth_value (t_equiv TRUE UNKNOWN) /\ truth_value (t_xor TRUE UNKNOWN).
Proof.
  apply (trinary_connectives_closed TRUE UNKNOWN).
  - right. right. reflexivity.
  - right. left. reflexivity.
Defined.

(** X20. De Morgan's laws and double negation hold for [t_not], [t_and]
    and [t_or], on all integers: [not (a and b) = (not a) or (not b)],
    [not (a or b) = (not a) and (not b)], [not (not a) = a]; [t_and] and
    [t_or] are commutative, associative and idempotent, and absorb each
    other. *)
Theorem trinary_de_morgan (a b c : Z) :
  t_not (t_and a b) = t_or (t_not a) (t_not b)
  /\ t_not (t_or a b) = t_and (t_not a) (t_not b)
  /\ t_not (t_not a) = a
  /\ t_and a b = t_and b a /\ t_or a b = t_or b a
  /\ t_and a (t_and b c) = t_and (t_and a b) c
  /\ t_or a (t_or b c) = t_or (t_or a b) c
  /\ t_and a a = a /\ t_or a a = a
  /\ t_and a (t_or a b) = a /\ t_or a (t_and a b) = a.
Proof. unfold t_not, t_and, t_or. repeat split; lia. Qed.

(** X21. [t_implies] is the order of the truth values: its result always
    lies between [FALSE] and [TRUE]; it is [TRUE] exactly when [a <= b];
    it is contrapositive, [t_implies (t_not b) (t_not a) = t_implies a b];
    and on truth values it is Lukasiewicz's [min(1, 1 - a + b)] (the lower
    clamp never applies), which is [FALSE] only for [TRUE -> FALSE]. *)
Theorem trinary_implication_order (a b : Z) :
  (FALSE <= t_implies a b <= TRUE)
  /\ (t_implies a b = TRUE <-> a <= b)
  /\ t_implies (t_not b) (t_not a) = t_implies a b
  /\ (truth_value a -> truth_value b ->
        t_implies a b = Z.min 1 (1 - a + b)
        /\ (t_implies a b = FALSE <-> a = TRUE /\ b = FALSE)).
Proof.
  split; [apply t_implies_bounds|]. split; [apply t_implies_true|]. split.
  - unfold t_implies, t_not. cbv zeta. lia.
  - intros Ha Hb. apply truth_value_cases in Ha. apply truth_value_cases in Hb.
    unfold t_implies, FALSE, TRUE. cbv zeta. lia.
Qed.

Lemma trinary_implication_order_witness :
  (FALSE <= t_implies UNKNOWN FALSE <= TRUE)
  /\ (t_implies UNKNOWN FALSE = TRUE <-> UNKNOWN <= FALSE)
  /\ t_implies (t_not FALSE) (t_not UNKNOWN) = t_implies UNKNOWN FALSE
  /\ t_implies UNKNOWN FALSE = Z.min 1 (1 - UNKNOWN + FALSE)
  /\ (t_implies UNKNOWN FALSE = FALSE <-> UNKNOWN = TRUE /\ FALSE = FALSE).
Proof.
  destruct (trinary_implication_order UNKNOWN FALSE) as (H1 & H2 & H3 & H4).
  split; [exact H1|]. split; [exact H2|]. split; [exact H3|].
  apply H4.
  - right. left. reflexivity.
  - left. reflexivity.
Defined.

(** X22. [t_equiv a b] is [TRUE] exactly when [a = b], and [t_xor a b]
    is [FALSE] exactly then; both are symmetric; on truth values
    [t_equiv a b = 1 - |a - b|], so two [UNKNOWN]s are equivalent and
    [UNKNOWN] is [UNKNOWN]-equivalent to [TRUE] and to [FALSE]. *)
Theorem trinary_equivalence (a b : Z) :
  (t_equiv a b = TRUE <-> a = b)
  /\ (t_xor a b = FALSE <-> a = b)
  /\ t_equiv a b = t_equiv b a /\ t_xor a b = t_xor b a
  /\ (truth_value a -> truth_value b -> t_equiv a b = 1 - Z.abs (a - b)).
Proof.
  split; [apply t_equiv_true|]. split; [|split; [|split]].
  - unfold t_xor, t_not, t_equiv, t_and, t_implies, FALSE, TRUE. cbv zeta. lia.
  - unfold t_equiv, t_and. lia.
  - unfold t_xor, t_equiv, t_and. f_equal. lia.
  - intros Ha Hb. apply truth_value_cases in Ha. apply truth_value_cases in Hb.
    unfold t_equiv, t_and, t_implies, FALSE, TRUE. cbv zeta. lia.
Qed.

Lemma trinary_equivalence_witness :
  (t_equiv UNKNOWN UNKNOWN = TRUE <-> UNKNOWN = UNKNOWN)
  /\ (t_xor UNKNOWN UNKNOWN = FALSE <-> UNKNOWN = UNKNOWN)
  /\ t_equiv UNKNOWN UNKNOWN = t_equiv UNKNOWN UNKNOWN
  /\ t_xor UNKNOWN UNKNOWN = t_xor UNKNOWN UNKNOWN
  /\ t_equiv UNKNOWN UNKNOWN = 1 - Z.abs (UNKNOWN - UNKNOWN).
Proof.
  destruct (trinary_equivalence UNKNOWN UNKNOWN) as (H1 & H2 & H3 & H4 & H5).
  split; [exact H1|]. split; [exact H2|]. split; [exact H3|].
  split; [exact H4|]. apply H5; right; left; reflexivity.
Defined.

End TrinaryLaws.

Section TrinaryReasonerLaws.
Import Trinary Trinary.Proposition Trinary.Reasoner.
Local Open Scope Z_scope.

(** X23. What is asserted is what a query returns: after
    [assert_true(s, c, ev)] the reasoner answers [query(s)] with the
    proposition the call returned, whose truth is [TRUE] and whose
    confidence is exactly [c] (also when a contradiction was recorded: the
    penalty [contradict] applies is overwritten); every other statement is
    answered as before.  The same holds for [assert_false] with
    [FALSE]. *)
Theorem reasoner_assert_then_query {F : FloatOps}
    (self : TrinaryReasoner F) (s : string) (c : float F) (ev : string) :
  (let r := Reasoner.assert_true s c ev self in
   query s (fst r) = snd r
   /\ truth (snd r) = TRUE /\ confidence (snd r) = c
   /\ statement (snd r) = statement (query s self)
   /\ forall s', s' <> s -> query s' (fst r) = query s' self)
  /\ (let r := Reasoner.assert_false s c ev self in
      query s (fst r) = snd r
      /\ truth (snd r) = FALSE /\ confidence (snd r) = c
      /\ statement (snd r) = statement (query s self)
      /\ forall s', s' <> s -> query s' (fst r) = query s' self).
Proof.
  split; cbv zeta.
  - destruct (assert_true_spec s c ev self) as [Hp Hq]. cbv zeta in Hp, Hq.
    split; [rewrite Hq, String.eqb_refl; symmetry; exact Hp|].
    rewrite Hp. cbn [Proposition.assert_true truth confidence statement].
    split; [reflexivity|]. split; [reflexivity|]. split.
    + destruct (truth (query s self) =? FALSE); reflexivity.
    + intros s' Hne. rewrite Hq.
      destruct (String.eqb_spec s s') as [E|_]; [congruence|reflexivity].
  - destruct (assert_false_spec s c ev self) as [Hp Hq]. cbv zeta in Hp, Hq.
    split; [rewrite Hq, String.eqb_refl; symmetry; exact Hp|].
    rewrite Hp. cbn [Proposition.assert_false truth confidence statement].
    split; [reflexivity|]. split; [reflexivity|]. split.
    + destruct (truth (query s self) =? TRUE); reflexivity.
    + intros s' Hne. rewrite Hq.
      destruct (String.eqb_spec s s') as [E|_]; [congruence|reflexivity].
Qed.

(** X24. Contradictions are recorded, never resolved: [assert_true] on
    a statement that is currently [FALSE] appends one message to its
    contradictions, and on any other statement leaves them as they are;
    [assert_false] does the same for a statement that is currently [TRUE].
    The evidence grows by the evidence given, when that is not the empty
    string. *)
Theorem reasoner_records_contradiction {F : FloatOps}
    (self : TrinaryReasoner F) (s : string) (c : float F) (ev : string) :
  let old := query s self in
  Proposition.contradictions (snd (Reasoner.assert_true s c ev self))
  = (Proposition.contradictions old
     ++ if truth old =? FALSE
        then [("Previously FALSE, now asserted TRUE (conf="
               ++ fstr F c ++ ")")%string]
        else [])%list
  /\ Proposition.contradictions (snd (Reasoner.assert_false s c ev self))
     = (Proposition.contradictions old
        ++ if truth old =? TRUE
           then [("Previously TRUE, now asserted FALSE (conf="
                  ++ fstr F c ++ ")")%string]
           else [])%list
  /\ evidence (snd (Reasoner.assert_true s c ev self))
     = (evidence old ++ if String.eqb ev "" then [] else [ev])%list
  /\ evidence (snd (Reasoner.assert_false s c ev self))
     = (evidence old ++ if String.eqb ev "" then [] else [ev])%list.
Proof.
  cbv zeta.
  destruct (assert_true_spec s c ev self) as [Ht _].
  destruct (assert_false_spec s c ev self) as [Hf _].
  cbv zeta in Ht, Hf. rewrite Ht, Hf.
  cbn [Proposition.assert_true Proposition.assert_false
       Proposition.contradictions evidence].
  assert (Hev : forall l, add_evidence ev l
                          = (l ++ if String.eqb ev "" then [] else [ev])%list).
  { intros l. destruct ev as [|a ev']; cbn; [rewrite app_nil_r|]; reflexivity. }
  repeat split.
  - destruct (truth (query s self) =? FALSE);
      cbn [contradict Proposition.contradictions];
      [reflexivity|rewrite app_nil_r; reflexivity].
  - destruct (truth (query s self) =? TRUE);
      cbn [contradict Proposition.contradictions];
      [reflexivity|rewrite app_nil_r; reflexivity].
  - rewrite Hev. destruct (truth (query s self) =? FALSE); reflexivity.
  - rewrite Hev. destruct (truth (query s self) =? TRUE); reflexivity.
Qed.


(** X26. [summary()] of a reasoner whose propositions all carry one of
    the three truth values returns the five counters, with
    [true + unknown + false = total] and [contradictions <= total]; a
    proposition with any other truth value makes it raise [KeyError]; and
    on a reasoner built from a fresh one by [assert_true], [assert_false]
    and [quarantine_contradicted] it never raises. *)
Theorem reasoner_summary_counts {F : FloatOps} (self : TrinaryReasoner F) :
  let valid := Forall (fun p : TrinaryProposition F => truth_value (truth p))
                      (values self) in
  (valid ->
   exists t u f k,
     summary self
     = Ok [("total"%string, Z.of_nat (length self)); ("true"%string, t);
           ("unknown"%string, u); ("false"%string, f);
           ("contradictions"%string, k)]
     /\ t = Z.of_nat (length (filter (fun p => truth p =? TRUE) (values self)))
     /\ u = Z.of_nat (length (filter (fun p => truth p =? UNKNOWN) (values self)))
     /\ f = Z.of_nat (length (filter (fun p => truth p =? FALSE) (values self)))
     /\ k = Z.of_nat (length (Reasoner.contradictions self))
     /\ t + u + f = Z.of_nat (length self)
     /\ 0 <= k <= Z.of_nat (length self))
  /\ (~ valid -> summary self = Raise KeyError)
  /\ (forall calls : list (reasoner_call F),
        exists d, summary (reasoner_after calls) = Ok d).
Proof.
  cbv zeta. split; [|split].
  - intros Hv. unfold summary. rewrite (count_truths_ok _ 0 0 0 Hv).
    do 4 eexists. split; [reflexivity|].
    repeat split; try reflexivity.
    + rewrite !Z.add_0_l. rewrite (truth_partition _ Hv).
      unfold values. rewrite length_map. reflexivity.
    + lia.
    + apply inj_le. unfold Reasoner.contradictions.
      etransitivity; [apply filter_length_le|].
      unfold values. rewrite length_map. lia.
  - intros Hv. unfold summary. rewrite (count_truths_bad _ _ Hv). reflexivity.
  - intros calls. destruct (store_ok_after calls) as [_ Hall].
    assert (Hv : Forall (fun p : TrinaryProposition F => truth_value (truth p))
                        (values (reasoner_after calls))).
    { unfold values. apply Forall_map. eapply Forall_impl; [|exact Hall].
      intros kp [_ Ht]. exact Ht. }
    unfold summary. rewrite (count_truths_ok _ 0 0 0 Hv).
    eexists. reflexivity.
Qed.

(** X27. [evaluate] raises [ValueError] for every operator other than
    ["NOT"], ["AND"], ["OR"] and ["IMPLIES"]; a statement the reasoner
    does not know counts as [UNKNOWN]; ["NOT"] ignores the second
    statement; a missing second statement is read as the empty statement;
    ["AND"] and ["OR"] do not depend on the order of the two statements;
    and on a reasoner built through its methods the value returned is one
    of the three truth values. *)
Theorem reasoner_evaluate {F : FloatOps} (self : TrinaryReasoner F)
    (a op : string) (b : option string) :
  (op <> "NOT"%string -> op <> "AND"%string -> op <> "OR"%string ->
   op <> "IMPLIES"%string -> evaluate a op b self = Raise ValueError)
  /\ (dict_get self a = None -> evaluate a "NOT" b self = Ok UNKNOWN)
  /\ evaluate a "NOT" b self = Ok (- truth (query a self))
  /\ evaluate a op None self = evaluate a op (Some ""%string) self
  /\ (forall b', evaluate a "AND" (Some b') self
                 = evaluate b' "AND" (Some a) self
                 /\ evaluate a "OR" (Some b') self
                    = evaluate b' "OR" (Some a) self)
  /\ (forall (calls : list (reasoner_call F)) v,
        evaluate a op b (reasoner_after calls) = Ok v -> truth_value v).
Proof.
  split; [|split; [|split; [|split; [|split]]]].
  - intros H1 H2 H3 H4. unfold evaluate. cbv zeta.
    apply String.eqb_neq in H1, H2, H3, H4. rewrite H1, H2, H3, H4.
    reflexivity.
  - intros Hget. unfold evaluate, query. rewrite Hget. reflexivity.
  - reflexivity.
  - reflexivity.
  - intros b'. unfold evaluate, or_empty. cbv zeta. cbn [String.eqb Ascii.eqb].
    unfold t_and, t_or. split; [rewrite Z.min_comm|rewrite Z.max_comm]; reflexivity.
  - intros calls v. unfold evaluate. cbv zeta.
    pose proof (store_ok_after calls) as Hok.
    destruct (store_ok_query (reasoner_after calls) a Hok) as [_ Ha].
    destruct (store_ok_query (reasoner_after calls) (or_empty b) Hok) as [_ Hb].
    destruct (trinary_connectives_closed_aux _ _ Ha Hb) as (Hn & Hand & Hor & Himp).
    destruct (String.eqb op "NOT"); [intros E; injection E as <-; exact Hn|].
    destruct (String.eqb op "AND"); [intros E; injection E as <-; exact Hand|].
    destruct (String.eqb op "OR"); [intros E; injection E as <-; exact Hor|].
    destruct (String.eqb op "IMPLIES"); [intros E; injection E as <-; exact Himp|].
    discriminate.
Qed.

End TrinaryReasonerLaws.

Section TrinaryExamples.
Import Trinary Trinary.Proposition Trinary.Reasoner.
Local Open Scope Z_scope.

Lemma reasoner_assert_then_query_witness :
  (let r := Reasoner.assert_true "rain" (10 : float tenths) "" sky in
   query "rain" (fst r) = snd r
   /\ truth (snd r) = TRUE /\ confidence (snd r) = 10
   /\ statement (snd r) = statement (query "rain" sky)
   /\ forall s', s' <> "rain"%string -> query s' (fst r) = query s' sky)
  /\ (let r := Reasoner.assert_false "rain" (10 : float tenths) "" sky in
      query "rain" (fst r) = snd r
      /\ truth (snd r) = FALSE /\ confidence (snd r) = 10
      /\ statement (snd r) = statement (query "rain" sky)
      /\ forall s', s' <> "rain"%string -> query s' (fst r) = query s' sky).
Proof. exact (reasoner_assert_then_query sky "rain" 10 ""). Defined.

Lemma sky_valid :
  Forall (fun p : TrinaryProposition tenths => truth_value (truth p))
         (values sky).
Proof.
  repeat constructor; cbn; unfold truth_value, FALSE, UNKNOWN, TRUE; lia.
Qed.

Lemma reasoner_summary_counts_witness :
  exists t u f k,
    summary sky
    = Ok [("total"%string, Z.of_nat (length sky)); ("true"%string, t);
          ("unknown"%string, u); ("false"%string, f);
          ("contradictions"%string, k)]
    /\ t = Z.of_nat (length (filter (fun p => truth p =? TRUE) (values sky)))
    /\ u = Z.of_nat (length (filter (fun p => truth p =? UNKNOWN) (values sky)))
    /\ f = Z.of_nat (length (filter (fun p => truth p =? FALSE) (values sky)))
    /\ k = Z.of_nat (length (Reasoner.contradictions sky))
    /\ t + u + f = Z.of_nat (length sky)
    /\ 0 <= k <= Z.of_nat (length sky).
Proof.
  destruct (reasoner_summary_counts sky) as (H & _). exact (H sky_valid).
Defined.

Lemma reasoner_evaluate_witness :
  evaluate "rain" "XOR" (Some "wind"%string) sky = Raise ValueError
  /\ evaluate "snow" "NOT" None sky = Ok UNKNOWN
  /\ (forall v,
        evaluate "rain" "IMPLIES" (Some "wind"%string)
          (reasoner_after [AssertTrue "rain" (10 : float tenths) ""]) = Ok v ->
        truth_value v).
Proof.
  split; [|split].
  - destruct (reasoner_evaluate sky "rain" "XOR" (Some "wind"%string))
      as (H & _).
    apply H; discriminate.
  - destruct (reasoner_evaluate sky "snow" "NOT" None) as (_ & H & _).
    apply H. reflexivity.
  - destruct (reasoner_evaluate sky "rain" "IMPLIES" (Some "wind"%string))
      as (_ & _ & _ & _ & _ & H).
    intros v. apply (H [AssertTrue "rain" (10 : float tenths) ""]).
Defined.

End TrinaryExamples.

(* ================================================================== *)
(** * Properties of the emergence model                            *)
(* ================================================================== *)

Section EmergenceLaws.
Import Emergence.
Context {F : FloatOps}.



End EmergenceLaws.

Section EmergenceTheorems.
Import Emergence.



Lemma increasing_spec {F : FloatOps} (l : list (float F)) :
  increasing l = true
  <-> forall i, i + 1 < length l ->
        flt F (nth i l (f0_0 F)) (nth (i + 1) l (f0_0 F)) = true.
Proof.
  induction l as [|x [|y l] IH].
  - split; [intros _ i Hi; cbn in Hi; lia|reflexivity].
  - split; [intros _ i Hi; cbn in Hi; lia|reflexivity].
  - change (increasing (x :: y :: l)) with (flt F x y && increasing (y :: l)).
    rewrite andb_true_iff, IH. split.
    + intros [Hxy Hrest] [|i] Hi; [exact Hxy|].
      apply (Hrest i). cbn [length] in *. lia.
    + intros H. split; [apply (H 0); cbn; lia|].
      intros i Hi. apply (H (S i)). cbn [length] in *. lia.
Qed.

(** X29. [is_diverging(window)] looks at the last [window] values of the
    trajectory and says whether there are at least two of them, each
    smaller than the next.  It is [False] on fewer than two values and for
    [window = 1].  With [window = 0] the slice [[-0:]] is the whole
    trajectory, not the empty list; a negative [window] drops the first
    [-window] values instead. *)
Theorem is_diverging_window {F : FloatOps} (window : Z)
    (self : ContradictionAmplifier F) :
  let tr := trajectory self in
  let strictly l :=
    forall i, i + 1 < length l ->
      flt F (nth i l (f0_0 F)) (nth (i + 1) l (f0_0 F)) = true in
  ((0 < window)%Z ->
     (is_diverging window self = true
      <-> 2 <= length (last_n (Z.to_nat window) tr)
          /\ strictly (last_n (Z.to_nat window) tr)))
  /\ (window = 0%Z ->
        (is_diverging window self = true <-> 2 <= length tr /\ strictly tr))
  /\ ((window < 0)%Z ->
        (is_diverging window self = true
         <-> 2 <= length (skipn (Z.to_nat (- window)) tr)
             /\ strictly (skipn (Z.to_nat (- window)) tr)))
  /\ (length tr < 2 -> is_diverging window self = false)
  /\ is_diverging 1 self = false.
Proof.
  intros tr strictly.
  assert (Hgen : forall w,
            is_diverging w self = true
            <-> 2 <= length (slice_from (- w) tr)
                /\ strictly (slice_from (- w) tr)).
  { intros w. unfold is_diverging. cbv zeta. fold tr.
    rewrite andb_true_iff, Nat.leb_le, increasing_spec. reflexivity. }
  assert (Hlen : forall w, length (slice_from (- w) tr) <= length tr).
  { intros w. unfold slice_from. cbv zeta. rewrite length_skipn. lia. }
  split; [|split; [|split; [|split]]].
  - intros Hw. rewrite Hgen.
    replace (slice_from (- window) tr) with (last_n (Z.to_nat window) tr);
      [reflexivity|].
    unfold slice_from, last_n. cbv zeta.
    replace (- window <? 0)%Z with true by (symmetry; apply Z.ltb_lt; lia).
    f_equal. lia.
  - intros ->. rewrite Hgen.
    replace (slice_from (- 0) tr) with tr; [reflexivity|].
    unfold slice_from. cbv zeta. cbn [Z.opp Z.ltb Z.compare].
    rewrite Z.min_l by lia. reflexivity.
  - intros Hw. rewrite Hgen.
    replace (slice_from (- window) tr) with (skipn (Z.to_nat (- window)) tr);
      [reflexivity|].
    unfold slice_from. cbv zeta.
    replace (- window <? 0)%Z with false by (symmetry; apply Z.ltb_ge; lia).
    destruct (Z.le_ge_cases (- window) (Z.of_nat (length tr))) as [Hle|Hge].
    + rewrite Z.min_l by lia. reflexivity.
    + rewrite Z.min_r by lia. rewrite Nat2Z.id.
      rewrite !skipn_all2 by lia. reflexivity.
  - intros Hshort. apply not_true_is_false. rewrite Hgen.
    specialize (Hlen window). lia.
  - apply not_true_is_false. rewrite Hgen. intros [H2 _].
    unfold slice_from in H2. cbv zeta in H2. rewrite length_skipn in H2.
    cbn [Z.opp Z.ltb Z.compare] in H2. lia.
Qed.

Lemma is_diverging_window_witness :
  let self := mk_ContradictionAmplifier (F := int_floats) 1%Z
                [(1, 0, 1); (2, 0, 2); (3, 0, 3)]%Z in
  (is_diverging 2 self = true
   <-> 2 <= length (last_n (Z.to_nat 2) (trajectory self))
       /\ forall i, i + 1 < length (last_n (Z.to_nat 2) (trajectory self)) ->
            flt int_floats (nth i (last_n (Z.to_nat 2) (trajectory self)) 0%Z)
                (nth (i + 1) (last_n (Z.to_nat 2) (trajectory self)) 0%Z)
            = true)
  /\ (is_diverging 0 self = true
      <-> 2 <= length (trajectory self)
          /\ forall i, i + 1 < length (trajectory self) ->
               flt int_floats (nth i (trajectory self) 0%Z)
                   (nth (i + 1) (trajectory self) 0%Z)
               = true)
  /\ is_diverging 1 self = false.
Proof.
  cbv zeta.
  destruct (is_diverging_window (F := int_floats) 2
              (mk_ContradictionAmplifier (F := int_floats) 1%Z
                 [(1, 0, 1); (2, 0, 2); (3, 0, 3)]%Z))
    as (H1 & _ & _ & _ & H5).
  destruct (is_diverging_window (F := int_floats) 0
              (mk_ContradictionAmplifier (F := int_floats) 1%Z
                 [(1, 0, 1); (2, 0, 2); (3, 0, 3)]%Z))
    as (_ & H2 & _).
  split; [apply H1; lia|]. split; [apply H2; reflexivity|exact H5].
Defined.

(** X30. [step] only appends to the history: it raises exactly when
    [K()] overflows and otherwise appends the value of [K()] before the
    update, adds 1 to [t] and keeps [lam]; so along any sequence of steps
    the earlier history is a prefix of the later one and the baseline
    [history[0]] never changes once set.  [is_emergent] on an empty
    history returns [False] without computing [K()]. *)
Theorem emergence_history_only_grows {F : FloatOps}
    (self : EmergenceState F) :
  (forall new_C new_delta,
     match K self with
     | Value k =>
         step new_C new_delta self
         = Value (mk_EmergenceState (fadd F (t self) (of_int F 1))
                    new_C new_delta (lam self) (history self ++ [k]))
     | OverflowError => step new_C new_delta self = OverflowError
     end)
  /\ (forall self', stepped self self' ->
        lam self' = lam self
        /\ exists ks, history self' = history self ++ ks)
  /\ (forall self' h0, stepped self self' ->
        hd_error (history self) = Some h0 ->
        hd_error (history self') = Some h0)
  /\ (forall threshold, history self = [] ->
        is_emergent threshold self = Value false).
Proof.
  assert (Hgrow : forall self', stepped self self' ->
            lam self' = lam self
            /\ exists ks, history self' = history self ++ ks).
  { intros self' H. induction H as [s|s s1 s2 c d _ IH Hs].
    - split; [reflexivity|]. exists []. now rewrite app_nil_r.
    - destruct IH as (Hl & ks & Hh). unfold step in Hs.
      destruct (K s1) as [k|]; [|discriminate].
      injection Hs as <-. cbn [lam history]. split; [exact Hl|].
      exists (ks ++ [k]). rewrite Hh, app_assoc. reflexivity. }
  split; [|split; [exact Hgrow|split]].
  - intros c d. unfold step. destruct (K self); reflexivity.
  - intros self' h0 Hst Hh. destruct (Hgrow self' Hst) as (_ & ks & ->).
    destruct (history self); [discriminate|exact Hh].
  - intros threshold Hh. unfold is_emergent. rewrite Hh. reflexivity.
Qed.

Lemma emergence_history_only_grows_witness :
  let self := mk_EmergenceState (F := int_floats) 0%Z 1%Z 1%Z 1%Z [] in
  (forall self', stepped self self' ->
     lam self' = lam self /\ exists ks, history self' = history self ++ ks)
  /\ is_emergent (F := int_floats) 2%Z self = Value false.
Proof.
  cbv zeta.
  destruct (emergence_history_only_grows
              (mk_EmergenceState (F := int_floats) 0%Z 1%Z 1%Z 1%Z []))
    as (_ & H2 & _ & H4).
  split; [exact H2|]. apply H4. reflexivity.
Defined.

End EmergenceTheorems.
